(** * Wildcard pattern matching with an Aho-Corasick machine

    Shallow embedding of the two programs of the repository,

      - [17.cpp]: the pointer-based machine (module [Ptr]), and
      - [17_double_array_trie.cpp]: the machine with dense link vectors that
        [main] flattens into two arrays (module [Flat]),

    followed by the proofs of their properties.

    Modelling conventions.
      - A symbol ([char], [unsigned char], the [int] returned by [getchar]) is
        the value of its byte, a [Z] in [0, 256).  The programs only compare
        symbols with each other and with ['?'], and index vectors with them.
      - [short] values are [Z] with the wrap-around of the conversion written
        out ([to_short]).  [int] values are [Z].  Signed overflow is undefined
        in C++; the only [int]s that grow with the text are the counters of
        the symbols read ([counter], [window_start], [pos]), and they stay
        below [2^31] while the text has at most [INT_MAX] symbols: the
        theorems about runs are stated for such texts.
      - A [Node*] is an address, a [nat]; address [0] is [nullptr]; the heap
        is the list of the allocated objects, [new Node] appends to it.  In
        [17_double_array_trie.cpp] the vector [nodes] is that list: [nodes[0]]
        is [nullptr] and [nodes[k]] is the [k]-th allocated node.
      - A null dereference, an access outside a vector and an exception that
        nobody catches end the run: the functions return [None].  Loops that
        follow pointers are given the number of heap cells as fuel.
      - [std::unordered_map] and [std::unordered_set] are [gmap] and [gset];
        the iteration order of the program is that of [map_to_list] and
        [elements]. *)

From stdpp Require Import base numbers option list gmap sets sorting.

Local Open Scope Z_scope.

(** ** Integers and symbols *)

Definition to_short (z : Z) : Z := (z + 32768) `mod` 65536 - 32768.

(** The largest [int]. *)
Definition INT_MAX : Z := 2147483647.

(** The conversion of a [short] to [size_t] in a comparison with [size()]. *)
Definition to_size_t (z : Z) : Z := z `mod` 2 ^ 64.

Definition WILDCARD : Z := 63.

Definition ALPHABET_SIZE : Z := 256.

Definition is_byte (c : Z) : Prop := 0 ≤ c < 256.

(** ** Code shared by the two files *)

Abbreviation ptr := nat.

Definition nullptr : ptr := 0%nat.

(** [struct Node], with the type of its [links] left open: a map from symbols
    to nodes in [17.cpp], a vector of node ids in the other file. *)
Record Node (L : Type) := mkNode {
  links : L;
  terminal : bool;
  output : gset Z;
  link_fail : ptr
}.
Arguments mkNode {L} _ _ _ _.
Arguments links {L} _.
Arguments terminal {L} _.
Arguments output {L} _.
Arguments link_fail {L} _.

Definition set_links {L} (l : L) (n : Node L) : Node L :=
  mkNode l (terminal n) (output n) (link_fail n).
Definition set_terminal {L} (b : bool) (n : Node L) : Node L :=
  mkNode (links n) b (output n) (link_fail n).
Definition set_output {L} (o : gset Z) (n : Node L) : Node L :=
  mkNode (links n) (terminal n) o (link_fail n).
Definition set_link_fail {L} (p : ptr) (n : Node L) : Node L :=
  mkNode (links n) (terminal n) (output n) p.

(** The fields of [class PatternMatchingMachine] (and of [Trie]). *)
Record Machine (L : Type) := mkMachine {
  nodes : list (option (Node L));
  root : ptr;
  pattern : list Z;
  pattern_size : Z;
  state_ : ptr;
  counter : Z;
  window : list Z;
  window_start : Z;
  words : list (list Z * Z)
}.
Arguments mkMachine {L} _ _ _ _ _ _ _ _ _.
Arguments nodes {L} _.
Arguments root {L} _.
Arguments pattern {L} _.
Arguments pattern_size {L} _.
Arguments state_ {L} _.
Arguments counter {L} _.
Arguments window {L} _.
Arguments window_start {L} _.
Arguments words {L} _.

Fixpoint foldM {A B} (f : B → A → option B) (b : B) (l : list A) : option B :=
  match l with
  | [] => Some b
  | x :: l => b' ← f b x; foldM f b' l
  end.

(** [split_to_words]: the loop over the pattern, then the trailing word.
    [pos] is an [int]; [make_pair(word, pos)] is stored with a [short]. *)
Fixpoint split_loop (pat word : list Z) (pos : Z) (ws : list (list Z * Z))
  : list (list Z * Z) :=
  match pat with
  | [] =>
      match word with
      | [] => ws
      | _ => ws ++ [(word, to_short pos)]
      end
  | c :: pat =>
      if decide (c = WILDCARD) then
        match word with
        | [] => split_loop pat word (pos + 1) ws
        | _ => split_loop pat [] (pos + 1) (ws ++ [(word, to_short pos)])
        end
      else split_loop pat (word ++ [c]) (pos + 1) ws
  end.

Definition split_to_words (pat : list Z) : list (list Z * Z) :=
  split_loop pat [] (-1) [].

(** One iteration of the loop of [match]: [window->at(pos_relative)++]. *)
Definition bump (pos wstart : Z) (win : list Z) (word_pos : Z) : option (list Z) :=
  let pos_relative := pos - word_pos - 1 - wstart in
  if decide (pos_relative < 0) then Some win
  else
    x ← win !! Z.to_nat pos_relative;
    Some (<[Z.to_nat pos_relative := to_short (x + 1)]> win).

Section Shared.
Context {L : Type}.

Definition deref (h : list (option (Node L))) (p : ptr) : option (Node L) :=
  h !! p ≫= id.

(** [p->field = ...] *)
Definition modify (p : ptr) (f : Node L → Node L) (h : list (option (Node L)))
  : list (option (Node L)) :=
  alter (fmap f) p h.

(** [failure] *)
Definition failure (h : list (option (Node L))) (state : ptr) : option ptr :=
  link_fail <$> deref h state.

(** [match] *)
Definition match_ (h : list (option (Node L))) (pos wstart : Z) (win : list Z)
    (state : ptr) : option (list Z) :=
  n ← deref h state;
  if terminal n then foldM (bump pos wstart) win (elements (output n))
  else Some win.

(** The function [goto_] of the file, applied to the heap, the root, a state
    and a symbol; [Some nullptr] is its answer "no transition". *)
Variable goto_ : list (option (Node L)) → ptr → ptr → Z → option ptr.

(** [while (goto_(state, c) == nullptr) state = state->link_fail;] followed
    by [goto_(state, c)].  The result is the list of the states left behind
    (the [path] of [process]), the state the loop stopped in, and its
    successor. *)
Fixpoint walk (fuel : nat) (h : list (option (Node L))) (rt state : ptr) (c : Z)
    (path : list ptr) : option (list ptr * ptr * ptr) :=
  match fuel with
  | O => None
  | S fuel =>
      nxt ← goto_ h rt state c;
      if decide (nxt = nullptr) then
        f ← failure h state;
        walk fuel h rt f c (path ++ [state])
      else Some (path, state, nxt)
  end.

(** The body of the inner loop of [build_failure], for the child
    [node_next] of [node] on the symbol [c]. *)
Definition bf_visit (rt node : ptr) (hq : list (option (Node L)) * list ptr)
    (e : Z * ptr) : option (list (option (Node L)) * list ptr) :=
  let '(h, q) := hq in
  let '(c, node_next) := e in
  state ← failure h node;
  '(_, _, f) ← walk (length h) h rt state c [];
  let h := modify node_next (set_link_fail f) h in
  fo ← output <$> deref h f;
  let h := modify node_next (λ n, set_output (output n ∪ fo) n) h in
  nn ← deref h node_next;
  let h := if decide (output nn = ∅) then h
           else modify node_next (set_terminal true) h in
  Some (h, q ++ [node_next]).

(** The part of [process] after the new state is known: [match], the test
    of the oldest slot and the shift of the window.  [same w0 n] is the
    comparison of [window->at(0)] with [words.size()] as the file writes it. *)
Definition slide (same : Z → Z → bool) (M : Machine L)
    (h : list (option (Node L))) (cnt : Z) (st : ptr)
  : option (Machine L * list Z) :=
  win ← match_ h cnt (window_start M) (window M) st;
  if decide (cnt < pattern_size M) then
    Some (mkMachine h (root M) (pattern M) (pattern_size M) st cnt win
            (window_start M) (words M), [])
  else
    w0 ← win !! 0%nat;
    Some (mkMachine h (root M) (pattern M) (pattern_size M) st cnt
            (drop 1 win ++ [0]) (window_start M + 1) (words M),
          if same w0 (Z.of_nat (length (words M)))
          then [cnt - pattern_size M] else []).

(** The first branch of [process]: the pattern has no word. *)
Definition process_no_words (M : Machine L) (cnt : Z) : Machine L * list Z :=
  let M1 := mkMachine (nodes M) (root M) (pattern M) (pattern_size M)
              (state_ M) cnt (window M) (window_start M) (words M) in
  if decide (cnt < pattern_size M) then (M1, [])
  else if decide (pattern_size M ≠ 0) then (M1, [cnt - pattern_size M])
  else (M1, [cnt - 1]).

(** Feeding a text to [process], one symbol at a time; the offsets printed. *)
Fixpoint feed (process : Machine L → Z → option (Machine L * list Z))
    (M : Machine L) (text : list Z) : option (Machine L * list Z) :=
  match text with
  | [] => Some (M, [])
  | c :: text =>
      '(M1, o1) ← process M c;
      '(M2, o2) ← feed process M1 text;
      Some (M2, o1 ++ o2)
  end.
End Shared.

(** Reading standard input: the bytes before the first one that is not
    above 32, and what follows them. *)
Fixpoint read_token (input : list Z) : list Z * list Z :=
  match input with
  | [] => ([], [])
  | c :: rest =>
      if decide (32 < c) then
        let '(tok, rest') := read_token rest in (c :: tok, rest')
      else ([], input)
  end.

Fixpoint skip_blanks (input : list Z) : list Z :=
  match input with
  | [] => []
  | c :: rest => if decide (c ≤ 32) then skip_blanks rest else input
  end.

(** ** [17.cpp] *)
Module Ptr.

Definition new_node : Node (gmap Z ptr) := mkNode ∅ false ∅ nullptr.

(** [Trie()]: the root is the first object of the heap. *)
Definition trie_init : list (option (Node (gmap Z ptr))) := [None; Some new_node].
Definition trie_root : ptr := 1%nat.

Definition set_link (c : Z) (p : ptr) (n : Node (gmap Z ptr)) : Node (gmap Z ptr) :=
  set_links (<[c := p]> (links n)) n.

Fixpoint add_word_loop (h : list (option (Node (gmap Z ptr)))) (node : ptr)
    (word : list Z) : option (list (option (Node (gmap Z ptr))) * ptr) :=
  match word with
  | [] => Some (h, node)
  | c :: word =>
      n ← deref h node;
      match links n !! c with
      | Some next_node => add_word_loop h next_node word
      | None =>
          let next_node := length h in
          add_word_loop (modify node (set_link c next_node) (h ++ [Some new_node]))
            next_node word
      end
  end.

Definition add_word (rt : ptr) (h : list (option (Node (gmap Z ptr))))
    (w : list Z * Z) : option (list (option (Node (gmap Z ptr)))) :=
  '(h, node) ← add_word_loop h rt w.1;
  Some (modify node (λ n, set_output ({[w.2]} ∪ output n) (set_terminal true n)) h).

Definition goto_ (h : list (option (Node (gmap Z ptr)))) (rt state : ptr) (c : Z)
  : option ptr :=
  n ← deref h state;
  match links n !! c with
  | Some node => Some node
  | None => if decide (state = rt) then Some rt else Some nullptr
  end.

(** The [while (!q.empty())] loop of [build_failure]. *)
Fixpoint bf_loop (fuel : nat) (rt : ptr) (h : list (option (Node (gmap Z ptr))))
    (q : list ptr) : option (list (option (Node (gmap Z ptr)))) :=
  match q with
  | [] => Some h
  | node :: q =>
      match fuel with
      | O => None
      | S fuel =>
          n ← deref h node;
          if decide (links n = ∅) then bf_loop fuel rt h q
          else
            '(h, q) ← foldM (bf_visit goto_ rt node) (h, q) (map_to_list (links n));
            bf_loop fuel rt h q
      end
  end.

Definition build_failure (rt : ptr) (h : list (option (Node (gmap Z ptr))))
  : option (list (option (Node (gmap Z ptr)))) :=
  r ← deref h rt;
  let cs := map_to_list (links r) in
  let h := foldl (λ h e, modify e.2 (set_link_fail rt) h) h cs in
  bf_loop (length h) rt h (cs.*2).

(** [build], on the trie of the constructor. *)
Definition build (pat : list Z)
  : option (list (option (Node (gmap Z ptr))) * list (list Z * Z)) :=
  let ws := split_to_words pat in
  h ← foldM (add_word trie_root) trie_init ws;
  h ← build_failure trie_root h;
  Some (h, ws).

(** The constructor of [PatternMatchingMachine]. *)
Definition make (pat : list Z) : option (Machine (gmap Z ptr)) :=
  '(h, ws) ← build pat;
  Some (mkMachine h trie_root pat (Z.of_nat (length pat)) trie_root 0
          (replicate (length pat) 0) 0 ws).

Definition same_size (w0 n : Z) : bool := bool_decide (to_size_t w0 = n).

Definition process (M : Machine (gmap Z ptr)) (c : Z)
  : option (Machine (gmap Z ptr) * list Z) :=
  let cnt := counter M + 1 in
  match words M with
  | [] => Some (process_no_words M cnt)
  | _ =>
      '(path, _, st) ← walk goto_ (length (nodes M)) (nodes M) (root M) (state_ M) c [];
      let h := foldl (λ h node, modify node (set_link c st) h) (nodes M) path in
      slide same_size M h cnt st
  end.

(** The offsets printed for a pattern and the symbols of a text. *)
Definition run (pat text : list Z) : option (list Z) :=
  M ← make pat;
  r ← feed process M text;
  Some r.2.

(** [main], from the bytes of standard input to the numbers printed. *)
Definition main (input : list Z) : option (list Z) :=
  let '(pat, rest) := read_token input in
  run pat (filter (λ c, 32 < c) (drop 1 rest)).

End Ptr.

(** ** [17_double_array_trie.cpp] *)
Module Flat.

(** The members [node_id] and [links] of [struct Node]. *)
Record Links := mkLinks { node_id : Z; vec : list Z }.

Definition MAX_SIZE : Z := 8192.

(** The conversion of a symbol to [unsigned char]. *)
Definition uchar (c : Z) : Z := c `mod` 256.

(** [Node(short node_id)] *)
Definition new_node (id : Z) : Node Links :=
  mkNode (mkLinks (to_short id) (replicate (Z.to_nat ALPHABET_SIZE) 0)) false ∅ nullptr.

Definition get_link (n : Node Links) (c : Z) : option Z :=
  vec (links n) !! Z.to_nat (uchar c).

Definition set_link (c : Z) (id : Z) (n : Node Links) : Node Links :=
  set_links (mkLinks (node_id (links n)) (<[Z.to_nat (uchar c) := id]> (vec (links n)))) n.

(** [nodes[id]] for a [short] id: the address stored there. *)
Definition node_at (h : list (option (Node Links))) (id : Z) : option ptr :=
  if decide (0 ≤ id < Z.of_nat (length h)) then Some (Z.to_nat id) else None.

Definition add_node (h : list (option (Node Links)))
  : list (option (Node Links)) * ptr :=
  (h ++ [Some (new_node (Z.of_nat (length h)))], length h).

(** [Trie()] *)
Definition trie_init : list (option (Node Links)) := (add_node [None]).1.
Definition trie_root : ptr := (add_node [None]).2.

Fixpoint add_word_loop (h : list (option (Node Links))) (node : ptr)
    (word : list Z) : option (list (option (Node Links)) * ptr) :=
  match word with
  | [] => Some (h, node)
  | c :: word =>
      n ← deref h node;
      id ← get_link n c;
      next_node ← node_at h id;
      if decide (next_node = nullptr) then
        let '(h, next_node) := add_node h in
        nn ← deref h next_node;
        add_word_loop (modify node (set_link c (node_id (links nn))) h) next_node word
      else add_word_loop h next_node word
  end.

Definition add_word (rt : ptr) (h : list (option (Node Links)))
    (w : list Z * Z) : option (list (option (Node Links))) :=
  '(h, node) ← add_word_loop h rt w.1;
  Some (modify node (λ n, set_output ({[w.2]} ∪ output n) (set_terminal true n)) h).

Definition goto_ (h : list (option (Node Links))) (rt state : ptr) (c : Z)
  : option ptr :=
  n ← deref h state;
  id ← get_link n c;
  node_at h id.

(** The entries of a link vector with their symbols, as the loops over
    [links.cbegin() .. links.cend()] see them. *)
Definition entries (n : Node Links) : list (Z * Z) :=
  imap (λ i id, (uchar (Z.of_nat i), id)) (vec (links n)).

(** The first loop of [build_failure], over the links of the root. *)
Definition bf_root (rt : ptr) (hq : list (option (Node Links)) * list ptr)
    (e : Z * Z) : option (list (option (Node Links)) * list ptr) :=
  let '(h, q) := hq in
  node ← node_at h e.2;
  if decide (node = nullptr) then
    r ← deref h rt;
    Some (modify rt (set_link e.1 (node_id (links r))) h, q)
  else Some (modify node (set_link_fail rt) h, q ++ [node]).

(** The body of the [for] loop inside the [while] loop of [build_failure]. *)
Definition bf_entry (rt node : ptr) (hq : list (option (Node Links)) * list ptr)
    (e : Z * Z) : option (list (option (Node Links)) * list ptr) :=
  node_next ← node_at hq.1 e.2;
  if decide (node_next = nullptr) then Some hq
  else bf_visit goto_ rt node hq (e.1, node_next).

Fixpoint bf_loop (fuel : nat) (rt : ptr) (h : list (option (Node Links)))
    (q : list ptr) : option (list (option (Node Links))) :=
  match q with
  | [] => Some h
  | node :: q =>
      match fuel with
      | O => None
      | S fuel =>
          n ← deref h node;
          '(h, q) ← foldM (bf_entry rt node) (h, q) (entries n);
          bf_loop fuel rt h q
      end
  end.

Definition build_failure (rt : ptr) (h : list (option (Node Links)))
  : option (list (option (Node Links))) :=
  r ← deref h rt;
  '(h, q) ← foldM (bf_root rt) (h, []) (entries r);
  bf_loop (length h) rt h q.

(** The first loop of [do_bfs]. *)
Definition bfs_root (rt : ptr) (h : list (option (Node Links))) (q : list ptr)
    (e : Z * Z) : option (list ptr) :=
  node ← node_at h e.2;
  if decide (node ≠ rt) then Some (q ++ [node]) else Some q.

(** The body of the [for] loop inside the [while] loop of [do_bfs]. *)
Definition bfs_entry (rt node : ptr) (hq : list (option (Node Links)) * list ptr)
    (e : Z * Z) : option (list (option (Node Links)) * list ptr) :=
  let '(h, q) := hq in
  node_next ← node_at h e.2;
  if decide (node_next = nullptr) then
    state ← failure h node;
    state ← goto_ h rt state e.1;
    s ← deref h state;
    Some (modify node (set_link e.1 (node_id (links s))) h, q)
  else Some (h, q ++ [node_next]).

Fixpoint bfs_loop (fuel : nat) (rt : ptr) (h : list (option (Node Links)))
    (q : list ptr) : option (list (option (Node Links))) :=
  match q with
  | [] => Some h
  | node :: q =>
      match fuel with
      | O => None
      | S fuel =>
          n ← deref h node;
          '(h, q) ← foldM (bfs_entry rt node) (h, q) (entries n);
          bfs_loop fuel rt h q
      end
  end.

Definition do_bfs (rt : ptr) (h : list (option (Node Links)))
  : option (list (option (Node Links))) :=
  r ← deref h rt;
  q ← foldM (bfs_root rt h) [] (entries r);
  bfs_loop (length h) rt h q.

Definition build (pat : list Z)
  : option (list (option (Node Links)) * list (list Z * Z)) :=
  let ws := split_to_words pat in
  h ← foldM (add_word trie_root) trie_init ws;
  h ← build_failure trie_root h;
  h ← do_bfs trie_root h;
  Some (h, ws).

(** The constructor of [PatternMatchingMachine]. *)
Definition make (pat : list Z) : option (Machine Links) :=
  '(h, ws) ← build pat;
  Some (mkMachine h trie_root pat (Z.of_nat (length pat)) trie_root 0
          (replicate (length pat) 0) 0 ws).

Definition same_size (w0 n : Z) : bool := bool_decide (w0 = to_short n).

(** The method [process] of the class ([main] does not call it). *)
Definition process (M : Machine Links) (c : Z) : option (Machine Links * list Z) :=
  let cnt := counter M + 1 in
  match words M with
  | [] => Some (process_no_words M cnt)
  | _ =>
      st ← goto_ (nodes M) (root M) (state_ M) c;
      slide same_size M (nodes M) cnt st
  end.

(** [make_flat]: the table of transitions and the table of outputs, each
    output list closed by a 0. *)
Definition flat_row (n : Node Links) : list Z :=
  (λ id, (id - 1) * ALPHABET_SIZE) <$> vec (links n).

Definition flat_out (n : Node Links) : list Z :=
  ((λ e, to_short (e + 1)) <$> elements (output n)) ++ [0].

Definition make_flat (M : Machine Links) : option (list Z * list (list Z)) :=
  ns ← mapM id (drop 1 (nodes M));
  Some (concat (flat_row <$> ns), flat_out <$> ns).

(** The loop [for (int j = 0; out[j] > 0; j++)] of [main]. *)
Fixpoint mark (pos : Z) (win : list Z) (out : list Z) : option (list Z) :=
  match out with
  | [] => None
  | o :: out =>
      if decide (0 < o) then
        let pos_next := pos - o in
        if decide (0 ≤ pos_next) then
          let i := Z.to_nat (Z.land pos_next (MAX_SIZE - 1)) in
          x ← win !! i;
          mark pos (<[i := to_short (x + 1)]> win) out
        else mark pos win out
      else Some win
  end.

(** The state of the loop of [main] over the text. *)
Record Scan := mkScan {
  s_window : list Z;
  s_state : Z;
  s_pos : Z
}.

(** One pass of the loop of [main] over the text, for the byte [c] that
    [getchar] has returned: a byte up to 32 is passed over; [pos++] is
    undefined when [pos] is [INT_MAX]. *)
Definition step (transitions : list Z) (outs : list (list Z))
    (psize wsize : Z) (s : Scan) (c : Z) : option (Scan * list Z) :=
  if decide (c ≤ 32) then Some (s, []) else
  if decide (s_state s + c < 0) then None else
  state ← transitions !! Z.to_nat (s_state s + c);
  if decide (s_pos s = INT_MAX) then None else
  let pos := s_pos s + 1 in
  if decide (state < 0) then None else
  out ← outs !! Z.to_nat (Z.shiftr state 8);
  win ← mark pos (s_window s) out;
  let prev_pos := pos - psize in
  if decide (0 ≤ prev_pos) then
    let i := Z.to_nat (Z.land prev_pos (MAX_SIZE - 1)) in
    w ← win !! i;
    Some (mkScan (<[i := 0]> win) state pos,
          if decide (w = wsize) then [prev_pos] else [])
  else Some (mkScan win state pos, []).

Fixpoint scan (transitions : list Z) (outs : list (list Z))
    (psize wsize : Z) (s : Scan) (text : list Z) : option (Scan * list Z) :=
  match text with
  | [] => Some (s, [])
  | c :: text =>
      '(s1, o1) ← step transitions outs psize wsize s c;
      '(s2, o2) ← scan transitions outs psize wsize s1 text;
      Some (s2, o1 ++ o2)
  end.

(** [main] once the pattern is read, on the bytes that follow it. *)
Definition run (pat text : list Z) : option (list Z) :=
  M ← make pat;
  '(transitions, outs) ← make_flat M;
  r ← scan transitions outs (Z.of_nat (length pat)) (Z.of_nat (length (words M)))
        (mkScan (replicate (Z.to_nat MAX_SIZE) 0) 0 0) text;
  Some r.2.

(** [main], from the bytes of standard input to the numbers printed. *)
Definition main (input : list Z) : option (list Z) :=
  let '(pat, rest) := read_token (skip_blanks input) in
  run pat rest.

End Flat.

(** ** The specification of the matcher *)

(** The pattern [p] occurs in [t] at the alignment [i]: every symbol of [p]
    other than the wildcard is the symbol of [t] at its place. *)
Definition occurs_at (p t : list Z) (i : nat) : Prop :=
  ∀ j c, p !! j = Some c → c ≠ WILDCARD → t !! (i + j)%nat = Some c.

(** The same, as a test over the symbols of the pattern with their places. *)
Definition occurs_at_list (p t : list Z) (i : nat) : Prop :=
  Forall (λ jc, jc.2 ≠ WILDCARD → t !! (i + jc.1)%nat = Some jc.2)
    (imap (λ j c, (j, c)) p).

Lemma occurs_at_list_iff p t i : occurs_at_list p t i ↔ occurs_at p t i.
Proof.
  unfold occurs_at_list, occurs_at. rewrite Forall_lookup. split.
  - intros H j c Hj. apply (H j (j, c)). by rewrite list_lookup_imap, Hj.
  - intros H j [j' c]. rewrite list_lookup_imap. intros Hj.
    destruct (p !! j) as [c'|] eqn:E; simplify_eq/=. by apply H.
Qed.

Global Instance occurs_at_dec p t i : Decision (occurs_at p t i).
Proof.
  refine (cast_if (decide (occurs_at_list p t i))); by rewrite <- occurs_at_list_iff.
Defined.

(** The alignments [0 .. n - m] at which the pattern occurs, in increasing
    order. *)
Definition occurrences (p t : list Z) : list Z :=
  Z.of_nat <$> filter (occurs_at p t) (seq 0 (length t + 1 - length p)).

Definition abq : list Z := [97; 98; 63; 63; 97; 98; 97].
Definition ababacaba : list Z := [97; 98; 97; 98; 97; 99; 97; 98; 97].


(** ** The words of a pattern as a set of strings

    The states of the machine stand for the prefixes of the words: the label
    of a state is the string read from the root to it. *)

(** [u] is a label: the empty string (the root) or a prefix of a word. *)
Definition islab (W : list (list Z * Z)) (u : list Z) : Prop :=
  u = [] ∨ Exists (λ we, u `prefix_of` we.1) W.

Global Instance islab_dec W u : Decision (islab W u).
Proof. unfold islab. apply _. Defined.
Global Arguments islab_dec : simpl never.

(** The longest suffix of [x] that is a label. *)
Fixpoint lsuf (W : list (list Z * Z)) (x : list Z) : list Z :=
  if decide (islab W x) then x
  else match x with
       | [] => []
       | _ :: x' => lsuf W x'
       end.

(** The longest proper suffix of a label that is a label: where its failure
    link leads. *)
Definition fsuf (W : list (list Z * Z)) (u : list Z) : list Z := lsuf W (drop 1 u).

(** The ends of the words that are [u] itself, and of those that are a suffix
    of [u]. *)
Definition own (W : list (list Z * Z)) (u : list Z) : gset Z :=
  list_to_set (filter (λ we, we.1 = u) W).*2.

Definition out_of (W : list (list Z * Z)) (u : list Z) : gset Z :=
  list_to_set (filter (λ we, we.1 `suffix_of` u) W).*2.

(** ** Invariants of the heap

    [lab] gives every node of the heap its label.  The invariants are stated
    for the function [goto_] of either file; [sym] holds of the symbols the
    file can read (every byte). *)
Section Invariants.
Context {L : Type}.
Variable W : list (list Z * Z).
Variable sym : Z → Prop.
Variable goto_ : list (option (Node L)) → ptr → ptr → Z → option ptr.
Variable rt : ptr.

(** The nodes are the labels, one node for each. *)
Record labelled (h : list (option (Node L))) (lab : gmap nat (list Z)) : Prop := {
  lab_null : deref h nullptr = None;
  lab_root : lab !! rt = Some [];
  lab_dom : ∀ i, is_Some (lab !! i) ↔ is_Some (deref h i);
  lab_inj : ∀ i j u, lab !! i = Some u → lab !! j = Some u → i = j;
  lab_islab : ∀ i u, lab !! i = Some u → islab W u;
  lab_all : ∀ u, islab W u → ∃ i, lab !! i = Some u
}.

(** [goto_] on the trie: the edge if there is one, the root at the root,
    [nullptr] elsewhere. *)
Definition goto_trie (h : list (option (Node L))) (lab : gmap nat (list Z)) : Prop :=
  ∀ i u c, lab !! i = Some u → sym c →
    ∃ j, goto_ h rt i c = Some j ∧
      ((islab W (u ++ [c]) ∧ lab !! j = Some (u ++ [c])) ∨
       (¬ islab W (u ++ [c]) ∧ j = if decide (i = rt) then rt else nullptr)).

(** [goto_] while the machine runs: where it answers, it answers with the
    state of the longest suffix. *)
Definition goto_run (h : list (option (Node L))) (lab : gmap nat (list Z)) : Prop :=
  ∀ i u c, lab !! i = Some u → sym c →
    ∃ j, goto_ h rt i c = Some j ∧
      (lab !! j = Some (lsuf W (u ++ [c])) ∨
       (j = nullptr ∧ i ≠ rt ∧ ¬ islab W (u ++ [c]))).

(** [goto_] once every transition is there. *)
Definition goto_total (h : list (option (Node L))) (lab : gmap nat (list Z)) : Prop :=
  ∀ i u c, lab !! i = Some u → sym c →
    ∃ j, goto_ h rt i c = Some j ∧ lab !! j = Some (lsuf W (u ++ [c])).

Definition fail_ok (h : list (option (Node L))) (lab : gmap nat (list Z))
    (i : ptr) (u : list Z) : Prop :=
  ∃ n, deref h i = Some n ∧ lab !! link_fail n = Some (fsuf W u).

Definition out_ok (h : list (option (Node L))) (i : ptr) (u : list Z) : Prop :=
  ∃ n, deref h i = Some n ∧ output n = out_of W u ∧
       terminal n = bool_decide (output n ≠ ∅).

(** A node that [build_failure] has not reached yet. *)
Definition fresh (h : list (option (Node L))) (i : ptr) (u : list Z) : Prop :=
  ∃ n, deref h i = Some n ∧ output n = own W u ∧
       terminal n = bool_decide (output n ≠ ∅).

(** The machine that [build_failure] leaves. *)
Record built (h : list (option (Node L))) (lab : gmap nat (list Z)) : Prop := {
  built_lab : labelled h lab;
  built_goto : goto_run h lab;
  built_fail : ∀ i u, lab !! i = Some u → u ≠ [] → fail_ok h lab i u;
  built_out : ∀ i u, lab !! i = Some u → out_ok h i u
}.
End Invariants.

(** ** The specification of the segmenter *)

(** [w] stands in the pattern [p] from the index [a] on, and has no
    wildcard. *)
Definition is_run (p : list Z) (a : nat) (w : list Z) : Prop :=
  w ≠ [] ∧ ∀ j c, w !! j = Some c → p !! (a + j)%nat = Some c ∧ c ≠ WILDCARD.

(** A run that extends neither to the left nor to the right: it starts the
    pattern or follows a wildcard, and ends the pattern or precedes one. *)
Definition maximal_run (p : list Z) (a : nat) (w : list Z) : Prop :=
  is_run p a w ∧
  (a = 0%nat ∨ p !! (a - 1)%nat = Some WILDCARD) ∧
  (p !! (a + length w)%nat = None ∨ p !! (a + length w)%nat = Some WILDCARD).

(** The index of the last symbol of the run. *)
Definition run_end (a : nat) (w : list Z) : Z := Z.of_nat (a + length w) - 1.

(** ** The words seen in a text *)

(** The word [we] stands in the text [t] where the pattern aligned at [s]
    has it, and the text has been read that far. *)
Definition hit (t : list Z) (s : Z) (we : list Z * Z) : Prop :=
  0 ≤ s + we.2 + 1 ≤ Z.of_nat (length t) ∧
  we.1 `suffix_of` take (Z.to_nat (s + we.2 + 1)) t.

Global Instance hit_dec t s we : Decision (hit t s we).
Proof. unfold hit. apply _. Defined.

(** The ends of the words counted in the slot of the alignment [s]. *)
Definition hits (W : list (list Z * Z)) (t : list Z) (s : Z) : gset Z :=
  list_to_set (filter (hit t s) W).*2.


(** * Proofs *)

(** ** Labels and their longest suffixes *)
Local Close Scope Z_scope.

Section Labels.
Variable W : list (list Z * Z).
Implicit Types u v x t : list Z.

Lemma islab_nil : islab W [].
Proof. by left. Qed.

Lemma islab_prefix u v : islab W v → u `prefix_of` v → islab W u.
Proof.
  intros [->|Hv] Huv.
  - apply prefix_nil_inv in Huv as ->. by left.
  - right. apply Exists_exists in Hv as (we & Hin & Hp).
    apply Exists_exists. exists we. split; [done|]. by etrans.
Qed.

Lemma islab_snoc u c : islab W (u ++ [c]) → islab W u.
Proof. intros H. eapply islab_prefix; [done|]. by apply prefix_app_r. Qed.

Lemma islab_word w e : (w, e) ∈ W → islab W w.
Proof. intros Hin. right. apply Exists_exists. by exists (w, e). Qed.

Lemma lsuf_nil : lsuf W [] = [].
Proof. unfold lsuf. by case_decide. Qed.

Lemma lsuf_cons a x :
  lsuf W (a :: x) = if decide (islab W (a :: x)) then a :: x else lsuf W x.
Proof. done. Qed.

Lemma lsuf_id u : islab W u → lsuf W u = u.
Proof. intros H. destruct u; [apply lsuf_nil|]. rewrite lsuf_cons. by case_decide. Qed.

Lemma lsuf_suffix x : lsuf W x `suffix_of` x.
Proof.
  induction x as [|a x IH]; [by rewrite lsuf_nil|].
  rewrite lsuf_cons. case_decide; [done|]. by apply suffix_cons_r.
Qed.

Lemma lsuf_islab x : islab W (lsuf W x).
Proof.
  induction x as [|a x IH]; [rewrite lsuf_nil; apply islab_nil|].
  rewrite lsuf_cons. by case_decide.
Qed.

Lemma lsuf_max x v : islab W v → v `suffix_of` x → v `suffix_of` lsuf W x.
Proof.
  intros Hv. induction x as [|a x IH]; intros Hs.
  { apply suffix_nil_inv in Hs as ->. by rewrite lsuf_nil. }
  rewrite lsuf_cons. case_decide; [done|].
  destruct v as [|b v]; [apply suffix_nil|].
  apply suffix_cons_inv in Hs as [Heq|Hs]; [|by apply IH].
  by simplify_eq.
Qed.

Lemma lsuf_length x : length (lsuf W x) ≤ length x.
Proof. apply suffix_length, lsuf_suffix. Qed.

Lemma lsuf_unique x v :
  islab W v → v `suffix_of` x →
  (∀ v', islab W v' → v' `suffix_of` x → v' `suffix_of` v) →
  lsuf W x = v.
Proof.
  intros Hv Hs Hmax. apply (anti_symm suffix).
  - apply Hmax; [apply lsuf_islab | apply lsuf_suffix].
  - by apply lsuf_max.
Qed.

(** The state after one more symbol depends on the text through the state
    before it. *)
Lemma lsuf_step t c : lsuf W (t ++ [c]) = lsuf W (lsuf W t ++ [c]).
Proof.
  apply lsuf_unique.
  - apply lsuf_islab.
  - etrans; [apply lsuf_suffix|]. apply suffix_app, lsuf_suffix.
  - intros v' Hv' Hs. apply lsuf_max; [done|].
    destruct (decide (v' = [])) as [->|Hne]; [apply suffix_nil|].
    destruct (exists_last Hne) as (v'' & c' & ->).
    pose proof (suffix_snoc_inv_1 _ _ _ _ Hs) as ->.
    apply suffix_snoc_inv_2 in Hs.
    apply suffix_app, lsuf_max; [|done]. by eapply islab_snoc.
Qed.

Lemma fsuf_islab u : islab W (fsuf W u).
Proof. apply lsuf_islab. Qed.

Lemma fsuf_length u : u ≠ [] → length (fsuf W u) < length u.
Proof.
  intros Hu. destruct u as [|a u]; [done|]. unfold fsuf.
  change (drop 1 (a :: u)) with (drop 0 u). rewrite drop_0.
  pose proof (lsuf_length u). simpl. lia.
Qed.

Lemma fsuf_suffix u : fsuf W u `suffix_of` u.
Proof. unfold fsuf. etrans; [apply lsuf_suffix|apply suffix_drop]. Qed.

(** A transition that the trie does not have is the transition of the
    failure state. *)
Lemma lsuf_fail u c :
  u ≠ [] → ¬ islab W (u ++ [c]) → lsuf W (u ++ [c]) = lsuf W (fsuf W u ++ [c]).
Proof.
  intros Hu Hn. destruct u as [|a u]; [done|].
  unfold fsuf. simpl drop. rewrite drop_0.
  change ((a :: u) ++ [c]) with (a :: (u ++ [c])) in *.
  rewrite lsuf_cons. case_decide; [done|]. apply lsuf_step.
Qed.

Lemma lsuf_root c : ¬ islab W [c] → lsuf W ([] ++ [c]) = [].
Proof. intros Hn. change ([] ++ [c]) with [c]. rewrite lsuf_cons, lsuf_nil. by case_decide. Qed.

(** The failure state of a child. *)
Lemma fsuf_snoc u c : u ≠ [] → fsuf W (u ++ [c]) = lsuf W (fsuf W u ++ [c]).
Proof.
  intros Hu. destruct u as [|a u]; [done|].
  unfold fsuf. simpl. rewrite !drop_0. apply lsuf_step.
Qed.

Lemma fsuf_single c : fsuf W [c] = [].
Proof. unfold fsuf. change (drop 1 [c]) with (@nil Z). apply lsuf_nil. Qed.

Lemma elem_of_own u e : e ∈ own W u ↔ (u, e) ∈ W.
Proof.
  unfold own. rewrite elem_of_list_to_set, list_elem_of_fmap. split.
  - intros ([w e'] & -> & Hin). apply list_elem_of_filter in Hin as [Hw Hin].
    simpl in *. by subst.
  - intros Hin. exists (u, e). split; [done|]. by apply list_elem_of_filter.
Qed.

Lemma elem_of_out_of u e : e ∈ out_of W u ↔ ∃ w, (w, e) ∈ W ∧ w `suffix_of` u.
Proof.
  unfold out_of. rewrite elem_of_list_to_set, list_elem_of_fmap. split.
  - intros ([w e'] & -> & Hin). apply list_elem_of_filter in Hin as [Hw Hin].
    by exists w.
  - intros (w & Hin & Hs). exists (w, e). split; [done|]. by apply list_elem_of_filter.
Qed.

Lemma out_of_lsuf t : out_of W (lsuf W t) = out_of W t.
Proof.
  apply set_eq. intros e. rewrite !elem_of_out_of. split.
  - intros (w & Hin & Hs). exists w. split; [done|]. etrans; [done|apply lsuf_suffix].
  - intros (w & Hin & Hs). exists w. split; [done|].
    apply lsuf_max; [|done]. by eapply islab_word.
Qed.

Lemma out_of_fsuf u : u ≠ [] → out_of W u = own W u ∪ out_of W (fsuf W u).
Proof.
  intros Hu. apply set_eq. intros e.
  rewrite elem_of_union, elem_of_own, !elem_of_out_of. split.
  - intros (w & Hin & Hs). destruct (decide (w = u)) as [->|Hne]; [by left|].
    right. exists w. split; [done|]. apply lsuf_max; [by eapply islab_word|].
    destruct u as [|a u]; [done|]. simpl. rewrite drop_0.
    destruct w as [|b w]; [apply suffix_nil|].
    apply suffix_cons_inv in Hs as [?|?]; [by simplify_eq|done].
  - intros [Hin|(w & Hin & Hs)]; [by exists u|].
    exists w. split; [done|]. etrans; [done|apply fsuf_suffix].
Qed.

Lemma out_of_nil : Forall (λ we, we.1 ≠ []) W → out_of W [] = ∅.
Proof.
  intros Hne. apply set_eq. intros e. rewrite elem_of_out_of. split; [|set_solver].
  intros (w & Hin & Hs). apply suffix_nil_inv in Hs as ->.
  rewrite Forall_forall in Hne. by apply Hne in Hin.
Qed.

Lemma out_of_subseteq u : out_of W u ⊆ list_to_set W.*2.
Proof.
  intros e. rewrite elem_of_out_of, elem_of_list_to_set, list_elem_of_fmap.
  intros (w & Hin & _). by exists (w, e).
Qed.
End Labels.

Local Open Scope Z_scope.


(** ** The heap *)
Local Close Scope Z_scope.

Section Heap.
Context {L : Type}.
Implicit Types h : list (option (Node L)).

Lemma deref_lt h p n : deref h p = Some n → p < length h.
Proof.
  unfold deref. destruct (h !! p) eqn:E; [|done]. intros _. by eapply lookup_lt_Some.
Qed.

Lemma length_modify p (f : Node L → Node L) h : length (modify p f h) = length h.
Proof. unfold modify. apply length_alter. Qed.

Lemma deref_modify p (f : Node L → Node L) h i :
  deref (modify p f h) i = if decide (i = p) then f <$> deref h i else deref h i.
Proof.
  unfold deref, modify. case_decide as E.
  - subst. rewrite list_lookup_alter_eq. by destruct (h !! p) as [[]|].
  - by rewrite list_lookup_alter_ne.
Qed.

Lemma deref_modify_eq p (f : Node L → Node L) h : deref (modify p f h) p = f <$> deref h p.
Proof. rewrite deref_modify. by case_decide. Qed.

Lemma deref_modify_ne p (f : Node L → Node L) h i : i ≠ p → deref (modify p f h) i = deref h i.
Proof. intros. rewrite deref_modify. by case_decide. Qed.

Lemma deref_modify_is_Some p (f : Node L → Node L) h i :
  is_Some (deref (modify p f h) i) ↔ is_Some (deref h i).
Proof. rewrite deref_modify. case_decide; [|done]. by rewrite fmap_is_Some. Qed.

Lemma deref_app_l h h' p : p < length h → deref (h ++ h') p = deref h p.
Proof. intros. unfold deref. by rewrite lookup_app_l. Qed.

Lemma deref_snoc h n : deref (h ++ [Some n]) (length h) = Some n.
Proof. unfold deref. by rewrite list_lookup_middle. Qed.

Lemma deref_snoc_Some h n p m :
  deref (h ++ [Some n]) p = Some m → deref h p = Some m ∨ (p = length h ∧ m = n).
Proof.
  intros H. destruct (decide (p < length h)).
  - left. by rewrite deref_app_l in H.
  - right. pose proof (deref_lt _ _ _ H) as Hlt. rewrite length_app in Hlt. simpl in Hlt.
    assert (p = length h) as -> by lia. rewrite deref_snoc in H. by simplify_eq.
Qed.
End Heap.

(** ** The loop that follows the failure links *)
Section Walk.
Context {L : Type}.
Variable W : list (list Z * Z).
Variable sym : Z → Prop.
Variable goto_ : list (option (Node L)) → ptr → ptr → Z → option ptr.
Variable rt : ptr.
Implicit Types h : list (option (Node L)).
Implicit Types lab : gmap nat (list Z).

Lemma lab_not_null h lab : labelled W rt h lab → lab !! nullptr = None.
Proof.
  intros Hl. destruct (lab !! nullptr) eqn:E; [|done].
  assert (is_Some (deref h nullptr)) as [n Hn] by (apply Hl; eauto).
  by rewrite (lab_null _ _ _ _ Hl) in Hn.
Qed.

Lemma lab_root_nil h lab i : labelled W rt h lab → lab !! i = Some [] → i = rt.
Proof. intros Hl Hi. eapply lab_inj; eauto. apply Hl. Qed.

Lemma lab_deref h lab i u : labelled W rt h lab → lab !! i = Some u → ∃ n, deref h i = Some n.
Proof. intros Hl Hi. apply (lab_dom _ _ _ _ Hl). eauto. Qed.

Lemma labelled_frame h h' lab :
  labelled W rt h lab → (∀ k, is_Some (deref h' k) ↔ is_Some (deref h k)) →
  labelled W rt h' lab.
Proof.
  intros [H1 H2 H3 H4 H5 H6] Hsome. constructor; try done.
  - destruct (deref h' nullptr) eqn:E; [|done].
    assert (is_Some (deref h nullptr)) as [n0 Hn0] by (apply Hsome; eauto). congruence.
  - intros i. by rewrite Hsome.
Qed.

Lemma goto_trie_run h lab :
  labelled W rt h lab → goto_trie W sym goto_ rt h lab → goto_run W sym goto_ rt h lab.
Proof.
  intros Hl Hg i u c Hi Hc. destruct (Hg i u c Hi Hc) as (j & Hj & [[Hlab Hlj]|[Hn ->]]).
  - exists j. split; [done|]. left. by rewrite lsuf_id.
  - case_decide as E.
    + exists rt. split; [done|]. left. subst i.
      rewrite (lab_root _ _ _ _ Hl) in Hi. simplify_eq.
      rewrite lsuf_root by done. apply Hl.
    + exists nullptr. split; [done|]. by right.
Qed.

Lemma goto_total_run h lab :
  goto_total W sym goto_ rt h lab → goto_run W sym goto_ rt h lab.
Proof.
  intros Hg i u c Hi Hc. destruct (Hg i u c Hi Hc) as (j & Hj & Hlj). eauto.
Qed.

(** The loop ends, in the state of the longest suffix; the states it leaves
    behind are not the root and have the same successor. *)
Lemma walk_spec h lab c :
  labelled W rt h lab → goto_run W sym goto_ rt h lab → sym c →
  ∀ fuel s v path,
    lab !! s = Some v → length v < fuel →
    (∀ i u, lab !! i = Some u → u ≠ [] → length u ≤ length v → fail_ok W h lab i u) →
    ∃ path' s' f,
      walk goto_ fuel h rt s c path = Some (path ++ path', s', f) ∧
      lab !! f = Some (lsuf W (v ++ [c])) ∧
      goto_ h rt s' c = Some f ∧
      (∃ v', lab !! s' = Some v' ∧ length v' ≤ length v) ∧
      Forall (λ p, ∃ u, lab !! p = Some u ∧ u ≠ [] ∧ length u ≤ length v ∧
                        lsuf W (u ++ [c]) = lsuf W (v ++ [c]) ∧
                        goto_ h rt p c = Some nullptr) path'.
Proof.
  intros Hl Hg Hc. induction fuel as [|fuel IH]; intros s v path Hs Hlen Hf; [lia|].
  simpl. destruct (Hg s v c Hs Hc) as (j & Hj & [Hlj|(-> & Hne & Hnl)]); rewrite Hj; simpl.
  - rewrite decide_False.
    2:{ intros ->. by rewrite (lab_not_null _ _ Hl) in Hlj. }
    exists [], s, j. rewrite app_nil_r. repeat split; eauto.
  - assert (v ≠ []) as Hv. { intros ->. by apply Hne, (lab_root_nil h lab). }
    destruct (Hf s v Hs Hv) as (n & Hn & Hfl); [done|].
    unfold failure. rewrite Hn. simpl.
    pose proof (fsuf_length W v Hv) as Hlt.
    destruct (IH (link_fail n) (fsuf W v) (path ++ [s]) Hfl) as (path' & s' & f & Hw & Hlf & Hgf & (v' & Hv' & Hlv') & Hp).
    { lia. }
    { intros i u Hi Hu Hlu. apply Hf; [done..|lia]. }
    exists (s :: path'), s', f. rewrite <- app_assoc in Hw. simpl in Hw.
    repeat split; [done| |done| |].
    + by rewrite lsuf_fail.
    + exists v'. split; [done|lia].
    + constructor.
      * exists v. repeat split; eauto.
      * eapply Forall_impl; [done|]. simpl. intros p (u & Hu1 & Hu2 & Hu3 & Hu4 & Hu5).
        exists u. split; [done|]. split; [done|]. split; [lia|]. split; [|done].
        rewrite Hu4. symmetry. by apply lsuf_fail.
Qed.
End Walk.

Local Open Scope Z_scope.


(** ** The breadth-first loop of [build_failure] *)
Local Close Scope Z_scope.

Lemma NoDup_bounded_length (l : list nat) n :
  NoDup l → (∀ x, x ∈ l → x < n) → length l ≤ n.
Proof.
  intros Hnd Hlt. trans (length (seq 0 n)); [|by rewrite length_seq].
  apply submseteq_length.
  apply NoDup_submseteq; [done|]. intros x Hx. apply elem_of_seq. specialize (Hlt x Hx). lia.
Qed.

Lemma foldM_cons {A B} (f : B → A → option B) b x l :
  foldM f b (x :: l) = f b x ≫= λ b', foldM f b' l.
Proof. done. Qed.

Lemma foldM_app {A B} (f : B → A → option B) b l1 l2 :
  foldM f b (l1 ++ l2) = foldM f b l1 ≫= λ b', foldM f b' l2.
Proof.
  revert b. induction l1 as [|x l1 IH]; intros b; simpl; [done|].
  destruct (f b x); simpl; [apply IH|done].
Qed.

(** The loop with its body left open: [inner node] is the loop over the
    links of [node]. *)
Fixpoint bf_gen {L} (inner : ptr → list (option (Node L)) * list ptr →
                              option (list (option (Node L)) * list ptr))
    (fuel : nat) (h : list (option (Node L))) (q : list ptr)
  : option (list (option (Node L))) :=
  match q with
  | [] => Some h
  | node :: q =>
      match fuel with
      | O => None
      | S fuel => '(h, q) ← inner node (h, q); bf_gen inner fuel h q
      end
  end.

Section BFS.
Context {L : Type}.
Variable W : list (list Z * Z).
Variable sym : Z → Prop.
Variable goto_ : list (option (Node L)) → ptr → ptr → Z → option ptr.
Variable rt : ptr.
Variable lab : gmap nat (list Z).
Variable struct_ok : list (option (Node L)) → Prop.
Implicit Types h : list (option (Node L)).

Hypothesis Wne : Forall (λ we, we.1 ≠ []) W.
Hypothesis lab_sym : ∀ i u, lab !! i = Some u → Forall sym u.
Hypothesis struct_frame : ∀ h h',
  struct_ok h → length h' = length h →
  (∀ k, links <$> deref h' k = links <$> deref h k) → struct_ok h'.
Hypothesis struct_goto : ∀ h,
  labelled W rt h lab → struct_ok h → goto_trie W sym goto_ rt h lab.

(** The state of the loop: [P] are the nodes taken from the queue, [pend]
    the links of the last of them, [cur], that are still to visit, [d] its
    depth. *)
Record bfs_inv (d : nat) (P : list ptr) (cur : ptr) (pend : list (Z * ptr))
    (h : list (option (Node L))) (q : list ptr) : Prop := {
  bi_lab : labelled W rt h lab;
  bi_struct : struct_ok h;
  bi_root : ∃ n, deref h rt = Some n ∧ output n = ∅ ∧ terminal n = false;
  bi_nodup : NoDup (P ++ q);
  bi_nodes : ∀ i, i ∈ P ++ q → ∃ u, lab !! i = Some u ∧ u ≠ [];
  bi_done : ∀ i u, lab !! i = Some u → i ∈ P ++ q →
            fail_ok W h lab i u ∧ out_ok W h i u;
  bi_fresh : ∀ i u, lab !! i = Some u → u ≠ [] → i ∉ P ++ q → fresh W h i u;
  bi_set : ∀ j v c, lab !! j = Some (v ++ [c]) →
           (j ∈ P ++ q ↔ (v = [] ∨ ∃ i, i ∈ P ∧ lab !! i = Some v) ∧ (c, j) ∉ pend);
  bi_pend : ∀ c j, (c, j) ∈ pend →
            ∃ u, lab !! cur = Some u ∧ lab !! j = Some (u ++ [c]) ∧
                 cur ∈ P ∧ length u = d;
  bi_pend_nodup : NoDup pend.*2;
  bi_depthP : ∀ i u, i ∈ P → lab !! i = Some u → length u ≤ d;
  bi_depthq : ∃ q1 q2, q = q1 ++ q2 ∧
              (∀ i u, i ∈ q1 → lab !! i = Some u → length u = d) ∧
              (∀ i u, i ∈ q2 → lab !! i = Some u → length u = S d)
}.

Lemma depth_bound h i v :
  labelled W rt h lab → lab !! i = Some v → length v < length h.
Proof.
  intros Hl Hi.
  assert (islab W v) as Hv by (by eapply lab_islab).
  clear i Hi.
  enough (∃ l : list nat, NoDup l ∧ length l = S (length v) ∧
            ∀ x, x ∈ l → ∃ u, lab !! x = Some u ∧ length u ≤ length v)
    as (l & Hnd & Hlen & Hl').
  { assert (length l ≤ length h); [|lia].
    apply NoDup_bounded_length; [done|]. intros x Hx.
    destruct (Hl' x Hx) as (u & Hu & _).
    destruct (lab_deref W rt h lab x u Hl Hu) as [n Hn]. by eapply deref_lt. }
  induction v as [|c v IH] using rev_ind.
  - exists [rt]. split; [apply NoDup_singleton|]. split; [done|].
    intros x ->%list_elem_of_singleton. exists []. split; [apply Hl|done].
  - destruct IH as (l & Hnd & Hlen & Hl'); [by eapply islab_snoc|].
    destruct (lab_all _ _ _ _ Hl _ Hv) as [i Hi].
    exists (i :: l). split; [|split].
    + apply NoDup_cons. split; [|done]. intros Hin.
      destruct (Hl' i Hin) as (u & Hu & Hle). rewrite Hi in Hu. simplify_eq.
      rewrite length_app in Hle. simpl in Hle. lia.
    + simpl. rewrite Hlen, length_app. simpl. lia.
    + intros x [->|Hx]%elem_of_cons.
      * exists (v ++ [c]). split; [done|lia].
      * destruct (Hl' x Hx) as (u & Hu & Hle). exists u. split; [done|].
        rewrite length_app. lia.
Qed.

Lemma bfs_shallow d P cur pend h q j v :
  bfs_inv d P cur pend h q →
  (∀ i u, i ∈ q → lab !! i = Some u → d ≤ length u) →
  lab !! j = Some v → v ≠ [] → length v ≤ d → j ∈ P ++ q.
Proof.
  intros Hinv Hq. revert j. induction v as [|c v IH] using rev_ind; intros j Hj Hne Hlen; [done|].
  rewrite length_app in Hlen. simpl in Hlen.
  apply (bi_set _ _ _ _ _ _ Hinv j v c Hj). split.
  - destruct (decide (v = [])) as [->|Hv]; [by left|]. right.
    assert (islab W v) as Hlv.
    { eapply islab_snoc, lab_islab; [apply Hinv|done]. }
    destruct (lab_all _ _ _ _ (bi_lab _ _ _ _ _ _ Hinv) _ Hlv) as [i Hi].
    exists i. split; [|done].
    assert (i ∈ P ++ q) as [?|Hiq]%elem_of_app; [apply IH; [done..|lia]|done|].
    specialize (Hq i v Hiq Hi). lia.
  - intros Hin. destruct (bi_pend _ _ _ _ _ _ Hinv c j Hin) as (u & _ & Hju & _ & Hu).
    rewrite Hj in Hju. simplify_eq. apply (f_equal length) in Hju.
    rewrite !length_app in Hju. simpl in Hju. lia.
Qed.

(** What one visit does to the heap. *)
Lemma bf_visit_eq h q cur c j s path s' f nf nj :
  failure h cur = Some s →
  walk goto_ (length h) h rt s c [] = Some (path, s', f) →
  f ≠ j → deref h f = Some nf → deref h j = Some nj →
  ∃ h', bf_visit goto_ rt cur (h, q) (c, j) = Some (h', q ++ [j]) ∧
    length h' = length h ∧
    (∀ i, i ≠ j → deref h' i = deref h i) ∧
    deref h' j = Some (mkNode (links nj)
                         (if decide (output nj ∪ output nf = ∅) then terminal nj else true)
                         (output nj ∪ output nf) f).
Proof.
  intros Hfail Hwalk Hfj Hnf Hnj. unfold bf_visit. rewrite Hfail. simpl.
  rewrite Hwalk. simpl. rewrite deref_modify_ne, Hnf by done. simpl.
  rewrite deref_modify_eq, deref_modify_eq, Hnj. simpl.
  case_decide as Hout.
  - eexists. split; [done|]. rewrite !length_modify. split; [done|]. split.
    + intros i Hi. by rewrite !deref_modify_ne.
    + by rewrite !deref_modify_eq, Hnj.
  - eexists. split; [done|]. rewrite !length_modify. split; [done|]. split.
    + intros i Hi. by rewrite !deref_modify_ne.
    + by rewrite !deref_modify_eq, Hnj.
Qed.

Lemma bfs_queue_depth d P cur pend h q :
  bfs_inv d P cur pend h q → ∀ i u, i ∈ q → lab !! i = Some u → d ≤ length u.
Proof.
  intros Hinv i u Hi Hu. destruct (bi_depthq _ _ _ _ _ _ Hinv) as (q1 & q2 & -> & H1 & H2).
  apply elem_of_app in Hi as [Hi|Hi].
  - by rewrite (H1 i u Hi Hu).
  - rewrite (H2 i u Hi Hu). lia.
Qed.

Lemma bf_visit_spec d P cur c j pend h q :
  bfs_inv d P cur ((c, j) :: pend) h q →
  ∃ h', bf_visit goto_ rt cur (h, q) (c, j) = Some (h', q ++ [j]) ∧
        length h' = length h ∧
        bfs_inv d P cur pend h' (q ++ [j]).
Proof.
  intros Hinv.
  pose proof (bi_lab _ _ _ _ _ _ Hinv) as Hl.
  destruct (bi_pend _ _ _ _ _ _ Hinv c j) as (u & Hcur & Hj & HcurP & Hu); [set_solver|].
  assert (cur ∈ P ++ q) as HcurS by set_solver.
  destruct (bi_nodes _ _ _ _ _ _ Hinv cur HcurS) as (u' & Hu' & Hune).
  rewrite Hcur in Hu'. symmetry in Hu'. simplify_eq.
  assert (sym c) as Hc.
  { pose proof (lab_sym _ _ Hj) as Hs. apply Forall_app in Hs as [_ Hs].
    by apply Forall_cons in Hs as [? _]. }
  assert (j ∉ P ++ q) as HjS.
  { intros Hin. apply (bi_set _ _ _ _ _ _ Hinv j u c Hj) in Hin as [_ Hn]. set_solver. }
  pose proof (bfs_queue_depth _ _ _ _ _ _ Hinv) as Hq.
  destruct (bi_done _ _ _ _ _ _ Hinv cur u Hcur HcurS) as [(ncur & Hncur & Hfl) _].
  assert (failure h cur = Some (link_fail ncur)) as Hfail.
  { unfold failure. by rewrite Hncur. }
  pose proof (fsuf_length W u Hune) as Hflen.
  destruct (walk_spec W sym goto_ rt h lab c Hl) with (fuel := length h)
    (s := link_fail ncur) (v := fsuf W u) (path := @nil ptr)
    as (path' & s' & f & Hwalk & Hf & _); [| done | done | | |].
  { apply goto_trie_run; [done|]. apply struct_goto; [done|apply Hinv]. }
  { by eapply depth_bound. }
  { intros i v Hi Hv Hlen. eapply bi_done; [done..|].
    eapply bfs_shallow; [done..|lia]. }
  rewrite <- fsuf_snoc in Hf by done.
  assert (u ++ [c] ≠ []) as Hucne by (by destruct u).
  pose proof (fsuf_length W (u ++ [c]) Hucne) as Hflen'.
  rewrite length_app in Hflen'. simpl in Hflen'.
  assert (f ≠ j) as Hfj.
  { intros ->. rewrite Hj in Hf. simplify_eq. apply (f_equal length) in Hf.
    rewrite length_app in Hf. simpl in Hf. lia. }
  assert (∃ nf, deref h f = Some nf ∧ output nf = out_of W (fsuf W (u ++ [c])))
    as (nf & Hnf & Hnfo).
  { destruct (decide (fsuf W (u ++ [c]) = [])) as [E|E].
    - rewrite E in Hf |- *. apply (lab_root_nil W rt h lab) in Hf as ->; [|done].
      destruct (bi_root _ _ _ _ _ _ Hinv) as (n & Hn & Ho & _).
      exists n. split; [done|]. by rewrite out_of_nil.
    - destruct (bi_done _ _ _ _ _ _ Hinv f _ Hf) as [_ (n & Hn & Ho & _)].
      { eapply bfs_shallow; [done..|]. lia. }
      by exists n. }
  destruct (bi_fresh _ _ _ _ _ _ Hinv j _ Hj) as (nj & Hnj & Hnjo & Hnjt);
    [by destruct u|done|].
  destruct (bf_visit_eq h q cur c j _ _ _ _ _ _ Hfail Hwalk Hfj Hnf Hnj)
    as (h' & Hvis & Hlen & Hother & Hj').
  exists h'. split; [done|]. split; [done|].
  assert (∀ k, links <$> deref h' k = links <$> deref h k) as Hlinks.
  { intros k. destruct (decide (k = j)) as [->|Hk]; [|by rewrite Hother].
    by rewrite Hj', Hnj. }
  assert (∀ k, is_Some (deref h' k) ↔ is_Some (deref h k)) as Hsome.
  { intros k. rewrite <- !(fmap_is_Some links). by rewrite Hlinks. }
  constructor.
  - destruct Hl as [H1 H2 H3 H4 H5 H6]. constructor; try done.
    + destruct (decide (nullptr = j)) as [<-|Hk]; [|by rewrite Hother].
      by rewrite Hnj in H1.
    + intros i. by rewrite Hsome.
  - eapply struct_frame; [apply Hinv|done..].
  - destruct (bi_root _ _ _ _ _ _ Hinv) as (n & Hn & Ho).
    exists n. split; [|done]. rewrite Hother; [done|]. intros ->.
    rewrite (lab_root _ _ _ _ Hl) in Hj. by destruct u.
  - rewrite app_assoc. apply NoDup_app. split; [apply Hinv|].
    split; [|apply NoDup_singleton]. intros x Hx ->%list_elem_of_singleton. done.
  - intros i. rewrite app_assoc. intros [Hi| ->%list_elem_of_singleton]%elem_of_app.
    + by apply (bi_nodes _ _ _ _ _ _ Hinv).
    + exists (u ++ [c]). split; [done|by destruct u].
  - intros i v Hi. rewrite app_assoc.
    intros [HiS| ->%list_elem_of_singleton]%elem_of_app.
    + assert (i ≠ j) as Hij by (by intros ->).
      destruct (bi_done _ _ _ _ _ _ Hinv i v Hi HiS) as [(n & Hn & Hnf') (n' & Hn' & Ho')].
      split; [exists n|exists n']; by rewrite Hother.
    + rewrite Hj in Hi. simplify_eq. split.
      * eexists. split; [done|]. done.
      * eexists. split; [done|]. simpl.
        assert (output nj ∪ output nf = out_of W (u ++ [c])) as HO.
        { rewrite Hnjo, Hnfo. symmetry. by apply out_of_fsuf. }
        rewrite HO. split; [done|].
        destruct (decide (out_of W (u ++ [c]) = ∅)) as [E|E].
        -- rewrite Hnjt, Hnjo. rewrite E.
           assert (own W (u ++ [c]) = ∅) as ->; [|done].
           rewrite out_of_fsuf in E by done. set_solver.
        -- symmetry. by apply bool_decide_eq_true.
  - intros i v Hi Hv. rewrite app_assoc. intros Hn.
    assert (i ≠ j) as Hij by set_solver.
    destruct (bi_fresh _ _ _ _ _ _ Hinv i v Hi Hv) as (n & Hn' & Ho); [set_solver|].
    exists n. by rewrite Hother.
  - intros j' v c' Hj'l. rewrite app_assoc, elem_of_app, list_elem_of_singleton.
    rewrite (bi_set _ _ _ _ _ _ Hinv j' v c' Hj'l).
    pose proof (bi_pend_nodup _ _ _ _ _ _ Hinv) as Hnd. simpl in Hnd.
    apply NoDup_cons in Hnd as [Hnd1 Hnd2].
    destruct (decide (j' = j)) as [->|Hne].
    + rewrite Hj in Hj'l. simplify_eq. apply app_inj_tail in Hj'l as [-> ->].
      split; [|by right]. intros _. split; [right; eauto|].
      intros Hin. apply Hnd1. apply list_elem_of_fmap. by exists (c', j).
    + split.
      * intros [[? Hn]|?]; [|done]. split; [done|]. set_solver.
      * intros [? Hn]. left. split; [done|]. set_solver.
  - intros c' j' Hin. apply (bi_pend _ _ _ _ _ _ Hinv). set_solver.
  - pose proof (bi_pend_nodup _ _ _ _ _ _ Hinv) as Hnd. simpl in Hnd.
    by apply NoDup_cons in Hnd as [_ ?].
  - apply Hinv.
  - destruct (bi_depthq _ _ _ _ _ _ Hinv) as (q1 & q2 & -> & H1 & H2).
    exists q1, (q2 ++ [j]). split; [by rewrite app_assoc|]. split; [done|].
    intros i v [Hi| ->%list_elem_of_singleton]%elem_of_app Hv; [by eapply H2|].
    rewrite Hj in Hv. simplify_eq. rewrite length_app. simpl. lia.
Qed.

(** The loop over the links of one node. *)
Lemma bf_inner_spec pend : ∀ d P cur h q,
  bfs_inv d P cur pend h q →
  ∃ h', foldM (bf_visit goto_ rt cur) (h, q) pend = Some (h', q ++ pend.*2) ∧
        length h' = length h ∧
        bfs_inv d P cur [] h' (q ++ pend.*2).
Proof.
  induction pend as [|[c j] pend IH]; intros d P cur h q Hinv.
  - exists h. simpl. by rewrite app_nil_r.
  - destruct (bf_visit_spec _ _ _ _ _ _ _ _ Hinv) as (h1 & Hvis & Hlen1 & Hinv1).
    destruct (IH _ _ _ _ _ Hinv1) as (h2 & Hfold & Hlen2 & Hinv2).
    exists h2. rewrite foldM_cons, Hvis. simpl. rewrite Hfold.
    rewrite <- app_assoc. simpl. split; [done|]. split; [congruence|].
    by rewrite <- app_assoc in Hinv2.
Qed.

(** Taking a node from the queue. *)
Lemma bfs_pop d P cur0 h cur q u cs :
  bfs_inv d P cur0 [] h (cur :: q) →
  lab !! cur = Some u →
  NoDup cs.*2 →
  (∀ c j, (c, j) ∈ cs ↔ sym c ∧ lab !! j = Some (u ++ [c])) →
  bfs_inv (length u) (P ++ [cur]) cur cs h q.
Proof.
  intros Hinv Hu Hnd Hcs.
  pose proof (bi_lab _ _ _ _ _ _ Hinv) as Hl.
  pose proof (bi_nodup _ _ _ _ _ _ Hinv) as HND.
  assert (cur ∉ P) as HcurP.
  { apply NoDup_app in HND as (_ & HND & _). intros Hin. apply (HND _ Hin). set_solver. }
  assert (d ≤ length u) as Hd.
  { eapply bfs_queue_depth; [done| |done]. set_solver. }
  assert (∀ x, x ∈ (P ++ [cur]) ++ q ↔ x ∈ P ++ cur :: q) as Hmem.
  { intros x. rewrite <- app_assoc. done. }
  constructor.
  - done.
  - apply Hinv.
  - apply Hinv.
  - by rewrite <- app_assoc.
  - intros i Hi%Hmem. by apply (bi_nodes _ _ _ _ _ _ Hinv).
  - intros i v Hi HiS%Hmem. by apply (bi_done _ _ _ _ _ _ Hinv).
  - intros i v Hi Hv HiS. apply (bi_fresh _ _ _ _ _ _ Hinv); [done..|].
    by rewrite <- Hmem.
  - intros j v c Hj. rewrite Hmem, (bi_set _ _ _ _ _ _ Hinv j v c Hj).
    destruct (decide (v = u)) as [->|Hvu].
    + split.
      * intros [[->|(i & Hi & Hiu)] _].
        -- destruct (bi_nodes _ _ _ _ _ _ Hinv cur) as (u' & Hu' & Hne); [set_solver|].
           rewrite Hu in Hu'. by simplify_eq.
        -- assert (i = cur) as -> by (by eapply lab_inj). done.
      * intros [_ Hn]. exfalso. apply Hn. apply Hcs. split; [|done].
        pose proof (lab_sym _ _ Hj) as Hs. apply Forall_app in Hs as [_ Hs].
        by apply Forall_cons in Hs as [? _].
    + assert ((c, j) ∉ cs) as Hncs.
      { intros [_ Hin]%Hcs. rewrite Hj in Hin. simplify_eq.
        by apply app_inj_tail in Hin as [-> _]. }
      split.
      * intros [[->|(i & Hi & Hiv)] _]; (split; [|done]); [by left|].
        right. exists i. split; [set_solver|done].
      * intros [[->|(i & Hi & Hiv)] _]; (split; [|set_solver]); [by left|].
        right. exists i. split; [|done].
        apply elem_of_app in Hi as [?| ->%list_elem_of_singleton]; [done|].
        rewrite Hu in Hiv. by simplify_eq.
  - intros c j [_ Hj]%Hcs. exists u. repeat split; try done. set_solver.
  - done.
  - intros i v [Hi| ->%list_elem_of_singleton]%elem_of_app Hv.
    + pose proof (bi_depthP _ _ _ _ _ _ Hinv i v Hi Hv). lia.
    + rewrite Hu in Hv. by simplify_eq.
  - destruct (bi_depthq _ _ _ _ _ _ Hinv) as (q1 & q2 & Hq & H1 & H2).
    destruct q1 as [|x q1]; simpl in Hq.
    + exists q, []. rewrite app_nil_r. split; [done|].
      assert (length u = S d) as Hud. { apply (H2 cur); [|done]. rewrite <- Hq. set_solver. }
      split; [|set_solver].
      intros i v Hi Hv. rewrite Hud. apply (H2 i); [|done]. rewrite <- Hq. set_solver.
    + injection Hq as <- ->. exists q1, q2. split; [done|].
      assert (length u = d) as Hud. { apply (H1 cur); [set_solver|done]. }
      rewrite Hud. split; [|done]. intros i v Hi Hv. apply (H1 i); [set_solver|done].
Qed.

Variable inner : ptr → list (option (Node L)) * list ptr →
                 option (list (option (Node L)) * list ptr).
Hypothesis inner_visits : ∀ h q node u,
  labelled W rt h lab → struct_ok h → lab !! node = Some u → u ≠ [] →
  ∃ cs, inner node (h, q) = foldM (bf_visit goto_ rt node) (h, q) cs ∧
        NoDup cs.*2 ∧
        ∀ c j, (c, j) ∈ cs ↔ sym c ∧ lab !! j = Some (u ++ [c]).

(** The loop ends before its fuel does, with every node visited. *)
Lemma bf_gen_spec fuel : ∀ d P cur h q,
  bfs_inv d P cur [] h q → length h ≤ fuel + length P →
  ∃ h' d' P' cur',
    bf_gen inner fuel h q = Some h' ∧ length h' = length h ∧
    bfs_inv d' P' cur' [] h' [].
Proof.
  induction fuel as [|fuel IH]; intros d P cur h q Hinv Hfuel.
  - destruct q as [|node q]; [by exists h, d, P, cur|]. exfalso.
    assert (length (P ++ node :: q) ≤ length h) as Hlen.
    { apply NoDup_bounded_length; [apply Hinv|]. intros x Hx.
      destruct (bi_nodes _ _ _ _ _ _ Hinv x Hx) as (u & Hu & _).
      destruct (lab_deref W rt h lab x u (bi_lab _ _ _ _ _ _ Hinv) Hu) as [n Hn].
      by eapply deref_lt. }
    rewrite length_app in Hlen. simpl in Hlen, Hfuel. lia.
  - destruct q as [|node q]; [by exists h, d, P, cur|]. simpl.
    destruct (bi_nodes _ _ _ _ _ _ Hinv node) as (u & Hu & Hne); [set_solver|].
    destruct (inner_visits h q node u (bi_lab _ _ _ _ _ _ Hinv) (bi_struct _ _ _ _ _ _ Hinv) Hu Hne)
      as (cs & Hin & Hnd & Hcs).
    pose proof (bfs_pop _ _ _ _ _ _ _ _ Hinv Hu Hnd Hcs) as Hinv1.
    destruct (bf_inner_spec _ _ _ _ _ _ Hinv1) as (h1 & Hfold & Hlen1 & Hinv2).
    rewrite Hin, Hfold. simpl.
    destruct (IH _ _ _ _ _ Hinv2) as (h' & d' & P' & cur' & Hgen & Hlen' & Hinv').
    { rewrite Hlen1, length_app. simpl. lia. }
    exists h', d', P', cur'. split; [done|]. split; [congruence|done].
Qed.

(** When the queue is empty the machine is built. *)
Lemma bfs_done d P cur h :
  bfs_inv d P cur [] h [] → built W sym goto_ rt h lab.
Proof.
  intros Hinv. pose proof (bi_lab _ _ _ _ _ _ Hinv) as Hl.
  assert (∀ v j, lab !! j = Some v → v ≠ [] → j ∈ P) as Hall.
  { induction v as [|c v IH] using rev_ind; intros j Hj Hne; [done|].
    pose proof (bi_set _ _ _ _ _ _ Hinv j v c Hj) as Hset. rewrite app_nil_r in Hset.
    apply Hset. split; [|set_solver].
    destruct (decide (v = [])) as [->|Hv]; [by left|]. right.
    assert (islab W v) as Hlv. { eapply islab_snoc, lab_islab; [apply Hl|done]. }
    destruct (lab_all _ _ _ _ Hl _ Hlv) as [i Hi]. exists i. split; [|done]. by eapply IH. }
  constructor.
  - done.
  - apply goto_trie_run; [done|]. apply struct_goto; [done|apply Hinv].
  - intros i u Hi Hu. eapply (bi_done _ _ _ _ _ _ Hinv); [done|].
    rewrite app_nil_r. by eapply Hall.
  - intros i u Hi. destruct (decide (u = [])) as [->|Hu].
    + apply (lab_root_nil W rt h lab) in Hi as ->; [|done].
      destruct (bi_root _ _ _ _ _ _ Hinv) as (n & Hn & Ho & Ht).
      exists n. split; [done|]. rewrite out_of_nil by done. split; [done|].
      rewrite Ht, Ho. symmetry. apply bool_decide_eq_false. intros Hx. by apply Hx.
    + eapply (bi_done _ _ _ _ _ _ Hinv); [done|]. rewrite app_nil_r. by eapply Hall.
Qed.

Lemma bfs_done_struct d P cur pend h q : bfs_inv d P cur pend h q → struct_ok h.
Proof. apply bi_struct. Qed.

(** The state of the loop when it starts: the children of the root are in
    the queue, with the root as their failure state. *)
Lemma bfs_init h q :
  labelled W rt h lab → struct_ok h →
  (∃ n, deref h rt = Some n ∧ output n = ∅ ∧ terminal n = false) →
  NoDup q →
  (∀ j, j ∈ q ↔ ∃ c, lab !! j = Some [c]) →
  (∀ i u, lab !! i = Some u → u ≠ [] → fresh W h i u) →
  (∀ j c n, lab !! j = Some [c] → deref h j = Some n → link_fail n = rt) →
  bfs_inv 1 [] rt [] h q.
Proof.
  intros Hl Hs Hroot Hnd Hq Hfresh Hfail. constructor; try done.
  - intros i Hi%Hq. destruct Hi as [c Hc]. by exists [c].
  - intros i u Hi [c Hc]%Hq. rewrite Hi in Hc. simplify_eq.
    destruct (Hfresh i [c] Hi) as (n & Hn & Ho & Ht); [done|]. split.
    + exists n. split; [done|]. rewrite (Hfail i c n Hi Hn), fsuf_single. apply Hl.
    + exists n. split; [done|]. split; [|done].
      rewrite Ho, out_of_fsuf, fsuf_single, out_of_nil by done. set_solver.
  - intros i u Hi Hu Hn. by apply Hfresh.
  - intros j v c Hj. simpl. rewrite Hq. split.
    + intros [c' Hc']. rewrite Hj in Hc'. simplify_eq. split; [|set_solver]. left.
      destruct v; [done|]. by destruct v.
    + intros [[->|(i & Hi & _)] _]; [by exists c|set_solver].
  - set_solver.
  - constructor.
  - set_solver.
  - exists q, []. rewrite app_nil_r. split; [done|]. split; [|set_solver].
    intros i u [c Hc]%Hq Hi. rewrite Hi in Hc. by simplify_eq.
Qed.
End BFS.

Local Open Scope Z_scope.


(** ** Building the trie

    The loop of [add_word] is described by what one step of it does: it
    follows an edge, or makes a node and the edge to it.  [edge h i c] is the
    edge of the node [i] on [c] in the heap [h], as the file stores it. *)
Local Close Scope Z_scope.

Definition data {L} (n : Node L) : bool * gset Z * ptr :=
  (terminal n, output n, link_fail n).
Global Arguments data {L} n : simpl never.

Section Trie.
Context {L : Type}.
Variable sym : Z → Prop.
Variable rt : ptr.
Variable edge : list (option (Node L)) → ptr → Z → option ptr.
Variable inv : list (option (Node L)) → Prop.
Variable cap : nat.
Variable loop : list (option (Node L)) → ptr → list Z →
                option (list (option (Node L)) * ptr).
Implicit Types h : list (option (Node L)).
Implicit Types lab : gmap nat (list Z).

Record shaped h lab : Prop := {
  sh_null : deref h nullptr = None;
  sh_root : lab !! rt = Some [];
  sh_dom : ∀ i, is_Some (lab !! i) ↔ is_Some (deref h i);
  sh_inj : ∀ i j u, lab !! i = Some u → lab !! j = Some u → i = j;
  sh_sym : ∀ i u, lab !! i = Some u → Forall sym u;
  sh_edge : ∀ i u c j, lab !! i = Some u → sym c → edge h i c = Some j →
            lab !! j = Some (u ++ [c]);
  sh_parent : ∀ j u c, lab !! j = Some (u ++ [c]) →
              ∃ i, lab !! i = Some u ∧ edge h i c = Some j;
  sh_inv : inv h
}.

(** [h1] is [h] with one more node, reached from [node] on [c]. *)
Record extends h (node : ptr) (c : Z) h1 : Prop := {
  ex_length : length h1 = S (length h);
  ex_new : ∃ n, deref h1 (length h) = Some n ∧ data n = (false, ∅, nullptr);
  ex_old : ∀ i n, deref h i = Some n → ∃ n1, deref h1 i = Some n1 ∧ data n1 = data n;
  ex_old_inv : ∀ i, i ≠ length h → is_Some (deref h1 i) → is_Some (deref h i);
  ex_edge : ∀ i c', sym c' →
            edge h1 i c' = if decide (i = node ∧ c' = c) then Some (length h)
                           else if decide (i = length h) then None
                           else edge h i c'
}.

Hypothesis loop_nil : ∀ h node, loop h node [] = Some (h, node).
Hypothesis loop_found : ∀ h lab node c rest next,
  shaped h lab → is_Some (lab !! node) → sym c → edge h node c = Some next →
  loop h node (c :: rest) = loop h next rest.
Hypothesis loop_new : ∀ h lab node c rest,
  shaped h lab → is_Some (lab !! node) → sym c → edge h node c = None →
  length h < cap →
  ∃ h1, loop h node (c :: rest) = loop h1 (length h) rest ∧
        extends h node c h1 ∧ inv h1.
Hypothesis data_frame : ∀ h h',
  length h' = length h → (∀ k, links <$> deref h' k = links <$> deref h k) →
  (∀ i c, edge h' i c = edge h i c) ∧ (inv h → inv h').

Lemma shaped_extend h lab node u c h1 :
  shaped h lab → lab !! node = Some u → sym c → edge h node c = None →
  extends h node c h1 → inv h1 →
  shaped h1 (<[length h := u ++ [c]]> lab) ∧ lab !! length h = None.
Proof.
  intros Hs Hnode Hc Hedge Hex Hinv.
  assert (lab !! length h = None) as Hfresh.
  { destruct (lab !! length h) eqn:E; [|done].
    assert (is_Some (deref h (length h))) as [n Hn] by (apply Hs; eauto).
    apply deref_lt in Hn. lia. }
  assert (∀ j, lab !! j ≠ Some (u ++ [c])) as Hnew.
  { intros j Hj. destruct (sh_parent _ _ Hs j u c Hj) as (i & Hi & He).
    assert (i = node) as -> by (by eapply sh_inj). by rewrite Hedge in He. }
  split; [|done]. constructor.
  - destruct (deref h1 nullptr) eqn:E; [|done].
    destruct (decide (nullptr = length h)) as [E0|E0].
    + destruct (sh_dom _ _ Hs node) as [Hd _]. destruct Hd as [n0 Hn0]; [eauto|].
      apply deref_lt in Hn0. unfold nullptr in E0. lia.
    + destruct (ex_old_inv _ _ _ _ Hex nullptr E0) as [n' Hn']; [eauto|].
      by rewrite (sh_null _ _ Hs) in Hn'.
  - rewrite lookup_insert_ne; [apply Hs|]. intros E. rewrite E in Hfresh.
    by rewrite (sh_root _ _ Hs) in Hfresh.
  - intros i. destruct (decide (i = length h)) as [->|Hi].
    + rewrite lookup_insert_eq. destruct (ex_new _ _ _ _ Hex) as (n & Hn & _).
      rewrite Hn. split; eauto.
    + rewrite lookup_insert_ne by done. rewrite (sh_dom _ _ Hs). split.
      * intros [n Hn]. destruct (ex_old _ _ _ _ Hex i n Hn) as (n1 & Hn1 & _). eauto.
      * by apply (ex_old_inv _ _ _ _ Hex).
  - intros i j v Hi Hj.
    destruct (decide (i = length h)) as [->|Hin], (decide (j = length h)) as [->|Hjn];
      [done|..].
    + rewrite lookup_insert_eq in Hi. rewrite lookup_insert_ne in Hj by done.
      simplify_eq. by apply Hnew in Hj.
    + rewrite lookup_insert_eq in Hj. rewrite lookup_insert_ne in Hi by done.
      simplify_eq. by apply Hnew in Hi.
    + rewrite lookup_insert_ne in Hi, Hj by done. by eapply sh_inj.
  - intros i v Hi. destruct (decide (i = length h)) as [->|Hin].
    + rewrite lookup_insert_eq in Hi. simplify_eq. apply Forall_app. split.
      * by eapply sh_sym.
      * by apply Forall_singleton.
    + rewrite lookup_insert_ne in Hi by done. by eapply sh_sym.
  - intros i v c' j Hi Hc' He. rewrite (ex_edge _ _ _ _ Hex) in He by done.
    destruct (decide (i = node ∧ c' = c)) as [[-> ->]|Hn].
    + simplify_eq. rewrite lookup_insert_ne in Hi.
      2:{ intros E. rewrite <- E in Hnode. by rewrite Hfresh in Hnode. }
      rewrite Hnode in Hi. simplify_eq. by rewrite lookup_insert_eq.
    + destruct (decide (i = length h)) as [->|Hin]; [done|].
      rewrite lookup_insert_ne in Hi by done.
      pose proof (sh_edge _ _ Hs i v c' j Hi Hc' He) as Hj.
      rewrite lookup_insert_ne; [done|]. intros E. rewrite <- E in Hj.
      by rewrite Hfresh in Hj.
  - intros j v c' Hj. destruct (decide (j = length h)) as [->|Hjn].
    + rewrite lookup_insert_eq in Hj. simplify_eq.
      apply app_inj_tail in Hj as [-> ->]. exists node. split.
      * rewrite lookup_insert_ne; [done|]. intros E. rewrite <- E in Hnode.
        by rewrite Hfresh in Hnode.
      * rewrite (ex_edge _ _ _ _ Hex) by done. by rewrite decide_True.
    + rewrite lookup_insert_ne in Hj by done.
      destruct (sh_parent _ _ Hs j v c' Hj) as (i & Hi & He).
      assert (sym c') as Hc'.
      { pose proof (sh_sym _ _ Hs _ _ Hj) as Hf. apply Forall_app in Hf as [_ Hf].
        by apply Forall_cons in Hf as [? _]. }
      assert (i ≠ length h) as Hin. { intros ->. by rewrite Hfresh in Hi. }
      exists i. split; [by rewrite lookup_insert_ne|].
      rewrite (ex_edge _ _ _ _ Hex) by done.
      rewrite decide_False, decide_False; [done|done|].
      intros [-> ->]. by rewrite Hedge in He.
  - done.
Qed.

(** The loop of [add_word] from a node labelled [u]. *)
Lemma loop_spec rest : ∀ h lab node u,
  shaped h lab → lab !! node = Some u → Forall sym rest →
  length h + length rest ≤ cap →
  ∃ h' lab' node',
    loop h node rest = Some (h', node') ∧
    shaped h' lab' ∧ lab ⊆ lab' ∧ lab' !! node' = Some (u ++ rest) ∧
    (∀ i v, lab' !! i = Some v →
       lab !! i = Some v ∨ (lab !! i = None ∧ ∃ k, v = u ++ take k rest)) ∧
    (∀ i n', deref h' i = Some n' →
       match deref h i with
       | Some n => data n' = data n
       | None => data n' = (false, ∅, nullptr)
       end) ∧
    length h' ≤ length h + length rest.
Proof.
  induction rest as [|c rest IH]; intros h lab node u Hs Hnode Hsym Hcap.
  - exists h, lab, node. rewrite loop_nil, app_nil_r.
    split; [done|]. split; [done|]. split; [done|]. split; [done|].
    split; [|split]; [|intros i n' Hn'; by rewrite Hn'|lia].
    intros i v Hi. by left.
  - apply Forall_cons in Hsym as [Hc Hsym]. simpl in Hcap.
    destruct (edge h node c) as [next|] eqn:He.
    + pose proof (sh_edge _ _ Hs node u c next Hnode Hc He) as Hnext.
      destruct (IH h lab next (u ++ [c]) Hs Hnext Hsym) as
        (h' & lab' & node' & Hloop & Hs' & Hsub & Hnode' & Hnew & Hdata & Hlen); [lia|].
      exists h', lab', node'. rewrite (loop_found h lab node c rest next) by eauto.
      rewrite <- app_assoc in Hnode'.
      split; [done|]. split; [done|]. split; [done|]. split; [done|].
      split; [|split]; [|done|simpl; lia].
      intros i v Hi. destruct (Hnew i v Hi) as [?|(? & k & ->)]; [by left|right].
      split; [done|]. exists (S k). by rewrite <- app_assoc.
    + destruct (loop_new h lab node c rest Hs) as (h1 & Hloop1 & Hex & Hinv1);
        [eauto|done|done|lia|].
      destruct (shaped_extend h lab node u c h1 Hs Hnode Hc He Hex Hinv1) as [Hs1 Hfresh].
      destruct (IH h1 _ (length h) (u ++ [c]) Hs1) as
        (h' & lab' & node' & Hloop & Hs' & Hsub & Hnode' & Hnew & Hdata & Hlen);
        [by rewrite lookup_insert_eq|done|rewrite (ex_length _ _ _ _ Hex); lia|].
      exists h', lab', node'. rewrite Hloop1.
      rewrite <- app_assoc in Hnode'.
      split; [done|]. split; [done|]. split; [|split; [done|split; [|split]]].
      * etrans; [|done]. by apply insert_subseteq.
      * intros i v Hi. destruct (Hnew i v Hi) as [Hold|(Hn & k & ->)].
        -- destruct (decide (i = length h)) as [->|Hin].
           ++ rewrite lookup_insert_eq in Hold. simplify_eq. right. split; [done|].
              exists 1. simpl. by rewrite take_0.
           ++ rewrite lookup_insert_ne in Hold by done. by left.
        -- right. apply lookup_insert_None in Hn as [Hn _]. split; [done|].
           exists (S k). by rewrite <- app_assoc.
      * intros i n' Hn'. specialize (Hdata i n' Hn').
        destruct (deref h i) as [n|] eqn:Hn.
        -- destruct (ex_old _ _ _ _ Hex i n Hn) as (n1 & Hn1 & Hd1).
           rewrite Hn1 in Hdata. congruence.
        -- destruct (deref h1 i) as [n1|] eqn:Hn1; [|done].
           destruct (decide (i = length h)) as [->|Hin].
           ++ destruct (ex_new _ _ _ _ Hex) as (n2 & Hn2 & Hd2). congruence.
           ++ destruct (ex_old_inv _ _ _ _ Hex i Hin) as [n2 Hn2]; [eauto|]. congruence.
      * rewrite (ex_length _ _ _ _ Hex) in Hlen. simpl. lia.
Qed.

(** What the loop of [add_word] leaves when it has gone from the node
    labelled [u] along [rest]. *)
Definition loop_post h lab (u rest : list Z) h' lab' (node' : ptr) : Prop :=
  shaped h' lab' ∧ lab ⊆ lab' ∧ lab' !! node' = Some (u ++ rest) ∧
  (∀ i v, lab' !! i = Some v →
     lab !! i = Some v ∨ (lab !! i = None ∧ ∃ k, v = u ++ take k rest)) ∧
  (∀ i n', deref h' i = Some n' →
     match deref h i with
     | Some n => data n' = data n
     | None => data n' = (false, ∅, nullptr)
     end).

(** [add_word], with the loop of the file. *)
Definition add_word_gen h (w : list Z * Z) : option (list (option (Node L))) :=
  '(h, node) ← loop h rt w.1;
  Some (modify node (λ n, set_output ({[w.2]} ∪ output n) (set_terminal true n)) h).

(** The trie of the words [W], before [build_failure]. *)
Record trie_inv (W : list (list Z * Z)) h lab : Prop := {
  ti_shaped : shaped h lab;
  ti_islab : ∀ i u, lab !! i = Some u → islab W u;
  ti_all : ∀ u, islab W u → ∃ i, lab !! i = Some u;
  ti_data : ∀ i n u, deref h i = Some n → lab !! i = Some u →
            output n = own W u ∧ terminal n = bool_decide (output n ≠ ∅) ∧
            link_fail n = nullptr
}.

Lemma shaped_frame h h' lab :
  shaped h lab → length h' = length h →
  (∀ k, links <$> deref h' k = links <$> deref h k) → shaped h' lab.
Proof.
  intros Hs Hlen Hlinks. destruct (data_frame h h' Hlen Hlinks) as [Hedge Hinv].
  assert (∀ k, is_Some (deref h' k) ↔ is_Some (deref h k)) as Hsome.
  { intros k. rewrite <- !(fmap_is_Some links). by rewrite Hlinks. }
  destruct Hs as [H1 H2 H3 H4 H5 H6 H7 H8]. constructor; try done.
  - destruct (deref h' nullptr) eqn:E; [|done].
    assert (is_Some (deref h nullptr)) as [n0 Hn0] by (apply Hsome; eauto). congruence.
  - intros i. by rewrite Hsome.
  - intros i u c j. rewrite Hedge. apply H6.
  - intros j u c Hj. destruct (H7 j u c Hj) as (i & Hi & He). exists i. by rewrite Hedge.
  - by apply Hinv.
Qed.

Lemma prefix_closed h lab v : ∀ j v',
  shaped h lab → lab !! j = Some v → v' `prefix_of` v → ∃ i, lab !! i = Some v'.
Proof.
  induction v as [|c v IH] using rev_ind; intros j v' Hs Hj Hp.
  - apply prefix_nil_inv in Hp as ->. eauto.
  - destruct Hp as [k Hk]. destruct (decide (k = [])) as [->|Hne].
    + rewrite app_nil_r in Hk. subst. eauto.
    + destruct (exists_last Hne) as (k' & c' & ->). rewrite app_assoc in Hk.
      apply app_inj_tail in Hk as [-> ->].
      destruct (sh_parent _ _ Hs j _ _ Hj) as (i & Hi & _).
      eapply (IH i); [done..|]. by apply prefix_app_r.
Qed.

Lemma islab_snoc_word W w e u :
  islab (W ++ [(w, e)]) u ↔ islab W u ∨ u `prefix_of` w.
Proof.
  unfold islab. rewrite Exists_app, Exists_cons, Exists_nil. simpl. naive_solver.
Qed.

Lemma own_snoc_word W w e u :
  own (W ++ [(w, e)]) u = own W u ∪ (if decide (w = u) then {[e]} else ∅).
Proof.
  apply set_eq. intros x. rewrite elem_of_union, !elem_of_own, elem_of_app.
  rewrite list_elem_of_singleton. case_decide; set_solver.
Qed.

Lemma add_word_post W h lab w e h' lab' node' :
  trie_inv W h lab → loop_post h lab [] w h' lab' node' →
  trie_inv (W ++ [(w, e)])
    (modify node' (λ n, set_output ({[e]} ∪ output n) (set_terminal true n)) h') lab'.
Proof.
  intros [Hs Hlab Hall Hdata] (Hs' & Hsub & Hnode' & Hnew & Hdata').
  simpl in Hnode'.
  set (f := λ n : Node L, set_output ({[e]} ∪ output n) (set_terminal true n)).
  assert (∀ k, links <$> deref (modify node' f h') k = links <$> deref h' k) as Hlinks.
  { intros k. rewrite deref_modify. case_decide; [|done]. by destruct (deref h' k). }
  constructor.
  - eapply shaped_frame; [done|by rewrite length_modify|done].
  - intros i u Hi. apply islab_snoc_word.
    destruct (Hnew i u Hi) as [Hold|(_ & k & ->)]; [left; by eapply Hlab|].
    right. apply prefix_take.
  - intros u [Hu|Hu]%islab_snoc_word.
    + destruct (Hall u Hu) as [i Hi]. exists i. by eapply lookup_weaken.
    + by eapply prefix_closed.
  - intros i n u Hn Hi. rewrite deref_modify in Hn.
    assert (∃ n', deref h' i = Some n' ∧ output n' = own W u ∧
                  terminal n' = bool_decide (output n' ≠ ∅) ∧ link_fail n' = nullptr)
      as (n' & Hn' & Ho' & Ht' & Hf').
    { destruct (deref h' i) as [n'|] eqn:Hn'; [|by case_decide].
      exists n'. split; [done|]. specialize (Hdata' i n' Hn').
      destruct (deref h i) as [n0|] eqn:Hn0;
        unfold data in Hdata'; injection Hdata' as Hdt Hdo Hdf.
      - assert (is_Some (lab !! i)) as [u0 Hu0] by (apply Hs; eauto).
        pose proof (lookup_weaken _ _ _ _ Hu0 Hsub) as Hu0'. rewrite Hi in Hu0'.
        injection Hu0' as ->. destruct (Hdata i n0 u0 Hn0 Hu0) as (Ho0 & Ht0 & Hf0).
        by rewrite Hdt, Hdo, Hdf.
      - rewrite Hdt, Hdo, Hdf.
        split; [|split; [|done]].
        + symmetry. apply set_eq. intros x. rewrite elem_of_own. split; [|set_solver].
          intros Hin. assert (islab W u) as Hu by (by eapply islab_word).
          destruct (Hall u Hu) as [i0 Hi0].
          pose proof (lookup_weaken _ _ _ _ Hi0 Hsub) as Hi0'.
          assert (i0 = i) as -> by (by eapply sh_inj).
          assert (is_Some (deref h i)) as [? ?] by (apply Hs; eauto). congruence.
        + symmetry. apply bool_decide_eq_false. intros Hx. by apply Hx. }
    rewrite Hn' in Hn. rewrite own_snoc_word.
    case_decide as Hin; simpl in Hn; injection Hn as <-.
    + subst i. rewrite Hi in Hnode'. injection Hnode' as ->.
      rewrite decide_True by done. simpl.
      split; [set_solver|]. split; [|done].
      symmetry. apply bool_decide_eq_true. set_solver.
    + rewrite decide_False.
      2:{ intros ->. apply Hin. by eapply sh_inj. }
      split; [set_solver|]. split; [|done]. done.
Qed.

Lemma add_word_gen_spec W h lab w e :
  trie_inv W h lab → Forall sym w → length h + length w ≤ cap →
  ∃ h' lab', add_word_gen h (w, e) = Some h' ∧
             trie_inv (W ++ [(w, e)]) h' lab' ∧
             length h' ≤ length h + length w.
Proof.
  intros Hinv Hw Hcap. pose proof (ti_shaped _ _ _ Hinv) as Hs.
  destruct (loop_spec w h lab rt [] Hs (sh_root _ _ Hs) Hw Hcap) as
    (h' & lab' & node' & Hloop & Hs' & Hsub & Hnode' & Hnew & Hdata' & Hlen).
  eexists _, lab'. unfold add_word_gen. simpl. rewrite Hloop. simpl.
  split; [done|]. split; [|by rewrite length_modify].
  by apply (add_word_post W h lab w e h' lab' node' Hinv).
Qed.

(** [build], up to [build_failure]: the words are added one by one. *)
Lemma add_words_spec ws : ∀ W h lab,
  trie_inv W h lab → Forall (λ we, Forall sym we.1) ws →
  length h + sum_list_with (λ we, length we.1) ws ≤ cap →
  ∃ h' lab', foldM add_word_gen h ws = Some h' ∧
             trie_inv (W ++ ws) h' lab' ∧
             length h' ≤ length h + sum_list_with (λ we, length we.1) ws.
Proof.
  induction ws as [|[w e] ws IH]; intros W h lab Hinv Hsym Hcap.
  - exists h, lab. rewrite app_nil_r. simpl. split; [done|]. split; [done|lia].
  - apply Forall_cons in Hsym as [Hw Hsym]. simpl in Hcap, Hw.
    destruct (add_word_gen_spec W h lab w e Hinv Hw) as (h1 & lab1 & Hadd & Hinv1 & Hlen1);
      [lia|].
    destruct (IH _ h1 lab1 Hinv1 Hsym) as (h' & lab' & Hfold & Hinv' & Hlen'); [lia|].
    exists h', lab'. rewrite foldM_cons, Hadd. simpl. rewrite Hfold.
    rewrite <- app_assoc in Hinv'. split; [done|]. split; [done|]. simpl. lia.
Qed.

(** When the heap is full.  [bad h] tells a heap in which the loop could not
    make the node it needed; what [loop_new] says holds below [cap] only. *)
Variable bad : list (option (Node L)) → Prop.
Hypothesis loop_over : ∀ h lab node c rest h' node',
  shaped h lab → is_Some (lab !! node) → sym c → edge h node c = None →
  cap ≤ length h → loop h node (c :: rest) = Some (h', node') → bad h'.
Hypothesis bad_loop : ∀ h node w h' node',
  bad h → loop h node w = Some (h', node') → bad h'.
Hypothesis bad_data : ∀ h node (f : Node L → Node L),
  (∀ n, links (f n) = links n) → bad h → bad (modify node f h).

Lemma loop_cap rest : ∀ h lab node u,
  shaped h lab → lab !! node = Some u → Forall sym rest →
  (∃ h' lab' node', loop h node rest = Some (h', node') ∧
                    loop_post h lab u rest h' lab' node') ∨
  (∀ h' node', loop h node rest = Some (h', node') → bad h').
Proof.
  induction rest as [|c rest IH]; intros h lab node u Hs Hnode Hsym.
  - left. exists h, lab, node. unfold loop_post. rewrite loop_nil, app_nil_r.
    split; [done|]. split; [done|]. split; [done|]. split; [done|].
    split; [|intros i n' Hn'; by rewrite Hn'].
    intros i v Hi. by left.
  - apply Forall_cons in Hsym as [Hc Hsym].
    destruct (edge h node c) as [next|] eqn:He.
    + pose proof (sh_edge _ _ Hs node u c next Hnode Hc He) as Hnext.
      rewrite (loop_found h lab node c rest next) by eauto.
      destruct (IH h lab next (u ++ [c]) Hs Hnext Hsym) as
        [(h' & lab' & node' & Hloop & Hs' & Hsub & Hnode' & Hnew & Hdata)|Hbad];
        [left|by right].
      exists h', lab', node'. rewrite <- app_assoc in Hnode'.
      split; [done|]. split; [done|]. split; [done|]. split; [done|].
      split; [|done].
      intros i v Hi. destruct (Hnew i v Hi) as [?|(? & k & ->)]; [by left|right].
      split; [done|]. exists (S k). by rewrite <- app_assoc.
    + destruct (decide (length h < cap)) as [Hcap|Hcap].
      2:{ right. intros h' node' Hloop.
          eapply (loop_over h lab node c rest); [done|eauto|done|done|lia|done]. }
      destruct (loop_new h lab node c rest Hs) as (h1 & Hloop1 & Hex & Hinv1);
        [eauto|done|done|lia|].
      destruct (shaped_extend h lab node u c h1 Hs Hnode Hc He Hex Hinv1) as [Hs1 Hfresh].
      rewrite Hloop1.
      destruct (IH h1 _ (length h) (u ++ [c]) Hs1) as
        [(h' & lab' & node' & Hloop & Hs' & Hsub & Hnode' & Hnew & Hdata)|Hbad];
        [by rewrite lookup_insert_eq|done|left|by right].
      exists h', lab', node'.
      rewrite <- app_assoc in Hnode'.
      split; [done|]. split; [done|]. split; [|split; [done|split]].
      * etrans; [|done]. by apply insert_subseteq.
      * intros i v Hi. destruct (Hnew i v Hi) as [Hold|(Hn & k & ->)].
        -- destruct (decide (i = length h)) as [->|Hin].
           ++ rewrite lookup_insert_eq in Hold. simplify_eq. right. split; [done|].
              exists 1. simpl. by rewrite take_0.
           ++ rewrite lookup_insert_ne in Hold by done. by left.
        -- right. apply lookup_insert_None in Hn as [Hn _]. split; [done|].
           exists (S k). by rewrite <- app_assoc.
      * intros i n' Hn'. specialize (Hdata i n' Hn').
        destruct (deref h i) as [n|] eqn:Hn.
        -- destruct (ex_old _ _ _ _ Hex i n Hn) as (n1 & Hn1 & Hd1).
           rewrite Hn1 in Hdata. congruence.
        -- destruct (deref h1 i) as [n1|] eqn:Hn1; [|done].
           destruct (decide (i = length h)) as [->|Hin].
           ++ destruct (ex_new _ _ _ _ Hex) as (n2 & Hn2 & Hd2). congruence.
           ++ destruct (ex_old_inv _ _ _ _ Hex i Hin) as [n2 Hn2]; [eauto|]. congruence.
Qed.

Lemma add_word_cap W h lab w e :
  trie_inv W h lab → Forall sym w →
  (∃ h' lab', add_word_gen h (w, e) = Some h' ∧ trie_inv (W ++ [(w, e)]) h' lab') ∨
  (∀ h', add_word_gen h (w, e) = Some h' → bad h').
Proof.
  intros Hinv Hw. pose proof (ti_shaped _ _ _ Hinv) as Hs.
  destruct (loop_cap w h lab rt [] Hs (sh_root _ _ Hs) Hw) as
    [(h' & lab' & node' & Hloop & Hpost)|Hbad].
  - left. eexists _, lab'. unfold add_word_gen. simpl. rewrite Hloop. simpl.
    split; [done|]. by apply (add_word_post W h lab w e h' lab' node' Hinv).
  - right. intros h'. unfold add_word_gen. simpl.
    destruct (loop h rt w) as [[h1 node1]|] eqn:Hloop; simpl; [|done].
    intros [= <-]. apply bad_data; [done|]. by eapply Hbad.
Qed.

Lemma bad_words ws : ∀ h h',
  bad h → foldM add_word_gen h ws = Some h' → bad h'.
Proof.
  induction ws as [|w ws IH]; intros h h' Hbad.
  - by intros [= <-].
  - rewrite foldM_cons.
    destruct (add_word_gen h w) as [h1|] eqn:Hadd; simpl; [|done].
    apply IH. unfold add_word_gen in Hadd.
    destruct (loop h rt w.1) as [[h2 node2]|] eqn:Hloop; simpl in Hadd; [|done].
    injection Hadd as <-. apply bad_data; [done|]. by eapply bad_loop.
Qed.

(** [build], up to [build_failure]: the trie of the words, or a heap in
    which a node could not be made. *)
Lemma add_words_cap ws : ∀ W h lab,
  trie_inv W h lab → Forall (λ we, Forall sym we.1) ws →
  (∃ h' lab', foldM add_word_gen h ws = Some h' ∧ trie_inv (W ++ ws) h' lab') ∨
  (∀ h', foldM add_word_gen h ws = Some h' → bad h').
Proof.
  induction ws as [|[w e] ws IH]; intros W h lab Hinv Hsym.
  - left. exists h, lab. by rewrite app_nil_r.
  - apply Forall_cons in Hsym as [Hw Hsym]. simpl in Hw. rewrite foldM_cons.
    destruct (add_word_cap W h lab w e Hinv Hw) as [(h1 & lab1 & Hadd & Hinv1)|Hbad].
    + rewrite Hadd. simpl.
      destruct (IH _ h1 lab1 Hinv1 Hsym) as [(h' & lab' & Hfold & Hinv')|Hbad'];
        [left|by right].
      exists h', lab'. rewrite <- app_assoc in Hinv'. by split.
    + right. intros h'.
      destruct (add_word_gen h (w, e)) as [h1|] eqn:Hadd; simpl; [|done].
      apply bad_words. by apply Hbad.
Qed.

Lemma trie_inv_labelled W h lab : trie_inv W h lab → labelled W rt h lab.
Proof. intros [[] ? ? ?]. by constructor. Qed.
End Trie.

Local Open Scope Z_scope.


(** ** The segmenter yields words that are not empty *)
Local Close Scope Z_scope.

Lemma split_loop_nonempty pat : ∀ word pos ws,
  Forall (λ we : list Z * Z, we.1 ≠ []) ws →
  Forall (λ we : list Z * Z, we.1 ≠ []) (split_loop pat word pos ws).
Proof.
  induction pat as [|c pat IH]; intros word pos ws Hws; simpl.
  - destruct word; [done|]. apply Forall_app. split; [done|]. by apply Forall_singleton.
  - case_decide.
    + destruct word; [by apply IH|]. apply IH. apply Forall_app. split; [done|].
      by apply Forall_singleton.
    + by apply IH.
Qed.

Lemma split_to_words_nonempty pat :
  Forall (λ we : list Z * Z, we.1 ≠ []) (split_to_words pat).
Proof. by apply split_loop_nonempty. Qed.

(** ** [17.cpp]: the machine that [build] leaves *)

(** The edge of a node as [17.cpp] stores it. *)
Definition pedge (h : list (option (Node (gmap Z ptr)))) (i : ptr) (c : Z) : option ptr :=
  n ← deref h i; links n !! c.

Definition ptr_shaped (h : list (option (Node (gmap Z ptr)))) (lab : gmap nat (list Z)) : Prop :=
  shaped (λ _, True) Ptr.trie_root pedge (λ _, True) h lab.

Definition ptr_inner (rt node : ptr)
    (hq : list (option (Node (gmap Z ptr))) * list ptr)
  : option (list (option (Node (gmap Z ptr))) * list ptr) :=
  n ← deref hq.1 node;
  if decide (links n = ∅) then Some hq
  else foldM (bf_visit Ptr.goto_ rt node) hq (map_to_list (links n)).

Lemma NoDup_snd_of_fst {A B} (l : list (A * B)) :
  NoDup l.*1 → (∀ a1 a2 b, (a1, b) ∈ l → (a2, b) ∈ l → a1 = a2) → NoDup l.*2.
Proof.
  induction l as [|[a b] l IH]; simpl; intros Hnd Hinj; [constructor|].
  apply NoDup_cons in Hnd as [Hnin Hnd]. apply NoDup_cons. split.
  - intros Hin. apply list_elem_of_fmap in Hin as ([a' b'] & Heq & Hin). simpl in Heq. subst b'.
    assert (a = a') as <-.
    { apply (Hinj a a' b); [apply elem_of_cons; by left|apply elem_of_cons; by right]. }
    apply Hnin. apply list_elem_of_fmap. by exists (a, b).
  - apply IH; [done|]. intros a1 a2 b0 H1 H2.
    apply (Hinj a1 a2 b0); apply elem_of_cons; by right.
Qed.

Section PtrBuild.
Implicit Types h : list (option (Node (gmap Z ptr))).
Implicit Types lab : gmap nat (list Z).

Lemma pedge_frame h h' :
  length h' = length h → (∀ k, links <$> deref h' k = links <$> deref h k) →
  (∀ i c, pedge h' i c = pedge h i c) ∧ (True → True).
Proof.
  intros _ Hl. split; [|done]. intros i c. unfold pedge. specialize (Hl i).
  destruct (deref h' i), (deref h i); simpl in *; try done. by injection Hl as ->.
Qed.

Lemma ptr_loop_found h lab node c rest next :
  ptr_shaped h lab → is_Some (lab !! node) → True → pedge h node c = Some next →
  Ptr.add_word_loop h node (c :: rest) = Ptr.add_word_loop h next rest.
Proof.
  intros _ _ _ He. unfold pedge in He. simpl.
  destruct (deref h node) as [n|]; [|done]. simpl in *. by rewrite He.
Qed.

Lemma ptr_loop_new cap h lab node c rest :
  ptr_shaped h lab → is_Some (lab !! node) → True → pedge h node c = None →
  length h < cap →
  ∃ h1, Ptr.add_word_loop h node (c :: rest) = Ptr.add_word_loop h1 (length h) rest ∧
        extends (λ _, True) pedge h node c h1 ∧ True.
Proof.
  intros Hs Hnode _ He _.
  assert (is_Some (deref h node)) as [n Hn] by (by apply Hs).
  unfold pedge in He. rewrite Hn in He. simpl in He.
  pose proof (deref_lt _ _ _ Hn) as Hlt.
  eexists. split; [|split; [|done]].
  { simpl. rewrite Hn. simpl. by rewrite He. }
  constructor.
  - by rewrite length_modify, length_app, Nat.add_comm.
  - exists Ptr.new_node. split; [|done].
    rewrite deref_modify_ne by lia. apply deref_snoc.
  - intros i n0 Hn0. pose proof (deref_lt _ _ _ Hn0).
    rewrite deref_modify, deref_app_l, Hn0 by done. case_decide; eauto.
  - intros i Hi [n0 Hn0]. pose proof (deref_lt _ _ _ Hn0) as Hlt0.
    rewrite length_modify, length_app in Hlt0. simpl in Hlt0.
    rewrite deref_modify, deref_app_l in Hn0 by lia.
    case_decide; [|eauto]. destruct (deref h i); [eauto|done].
  - intros i c' _. unfold pedge. rewrite deref_modify.
    destruct (decide (i = node ∧ c' = c)) as [[-> ->]|Hne].
    + rewrite decide_True, deref_app_l, Hn by done. simpl. by rewrite lookup_insert_eq.
    + destruct (decide (i = length h)) as [->|Hin].
      * rewrite decide_False by lia. by rewrite deref_snoc.
      * assert (deref (h ++ [Some Ptr.new_node]) i = deref h i) as ->.
        { destruct (decide (i < length h)); [by apply deref_app_l|].
          unfold deref. rewrite !lookup_ge_None_2; [done|lia|].
          rewrite length_app. simpl. lia. }
        case_decide as E; [|done]. subst i. rewrite Hn. simpl.
        rewrite lookup_insert_ne; [done|]. intros ->. by apply Hne.
Qed.

Lemma ptr_trie_init : trie_inv (λ _, True) Ptr.trie_root pedge (λ _, True) [] Ptr.trie_init
                        {[Ptr.trie_root := []]}.
Proof.
  constructor.
  - constructor; try done.
    + intros i. unfold Ptr.trie_init, Ptr.trie_root.
      destruct i as [|[|i]]; simpl.
      * rewrite lookup_singleton_ne by done. unfold deref. simpl. split; by intros [? ?].
      * rewrite lookup_singleton_eq. unfold deref. simpl. split; eauto.
      * rewrite lookup_singleton_ne by done. unfold deref. simpl. split; by intros [? ?].
    + intros i j u [-> _]%lookup_singleton_Some [-> _]%lookup_singleton_Some. done.
    + intros i u [_ <-]%lookup_singleton_Some. constructor.
    + intros i u c j [<- <-]%lookup_singleton_Some _. unfold pedge, Ptr.trie_init, deref. simpl.
      by rewrite lookup_empty.
    + intros j u c [_ Hu]%lookup_singleton_Some. by destruct u.
  - intros i u [_ <-]%lookup_singleton_Some. apply islab_nil.
  - intros u [->|Hu]; [|by apply Exists_nil in Hu]. exists Ptr.trie_root.
    by rewrite lookup_singleton_eq.
  - intros i n u Hn [<- <-]%lookup_singleton_Some. unfold Ptr.trie_init, deref in Hn.
    simpl in Hn. simplify_eq. simpl. split; [|done].
    symmetry. apply set_eq. intros x. rewrite elem_of_own. set_solver.
Qed.

(** The trie of the words of a pattern. *)
Lemma ptr_add_words ws :
  ∃ h lab, foldM (Ptr.add_word Ptr.trie_root) Ptr.trie_init ws = Some h ∧
           trie_inv (λ _, True) Ptr.trie_root pedge (λ _, True) ws h lab.
Proof.
  destruct (add_words_spec (λ _, True) Ptr.trie_root pedge (λ _, True)
              (length Ptr.trie_init + sum_list_with (λ we, length we.1) ws)
              Ptr.add_word_loop) with (ws := ws) (W := @nil (list Z * Z))
              (h := Ptr.trie_init) (lab := ({[Ptr.trie_root := []]} : gmap nat (list Z)))
    as (h & lab & Hfold & Hinv & _).
  - done.
  - apply ptr_loop_found.
  - apply ptr_loop_new.
  - apply pedge_frame.
  - apply ptr_trie_init.
  - apply Forall_forall. intros we _. apply Forall_forall. done.
  - done.
  - by exists h, lab.
Qed.

Lemma ptr_children h lab i u n :
  ptr_shaped h lab → lab !! i = Some u → deref h i = Some n →
  NoDup (map_to_list (links n)).*2 ∧
  ∀ c j, (c, j) ∈ map_to_list (links n) ↔ True ∧ lab !! j = Some (u ++ [c]).
Proof.
  intros Hs Hi Hn.
  assert (∀ c j, (c, j) ∈ map_to_list (links n) ↔ True ∧ lab !! j = Some (u ++ [c])) as Hcs.
  { intros c j. rewrite elem_of_map_to_list. split.
    - intros Hl. split; [done|]. eapply (sh_edge _ _ _ _ _ _ Hs i u c j); [done..|].
      unfold pedge. by rewrite Hn.
    - intros [_ Hj]. destruct (sh_parent _ _ _ _ _ _ Hs j u c Hj) as (i' & Hi' & He).
      assert (i' = i) as -> by (by eapply sh_inj). unfold pedge in He. by rewrite Hn in He. }
  split; [|done]. apply NoDup_snd_of_fst; [apply NoDup_fst_map_to_list|].
  intros c1 c2 j [_ H1]%Hcs [_ H2]%Hcs. rewrite H1 in H2.
  injection H2 as H2. by apply app_inj_tail in H2 as [_ ?].
Qed.

Lemma ptr_shaped_links h h' lab :
  ptr_shaped h lab → ptr_shaped h' lab →
  ∀ k, links <$> deref h' k = links <$> deref h k.
Proof.
  intros Hs Hs' k. destruct (lab !! k) as [u|] eqn:Hk.
  - assert (is_Some (deref h k)) as [n Hn] by (apply Hs; eauto).
    assert (is_Some (deref h' k)) as [n' Hn'] by (apply Hs'; eauto).
    rewrite Hn, Hn'. simpl. f_equal. apply map_eq. intros c. apply option_eq. intros j.
    destruct (ptr_children h lab k u n Hs Hk Hn) as [_ Hc].
    destruct (ptr_children h' lab k u n' Hs' Hk Hn') as [_ Hc'].
    rewrite <- !elem_of_map_to_list. by rewrite Hc, Hc'.
  - assert (deref h k = None) as ->.
    { destruct (deref h k) eqn:E; [|done]. assert (is_Some (lab !! k)) as [? ?]; [|congruence].
      apply Hs. eauto. }
    assert (deref h' k = None) as ->; [|done].
    destruct (deref h' k) eqn:E; [|done]. assert (is_Some (lab !! k)) as [? ?]; [|congruence].
    apply Hs'. eauto.
Qed.

Lemma ptr_goto_trie W h lab :
  labelled W Ptr.trie_root h lab → ptr_shaped h lab →
  goto_trie W (λ _, True) Ptr.goto_ Ptr.trie_root h lab.
Proof.
  intros Hl Hs i u c Hi _.
  destruct (lab_deref W _ h lab i u Hl Hi) as [n Hn].
  unfold Ptr.goto_. rewrite Hn. simpl.
  destruct (links n !! c) as [j|] eqn:Hc.
  - exists j. split; [done|]. left.
    assert (lab !! j = Some (u ++ [c])) as Hj.
    { eapply (sh_edge _ _ _ _ _ _ Hs i u c j); [done..|]. unfold pedge. by rewrite Hn. }
    split; [|done]. by eapply lab_islab.
  - exists (if decide (i = Ptr.trie_root) then Ptr.trie_root else nullptr).
    split; [by case_decide|]. right. split; [|done].
    intros Hlab. destruct (lab_all _ _ _ _ Hl _ Hlab) as [j Hj].
    destruct (sh_parent _ _ _ _ _ _ Hs j u c Hj) as (i' & Hi' & He).
    assert (i' = i) as -> by (by eapply sh_inj). unfold pedge in He. rewrite Hn in He.
    simpl in He. congruence.
Qed.

Lemma ptr_shaped_frame h h' lab :
  ptr_shaped h lab → length h' = length h →
  (∀ k, links <$> deref h' k = links <$> deref h k) → ptr_shaped h' lab.
Proof. apply shaped_frame, pedge_frame. Qed.

Lemma ptr_inner_visits W lab h q node u :
  labelled W Ptr.trie_root h lab → ptr_shaped h lab → lab !! node = Some u → u ≠ [] →
  ∃ cs, ptr_inner Ptr.trie_root node (h, q) =
          foldM (bf_visit Ptr.goto_ Ptr.trie_root node) (h, q) cs ∧
        NoDup cs.*2 ∧
        ∀ c j, (c, j) ∈ cs ↔ True ∧ lab !! j = Some (u ++ [c]).
Proof.
  intros Hl Hs Hnode _. destruct (lab_deref W _ h lab node u Hl Hnode) as [n Hn].
  destruct (ptr_children h lab node u n Hs Hnode Hn) as [Hnd Hcs].
  exists (map_to_list (links n)). split; [|done].
  unfold ptr_inner. simpl. rewrite Hn. simpl. case_decide as E; [|done].
  by rewrite E, map_to_list_empty.
Qed.

Lemma ptr_bf_loop_gen fuel rt : ∀ h q,
  Ptr.bf_loop fuel rt h q = bf_gen (ptr_inner rt) fuel h q.
Proof.
  induction fuel as [|fuel IH]; intros h q; destruct q as [|node q]; try done.
  simpl. unfold ptr_inner. simpl. destruct (deref h node) as [n|]; [|done]. simpl.
  case_decide; [apply IH|].
  destruct (foldM _ _ _) as [[h' q']|]; [|done]. simpl. apply IH.
Qed.

Lemma foldl_set_fail rt (cs : list (Z * ptr)) : ∀ h,
  length (foldl (λ h e, modify e.2 (set_link_fail rt) h) h cs) = length h ∧
  ∀ i, deref (foldl (λ h e, modify e.2 (set_link_fail rt) h) h cs) i =
       if decide (i ∈ cs.*2) then set_link_fail rt <$> deref h i else deref h i.
Proof.
  induction cs as [|[c j] cs IH]; intros h.
  - split; [done|]. intros i. by simpl.
  - simpl foldl. simpl fmap. destruct (IH (modify j (set_link_fail rt) h)) as [Hlen Hd].
    split; [by rewrite Hlen, length_modify|].
    intros i. rewrite Hd, deref_modify.
    destruct (decide (i = j)) as [->|Hij].
    + rewrite (decide_True (P := j ∈ j :: _)) by (apply elem_of_cons; by left).
      case_decide; [|done]. by destruct (deref h j).
    + destruct (decide (i ∈ cs.*2)) as [Hin|Hin].
      * rewrite decide_True; [done|]. apply elem_of_cons. by right.
      * rewrite decide_False; [done|]. intros [?|?]%elem_of_cons; done.
Qed.

(** [build_failure] ends and leaves the machine built; the links are those
    of the trie. *)
Lemma ptr_build_failure_spec W h lab :
  Forall (λ we, we.1 ≠ []) W →
  trie_inv (λ _, True) Ptr.trie_root pedge (λ _, True) W h lab →
  ∃ h', Ptr.build_failure Ptr.trie_root h = Some h' ∧
        built W (λ _, True) Ptr.goto_ Ptr.trie_root h' lab ∧
        ptr_shaped h' lab ∧ length h' = length h ∧
        (∀ k, links <$> deref h' k = links <$> deref h k).
Proof.
  intros Wne Hinv. pose proof (trie_inv_labelled _ _ _ _ _ _ _ Hinv) as Hl.
  pose proof (ti_shaped _ _ _ _ _ _ _ Hinv) as Hs.
  destruct (lab_deref W _ h lab _ _ Hl (lab_root _ _ _ _ Hl)) as [r Hr].
  unfold Ptr.build_failure. rewrite Hr. simpl.
  destruct (foldl_set_fail Ptr.trie_root (map_to_list (links r)) h) as [Hlen Hd].
  set (h1 := foldl _ h _) in *.
  destruct (ptr_children h lab _ _ r Hs (lab_root _ _ _ _ Hl) Hr) as [Hnd Hcs].
  assert (∀ k, links <$> deref h1 k = links <$> deref h k) as Hlinks.
  { intros k. rewrite Hd. case_decide; [|done]. by destruct (deref h k). }
  assert (∀ k, is_Some (deref h1 k) ↔ is_Some (deref h k)) as Hsome.
  { intros k. rewrite <- !(fmap_is_Some links). by rewrite Hlinks. }
  assert (labelled W Ptr.trie_root h1 lab) as Hl1 by (by eapply labelled_frame).
  assert (ptr_shaped h1 lab) as Hs1 by (by eapply ptr_shaped_frame).
  assert (∀ i u, lab !! i = Some u → Forall (λ _ : Z, True) u) as Hsym.
  { intros i u _. by apply Forall_forall. }
  pose proof (λ h h', ptr_shaped_frame h h' lab) as Hframe.
  pose proof (ptr_goto_trie W) as Hgoto.
  pose proof (ptr_inner_visits W lab) as Hinner.
  assert (bfs_inv W Ptr.trie_root lab (λ h, ptr_shaped h lab) 1 [] Ptr.trie_root [] h1
            (map_to_list (links r)).*2) as Hbfs.
  { eapply (bfs_init W (λ _, True) Ptr.goto_ Ptr.trie_root lab (λ h, ptr_shaped h lab)
             Wne Hsym Hframe (λ h, Hgoto h lab) (ptr_inner Ptr.trie_root) Hinner);
      [done|done| |done| | |].
    - destruct (ti_data _ _ _ _ _ _ _ Hinv _ r [] Hr (lab_root _ _ _ _ Hl)) as (Ho & Ht & _).
      assert (own W [] = ∅) as Hown.
      { apply set_eq. intros x. rewrite elem_of_own. split; [|set_solver].
        intros Hin. rewrite Forall_forall in Wne. by apply Wne in Hin. }
      rewrite Hown in Ho. rewrite Ho in Ht.
      assert (terminal r = false) as Ht'.
      { rewrite Ht. apply bool_decide_eq_false. intros Hx. by apply Hx. }
      rewrite Hd, Hr.
      destruct (decide (_ ∈ _)); [exists (set_link_fail Ptr.trie_root r)|exists r]; simpl; auto.
    - intros j. rewrite list_elem_of_fmap. split.
      + intros ([c j'] & -> & [_ Hj]%Hcs). by exists c.
      + intros [c Hj]. exists (c, j). split; [done|]. by apply Hcs.
    - intros i u Hi Hu. destruct (lab_deref W _ h lab i u Hl Hi) as [n Hn].
      destruct (ti_data _ _ _ _ _ _ _ Hinv i n u Hn Hi) as (Ho & Ht & _).
      unfold fresh. rewrite Hd, Hn.
      destruct (decide (_ ∈ _)); [exists (set_link_fail Ptr.trie_root n)|exists n]; simpl; auto.
    - intros j c n Hj Hn. rewrite Hd in Hn. rewrite decide_True in Hn.
      + destruct (deref h j); simpl in Hn; by simplify_eq.
      + apply list_elem_of_fmap. exists (c, j). split; [done|]. by apply Hcs. }
  rewrite ptr_bf_loop_gen.
  destruct (bf_gen_spec W (λ _, True) Ptr.goto_ Ptr.trie_root lab (λ h, ptr_shaped h lab)
             Wne Hsym Hframe (λ h, Hgoto h lab) (ptr_inner Ptr.trie_root) Hinner
             (length h1) _ _ _ _ _ Hbfs)
    as (h' & d' & P' & cur' & Hgen & Hlen' & Hinv'); [simpl; lia|].
  exists h'. split; [done|]. split.
  { eapply (bfs_done W (λ _, True) Ptr.goto_ Ptr.trie_root lab (λ h, ptr_shaped h lab)
             Wne Hsym Hframe (λ h, Hgoto h lab) (ptr_inner Ptr.trie_root) Hinner). done. }
  pose proof (bi_struct _ _ _ _ _ _ _ _ _ _ Hinv') as Hs'.
  split; [done|]. split; [congruence|]. by apply (ptr_shaped_links h h' lab).
Qed.

(** [build] returns, for every pattern. *)
Lemma ptr_build_spec pat :
  ∃ h lab h0,
    Ptr.build pat = Some (h, split_to_words pat) ∧
    built (split_to_words pat) (λ _, True) Ptr.goto_ Ptr.trie_root h lab ∧
    ptr_shaped h lab ∧
    foldM (Ptr.add_word Ptr.trie_root) Ptr.trie_init (split_to_words pat) = Some h0 ∧
    trie_inv (λ _, True) Ptr.trie_root pedge (λ _, True) (split_to_words pat) h0 lab ∧
    Ptr.build_failure Ptr.trie_root h0 = Some h ∧
    length h = length h0 ∧
    (∀ k, links <$> deref h k = links <$> deref h0 k).
Proof.
  destruct (ptr_add_words (split_to_words pat)) as (h0 & lab & Hfold & Hinv).
  destruct (ptr_build_failure_spec _ h0 lab (split_to_words_nonempty pat) Hinv)
    as (h & Hbf & Hbuilt & Hs & Hlen & Hlinks).
  exists h, lab, h0. unfold Ptr.build. rewrite Hfold. simpl. rewrite Hbf. simpl. done.
Qed.
End PtrBuild.

Local Open Scope Z_scope.


(** ** The window *)

Lemma to_short_id z : -32768 ≤ z < 32768 → to_short z = z.
Proof. intros H. unfold to_short. rewrite Z.mod_small; lia. Qed.

Lemma to_short_range z : -32768 ≤ to_short z < 32768.
Proof. unfold to_short. pose proof (Z.mod_pos_bound (z + 32768) 65536). lia. Qed.

Lemma to_short_le z : -32768 ≤ z → to_short z ≤ z.
Proof.
  intros H. unfold to_short.
  pose proof (Z.mod_le (z + 32768) 65536). lia.
Qed.

Lemma bump_length pos ws win e win' :
  bump pos ws win e = Some win' → length win' = length win.
Proof.
  unfold bump. case_decide; [by intros [= <-]|].
  destruct (win !! _); [|done]. simpl. intros [= <-]. by rewrite length_insert.
Qed.

(** The loop of [match] over a list of word ends without repetition: every
    slot is incremented at most once, the slot [i] when the end
    [pos - 1 - wstart - i] is in the list. *)
Lemma bump_fold pos ws l : ∀ win win',
  NoDup l → foldM (bump pos ws) win l = Some win' →
  length win' = length win ∧
  ∀ i : nat, win' !! i =
    (λ x, if decide (pos - 1 - ws - Z.of_nat i ∈ l) then to_short (x + 1) else x)
      <$> win !! i.
Proof.
  induction l as [|e l IH]; intros win win' Hnd Hf.
  - simpl in Hf. injection Hf as <-. split; [done|]. intros i.
    by destruct (win !! i).
  - rewrite foldM_cons in Hf. destruct (bump pos ws win e) as [win1|] eqn:Hb; [|done].
    simpl in Hf. apply NoDup_cons in Hnd as [Hnin Hnd].
    destruct (IH win1 win' Hnd Hf) as [Hlen Hlk].
    pose proof (bump_length _ _ _ _ _ Hb) as Hlen1.
    split; [congruence|]. intros i. rewrite Hlk. unfold bump in Hb.
    case_decide as Hrel.
    + injection Hb as <-. destruct (win !! i); [|done]. simpl. f_equal.
      destruct (decide (pos - 1 - ws - Z.of_nat i ∈ l)) as [Hin|Hin].
      * rewrite decide_True; [done|]. apply elem_of_cons. by right.
      * rewrite decide_False; [done|]. intros [?|?]%elem_of_cons; [lia|done].
    + destruct (win !! Z.to_nat (pos - e - 1 - ws)) as [x|] eqn:Hx; [|done].
      simpl in Hb. injection Hb as <-.
      destruct (decide (i = Z.to_nat (pos - e - 1 - ws))) as [->|Hne].
      * rewrite list_lookup_insert_eq by (by eapply lookup_lt_Some).
        rewrite Hx. simpl. f_equal.
        assert (pos - 1 - ws - Z.of_nat (Z.to_nat (pos - e - 1 - ws)) = e) as -> by lia.
        rewrite decide_False by done. rewrite decide_True; [done|].
        apply elem_of_cons. by left.
      * rewrite list_lookup_insert_ne by done.
        destruct (win !! i); [|done]. simpl. f_equal.
        destruct (decide (pos - 1 - ws - Z.of_nat i ∈ l)) as [Hin|Hin].
        -- rewrite decide_True; [done|]. apply elem_of_cons. by right.
        -- rewrite decide_False; [done|]. intros [?|?]%elem_of_cons; [lia|done].
Qed.

(** The loop does not fail when every word end points into the window. *)
Lemma bump_fold_some pos ws l : ∀ win,
  (∀ e, e ∈ l → pos - e - 1 - ws < Z.of_nat (length win)) →
  is_Some (foldM (bump pos ws) win l).
Proof.
  induction l as [|e l IH]; intros win Hl; [by eexists|].
  rewrite foldM_cons.
  assert (is_Some (bump pos ws win e)) as [win1 Hb].
  { unfold bump. case_decide; [by eexists|].
    assert (pos - e - 1 - ws < Z.of_nat (length win)) as Hlt.
    { apply Hl. apply elem_of_cons. by left. }
    destruct (lookup_lt_is_Some_2 win (Z.to_nat (pos - e - 1 - ws))) as [x Hx]; [lia|].
    rewrite Hx. by eexists. }
  rewrite Hb. simpl. apply IH. intros e' He'.
  rewrite (bump_length _ _ _ _ _ Hb). apply Hl. apply elem_of_cons. by right.
Qed.

(** The loop fails when a word end points behind the window. *)
Lemma bump_fold_none pos ws l : ∀ win,
  (∃ e, e ∈ l ∧ Z.of_nat (length win) ≤ pos - e - 1 - ws) →
  foldM (bump pos ws) win l = None.
Proof.
  induction l as [|e l IH]; intros win (e' & Hin & Hge).
  { by apply not_elem_of_nil in Hin. }
  rewrite foldM_cons. destruct (bump pos ws win e) as [win1|] eqn:Hb; [|done].
  simpl. apply IH. apply elem_of_cons in Hin as [->|Hin].
  - exfalso. unfold bump in Hb. case_decide; [lia|].
    rewrite lookup_ge_None_2 in Hb; [done|lia].
  - exists e'. split; [done|]. by rewrite (bump_length _ _ _ _ _ Hb).
Qed.

Section Match.
Context {L : Type}.
Implicit Types h : list (option (Node L)).

(** [match] is the loop over the output of the state, terminal or not. *)
Lemma match_eq h pos ws win st n :
  deref h st = Some n → terminal n = bool_decide (output n ≠ ∅) →
  match_ h pos ws win st = foldM (bump pos ws) win (elements (output n)).
Proof.
  intros Hn Ht. unfold match_. rewrite Hn. simpl. rewrite Ht.
  case_bool_decide as E; [done|].
  assert (output n = ∅) as -> by (by destruct (decide (output n = ∅))).
  by rewrite elements_empty.
Qed.
End Match.

(** ** The part of [process] that the two files share *)
Section Slide.
Context {L : Type}.
Implicit Types h : list (option (Node L)).
Implicit Types M : Machine L.

(** What does not depend on the automaton in the state of the machine after
    the text [t]. *)
Record win_inv (pat t : list Z) M : Prop := {
  wi_pattern : pattern M = pat;
  wi_psize : pattern_size M = Z.of_nat (length pat);
  wi_words : words M = split_to_words pat;
  wi_counter : counter M = Z.of_nat (length t);
  wi_wlen : length (window M) = length pat;
  wi_wstart : window_start M =
              Z.max 0 (Z.of_nat (length t) - Z.of_nat (length pat) + 1)
}.

Lemma slide_inversion same M h cnt st n M' o :
  deref h st = Some n → terminal n = bool_decide (output n ≠ ∅) →
  slide same M h cnt st = Some (M', o) →
  ∃ win, foldM (bump cnt (window_start M)) (window M) (elements (output n)) = Some win ∧
    ((cnt < pattern_size M ∧
      M' = mkMachine h (root M) (pattern M) (pattern_size M) st cnt win
             (window_start M) (words M) ∧ o = []) ∨
     (pattern_size M ≤ cnt ∧ ∃ w0, win !! 0%nat = Some w0 ∧
      M' = mkMachine h (root M) (pattern M) (pattern_size M) st cnt
             (drop 1 win ++ [0]) (window_start M + 1) (words M) ∧
      o = if same w0 (Z.of_nat (length (words M))) then [cnt - pattern_size M] else [])).
Proof.
  intros Hn Ht. unfold slide. rewrite (match_eq _ _ _ _ _ _ Hn Ht).
  destruct (foldM _ _ _) as [win|]; [|done]. simpl. intros Hs.
  exists win. split; [done|]. case_decide.
  - left. by injection Hs as <- <-.
  - right. split; [lia|]. destruct (win !! 0%nat) as [w0|]; [|done]. simpl in Hs.
    exists w0. split; [done|]. by injection Hs as <- <-.
Qed.

Lemma slide_progress same M h cnt st n win :
  deref h st = Some n → terminal n = bool_decide (output n ≠ ∅) →
  foldM (bump cnt (window_start M)) (window M) (elements (output n)) = Some win →
  (0 < length win)%nat →
  is_Some (slide same M h cnt st).
Proof.
  intros Hn Ht Hf Hlen. unfold slide. rewrite (match_eq _ _ _ _ _ _ Hn Ht), Hf. simpl.
  destruct (decide (cnt < pattern_size M)); [eexists; reflexivity|].
  destruct (lookup_lt_is_Some_2 win 0 Hlen) as [w0 Hw0]. rewrite Hw0. eexists; reflexivity.
Qed.

(** The counters and the length of the window after one more symbol. *)
Lemma slide_win_inv same pat t c M h st n M' o :
  win_inv pat t M →
  deref h st = Some n → terminal n = bool_decide (output n ≠ ∅) →
  slide same M h (counter M + 1) st = Some (M', o) →
  win_inv pat (t ++ [c]) M' ∧ nodes M' = h ∧ state_ M' = st ∧ root M' = root M.
Proof.
  intros [Hp Hps Hw Hc Hwl Hws] Hn Ht Hs.
  destruct (slide_inversion _ _ _ _ _ _ _ _ Hn Ht Hs) as (win & Hf & Hcase).
  destruct (bump_fold _ _ _ _ _ (NoDup_elements _) Hf) as [Hlen _].
  destruct Hcase as [(Hlt & -> & ->)|(Hge & w0 & Hw0 & -> & ->)]; simpl.
  - split; [|done]. constructor; simpl; try done.
    + rewrite Hc, length_app. simpl. lia.
    + congruence.
    + rewrite Hws, length_app. simpl. lia.
  - split; [|done]. constructor; simpl; try done.
    + rewrite Hc, length_app. simpl. lia.
    + apply lookup_lt_Some in Hw0. rewrite length_app, length_drop. simpl. lia.
    + rewrite Hws, length_app. simpl. lia.
Qed.
End Slide.


(** ** [17.cpp]: one call of [process] *)

Lemma foldl_modify_idem {L} (f : Node L → Node L) (path : list ptr) :
  (∀ n, f (f n) = f n) →
  ∀ h : list (option (Node L)),
    length (foldl (λ h node, modify node f h) h path) = length h ∧
    ∀ i, deref (foldl (λ h node, modify node f h) h path) i =
         if decide (i ∈ path) then f <$> deref h i else deref h i.
Proof.
  intros Hf. induction path as [|p path IH]; intros h.
  - split; [done|]. intros i. by simpl.
  - simpl foldl. destruct (IH (modify p f h)) as [Hlen Hd].
    split; [by rewrite Hlen, length_modify|].
    intros i. rewrite Hd, deref_modify.
    destruct (decide (i = p)) as [->|Hip].
    + rewrite (decide_True (P := p ∈ p :: _)) by (apply elem_of_cons; by left).
      case_decide; [|done]. destruct (deref h p); [|done]. simpl. by rewrite Hf.
    + destruct (decide (i ∈ path)) as [Hin|Hin].
      * rewrite decide_True; [done|]. apply elem_of_cons. by right.
      * rewrite decide_False; [done|]. intros [?|?]%elem_of_cons; done.
Qed.

Lemma ptr_goto_eq h h' rt i c n n' :
  deref h i = Some n → deref h' i = Some n' → links n' !! c = links n !! c →
  Ptr.goto_ h' rt i c = Ptr.goto_ h rt i c.
Proof. intros Hn Hn' Hl. unfold Ptr.goto_. rewrite Hn, Hn'. simpl. by rewrite Hl. Qed.

Section PtrProcess.
Variable pat : list Z.
Variable lab : gmap nat (list Z).
Notation W := (split_to_words pat).
Notation rt := Ptr.trie_root.

(** What [process] does to the automaton: it goes to the state of the
    longest suffix, and writes it into the links of the states it leaves. *)
Lemma ptr_process_heap t (M : Machine (gmap Z ptr)) c :
  W ≠ [] →
  built W (λ _, True) Ptr.goto_ rt (nodes M) lab →
  root M = rt → words M = W →
  lab !! state_ M = Some (lsuf W t) →
  ∃ path s' st h' n,
    walk Ptr.goto_ (length (nodes M)) (nodes M) rt (state_ M) c [] = Some (path, s', st) ∧
    h' = foldl (λ h node, modify node (Ptr.set_link c st) h) (nodes M) path ∧
    Ptr.process M c = slide Ptr.same_size M h' (counter M + 1) st ∧
    built W (λ _, True) Ptr.goto_ rt h' lab ∧
    lab !! st = Some (lsuf W (t ++ [c])) ∧
    deref h' st = Some n ∧ output n = out_of W (t ++ [c]) ∧
    terminal n = bool_decide (output n ≠ ∅) ∧
    length h' = length (nodes M) ∧
    (∀ i, data <$> deref h' i = data <$> deref (nodes M) i) ∧
    Forall (λ p, ∃ u, lab !! p = Some u ∧ u ≠ [] ∧ p ≠ rt) path.
Proof.
  intros HW [Hl Hg Hf Ho] Hrt Hwords Hst.
  destruct (walk_spec W (λ _, True) Ptr.goto_ rt (nodes M) lab c Hl Hg I
              (length (nodes M)) (state_ M) _ [] Hst)
    as (path & s' & st & Hwalk & Hlst & Hgst & _ & Hpath).
  { by eapply depth_bound. }
  { intros i u Hi Hu _. by apply Hf. }
  simpl in Hwalk. rewrite <- lsuf_step in Hlst.
  assert (∀ n, Ptr.set_link c st (Ptr.set_link c st n) = Ptr.set_link c st n) as Hidem.
  { intros n. unfold Ptr.set_link, set_links. simpl. by rewrite insert_insert_eq. }
  destruct (foldl_modify_idem (Ptr.set_link c st) path Hidem (nodes M)) as [Hlen Hd].
  set (h' := foldl _ (nodes M) path) in *.
  assert (∀ i, data <$> deref h' i = data <$> deref (nodes M) i) as Hdata.
  { intros i. rewrite Hd. case_decide; [|done]. by destruct (deref (nodes M) i). }
  assert (∀ k, is_Some (deref h' k) ↔ is_Some (deref (nodes M) k)) as Hsome.
  { intros k. rewrite <- !(fmap_is_Some data). by rewrite Hdata. }
  assert (labelled W rt h' lab) as Hl' by (by eapply labelled_frame).
  destruct (Ho st _ Hlst) as (n & Hn & Hno & Hnt).
  assert (∃ n', deref h' st = Some n' ∧ data n' = data n) as (n' & Hn' & Hdn).
  { specialize (Hdata st). rewrite Hn in Hdata.
    destruct (deref h' st) as [n'|]; simpl in Hdata; [|done].
    exists n'. split; [done|]. congruence. }
  unfold data in Hdn. injection Hdn as Hdt Hdo Hdf.
  exists path, s', st, h', n'.
  split; [done|]. split; [done|]. split.
  { unfold Ptr.process. rewrite Hwords. destruct W eqn:EW; [done|].
    rewrite Hrt, Hwalk. simpl. done. }
  split.
  { constructor; [done| | |].
    - intros i u c' Hi _. destruct (Hg i u c' Hi I) as (j & Hj & Hcase).
      destruct (lab_deref W rt _ lab i u Hl Hi) as [ni Hni].
      destruct (decide (i ∈ path ∧ c' = c)) as [[Hin ->]|Hnin].
      + exists st. split.
        * unfold Ptr.goto_. rewrite Hd, (decide_True (P := i ∈ path)), Hni by done.
          simpl. by rewrite lookup_insert_eq.
        * left. rewrite Forall_forall in Hpath.
          destruct (Hpath i Hin) as (u' & Hu' & _ & _ & Heq & _).
          rewrite Hi in Hu'. injection Hu' as <-. rewrite Heq.
          by rewrite <- lsuf_step.
      + exists j. split; [|done]. rewrite <- Hj.
        destruct (decide (i ∈ path)) as [Hin|Hin].
        * eapply ptr_goto_eq;
            [done|by rewrite Hd, (decide_True (P := i ∈ path)), Hni|].
          simpl. rewrite lookup_insert_ne; [done|]. intros ->. by apply Hnin.
        * eapply ptr_goto_eq;
            [done|by rewrite Hd, (decide_False (P := i ∈ path)), Hni|done].
    - intros i u Hi Hu. destruct (Hf i u Hi Hu) as (ni & Hni & Hfi).
      specialize (Hdata i). rewrite Hni in Hdata.
      destruct (deref h' i) as [ni'|] eqn:Hni'; simpl in Hdata; [|done].
      unfold data in Hdata. injection Hdata as _ _ Hdf'.
      exists ni'. split; [done|]. by rewrite Hdf'.
    - intros i u Hi. destruct (Ho i u Hi) as (ni & Hni & Hoi & Hti).
      specialize (Hdata i). rewrite Hni in Hdata.
      destruct (deref h' i) as [ni'|] eqn:Hni'; simpl in Hdata; [|done].
      unfold data in Hdata. injection Hdata as Hdt' Hdo' _.
      exists ni'. split; [done|]. by rewrite Hdt', Hdo'. }
  split; [done|]. split; [done|].
  split; [by rewrite Hdo, Hno, out_of_lsuf|]. split; [by rewrite Hdt, Hdo|].
  split; [done|]. split; [done|].
  eapply Forall_impl; [done|]. simpl. intros p (u & Hu & Hune & _).
  exists u. split; [done|]. split; [done|]. intros ->.
  rewrite (lab_root _ _ _ _ Hl) in Hu. by injection Hu as <-.
Qed.
End PtrProcess.


(** ** The segmenter *)
Local Close Scope Z_scope.

(** A part of the pattern that is empty or ends with a wildcard. *)
Definition closed (A : list Z) : Prop := A = [] ∨ last A = Some WILDCARD.

Lemma closed_lookup A : closed A → A ≠ [] → A !! (length A - 1) = Some WILDCARD.
Proof.
  intros [->|Hl] Hne; [done|]. rewrite <- Hl, last_lookup. f_equal. lia.
Qed.

Lemma closed_snoc A : closed (A ++ [WILDCARD]).
Proof. right. by rewrite last_snoc. Qed.

(** The maximal runs of a closed part followed by a word and by wildcards
    are those of the closed part, and the word. *)
Lemma maximal_run_app A w0 B a w :
  closed A → Forall (λ c, c ≠ WILDCARD) w0 → Forall (λ c, c = WILDCARD) B →
  maximal_run (A ++ w0 ++ B) a w ↔
  maximal_run A a w ∨ (w0 ≠ [] ∧ a = length A ∧ w = w0).
Proof.
  intros HA Hw0 HB.
  assert (∀ i c, (A ++ w0 ++ B) !! i = Some c → c ≠ WILDCARD →
            (i < length A ∧ A !! i = Some c) ∨
            (length A ≤ i < length A + length w0 ∧ w0 !! (i - length A) = Some c)) as Hnw.
  { intros i c Hi Hc. apply lookup_app_Some in Hi as [Hi|[Hge Hi]].
    - left. split; [by eapply lookup_lt_Some|done].
    - apply lookup_app_Some in Hi as [Hi|[Hge' Hi]].
      + right. split; [|done]. apply lookup_lt_Some in Hi. lia.
      + exfalso. apply Hc. rewrite Forall_forall in HB. apply HB.
        by eapply list_elem_of_lookup_2. }
  split.
  - intros ((Hne & Hrun) & Hleft & Hright).
    destruct w as [|c0 w'] eqn:Ew; [done|]. rewrite <- Ew in *.
    assert (w !! 0 = Some c0) as H0 by (by rewrite Ew).
    destruct (Hrun 0 c0 H0) as [Ha Hc0]. rewrite Nat.add_0_r in Ha.
    destruct (decide (a < length A)) as [HaA|HaA].
    + left.
      assert (a + length w < length A) as Hend.
      { destruct (decide (a + length w < length A)) as [?|Hge]; [done|]. exfalso.
        assert (A ≠ []) as HAne by (intros ->; simpl in HaA; lia).
        pose proof (closed_lookup A HA HAne) as Hlast.
        destruct (lookup_lt_is_Some_2 w (length A - 1 - a)) as [c Hc]; [lia|].
        destruct (Hrun _ _ Hc) as [Hp Hcw].
        replace (a + (length A - 1 - a)) with (length A - 1) in Hp by lia.
        rewrite lookup_app_l in Hp by lia. congruence. }
      split; [split; [done|]|split].
      * intros j c Hj. destruct (Hrun j c Hj) as [Hp Hc]. split; [|done].
        apply lookup_lt_Some in Hj. by rewrite lookup_app_l in Hp by lia.
      * destruct Hleft as [?|Hl]; [by left|right]. by rewrite lookup_app_l in Hl by lia.
      * right. destruct Hright as [Hr|Hr]; rewrite lookup_app_l in Hr by lia; [|done].
        apply lookup_ge_None in Hr. lia.
    + right.
      destruct (Hnw a c0 Ha Hc0) as [[? _]|[Hrange Hw0a]]; [lia|].
      assert (a = length A) as ->.
      { destruct Hleft as [->|Hl]; [lia|].
        destruct (decide (a = length A)) as [?|Hne']; [done|]. exfalso.
        rewrite lookup_app_r in Hl by lia. rewrite lookup_app_l in Hl by lia.
        rewrite Forall_forall in Hw0. apply (Hw0 WILDCARD); [|done].
        by eapply list_elem_of_lookup_2. }
      assert (length w ≤ length w0) as Hle.
      { destruct (decide (length w ≤ length w0)) as [?|Hgt]; [done|]. exfalso.
        destruct (lookup_lt_is_Some_2 w (length w0)) as [c Hc]; [lia|].
        destruct (Hrun _ _ Hc) as [Hp Hcw].
        destruct (Hnw _ _ Hp Hcw) as [[? _]|[? _]]; lia. }
      assert (∀ j c, w !! j = Some c → w0 !! j = Some c) as Hpt.
      { intros j c Hj. destruct (Hrun j c Hj) as [Hp Hc].
        destruct (Hnw _ _ Hp Hc) as [[? _]|[_ Hw]]; [lia|].
        by replace (length A + j - length A) with j in Hw by lia. }
      assert (length w = length w0) as Hlen.
      { destruct (decide (length w = length w0)) as [?|Hne']; [done|]. exfalso.
        destruct (lookup_lt_is_Some_2 w0 (length w)) as [c Hc]; [lia|].
        assert ((A ++ w0 ++ B) !! (length A + length w) = Some c) as Hp.
        { rewrite lookup_app_r by lia. rewrite lookup_app_l by lia.
          by replace (length A + length w - length A) with (length w) by lia. }
        destruct Hright as [Hr|Hr]; rewrite Hp in Hr; [done|].
        injection Hr as ->. rewrite Forall_forall in Hw0. apply (Hw0 WILDCARD); [|done].
        by eapply list_elem_of_lookup_2. }
      split; [|split; [done|]].
      * intros ->. simpl in Hlen. rewrite Ew in Hlen. done.
      * apply list_eq. intros j. destruct (w !! j) as [c|] eqn:Hj.
        -- symmetry. by apply Hpt.
        -- apply lookup_ge_None in Hj. symmetry. apply lookup_ge_None. lia.
  - intros [((Hne & Hrun) & Hleft & Hright)|(Hne & -> & ->)].
    + assert (a + length w ≤ length A) as Hend.
      { destruct (exists_last Hne) as (w' & c & ->). rewrite length_app. simpl.
        destruct (Hrun (length w') c) as [Hp _]; [by rewrite list_lookup_middle|].
        apply lookup_lt_Some in Hp. lia. }
      split; [split; [done|]|split].
      * intros j c Hj. destruct (Hrun j c Hj) as [Hp Hc]. split; [|done].
        by apply lookup_app_l_Some.
      * destruct Hleft as [?|Hl]; [by left|right]. by apply lookup_app_l_Some.
      * right. destruct Hright as [Hr|Hr]; [|by apply lookup_app_l_Some]. exfalso.
        apply lookup_ge_None in Hr. assert (a + length w = length A) as Heq by lia.
        assert (A ≠ []) as HAne. { intros ->. simpl in Heq. destruct w; [done|]. simpl in Heq. lia. }
        pose proof (closed_lookup A HA HAne) as Hlast.
        destruct (exists_last Hne) as (w' & c & ->). rewrite length_app in Heq. simpl in Heq.
        destruct (Hrun (length w') c) as [Hp Hc]; [by rewrite list_lookup_middle|].
        replace (a + length w') with (length A - 1) in Hp by lia. congruence.
    + split; [split; [done|]|split].
      * intros j c Hj. split.
        -- rewrite lookup_app_r by lia. rewrite lookup_app_l by (apply lookup_lt_Some in Hj; lia).
           by replace (length A + j - length A) with j by lia.
        -- rewrite Forall_forall in Hw0. apply Hw0. by eapply list_elem_of_lookup_2.
      * destruct (decide (A = [])) as [->|HAne]; [by left|right].
        rewrite lookup_app_l; [by apply closed_lookup|].
        destruct A; [done|]. simpl. lia.
      * rewrite lookup_app_r by lia. rewrite lookup_app_r by lia.
        replace (length A + length w0 - length A - length w0) with 0 by lia.
        destruct B as [|b B]; [by left|right]. simpl.
        apply Forall_cons in HB as [-> _]. done.
Qed.


(** The words found so far are the maximal runs of the closed part [A] of the
    pattern read so far. *)
Record split_res (A : list Z) (ws : list (list Z * Z)) : Prop := {
  sr_runs : ∀ w e, (w, e) ∈ ws ↔ ∃ a, maximal_run A a w ∧ e = run_end a w;
  sr_sorted : StronglySorted Z.lt ws.*2;
  sr_cover : ∀ j c, A !! j = Some c → c ≠ WILDCARD →
             ∃ w e a, (w, e) ∈ ws ∧ e = run_end a w ∧ a ≤ j < a + length w
}.

Definition split_inv (A : list Z) (ws : list (list Z * Z)) : Prop :=
  split_res A ws ∧ ∀ e, e ∈ ws.*2 → (e < Z.of_nat (length A) - 1)%Z.

Lemma split_skip A B ws :
  closed A → Forall (λ c, c = WILDCARD) B → split_inv A ws → split_inv (A ++ B) ws.
Proof.
  intros HA HB [[Hr Hs Hc] Hb]. split; [constructor|]; [|done| |].
  - intros w e. rewrite Hr. split; intros (a & Hm & He); exists a; (split; [|done]).
    + apply (maximal_run_app A [] B a w HA); [constructor|done|]. by left.
    + apply (maximal_run_app A [] B a w HA) in Hm as [?|(? & _)]; done.
  - intros j c Hj Hne. apply lookup_app_Some in Hj as [Hj|[_ Hj]]; [by eapply Hc|].
    exfalso. apply Hne. rewrite Forall_forall in HB. apply HB. by eapply list_elem_of_lookup_2.
  - intros e He. specialize (Hb e He). rewrite length_app. lia.
Qed.

Lemma split_close A w0 B ws :
  closed A → Forall (λ c, c ≠ WILDCARD) w0 → w0 ≠ [] → Forall (λ c, c = WILDCARD) B →
  (Z.of_nat (length A + length w0) ≤ 32768)%Z →
  split_inv A ws →
  split_res (A ++ w0 ++ B)
    (ws ++ [(w0, to_short (Z.of_nat (length A + length w0) - 1))]).
Proof.
  intros HA Hw0 Hne HB Hlen [[Hr Hs Hc] Hb].
  assert (length w0 ≠ 0) as Hl0 by (by destruct w0).
  assert (to_short (Z.of_nat (length A + length w0) - 1) = run_end (length A) w0) as ->.
  { unfold run_end. apply to_short_id. lia. }
  constructor.
  - intros w e. rewrite elem_of_app, list_elem_of_singleton, Hr. split.
    + intros [(a & Hm & He)|Heq].
      * exists a. split; [|done]. apply (maximal_run_app A w0 B a w HA); [done..|]. by left.
      * injection Heq as -> ->. exists (length A). split; [|done].
        apply (maximal_run_app A w0 B _ _ HA); [done..|]. by right.
    + intros (a & Hm & He).
      apply (maximal_run_app A w0 B a w HA) in Hm as [Hm|(_ & -> & ->)]; [| |done..].
      * left. by exists a.
      * right. by rewrite He.
  - rewrite fmap_app. apply StronglySorted_app_2; [|done|].
    + intros e1 e2 He1 ->%list_elem_of_singleton. specialize (Hb e1 He1).
      unfold run_end. simpl. lia.
    + repeat constructor.
  - intros j c Hj Hnw. apply lookup_app_Some in Hj as [Hj|[Hge Hj]].
    + destruct (Hc j c Hj Hnw) as (w & e & a & Hin & He & Ha).
      exists w, e, a. split; [|done]. apply elem_of_app. by left.
    + apply lookup_app_Some in Hj as [Hj|[_ Hj]].
      * exists w0, (run_end (length A) w0), (length A). split; [|split; [done|]].
        -- apply elem_of_app. right. by apply list_elem_of_singleton.
        -- apply lookup_lt_Some in Hj. lia.
      * exfalso. apply Hnw. rewrite Forall_forall in HB. apply HB.
        by eapply list_elem_of_lookup_2.
Qed.

Lemma split_loop_spec pat : ∀ A word ws,
  closed A → Forall (λ c, c ≠ WILDCARD) word →
  (Z.of_nat (length A + length word + length pat) ≤ 32768)%Z →
  split_inv A ws →
  split_res (A ++ word ++ pat)
    (split_loop pat word (Z.of_nat (length A + length word) - 1)%Z ws).
Proof.
  induction pat as [|c pat IH]; intros A word ws HA Hword Hlen Hinv; simpl.
  - destruct word as [|c0 word].
    + rewrite app_nil_r. apply Hinv.
    + apply (split_close A (c0 :: word) [] ws); try done. simpl in *. lia.
  - case_decide as Hc.
    + subst c. destruct word as [|c0 word].
      * replace (A ++ [] ++ WILDCARD :: pat) with ((A ++ [WILDCARD]) ++ [] ++ pat)
          by (by rewrite <- app_assoc).
        replace (Z.of_nat (length A + length (@nil Z)) - 1 + 1)%Z
          with (Z.of_nat (length (A ++ [WILDCARD]) + length (@nil Z)) - 1)%Z
          by (rewrite length_app; simpl; lia).
        apply IH; [apply closed_snoc|done| |].
        -- rewrite length_app. simpl in *. lia.
        -- apply split_skip; [done| |done]. by repeat constructor.
      * set (w0 := c0 :: word) in *.
        replace (A ++ w0 ++ WILDCARD :: pat) with ((A ++ w0 ++ [WILDCARD]) ++ [] ++ pat)
          by (by rewrite <- !app_assoc).
        replace (Z.of_nat (length A + length w0) - 1 + 1)%Z
          with (Z.of_nat (length (A ++ w0 ++ [WILDCARD]) + length (@nil Z)) - 1)%Z
          by (rewrite !length_app; simpl; lia).
        apply IH; [|done| |].
        -- right. by rewrite !app_assoc, last_snoc.
        -- rewrite !length_app. simpl in *. lia.
        -- split.
           ++ apply split_close; try done; [by repeat constructor|simpl in *; lia].
           ++ intros e. rewrite fmap_app, elem_of_app. simpl. rewrite list_elem_of_singleton.
              destruct Hinv as [_ Hb]. rewrite !length_app. simpl.
              intros [He| ->].
              ** specialize (Hb e He). rewrite ?length_app. simpl. lia.
              ** rewrite to_short_id; simpl in *; rewrite ?length_app; simpl; lia.
    + replace (A ++ word ++ c :: pat) with (A ++ (word ++ [c]) ++ pat)
        by (by rewrite <- !app_assoc).
      replace (Z.of_nat (length A + length word) - 1 + 1)%Z
        with (Z.of_nat (length A + length (word ++ [c])) - 1)%Z
        by (rewrite length_app; simpl; lia).
      apply IH; [done| | |done].
      * apply Forall_app. split; [done|]. by apply Forall_singleton.
      * rewrite length_app. simpl in *. lia.
Qed.

(** The segmenter, for a pattern of at most 32768 symbols. *)
Lemma split_to_words_res pat :
  (Z.of_nat (length pat) ≤ 32768)%Z → split_res pat (split_to_words pat).
Proof.
  intros Hlen. unfold split_to_words.
  apply (split_loop_spec pat [] [] []); [by left|done|simpl; lia|].
  split; [constructor|].
  - intros w e. split; [by intros ?%not_elem_of_nil|].
    intros (a & ((Hne & Hrun) & _) & _). destruct w as [|c w]; [done|].
    by destruct (Hrun 0 c).
  - constructor.
  - intros j c Hj. by rewrite lookup_nil in Hj.
  - intros e He. by apply not_elem_of_nil in He.
Qed.

Local Open Scope Z_scope.


(** ** The counts of the window *)
Lemma size_list_to_set_le (l : list Z) :
  (size (list_to_set l : gset Z) ≤ length l)%nat.
Proof.
  induction l as [|x l IH]; [done|].
  change (list_to_set (x :: l) : gset Z) with ({[x]} ∪ list_to_set l : gset Z).
  rewrite size_union_alt, size_singleton. simpl.
  assert (size (list_to_set l ∖ {[x]} : gset Z) ≤ size (list_to_set l : gset Z))%nat.
  { apply subseteq_size. set_solver. }
  lia.
Qed.

Section Hits.
Variable W : list (list Z * Z).
Implicit Types t : list Z.

Lemma elem_of_hits t s e : e ∈ hits W t s ↔ ∃ w, (w, e) ∈ W ∧ hit t s (w, e).
Proof.
  unfold hits. rewrite elem_of_list_to_set, list_elem_of_fmap. split.
  - intros ([w e'] & -> & [Hh Hin]%list_elem_of_filter). by exists w.
  - intros (w & Hin & Hh). exists (w, e). split; [done|]. by apply list_elem_of_filter.
Qed.

Lemma hits_nil s : Forall (λ we, we.1 ≠ []) W → hits W [] s = ∅.
Proof.
  intros Hne. apply set_eq. intros e. rewrite elem_of_hits. split; [|set_solver].
  intros (w & Hin & _ & Hs). simpl in Hs. rewrite take_nil in Hs.
  apply suffix_nil_inv in Hs as ->. rewrite Forall_forall in Hne. by apply Hne in Hin.
Qed.

Lemma hits_snoc t c s :
  hits W (t ++ [c]) s =
  hits W t s ∪ (if decide (Z.of_nat (length t) - s ∈ out_of W (t ++ [c]))
                then {[Z.of_nat (length t) - s]} else ∅).
Proof.
  apply set_eq. intros e. rewrite elem_of_union, !elem_of_hits. unfold hit. simpl.
  rewrite length_app. simpl. split.
  - intros (w & Hin & Hr & Hs).
    destruct (decide (s + e + 1 ≤ Z.of_nat (length t))) as [Hle|Hgt].
    + left. exists w. split; [done|]. split; [lia|].
      by rewrite take_app_le in Hs by lia.
    + right. assert (e = Z.of_nat (length t) - s) as -> by lia.
      rewrite take_ge in Hs by (rewrite length_app; simpl; lia).
      rewrite decide_True; [set_solver|]. apply elem_of_out_of. by exists w.
  - intros [(w & Hin & Hr & Hs)|He].
    + exists w. split; [done|]. split; [lia|]. by rewrite take_app_le by lia.
    + case_decide as Ho; [|set_solver]. apply elem_of_singleton in He as ->.
      apply elem_of_out_of in Ho as (w & Hin & Hs). exists w. split; [done|].
      split; [lia|]. rewrite take_ge; [done|]. rewrite length_app. simpl. lia.
Qed.

Lemma hits_new t s : Z.of_nat (length t) - s ∉ hits W t s.
Proof. rewrite elem_of_hits. intros (w & _ & Hr & _). simpl in Hr. lia. Qed.

Lemma size_hits_snoc t c s :
  Z.of_nat (size (hits W (t ++ [c]) s)) =
  Z.of_nat (size (hits W t s)) +
  (if decide (Z.of_nat (length t) - s ∈ out_of W (t ++ [c])) then 1 else 0).
Proof.
  rewrite hits_snoc. case_decide.
  - rewrite size_union by (pose proof (hits_new t s); set_solver).
    rewrite size_singleton. lia.
  - rewrite (right_id_L ∅ (∪)). lia.
Qed.

Lemma size_hits_le t s : (size (hits W t s) ≤ length W)%nat.
Proof.
  unfold hits. etrans; [apply size_list_to_set_le|].
  rewrite length_fmap. apply length_filter.
Qed.

Lemma filter_length_all {A} (P : A → Prop) `{∀ x, Decision (P x)} (l : list A) :
  length (filter P l) = length l ↔ Forall P l.
Proof.
  induction l as [|x l IH]; [by split; [constructor|]|].
  rewrite filter_cons. pose proof (length_filter P l) as Hle.
  case_decide as Hx; simpl.
  - rewrite Forall_cons. split.
    + intros Heq. split; [done|]. apply IH. lia.
    + intros [_ Hl]. f_equal. by apply IH.
  - split; [lia|]. by intros [? _]%Forall_cons.
Qed.

(** The slot holds the number of the words when every word is there. *)
Lemma hits_full t s :
  NoDup W.*2 → size (hits W t s) = length W ↔ Forall (hit t s) W.
Proof.
  intros Hnd. unfold hits. rewrite size_list_to_set.
  - rewrite length_fmap. apply filter_length_all.
  - eapply sublist_NoDup; [done|]. apply fmap_sublist, sublist_filter.
Qed.
End Hits.


(** ** The words of a pattern that fits a [short] *)
Local Close Scope Z_scope.

Lemma sorted_bounded_length (l : list Z) : ∀ lo hi,
  StronglySorted Z.lt l → Forall (λ x, lo ≤ x < hi)%Z l →
  (Z.of_nat (length l) ≤ Z.max 0 (hi - lo))%Z.
Proof.
  induction l as [|x l IH]; intros lo hi Hs Hb; [simpl; lia|].
  apply StronglySorted_inv in Hs as [Hs Hx].
  apply Forall_cons in Hb as [Hx0 Hb].
  assert (Forall (λ y, x + 1 ≤ y < hi)%Z l) as Hb'.
  { rewrite Forall_forall in Hb, Hx. apply Forall_forall. intros y Hy.
    specialize (Hb y Hy). specialize (Hx y Hy). lia. }
  specialize (IH _ _ Hs Hb'). simpl length. lia.
Qed.

Lemma sorted_NoDup (l : list Z) : StronglySorted Z.lt l → NoDup l.
Proof.
  induction l as [|x l IH]; intros Hs; [constructor|].
  apply StronglySorted_inv in Hs as [Hs Hx]. constructor; [|by apply IH].
  intros Hin. rewrite Forall_forall in Hx. specialize (Hx x Hin). lia.
Qed.

(** A suffix of a prefix of the text, symbol by symbol. *)
Lemma suffix_take_lookup (w t : list Z) (k : nat) :
  length w ≤ k ≤ length t →
  (∀ j c, w !! j = Some c → t !! (k - length w + j) = Some c) →
  w `suffix_of` take k t.
Proof.
  intros Hk Hw. exists (take (k - length w) (take k t)).
  rewrite <- (take_drop (k - length w) (take k t)) at 1. f_equal.
  apply list_eq. intros j. rewrite lookup_drop.
  destruct (w !! j) as [c|] eqn:Hj.
  - pose proof (lookup_lt_Some _ _ _ Hj). rewrite lookup_take_lt by lia. by apply Hw.
  - apply lookup_ge_None in Hj. apply lookup_ge_None. rewrite length_take. lia.
Qed.

Lemma suffix_take_lookup_inv (w t : list Z) (k j : nat) c :
  w `suffix_of` take k t → k ≤ length t → w !! j = Some c →
  length w ≤ k ∧ t !! (k - length w + j) = Some c.
Proof.
  intros Hs Hk Hj. pose proof (suffix_length _ _ Hs) as Hl.
  rewrite length_take in Hl. split; [lia|].
  pose proof (suffix_lookup_Some _ _ _ _ Hj Hs) as Hlk.
  rewrite length_take in Hlk. pose proof (lookup_lt_Some _ _ _ Hj).
  rewrite lookup_take_lt in Hlk by lia. rewrite <- Hlk. f_equal. lia.
Qed.

Section Words.
Variable pat : list Z.
Hypothesis Hlen : (Z.of_nat (length pat) ≤ 32768)%Z.
Notation W := (split_to_words pat).

Lemma word_run w e :
  (w, e) ∈ W → ∃ a, is_run pat a w ∧ e = run_end a w ∧ a + length w ≤ length pat.
Proof.
  intros Hin. apply (sr_runs _ _ (split_to_words_res pat Hlen)) in Hin
    as (a & ([Hne Hr] & _ & _) & He).
  exists a. split; [done|]. split; [done|].
  destruct (lookup_lt_is_Some_2 w (length w - 1)) as [c Hc].
  { destruct w; [done|]. simpl. lia. }
  destruct (Hr _ _ Hc) as [Hp _]. apply lookup_lt_Some in Hp.
  destruct w; [done|]. simpl in *. lia.
Qed.

Lemma word_end_range w e : (w, e) ∈ W → (0 ≤ e < Z.of_nat (length pat))%Z.
Proof.
  intros (a & [Hne _] & -> & Hle)%word_run. unfold run_end.
  destruct w; [done|]. simpl in *. lia.
Qed.

Lemma words_NoDup : NoDup W.*2.
Proof. apply sorted_NoDup, (sr_sorted _ _ (split_to_words_res pat Hlen)). Qed.

Lemma word_ends_apart : ¬ (0%Z ∈ W.*2 ∧ 1%Z ∈ W.*2).
Proof.
  intros [H0 H1].
  apply list_elem_of_fmap in H0 as ([w0 e0] & He0 & H0).
  apply list_elem_of_fmap in H1 as ([w1 e1] & He1 & H1). simpl in *. subst.
  apply (sr_runs _ _ (split_to_words_res pat Hlen)) in H0
    as (a0 & ([Hne0 _] & _ & Hr0) & He0).
  apply (sr_runs _ _ (split_to_words_res pat Hlen)) in H1
    as (a1 & ([Hne1 Hr1] & _ & _) & He1).
  unfold run_end in *.
  assert (a0 + length w0 = 1) as E0 by lia. rewrite E0 in Hr0.
  destruct (lookup_lt_is_Some_2 w1 (length w1 - 1)) as [c Hc].
  { destruct w1; [done|]. simpl. lia. }
  destruct (Hr1 _ _ Hc) as [Hp Hw].
  assert (a1 + (length w1 - 1) = 1) as E1.
  { destruct w1; [done|]. simpl in *. lia. }
  rewrite E1 in Hp. destruct Hr0 as [Hr0|Hr0]; congruence.
Qed.

Lemma words_length : (Z.of_nat (length W) ≤ 32767)%Z.
Proof.
  pose proof (sr_sorted _ _ (split_to_words_res pat Hlen)) as Hs.
  pose proof word_ends_apart as Hap.
  assert (Forall (λ e, 0 ≤ e < Z.of_nat (length pat))%Z W.*2) as Hb.
  { apply Forall_forall. intros e ([w e'] & -> & Hin)%list_elem_of_fmap.
    by eapply word_end_range. }
  rewrite <- (length_fmap snd W). destruct (W.*2) as [|x l]; [simpl; lia|].
  apply StronglySorted_inv in Hs as [Hs Hx].
  apply Forall_cons in Hb as [Hx0 Hb].
  assert (Forall (λ y, 2 ≤ y < Z.of_nat (length pat))%Z l) as Hb'.
  { rewrite Forall_forall in Hb, Hx. apply Forall_forall. intros y Hy.
    specialize (Hb y Hy). specialize (Hx y Hy).
    destruct (decide (y = 1%Z)) as [->|]; [|lia].
    exfalso. apply Hap. assert (x = 0%Z) as -> by lia.
    split; apply elem_of_cons; [by left|by right]. }
  pose proof (sorted_bounded_length l _ _ Hs Hb'). simpl length. lia.
Qed.

(** The pattern occurs at an alignment when every word stands where the
    alignment has it. *)
Lemma occurs_hits t (s : nat) :
  s + length pat ≤ length t →
  occurs_at pat t s ↔ Forall (hit t (Z.of_nat s)) W.
Proof.
  intros Hs. rewrite Forall_forall. split.
  - intros Ho [w e] Hin. destruct (word_run _ _ Hin) as (a & [Hne Hr] & -> & Ha).
    unfold hit, run_end. simpl.
    assert (Z.to_nat (Z.of_nat s + (Z.of_nat (a + length w) - 1) + 1) = s + a + length w)
      as -> by lia.
    split; [lia|]. apply suffix_take_lookup; [lia|].
    intros j c Hj. destruct (Hr _ _ Hj) as [Hp Hc].
    replace (s + a + length w - length w + j) with (s + (a + j)) by lia.
    by apply Ho.
  - intros Hh j c Hj Hc.
    destruct (sr_cover _ _ (split_to_words_res pat Hlen) _ _ Hj Hc)
      as (w & e & a & Hin & -> & Ha).
    destruct (Hh _ Hin) as [_ Hsuf]. unfold run_end in Hsuf. simpl in Hsuf.
    destruct (word_run _ _ Hin) as (a' & [Hne Hr] & He & Ha').
    assert (a' = a) as -> by (unfold run_end in He; lia).
    destruct (lookup_lt_is_Some_2 w (j - a)) as [c' Hc']; [lia|].
    destruct (Hr _ _ Hc') as [Hp _].
    replace (a + (j - a)) with j in Hp by lia. rewrite Hj in Hp. injection Hp as <-.
    destruct (suffix_take_lookup_inv _ _ _ _ _ Hsuf ltac:(lia) Hc') as [_ Hlk].
    rewrite <- Hlk. f_equal. lia.
Qed.

(** A pattern without a word has only wildcards. *)
Lemma no_words_occurs t s : W = [] → occurs_at pat t s.
Proof.
  intros HW j c Hj Hc.
  destruct (sr_cover _ _ (split_to_words_res pat Hlen) _ _ Hj Hc) as (w & e & a & Hin & _).
  rewrite HW in Hin. by apply not_elem_of_nil in Hin.
Qed.
End Words.

(** ** What a run prints *)

(** The offset printed after the symbol that completes the text [t]. *)
Definition emit (pat t : list Z) : list Z :=
  if decide (length pat ≤ length t ∧ occurs_at pat t (length t - length pat))
  then [Z.of_nat (length t - length pat)] else [].

(** The offsets printed while the symbols of [t2] follow the text [t1]. *)
Fixpoint emits (pat t1 t2 : list Z) : list Z :=
  match t2 with
  | [] => []
  | c :: t2 => emit pat (t1 ++ [c]) ++ emits pat (t1 ++ [c]) t2
  end.

Lemma occurs_at_app pat t t' i :
  i + length pat ≤ length t → occurs_at pat (t ++ t') i ↔ occurs_at pat t i.
Proof.
  intros Hi. unfold occurs_at.
  split; intros H j c Hj Hc; specialize (H j c Hj Hc);
    pose proof (lookup_lt_Some _ _ _ Hj);
    by rewrite lookup_app_l in * by lia.
Qed.

Lemma emits_filter pat : ∀ t2 t1,
  emits pat t1 t2 =
  Z.of_nat <$> filter (occurs_at pat (t1 ++ t2))
    (seq (length t1 + 1 - length pat)
         (length t1 + length t2 + 1 - length pat - (length t1 + 1 - length pat))).
Proof.
  induction t2 as [|c t2 IH]; intros t1.
  { simpl. by replace (_ - _ - _) with 0 by lia. }
  simpl emits. rewrite IH. rewrite <- (assoc_L (++) t1 [c] t2). simpl.
  rewrite length_app. simpl. unfold emit. rewrite length_app. simpl.
  destruct (decide (length pat ≤ length t1 + 1)) as [Hle|Hgt].
  - replace (length t1 + S (length t2) + 1 - length pat - (length t1 + 1 - length pat))
      with (S (length t1 + 1 + length t2 + 1 - length pat - (length t1 + 1 + 1 - length pat)))
      by lia.
    rewrite <- cons_seq, filter_cons.
    replace (S (length t1 + 1 - length pat)) with (length t1 + 1 + 1 - length pat) by lia.
    assert (occurs_at pat (t1 ++ c :: t2) (length t1 + 1 - length pat) ↔
            occurs_at pat (t1 ++ [c]) (length t1 + 1 - length pat)) as Hiff.
    { rewrite (cons_middle c t1 t2), (assoc_L (++)).
      apply occurs_at_app. rewrite length_app. simpl. lia. }
    destruct (decide (occurs_at pat (t1 ++ c :: t2) _)) as [Ho|Ho].
    + rewrite decide_True by (split; [lia|by apply Hiff]). done.
    + rewrite decide_False by (intros [_ ?]; by apply Ho, Hiff). done.
  - rewrite decide_False by lia. simpl. do 2 f_equal. f_equal; lia.
Qed.

Lemma emits_occurrences pat t :
  1 ≤ length pat → emits pat [] t = occurrences pat t.
Proof.
  intros Hm. rewrite emits_filter. unfold occurrences. simpl.
  replace (1 - length pat) with 0 by lia. do 3 f_equal. lia.
Qed.

Local Open Scope Z_scope.


(** ** The window counts the words seen *)

(** Every slot of the window is related by [R] to the number of the words
    seen at the alignment of the slot. *)
Definition counts (R : Z → Z → Prop) (W : list (list Z * Z)) (t : list Z)
    (wstart : Z) (win : list Z) : Prop :=
  ∀ (i : nat) x, win !! i = Some x →
    R x (Z.of_nat (size (hits W t (wstart + Z.of_nat i)))).

(** The counter of the program is a [short] that may have wrapped ... *)
Definition below (x y : Z) : Prop := -32768 ≤ x ≤ y.

(** ... and has not when the pattern is short enough. *)
Definition exact (x y : Z) : Prop := x = y.

(** The window after the loop of [match] for the symbol [c]. *)
Definition bumped (W : list (list Z * Z)) (t : list Z) (c : Z) (wstart : Z)
    (win0 win : list Z) : Prop :=
  ∀ i : nat, win !! i =
    (λ x, if decide (Z.of_nat (length t) - (wstart + Z.of_nat i) ∈ out_of W (t ++ [c]))
          then to_short (x + 1) else x) <$> win0 !! i.

Section Counts.
Variable W : list (list Z * Z).

Lemma counts_bump_below t c ws win0 win :
  counts below W t ws win0 → bumped W t c ws win0 win →
  counts below W (t ++ [c]) ws win.
Proof.
  intros Hc Hb i x Hx. rewrite Hb in Hx.
  destruct (win0 !! i) as [x0|] eqn:Hx0; [|done]. simpl in Hx. injection Hx as <-.
  specialize (Hc i x0 Hx0). unfold below in *. rewrite size_hits_snoc.
  case_decide.
  - pose proof (to_short_range (x0 + 1)). pose proof (to_short_le (x0 + 1)). lia.
  - lia.
Qed.

Lemma counts_bump_exact t c ws win0 win :
  Z.of_nat (length W) ≤ 32767 →
  counts exact W t ws win0 → bumped W t c ws win0 win →
  counts exact W (t ++ [c]) ws win.
Proof.
  intros HW Hc Hb i x Hx. rewrite Hb in Hx.
  destruct (win0 !! i) as [x0|] eqn:Hx0; [|done]. simpl in Hx. injection Hx as <-.
  specialize (Hc i x0 Hx0). unfold exact in *.
  pose proof (size_hits_snoc W t c (ws + Z.of_nat i)) as Hs.
  pose proof (size_hits_le W (t ++ [c]) (ws + Z.of_nat i)).
  case_decide.
  - rewrite to_short_id; lia.
  - lia.
Qed.

(** [pop_front] and [push_back(0)]. *)
Lemma counts_shift R t ws win :
  counts R W t ws win →
  R 0 (Z.of_nat (size (hits W t (ws + Z.of_nat (length win))))) →
  (0 < length win)%nat →
  counts R W t (ws + 1) (drop 1 win ++ [0]).
Proof.
  intros Hc H0 Hlen i x Hx.
  destruct (decide (i < length win - 1)%nat) as [Hi|Hi].
  - rewrite lookup_app_l in Hx by (rewrite length_drop; lia).
    rewrite lookup_drop in Hx. apply Hc in Hx.
    by replace (ws + 1 + Z.of_nat i) with (ws + Z.of_nat (1 + i)) by lia.
  - rewrite lookup_app_r in Hx by (rewrite length_drop; lia).
    rewrite length_drop in Hx.
    destruct (i - (length win - 1))%nat as [|k] eqn:E; [|by destruct k].
    injection Hx as <-.
    by replace (ws + 1 + Z.of_nat i) with (ws + Z.of_nat (length win)) by lia.
Qed.

(** No word has been seen at an alignment that starts after the text. *)
Lemma hits_ahead t s :
  (∀ e, e ∈ W.*2 → 0 ≤ e) → Z.of_nat (length t) ≤ s → hits W t s = ∅.
Proof.
  intros He Hs. apply set_eq. intros e. rewrite elem_of_hits. split; [|set_solver].
  intros (w & Hin & Hr & _). simpl in Hr.
  assert (0 ≤ e); [|lia]. apply He, list_elem_of_fmap. by exists (w, e).
Qed.
End Counts.

Section SlideCounts.
Context {L : Type}.
Implicit Types h : list (option (Node L)).
Implicit Types M : Machine L.
Variable pat : list Z.
Notation W := (split_to_words pat).

(** The window and what is printed when [process], in the state of the text
    [t], has found the state of the text [t ++ [c]]. *)
Lemma slide_window same t c M h st n M' o :
  win_inv pat t M →
  deref h st = Some n → terminal n = bool_decide (output n ≠ ∅) →
  output n = out_of W (t ++ [c]) →
  slide same M h (counter M + 1) st = Some (M', o) →
  ∃ win, length win = length pat ∧
    bumped W t c (window_start M) (window M) win ∧
    ((Z.of_nat (length t) + 1 < Z.of_nat (length pat) ∧ window M' = win ∧
      window_start M' = window_start M ∧ o = []) ∨
     (Z.of_nat (length pat) ≤ Z.of_nat (length t) + 1 ∧ ∃ w0, win !! 0%nat = Some w0 ∧
      window M' = drop 1 win ++ [0] ∧ window_start M' = window_start M + 1 ∧
      o = if same w0 (Z.of_nat (length W))
          then [Z.of_nat (length t) + 1 - Z.of_nat (length pat)] else [])).
Proof.
  intros [Hp Hps Hw Hc Hwl Hws] Hn Ht Ho Hs.
  destruct (slide_inversion _ _ _ _ _ _ _ _ Hn Ht Hs) as (win & Hf & Hcase).
  destruct (bump_fold _ _ _ _ _ (NoDup_elements _) Hf) as [Hlen Hlk].
  exists win. split; [congruence|]. split.
  { intros i. rewrite Hlk. destruct (window M !! i) as [x|]; [|done]. simpl. f_equal.
    rewrite Hc, Ho.
    replace (Z.of_nat (length t) + 1 - 1 - window_start M - Z.of_nat i)
      with (Z.of_nat (length t) - (window_start M + Z.of_nat i)) by lia.
    destruct (decide (_ ∈ elements _)) as [Hin|Hin].
    - rewrite decide_True; [done|]. by apply elem_of_elements.
    - rewrite decide_False; [done|]. by rewrite <- elem_of_elements. }
  rewrite Hc, Hps, Hw in Hcase.
  destruct Hcase as [(Hlt & -> & ->)|(Hge & w0 & Hw0 & -> & ->)]; simpl.
  - left. done.
  - right. split; [done|]. exists w0. done.
Qed.

(** The counts never exceed what has been seen, whatever the pattern. *)
Lemma slide_below same t c M h st n M' o :
  win_inv pat t M →
  deref h st = Some n → terminal n = bool_decide (output n ≠ ∅) →
  output n = out_of W (t ++ [c]) →
  counts below W t (window_start M) (window M) →
  slide same M h (counter M + 1) st = Some (M', o) →
  counts below W (t ++ [c]) (window_start M') (window M').
Proof.
  intros Hwi Hn Ht Ho Hc Hs.
  destruct (slide_window _ _ _ _ _ _ _ _ _ Hwi Hn Ht Ho Hs)
    as (win & Hlen & Hb & Hcase).
  pose proof (counts_bump_below W _ _ _ _ _ Hc Hb) as Hc'.
  destruct Hcase as [(_ & -> & -> & _)|(Hge & w0 & Hw0 & -> & -> & _)]; [done|].
  apply counts_shift; [done| |by eapply lookup_lt_Some].
  unfold below. lia.
Qed.

(** For a pattern that fits a [short], the counts are exact, [process] does
    not fail and prints the alignment it has completed if the pattern
    occurs there. *)
Lemma slide_exact same t c M h st n :
  Z.of_nat (length pat) ≤ 32768 → W ≠ [] →
  (∀ w0 k, 0 ≤ w0 ≤ 32767 → 0 ≤ k ≤ 32767 → same w0 k = bool_decide (w0 = k)) →
  win_inv pat t M →
  deref h st = Some n → terminal n = bool_decide (output n ≠ ∅) →
  output n = out_of W (t ++ [c]) →
  counts exact W t (window_start M) (window M) →
  ∃ M', slide same M h (counter M + 1) st = Some (M', emit pat (t ++ [c])) ∧
    win_inv pat (t ++ [c]) M' ∧
    counts exact W (t ++ [c]) (window_start M') (window M') ∧
    nodes M' = h ∧ state_ M' = st ∧ root M' = root M.
Proof.
  intros Hm HW Hsame Hwi Hn Ht Ho Hc.
  pose proof (words_length pat Hm) as HWl.
  assert (∀ e, e ∈ W.*2 → 0 ≤ e < Z.of_nat (length pat)) as Hends.
  { intros e ([w e'] & -> & Hin)%list_elem_of_fmap. by eapply word_end_range. }
  assert (0 < length pat)%nat as Hpos.
  { destruct (nil_or_length_pos pat) as [E|?]; [|lia]. exfalso. apply HW. by rewrite E. }
  pose proof Hwi as [Hp Hps Hw Hcn Hwl Hws].
  assert (is_Some (slide same M h (counter M + 1) st)) as [[M' o] Hs].
  { destruct (bump_fold_some (counter M + 1) (window_start M)
                (elements (output n)) (window M)) as [win Hf].
    { intros e He. apply elem_of_elements in He. rewrite Ho in He.
      apply out_of_subseteq, elem_of_list_to_set, Hends in He. lia. }
    eapply slide_progress; [done..|].
    destruct (bump_fold _ _ _ _ _ (NoDup_elements _) Hf) as [Hlen _]. lia. }
  destruct (slide_window _ _ _ _ _ _ _ _ _ Hwi Hn Ht Ho Hs)
    as (win & Hlen & Hb & Hcase).
  destruct (slide_win_inv _ _ _ c _ _ _ _ _ _ Hwi Hn Ht Hs) as (Hwi' & ? & ? & ?).
  pose proof (counts_bump_exact W _ _ _ _ _ HWl Hc Hb) as Hc'.
  exists M'. split; [|split; [done|split; [|done]]].
  - rewrite Hs. do 2 f_equal. unfold emit. rewrite length_app. simpl.
    destruct Hcase as [(Hlt & _ & _ & ->)|(Hge & w0 & Hw0 & _ & _ & ->)].
    + rewrite decide_False; [done|]. intros [? _]. lia.
    + specialize (Hc' _ _ Hw0). unfold exact in Hc'.
      change (Z.of_nat 0) with 0 in Hc'. rewrite Z.add_0_r in Hc'.
      pose proof (size_hits_le W (t ++ [c]) (window_start M)).
      rewrite Hsame by lia. rewrite Hc'.
      assert (window_start M = Z.of_nat (length t + 1 - length pat)) as -> by lia.
      destruct (decide (Z.of_nat (size (hits W (t ++ [c])
                  (Z.of_nat (length t + 1 - length pat)))) = Z.of_nat (length W)))
        as [Hfull|Hfull];
        [rewrite bool_decide_eq_true_2 by done|rewrite bool_decide_eq_false_2 by done].
      * rewrite decide_True; [f_equal; lia|]. split; [lia|].
        apply occurs_hits; [done|rewrite length_app; simpl; lia|].
        apply hits_full; [by apply words_NoDup|]. lia.
      * rewrite decide_False; [done|]. intros [_ Hocc]. apply Hfull.
        apply occurs_hits in Hocc; [|done|rewrite length_app; simpl; lia].
        apply hits_full in Hocc; [|by apply words_NoDup]. lia.
  - destruct Hcase as [(_ & -> & -> & _)|(Hge & w0 & Hw0 & -> & -> & _)]; [done|].
    apply counts_shift; [done| |lia]. unfold exact.
    rewrite hits_ahead; [done|intros e He; apply Hends in He; lia|].
    rewrite length_app, Hlen. simpl. lia.
Qed.
End SlideCounts.


(** ** [17.cpp]: the machine while it reads a text *)

Lemma ptr_same_size w0 k :
  0 ≤ w0 ≤ 32767 → 0 ≤ k ≤ 32767 → Ptr.same_size w0 k = bool_decide (w0 = k).
Proof. intros Hw Hk. unfold Ptr.same_size, to_size_t. by rewrite Z.mod_small by lia. Qed.

Lemma feed_cons {L} (process : Machine L → Z → option (Machine L * list Z)) M c t :
  feed process M (c :: t) =
  '(M1, o1) ← process M c; '(M2, o2) ← feed process M1 t; Some (M2, o1 ++ o2).
Proof. done. Qed.

Lemma ptr_process_no_words (M : Machine (gmap Z ptr)) c :
  words M = [] → Ptr.process M c = Some (process_no_words M (counter M + 1)).
Proof. intros Hw. unfold Ptr.process. by rewrite Hw. Qed.

Section PtrRun.
Variable pat : list Z.
Variable lab : gmap nat (list Z).
Notation W := (split_to_words pat).
Notation rt := Ptr.trie_root.

(** The machine after the text [t]: the automaton is the one that was
    built, up to the links that [process] has added; the state is that of
    the longest suffix of [t]; the window counts the words seen. *)
Record ptr_inv (R : Z → Z → Prop) (t : list Z) (M : Machine (gmap Z ptr)) : Prop := {
  pi_built : built W (λ _, True) Ptr.goto_ rt (nodes M) lab;
  pi_root : root M = rt;
  pi_state : lab !! state_ M = Some (lsuf W t);
  pi_win : win_inv pat t M;
  pi_counts : counts R W t (window_start M) (window M)
}.

Lemma ptr_process_exact t M c :
  Z.of_nat (length pat) ≤ 32768 → W ≠ [] → ptr_inv exact t M →
  ∃ M', Ptr.process M c = Some (M', emit pat (t ++ [c])) ∧ ptr_inv exact (t ++ [c]) M'.
Proof.
  intros Hm HW [Hb Hr Hs Hwi Hc].
  destruct (ptr_process_heap pat lab t M c HW Hb Hr (wi_words _ _ _ Hwi) Hs)
    as (path & s' & st & h' & n & Hwalk & Hh' & Hproc & Hb' & Hst & Hn & Hout & Hterm & _).
  destruct (slide_exact pat Ptr.same_size t c M h' st n Hm HW ptr_same_size
              Hwi Hn Hterm Hout Hc) as (M' & Hslide & Hwi' & Hc' & Hnodes & Hstate & Hroot).
  exists M'. split; [by rewrite Hproc|].
  constructor; [by rewrite Hnodes|congruence|by rewrite Hstate|done|done].
Qed.

Lemma ptr_process_below t M c M' o :
  W ≠ [] → ptr_inv below t M → Ptr.process M c = Some (M', o) →
  ptr_inv below (t ++ [c]) M'.
Proof.
  intros HW [Hb Hr Hs Hwi Hc] Hp.
  destruct (ptr_process_heap pat lab t M c HW Hb Hr (wi_words _ _ _ Hwi) Hs)
    as (path & s' & st & h' & n & Hwalk & Hh' & Hproc & Hb' & Hst & Hn & Hout & Hterm & _).
  rewrite Hproc in Hp.
  destruct (slide_win_inv _ _ _ c _ _ _ _ _ _ Hwi Hn Hterm Hp)
    as (Hwi' & Hnodes & Hstate & Hroot).
  pose proof (slide_below pat _ _ _ _ _ _ _ _ _ Hwi Hn Hterm Hout Hc Hp) as Hc'.
  constructor; [by rewrite Hnodes|congruence|by rewrite Hstate|done|done].
Qed.

Lemma ptr_feed_exact :
  Z.of_nat (length pat) ≤ 32768 → W ≠ [] →
  ∀ t2 t1 M, ptr_inv exact t1 M →
  ∃ M', feed Ptr.process M t2 = Some (M', emits pat t1 t2) ∧
        ptr_inv exact (t1 ++ t2) M'.
Proof.
  intros Hm HW. induction t2 as [|c t2 IH]; intros t1 M Hinv.
  { exists M. split; [done|]. by rewrite (right_id_L [] (++)). }
  destruct (ptr_process_exact t1 M c Hm HW Hinv) as (M1 & Hp & Hinv1).
  destruct (IH _ _ Hinv1) as (M' & Hf & Hinv').
  exists M'. simpl. rewrite Hp. simpl. rewrite Hf. simpl. split; [done|].
  by rewrite (cons_middle c t1 t2), (assoc_L (++)).
Qed.

Lemma ptr_feed_below :
  W ≠ [] →
  ∀ t2 t1 M M' o, ptr_inv below t1 M → feed Ptr.process M t2 = Some (M', o) →
  ptr_inv below (t1 ++ t2) M'.
Proof.
  intros HW. induction t2 as [|c t2 IH]; intros t1 M M' o Hinv Hf.
  { simpl in Hf. injection Hf as <- _. by rewrite (right_id_L [] (++)). }
  simpl in Hf. destruct (Ptr.process M c) as [[M1 o1]|] eqn:Hp; [|done].
  simpl in Hf. destruct (feed Ptr.process M1 t2) as [[M2 o2]|] eqn:Hf2; [|done].
  simpl in Hf. injection Hf as <- _.
  rewrite (cons_middle c t1 t2), (assoc_L (++)).
  eapply IH; [|done]. by eapply ptr_process_below.
Qed.
End PtrRun.

(** The machine that the constructor leaves. *)
Lemma ptr_make_spec pat :
  ∃ M lab, Ptr.make pat = Some M ∧
    built (split_to_words pat) (λ _, True) Ptr.goto_ Ptr.trie_root (nodes M) lab ∧
    root M = Ptr.trie_root ∧ state_ M = Ptr.trie_root ∧
    pattern M = pat ∧ pattern_size M = Z.of_nat (length pat) ∧
    words M = split_to_words pat ∧ counter M = 0 ∧
    window M = replicate (length pat) 0 ∧ window_start M = 0.
Proof.
  destruct (ptr_build_spec pat) as (h & lab & h0 & Hb & Hbuilt & _).
  eexists _, lab. unfold Ptr.make. rewrite Hb. simpl. split; [done|]. by simpl.
Qed.

Lemma ptr_make_inv pat R :
  split_to_words pat ≠ [] → R 0 0 →
  ∃ M lab, Ptr.make pat = Some M ∧ ptr_inv pat lab R [] M.
Proof.
  intros HW HR.
  destruct (ptr_make_spec pat)
    as (M & lab & HM & Hb & Hr & Hs & Hp & Hps & Hw & Hc & Hwin & Hws).
  exists M, lab. split; [done|].
  assert (pat ≠ []) as Hne by (by intros ->).
  constructor; [done|done| | |].
  - rewrite Hs, lsuf_nil. by apply (built_lab _ _ _ _ _ _ Hb).
  - constructor; [done..|by rewrite Hwin, length_replicate|].
    rewrite Hws. destruct pat; [done|]. simpl length. lia.
  - intros i x Hx. rewrite hits_nil by apply split_to_words_nonempty.
    rewrite Hwin in Hx. apply lookup_replicate in Hx as [-> _]. by rewrite size_empty.
Qed.

(** A pattern without a word: one number for every symbol read from the
    [m]-th on. *)
Lemma ptr_feed_no_words pat :
  Z.of_nat (length pat) ≤ 32768 → pat ≠ [] → split_to_words pat = [] →
  ∀ t2 t1 (M : Machine (gmap Z ptr)),
    words M = [] → pattern_size M = Z.of_nat (length pat) →
    counter M = Z.of_nat (length t1) →
    ∃ M', feed Ptr.process M t2 = Some (M', emits pat t1 t2).
Proof.
  intros Hm Hne HW. induction t2 as [|c t2 IH]; intros t1 M Hw Hps Hc.
  { by exists M. }
  rewrite feed_cons, ptr_process_no_words by done. simpl emits.
  unfold process_no_words. rewrite Hps, Hc.
  assert (emit pat (t1 ++ [c]) =
          if decide (Z.of_nat (length t1) + 1 < Z.of_nat (length pat)) then []
          else [Z.of_nat (length t1) + 1 - Z.of_nat (length pat)]) as ->.
  { unfold emit. rewrite length_app. simpl.
    destruct (decide (Z.of_nat (length t1) + 1 < Z.of_nat (length pat))) as [Hlt|Hlt].
    - rewrite decide_False; [done|]. intros [? _]. lia.
    - rewrite decide_True; [f_equal; lia|]. split; [lia|]. by apply no_words_occurs. }
  destruct (decide (Z.of_nat (length t1) + 1 < Z.of_nat (length pat))).
  - simpl. edestruct (IH (t1 ++ [c])) as (M' & ->); [done..| |].
    { simpl. rewrite length_app. simpl. lia. }
    by eexists.
  - rewrite decide_True by (destruct pat; [done|simpl; lia]).
    simpl. edestruct (IH (t1 ++ [c])) as (M' & ->); [done..| |].
    { simpl. rewrite length_app. simpl. lia. }
    by eexists.
Qed.

(** The run of [17.cpp] prints the occurrences of the pattern. *)
Lemma ptr_run_occurrences pat t :
  pat ≠ [] → Z.of_nat (length pat) ≤ 32768 →
  Ptr.run pat t = Some (occurrences pat t).
Proof.
  intros Hne Hm. unfold Ptr.run.
  rewrite <- emits_occurrences by (destruct pat; [done|simpl; lia]).
  destruct (decide (split_to_words pat = [])) as [HW|HW].
  - destruct (ptr_make_spec pat)
      as (M & lab & -> & _ & _ & _ & _ & Hps & Hw & Hc & _).
    simpl. rewrite HW in Hw.
    destruct (ptr_feed_no_words pat Hm Hne HW t [] M Hw Hps Hc) as (M' & ->). done.
  - destruct (ptr_make_inv pat exact HW eq_refl) as (M & lab & -> & Hinv). simpl.
    destruct (ptr_feed_exact pat lab Hm HW t [] M Hinv) as (M' & -> & _). done.
Qed.

(** The empty pattern: [process] prints [counter - 1] for every symbol. *)
Lemma ptr_feed_empty : ∀ t (M : Machine (gmap Z ptr)),
  words M = [] → pattern_size M = 0 → 0 ≤ counter M →
  ∃ M', feed Ptr.process M t =
        Some (M', (λ k, counter M + Z.of_nat k) <$> seq 0 (length t)).
Proof.
  induction t as [|c t IH]; intros M Hw Hps Hc; [by exists M|].
  rewrite feed_cons, ptr_process_no_words by done.
  unfold process_no_words. rewrite Hps.
  rewrite decide_False by lia. rewrite decide_False by lia.
  edestruct (IH (mkMachine (nodes M) (root M) (pattern M) 0 (state_ M) (counter M + 1)
                   (window M) (window_start M) (words M))) as (M' & HM'); [done..|simpl; lia|].
  simpl in *. rewrite HM'. simpl. eexists. do 2 f_equal. f_equal; [lia|].
  rewrite <- fmap_S_seq, <- list_fmap_compose. apply list_fmap_ext.
  intros _ k _. simpl. lia.
Qed.


(** ** [17_double_array_trie.cpp]: the trie *)
Local Close Scope Z_scope.

(** The edge of a node as the trie stores it: the entry of the link vector,
    [0] when there is none. *)
Definition fedge (h : list (option (Node Flat.Links))) (i : ptr) (c : Z) : option ptr :=
  n ← deref h i;
  id ← Flat.vec (links n) !! Z.to_nat c;
  if decide (id = 0%Z) then None else Some (Z.to_nat id).

(** The vector [nodes]: every id fits a [short], every node carries its
    index as id, every link is an index of the vector. *)
Record flat_wf (h : list (option (Node Flat.Links))) : Prop := {
  fw_len : (Z.of_nat (length h) ≤ 32768)%Z;
  fw_null : deref h nullptr = None;
  fw_some : ∀ i, 0 < i < length h → is_Some (deref h i);
  fw_node : ∀ i n, deref h i = Some n →
    Flat.node_id (links n) = Z.of_nat i ∧ length (Flat.vec (links n)) = 256 ∧
    Forall (λ id, (0 ≤ id < Z.of_nat (length h))%Z) (Flat.vec (links n))
}.

(** The number of nodes that the ids can tell apart. *)
Definition fcap : nat := Z.to_nat 32768.

Definition flat_shaped (h : list (option (Node Flat.Links))) (lab : gmap nat (list Z)) : Prop :=
  shaped is_byte Flat.trie_root fedge flat_wf h lab.

Lemma uchar_byte c : is_byte c → Flat.uchar c = c.
Proof. intros Hc. unfold Flat.uchar, is_byte in *. by rewrite Z.mod_small. Qed.

Lemma new_node_id id : Flat.node_id (links (Flat.new_node id)) = to_short id.
Proof. done. Qed.

Lemma new_node_length id : length (Flat.vec (links (Flat.new_node id))) = 256.
Proof. done. Qed.

Lemma new_node_lookup id (k : nat) x :
  Flat.vec (links (Flat.new_node id)) !! k = Some x → x = 0%Z.
Proof. by intros [-> _]%lookup_replicate. Qed.

Lemma new_node_data id : data (Flat.new_node id) = (false, ∅, nullptr).
Proof. done. Qed.

Local Arguments Flat.new_node : simpl never.

(** A link of a new node. *)
Lemma new_node_link id c :
  is_byte c → Flat.vec (links (Flat.new_node id)) !! Z.to_nat c = Some 0%Z.
Proof.
  intros Hc. destruct (lookup_lt_is_Some_2 (Flat.vec (links (Flat.new_node id))) (Z.to_nat c))
    as [x Hx]; [rewrite new_node_length; unfold is_byte in Hc; lia|].
  by rewrite Hx, (new_node_lookup _ _ _ Hx).
Qed.

Section FlatTrie.
Implicit Types h : list (option (Node Flat.Links)).
Implicit Types lab : gmap nat (list Z).

Lemma flat_get_link h i n c :
  flat_wf h → deref h i = Some n → is_byte c →
  ∃ id, Flat.vec (links n) !! Z.to_nat c = Some id ∧
        Flat.get_link n c = Some id ∧
        (0 ≤ id < Z.of_nat (length h))%Z ∧
        Flat.node_at h id = Some (Z.to_nat id).
Proof.
  intros Hwf Hn Hc. destruct (fw_node _ Hwf i n Hn) as (_ & Hlen & Hall).
  destruct (lookup_lt_is_Some_2 (Flat.vec (links n)) (Z.to_nat c)) as [id Hid].
  { unfold is_byte in Hc. lia. }
  exists id. split; [done|]. split; [unfold Flat.get_link; by rewrite uchar_byte|].
  pose proof (Forall_lookup_1 _ _ _ _ Hall Hid) as Hr. split; [done|].
  unfold Flat.node_at. by rewrite decide_True.
Qed.

Lemma fedge_frame h h' :
  length h' = length h → (∀ k, links <$> deref h' k = links <$> deref h k) →
  (∀ i c, fedge h' i c = fedge h i c) ∧ (flat_wf h → flat_wf h').
Proof.
  intros Hlen Hl.
  assert (∀ k, is_Some (deref h' k) ↔ is_Some (deref h k)) as Hsome.
  { intros k. rewrite <- !(fmap_is_Some links). by rewrite Hl. }
  split.
  - intros i c. unfold fedge. specialize (Hl i).
    destruct (deref h' i), (deref h i); simpl in *; try done. by injection Hl as ->.
  - intros [H1 H2 H3 H4]. constructor.
    + by rewrite Hlen.
    + destruct (deref h' nullptr) eqn:E; [|done].
      assert (is_Some (deref h nullptr)) as [? ?] by (apply Hsome; eauto). congruence.
    + intros i Hi. apply Hsome, H3. by rewrite <- Hlen.
    + intros i n' Hn'. specialize (Hl i). rewrite Hn' in Hl.
      destruct (deref h i) as [n|] eqn:Hn; simpl in Hl; [|done]. injection Hl as Hl.
      rewrite Hl, Hlen. by apply H4.
Qed.

Lemma flat_loop_found h lab node c rest next :
  flat_shaped h lab → is_Some (lab !! node) → is_byte c → fedge h node c = Some next →
  Flat.add_word_loop h node (c :: rest) = Flat.add_word_loop h next rest.
Proof.
  intros Hs _ Hc He. unfold fedge in He.
  destruct (deref h node) as [n|] eqn:Hn; [|done]. simpl in He.
  destruct (flat_get_link h node n c (sh_inv _ _ _ _ _ _ Hs) Hn Hc)
    as (id & Hid & Hg & Hr & Hat).
  rewrite Hid in He. simpl in He. case_decide as Hz; [done|]. injection He as <-.
  simpl. rewrite Hn. simpl. rewrite Hg. simpl. rewrite Hat. simpl.
  rewrite decide_False; [done|]. unfold nullptr. lia.
Qed.

Lemma flat_loop_new h lab node c rest :
  flat_shaped h lab → is_Some (lab !! node) → is_byte c → fedge h node c = None →
  length h < fcap →
  ∃ h1, Flat.add_word_loop h node (c :: rest) = Flat.add_word_loop h1 (length h) rest ∧
        extends is_byte fedge h node c h1 ∧ flat_wf h1.
Proof.
  intros Hs Hnode Hc He Hcap. pose proof (sh_inv _ _ _ _ _ _ Hs) as Hwf.
  assert (is_Some (deref h node)) as [n Hn] by (by apply Hs).
  pose proof (deref_lt _ _ _ Hn) as Hlt.
  destruct (flat_get_link h node n c Hwf Hn Hc) as (id & Hid & Hg & Hr & Hat).
  unfold fedge in He. rewrite Hn in He. simpl in He. rewrite Hid in He. simpl in He.
  case_decide as Hz; [|done]. subst id.
  assert (to_short (Z.of_nat (length h)) = Z.of_nat (length h)) as Hshort.
  { apply to_short_id. unfold fcap in Hcap. lia. }
  set (nn := Flat.new_node (Z.of_nat (length h))).
  set (h1 := modify node (Flat.set_link c (Z.of_nat (length h))) (h ++ [Some nn])).
  assert (Z.to_nat (Flat.uchar c) = Z.to_nat c) as Huc by (by rewrite uchar_byte).
  assert (∀ i, i ≠ length h → deref (h ++ [Some nn]) i = deref h i) as Hold.
  { intros i Hi. destruct (decide (i < length h)); [by apply deref_app_l|].
    unfold deref. rewrite !lookup_ge_None_2; [done|lia|].
    rewrite length_app. simpl. lia. }
  exists h1. split; [|split].
  - simpl. rewrite Hn. simpl. rewrite Hg. simpl. rewrite Hat. simpl.
    unfold Flat.add_node. rewrite deref_snoc. simpl. by rewrite Hshort.
  - constructor.
    + unfold h1. by rewrite length_modify, length_app, Nat.add_comm.
    + exists nn. split; [|apply new_node_data]. unfold h1.
      rewrite deref_modify_ne by lia. apply deref_snoc.
    + intros i n0 Hn0. pose proof (deref_lt _ _ _ Hn0). unfold h1.
      rewrite deref_modify, deref_app_l, Hn0 by done. case_decide; eauto.
    + intros i Hi [n0 Hn0]. unfold h1 in Hn0.
      rewrite deref_modify, Hold in Hn0 by done.
      case_decide; [|eauto]. destruct (deref h i); [eauto|done].
    + intros i c' Hc'. unfold fedge, h1. rewrite deref_modify.
      destruct (decide (i = node ∧ c' = c)) as [[-> ->]|Hne].
      * rewrite decide_True, deref_app_l, Hn by done. simpl. rewrite Huc.
        rewrite list_lookup_insert_eq by (by eapply lookup_lt_Some). simpl.
        rewrite decide_False by lia. by rewrite Nat2Z.id.
      * destruct (decide (i = length h)) as [->|Hin].
        -- rewrite decide_False by lia. rewrite deref_snoc. unfold nn.
           cbn [mbind option_bind]. by rewrite new_node_link.
        -- rewrite Hold by done. case_decide as E; [|done]. subst i. rewrite Hn. simpl.
           rewrite Huc. rewrite list_lookup_insert_ne; [done|].
           intros E. apply Hne. split; [done|]. unfold is_byte in *. lia.
  - destruct Hwf as [H1 H2 H3 H4]. constructor.
    + unfold h1. rewrite length_modify, length_app. simpl. unfold fcap in Hcap. lia.
    + unfold h1. rewrite deref_modify.
      assert (deref (h ++ [Some nn]) nullptr = None) as ->.
      { rewrite Hold; [done|]. unfold nullptr. lia. }
      by case_decide.
    + intros i Hi. unfold h1 in *. rewrite length_modify, length_app in Hi. simpl in Hi.
      apply deref_modify_is_Some.
      destruct (decide (i = length h)) as [->|Hin]; [rewrite deref_snoc; eauto|].
      rewrite Hold by done. apply H3. lia.
    + intros i n0 Hn0. unfold h1 in *. rewrite length_modify, length_app. simpl length.
      rewrite deref_modify in Hn0.
      assert (∀ m, deref (h ++ [Some nn]) i = Some m →
                Flat.node_id (links m) = Z.of_nat i ∧ length (Flat.vec (links m)) = 256 ∧
                Forall (λ id, (0 ≤ id < Z.of_nat (length h + 1))%Z) (Flat.vec (links m)))
        as Hbase.
      { intros m Hm. apply deref_snoc_Some in Hm as [Hm|[-> ->]].
        - destruct (H4 i m Hm) as (? & ? & Hall). split; [done|]. split; [done|].
          eapply Forall_impl; [done|]. simpl. intros; lia.
        - unfold nn. rewrite new_node_id, Hshort. split; [done|]. split; [apply new_node_length|].
          apply Forall_lookup. intros k x ->%new_node_lookup. lia. }
      case_decide as E.
      * destruct (deref (h ++ [Some nn]) i) as [m|] eqn:Hm; [|done].
        simpl in Hn0. injection Hn0 as <-. destruct (Hbase m eq_refl) as (? & ? & Hall).
        simpl. split; [done|]. split; [by rewrite length_insert|].
        apply Forall_insert; [done|]. lia.
      * by apply Hbase.
Qed.

Lemma flat_trie_init :
  trie_inv is_byte Flat.trie_root fedge flat_wf [] Flat.trie_init {[Flat.trie_root := []]}.
Proof.
  assert (∀ i n, deref Flat.trie_init i = Some n → i = 1 ∧ n = Flat.new_node 1%Z) as Hinit.
  { intros i n Hn. destruct i as [|[|i]]; [done| |done].
    unfold deref in Hn. simpl in Hn. by injection Hn as <-. }
  constructor.
  - constructor; try done.
    + intros i. destruct i as [|[|i]]; unfold Flat.trie_root; simpl.
      * rewrite lookup_singleton_ne by done. unfold deref. simpl. split; by intros [? ?].
      * rewrite lookup_singleton_eq. unfold deref. simpl. split; eauto.
      * rewrite lookup_singleton_ne by done. unfold deref. simpl. split; by intros [? ?].
    + intros i j u [-> _]%lookup_singleton_Some [-> _]%lookup_singleton_Some. done.
    + intros i u [_ <-]%lookup_singleton_Some. constructor.
    + intros i u c j [<- <-]%lookup_singleton_Some Hc He. unfold fedge in He.
      change (deref Flat.trie_init Flat.trie_root) with (Some (Flat.new_node 1%Z)) in He.
      cbn [mbind option_bind] in He. by rewrite new_node_link in He.
    + intros j u c [_ Hu]%lookup_singleton_Some. by destruct u.
    + constructor.
      * simpl. lia.
      * done.
      * intros i Hi. simpl in Hi. assert (i = 1) as -> by lia. unfold deref. simpl. eauto.
      * intros i n [-> ->]%Hinit. split; [done|]. split; [done|].
        apply Forall_lookup. intros k x ->%new_node_lookup. simpl. lia.
  - intros i u [_ <-]%lookup_singleton_Some. apply islab_nil.
  - intros u [->|Hu]; [|by apply Exists_nil in Hu]. exists Flat.trie_root.
    by rewrite lookup_singleton_eq.
  - intros i n u [-> ->]%Hinit [_ <-]%lookup_singleton_Some. simpl. split; [|done].
    symmetry. apply set_eq. intros x. rewrite elem_of_own. set_solver.
Qed.

(** The trie of the words of a pattern, when the ids fit a [short]. *)
Lemma flat_add_words ws :
  Forall (λ we, Forall is_byte we.1) ws →
  2 + sum_list_with (λ we, length we.1) ws ≤ fcap →
  ∃ h lab, foldM (Flat.add_word Flat.trie_root) Flat.trie_init ws = Some h ∧
           trie_inv is_byte Flat.trie_root fedge flat_wf ws h lab ∧
           length h ≤ 2 + sum_list_with (λ we, length we.1) ws.
Proof.
  intros Hsym Hcap.
  destruct (add_words_spec is_byte Flat.trie_root fedge flat_wf fcap
              Flat.add_word_loop) with (ws := ws) (W := @nil (list Z * Z))
              (h := Flat.trie_init) (lab := ({[Flat.trie_root := []]} : gmap nat (list Z)))
    as (h & lab & Hfold & Hinv & Hlen).
  - done.
  - apply flat_loop_found.
  - apply flat_loop_new.
  - apply fedge_frame.
  - apply flat_trie_init.
  - done.
  - done.
  - by exists h, lab.
Qed.
End FlatTrie.

(** The words of a pattern are not longer than the pattern. *)
Lemma split_loop_sum pat : ∀ word pos ws,
  sum_list_with (λ we : list Z * Z, length we.1) (split_loop pat word pos ws) ≤
  sum_list_with (λ we : list Z * Z, length we.1) ws + length word + length pat.
Proof.
  induction pat as [|c pat IH]; intros word pos ws; simpl.
  - destruct word; [lia|]. rewrite sum_list_with_app. simpl. lia.
  - case_decide.
    + destruct word.
      * etrans; [apply IH|]. simpl. lia.
      * etrans; [apply IH|]. rewrite sum_list_with_app. simpl. lia.
    + etrans; [apply IH|]. rewrite length_app. simpl. lia.
Qed.

Lemma split_to_words_sum pat :
  sum_list_with (λ we : list Z * Z, length we.1) (split_to_words pat) ≤ length pat.
Proof. etrans; [apply split_loop_sum|]. simpl. lia. Qed.

Lemma split_loop_bytes pat : ∀ word pos ws,
  Forall is_byte pat → Forall is_byte word →
  Forall (λ we : list Z * Z, Forall is_byte we.1) ws →
  Forall (λ we : list Z * Z, Forall is_byte we.1) (split_loop pat word pos ws).
Proof.
  induction pat as [|c pat IH]; intros word pos ws Hp Hw Hws; simpl.
  - destruct word; [done|]. apply Forall_app. split; [done|]. by apply Forall_singleton.
  - apply Forall_cons in Hp as [Hc Hp]. case_decide.
    + destruct word; [by apply IH|]. apply IH; [done|constructor|].
      apply Forall_app. split; [done|]. by apply Forall_singleton.
    + apply IH; [done| |done]. apply Forall_app. split; [done|]. by apply Forall_singleton.
Qed.

Lemma split_to_words_bytes pat :
  Forall is_byte pat → Forall (λ we : list Z * Z, Forall is_byte we.1) (split_to_words pat).
Proof. intros Hp. apply split_loop_bytes; [done|constructor|constructor]. Qed.

Local Open Scope Z_scope.


(** ** [17_double_array_trie.cpp]: the link vectors *)
Local Close Scope Z_scope.

(** A loop over a list, with an invariant that counts the elements done. *)
Lemma foldM_take_ind {A B} (f : B → A → option B) (I : nat → B → Prop) l b :
  I 0 b →
  (∀ k x b, l !! k = Some x → I k b → ∃ b', f b x = Some b' ∧ I (S k) b') →
  ∃ b', foldM f b l = Some b' ∧ I (length l) b'.
Proof.
  induction l as [|x l IH] using rev_ind; intros H0 Hstep; [by exists b|].
  destruct IH as (b1 & Hf & HI); [done| |].
  { intros k y b0 Hk. apply Hstep. rewrite lookup_app_l; [done|]. by eapply lookup_lt_Some. }
  destruct (Hstep (length l) x b1) as (b' & Hfx & HI'); [apply list_lookup_middle; done|done|].
  exists b'. rewrite foldM_app, Hf. simpl. rewrite Hfx. simpl.
  rewrite length_app. simpl. by rewrite Nat.add_1_r.
Qed.

Lemma entries_lookup (n : Node Flat.Links) k :
  Flat.entries n !! k = (λ id, (Flat.uchar (Z.of_nat k), id)) <$> Flat.vec (links n) !! k.
Proof. unfold Flat.entries. by rewrite list_lookup_imap. Qed.

Lemma entries_length (n : Node Flat.Links) :
  length (Flat.entries n) = length (Flat.vec (links n)).
Proof. unfold Flat.entries. by rewrite length_imap. Qed.

Lemma uchar_nat k : k < 256 → Flat.uchar (Z.of_nat k) = Z.of_nat k.
Proof. intros Hk. apply uchar_byte. unfold is_byte. lia. Qed.

(** The entry of a loop over a link vector that leads to a node. *)
Definition kid (e : Z * Z) : option (Z * ptr) :=
  if decide (e.2 = 0%Z) then None else Some (e.1, Z.to_nat e.2).

Definition kids (n : Node Flat.Links) : list (Z * ptr) := omap kid (Flat.entries n).

Lemma elem_of_kids n c j :
  (c, j) ∈ kids n ↔
  ∃ k id, Flat.vec (links n) !! k = Some id ∧ id ≠ 0%Z ∧
          c = Flat.uchar (Z.of_nat k) ∧ j = Z.to_nat id.
Proof.
  unfold kids. rewrite list_elem_of_omap. split.
  - intros ([c' id] & Hin & Hk). apply list_elem_of_lookup in Hin as [k Hk'].
    rewrite entries_lookup in Hk'. unfold kid in Hk. simpl in Hk.
    case_decide; [done|]. injection Hk as -> <-.
    destruct (Flat.vec (links n) !! k) as [id'|] eqn:E; [|done].
    simpl in Hk'. injection Hk' as <- <-. by exists k, id'.
  - intros (k & id & Hk & Hne & -> & ->). exists (Flat.uchar (Z.of_nat k), id). split.
    + apply list_elem_of_lookup. exists k. by rewrite entries_lookup, Hk.
    + unfold kid. simpl. by rewrite decide_False.
Qed.

Lemma kids_fst_sublist (es : list (Z * Z)) : (omap kid es).*1 `sublist_of` es.*1.
Proof.
  induction es as [|e es IH]; [done|]. simpl. unfold kid at 1.
  case_decide; simpl; [by apply sublist_cons|by apply sublist_skip].
Qed.

Lemma kids_NoDup_fst n : length (Flat.vec (links n)) = 256 → NoDup (kids n).*1.
Proof.
  intros Hlen. eapply sublist_NoDup; [|apply kids_fst_sublist].
  apply NoDup_alt. intros i j c. rewrite !list_lookup_fmap, !entries_lookup.
  intros Hi Hj.
  destruct (Flat.vec (links n) !! i) as [x|] eqn:Ei; [|done].
  destruct (Flat.vec (links n) !! j) as [y|] eqn:Ej; [|done].
  apply lookup_lt_Some in Ei, Ej. simpl in *.
  rewrite uchar_nat in Hi by lia. rewrite uchar_nat in Hj by lia. simplify_eq. lia.
Qed.

(** The entries of the link vector of the node labelled [u]: the child on
    [c] where the trie has one, [dflt] elsewhere. *)
Definition trie_entries (W : list (list Z * Z)) (lab : gmap nat (list Z))
    (n : Node Flat.Links) (u : list Z) (dflt : Z) : Prop :=
  ∀ c, is_byte c →
    ∃ id, Flat.vec (links n) !! Z.to_nat c = Some id ∧
      ((islab W (u ++ [c]) ∧ lab !! Z.to_nat id = Some (u ++ [c]) ∧ id ≠ 0%Z) ∨
       (¬ islab W (u ++ [c]) ∧ id = dflt)).

(** The link vectors between the first loop of [build_failure] and
    [do_bfs]: those of the trie, but the root leads to itself where it has
    no child. *)
Definition flat_links (W : list (list Z * Z)) (lab : gmap nat (list Z))
    (h : list (option (Node Flat.Links))) : Prop :=
  flat_wf h ∧
  ∀ i u n, lab !! i = Some u → deref h i = Some n →
    trie_entries W lab n u (if decide (i = Flat.trie_root) then 1%Z else 0%Z).

Section FlatLinks.
Variable W : list (list Z * Z).
Implicit Types h : list (option (Node Flat.Links)).
Implicit Types lab : gmap nat (list Z).
Notation rt := Flat.trie_root.

(** The children of a node whose vector has [0] where there is no child. *)
Lemma kids_spec h lab i u n :
  labelled W rt h lab → flat_wf h → lab !! i = Some u → deref h i = Some n →
  trie_entries W lab n u 0%Z →
  NoDup (kids n).*2 ∧
  ∀ c j, (c, j) ∈ kids n ↔ is_byte c ∧ lab !! j = Some (u ++ [c]).
Proof.
  intros Hl Hwf Hi Hn He.
  destruct (fw_node _ Hwf i n Hn) as (_ & Hlen & Hall).
  assert (∀ c j, (c, j) ∈ kids n ↔ is_byte c ∧ lab !! j = Some (u ++ [c])) as Hcs.
  { intros c j. rewrite elem_of_kids. split.
    - intros (k & id & Hk & Hne & -> & ->). pose proof (lookup_lt_Some _ _ _ Hk) as Hlt.
      rewrite uchar_nat by lia. assert (is_byte (Z.of_nat k)) as Hb by (unfold is_byte; lia).
      split; [done|]. destruct (He _ Hb) as (id' & Hid' & Hcase).
      rewrite Nat2Z.id, Hk in Hid'. injection Hid' as <-.
      by destruct Hcase as [(_ & ? & _)|[_ ?]].
    - intros [Hb Hj]. destruct (He _ Hb) as (id & Hid & [(_ & Hlj & Hne)|[Hn' _]]).
      + exists (Z.to_nat c), id. split; [done|]. split; [done|].
        unfold is_byte in Hb. rewrite Z2Nat.id by lia. rewrite uchar_byte by done.
        split; [done|]. by eapply lab_inj.
      + exfalso. apply Hn'. by eapply lab_islab. }
  split; [|done]. apply NoDup_snd_of_fst; [by apply kids_NoDup_fst|].
  intros c1 c2 j [_ H1]%Hcs [_ H2]%Hcs. rewrite H1 in H2.
  injection H2 as H2. by apply app_inj_tail in H2 as [_ ?].
Qed.

(** The link vectors of the trie. *)
Lemma trie_entries_init h lab i u n :
  trie_inv is_byte rt fedge flat_wf W h lab →
  lab !! i = Some u → deref h i = Some n → trie_entries W lab n u 0%Z.
Proof.
  intros [Hs Hlab Hall Hdata] Hi Hn c Hc.
  destruct (flat_get_link h i n c (sh_inv _ _ _ _ _ _ Hs) Hn Hc) as (id & Hid & _ & Hr & _).
  exists id. split; [done|].
  destruct (decide (id = 0%Z)) as [->|Hne].
  - right. split; [|done]. intros Hlu. destruct (Hall _ Hlu) as [j Hj].
    destruct (sh_parent _ _ _ _ _ _ Hs j u c Hj) as (i' & Hi' & He).
    assert (i' = i) as -> by (by eapply sh_inj).
    unfold fedge in He. rewrite Hn in He. simpl in He. rewrite Hid in He. done.
  - left. assert (lab !! Z.to_nat id = Some (u ++ [c])) as Hj.
    { eapply (sh_edge _ _ _ _ _ _ Hs i u c); [done..|].
      unfold fedge. rewrite Hn. simpl. rewrite Hid. simpl. by rewrite decide_False. }
    split; [by eapply Hlab|done].
Qed.

Lemma flat_links_frame lab h h' :
  flat_links W lab h → length h' = length h →
  (∀ k, links <$> deref h' k = links <$> deref h k) → flat_links W lab h'.
Proof.
  intros [Hwf He] Hlen Hl. split; [by apply (fedge_frame h h' Hlen Hl)|].
  intros i u n' Hi Hn'. specialize (Hl i). rewrite Hn' in Hl.
  destruct (deref h i) as [n|] eqn:Hn; simpl in Hl; [|done]. injection Hl as Hl.
  unfold trie_entries. rewrite Hl. by eapply He.
Qed.

Lemma flat_goto_trie lab h :
  labelled W rt h lab → flat_links W lab h →
  goto_trie W is_byte Flat.goto_ rt h lab.
Proof.
  intros Hl [Hwf He] i u c Hi Hc.
  destruct (lab_deref W _ h lab i u Hl Hi) as [n Hn].
  destruct (flat_get_link h i n c Hwf Hn Hc) as (id & Hid & Hg & Hr & Hat).
  exists (Z.to_nat id). split.
  { unfold Flat.goto_. rewrite Hn. simpl. rewrite Hg. simpl. done. }
  destruct (He i u n Hi Hn c Hc) as (id' & Hid' & Hcase).
  rewrite Hid in Hid'. injection Hid' as <-.
  destruct Hcase as [(? & ? & _)|[? ->]]; [by left|right].
  split; [done|]. by case_decide.
Qed.
End FlatLinks.

Local Open Scope Z_scope.


(** ** [17_double_array_trie.cpp]: [build_failure] *)
Local Close Scope Z_scope.

Lemma bf_visit_length {L} goto_ rt node (h : list (option (Node L))) q e h' q' :
  bf_visit goto_ rt node (h, q) e = Some (h', q') → length h' = length h.
Proof.
  unfold bf_visit. destruct e as [c j].
  destruct (failure h node); simpl; [|done].
  destruct (walk _ _ _ _ _ _ _) as [[[? ?] f]|]; simpl; [|done].
  destruct (output <$> deref _ f); simpl; [|done].
  destruct (deref _ j); simpl; [|done].
  case_decide; intros [= <- _]; by rewrite !length_modify.
Qed.

Lemma bf_entry_eq rt node (h : list (option (Node Flat.Links))) q c id :
  (0 ≤ id < Z.of_nat (length h))%Z →
  Flat.bf_entry rt node (h, q) (c, id) =
  if decide (id = 0%Z) then Some (h, q)
  else bf_visit Flat.goto_ rt node (h, q) (c, Z.to_nat id).
Proof.
  intros Hid. unfold Flat.bf_entry, Flat.node_at. simpl.
  rewrite decide_True by done. simpl.
  destruct (decide (id = 0%Z)) as [->|Hne]; [done|].
  rewrite decide_False; [done|]. unfold nullptr. lia.
Qed.

Lemma omap_kid_cons c id es :
  omap kid ((c, id) :: es) =
  if decide (id = 0%Z) then omap kid es else (c, Z.to_nat id) :: omap kid es.
Proof. simpl. unfold kid at 1. simpl. by case_decide. Qed.

(** The loop over the links of a node visits its children. *)
Lemma bf_entry_fold rt node (es : list (Z * Z)) : ∀ h q,
  Forall (λ e, (0 ≤ e.2 < Z.of_nat (length h))%Z) es →
  foldM (Flat.bf_entry rt node) (h, q) es =
  foldM (bf_visit Flat.goto_ rt node) (h, q) (omap kid es).
Proof.
  induction es as [|[c id] es IH]; intros h q Hr; [done|].
  apply Forall_cons in Hr as [Hid Hr]. simpl in Hid.
  rewrite foldM_cons, bf_entry_eq, omap_kid_cons by done.
  destruct (decide (id = 0%Z)) as [->|Hne].
  - simpl. by apply IH.
  - rewrite foldM_cons.
    destruct (bf_visit _ _ _ _ _) as [[h' q']|] eqn:Hv; [|done]. simpl.
    apply IH. by rewrite (bf_visit_length _ _ _ _ _ _ _ _ Hv).
Qed.

Definition flat_inner (rt node : ptr) (hq : list (option (Node Flat.Links)) * list ptr)
  : option (list (option (Node Flat.Links)) * list ptr) :=
  n ← deref hq.1 node; foldM (Flat.bf_entry rt node) hq (Flat.entries n).

Lemma flat_bf_loop_gen fuel rt : ∀ h q,
  Flat.bf_loop fuel rt h q = bf_gen (flat_inner rt) fuel h q.
Proof.
  induction fuel as [|fuel IH]; intros h q; destruct q as [|node q]; try done.
  simpl. unfold flat_inner. simpl. destruct (deref h node) as [n|]; [|done]. simpl.
  destruct (foldM _ _ _) as [[h' q']|]; [|done]. simpl. apply IH.
Qed.

Lemma kids_take_S (r : Node Flat.Links) k id :
  Flat.vec (links r) !! k = Some id →
  (omap kid (take (S k) (Flat.entries r))).*2 =
  (omap kid (take k (Flat.entries r))).*2 ++
  (if decide (id = 0%Z) then [] else [Z.to_nat id]).
Proof.
  intros Hk. rewrite (take_S_r _ _ (Flat.uchar (Z.of_nat k), id))
    by (by rewrite entries_lookup, Hk).
  rewrite omap_app, fmap_app. f_equal. rewrite omap_kid_cons. by case_decide.
Qed.

Section FlatBf.
Variable W : list (list Z * Z).
Hypothesis Wne : Forall (λ we, we.1 ≠ []) W.
Implicit Types h : list (option (Node Flat.Links)).
Implicit Types lab : gmap nat (list Z).
Notation rt := Flat.trie_root.

Lemma entries_range h i n :
  flat_wf h → deref h i = Some n →
  Forall (λ e, (0 ≤ e.2 < Z.of_nat (length h))%Z) (Flat.entries n).
Proof.
  intros Hwf Hn. destruct (fw_node _ Hwf i n Hn) as (_ & _ & Hall).
  apply Forall_lookup. intros k [c id]. rewrite entries_lookup.
  destruct (Flat.vec (links n) !! k) as [id'|] eqn:E; [|done]. simpl. intros [= _ <-].
  simpl. exact (Forall_lookup_1 _ _ _ _ Hall E).
Qed.

Lemma flat_inner_visits lab h q node u :
  labelled W rt h lab → flat_links W lab h → lab !! node = Some u → u ≠ [] →
  ∃ cs, flat_inner rt node (h, q) = foldM (bf_visit Flat.goto_ rt node) (h, q) cs ∧
        NoDup cs.*2 ∧
        ∀ c j, (c, j) ∈ cs ↔ is_byte c ∧ lab !! j = Some (u ++ [c]).
Proof.
  intros Hl [Hwf He] Hnode Hu. destruct (lab_deref W _ h lab node u Hl Hnode) as [n Hn].
  assert (node ≠ rt) as Hnr.
  { intros ->. rewrite (lab_root _ _ _ _ Hl) in Hnode. by injection Hnode as <-. }
  pose proof (He node u n Hnode Hn) as Hen. rewrite decide_False in Hen by done.
  destruct (kids_spec W h lab node u n Hl Hwf Hnode Hn Hen) as [Hnd Hcs].
  exists (kids n). split; [|done].
  unfold flat_inner. simpl. rewrite Hn. simpl.
  apply bf_entry_fold. by eapply entries_range.
Qed.

(** The first loop of [build_failure]: the root leads to itself where it
    has no child, its children fail to it and are in the queue. *)
Lemma flat_bf_root_spec lab h0 r :
  trie_inv is_byte rt fedge flat_wf W h0 lab → deref h0 rt = Some r →
  ∃ h1 r1, foldM (Flat.bf_root rt) (h0, []) (Flat.entries r) = Some (h1, (kids r).*2) ∧
    length h1 = length h0 ∧
    (∀ i, i ≠ rt → links <$> deref h1 i = links <$> deref h0 i) ∧
    (∀ i n0, deref h0 i = Some n0 →
       ∃ n, deref h1 i = Some n ∧ terminal n = terminal n0 ∧ output n = output n0 ∧
            link_fail n = if decide (i ∈ (kids r).*2) then rt else link_fail n0) ∧
    deref h1 rt = Some r1 ∧ Flat.node_id (links r1) = 1%Z ∧
    length (Flat.vec (links r1)) = 256 ∧
    (∀ j id, Flat.vec (links r) !! j = Some id →
       Flat.vec (links r1) !! j = Some (if decide (id = 0%Z) then 1%Z else id)).
Proof.
  intros Hinv Hr. pose proof (ti_shaped _ _ _ _ _ _ _ Hinv) as Hs.
  pose proof (sh_inv _ _ _ _ _ _ Hs) as Hwf.
  pose proof (trie_inv_labelled _ _ _ _ _ _ _ Hinv) as Hl.
  pose proof (trie_entries_init W h0 lab rt [] r Hinv (lab_root _ _ _ _ Hl) Hr) as He0.
  destruct (fw_node _ Hwf _ _ Hr) as (Hrid & Hrlen & Hrall).
  set (I := λ (k : nat) (hq : list (option (Node Flat.Links)) * list ptr),
    hq.2 = (omap kid (take k (Flat.entries r))).*2 ∧
    length hq.1 = length h0 ∧
    (∀ i, i ≠ rt → links <$> deref hq.1 i = links <$> deref h0 i) ∧
    (∀ i n0, deref h0 i = Some n0 →
       ∃ n, deref hq.1 i = Some n ∧ terminal n = terminal n0 ∧ output n = output n0 ∧
            link_fail n = if decide (i ∈ hq.2) then rt else link_fail n0) ∧
    ∃ rk, deref hq.1 rt = Some rk ∧ Flat.node_id (links rk) = 1%Z ∧
          length (Flat.vec (links rk)) = 256 ∧
          ∀ j id, Flat.vec (links r) !! j = Some id →
            Flat.vec (links rk) !! j = Some (if decide (j < k ∧ id = 0%Z) then 1%Z else id)).
  destruct (foldM_take_ind (Flat.bf_root rt) I (Flat.entries r) (h0, []))
    as ([h1 q1] & Hfold & Hq & Hlen & Hlinks & Hdata & rk & Hrk & Hid & Hvlen & Hvec).
  - split; [by rewrite take_0|]. split; [done|]. split; [done|]. split.
    + intros i n0 Hn0. exists n0. by rewrite decide_False by apply not_elem_of_nil.
    + exists r. split; [done|]. split; [done|]. split; [done|].
      intros j id Hj. rewrite decide_False; [done|]. intros [? _]. lia.
  - intros k [c id] [h q] Hk (Hq & Hlen & Hlinks & Hdata & rk & Hrk & Hid & Hvlen & Hvec).
    cbn [fst snd] in Hq, Hlen, Hlinks, Hdata, Hrk.
    rewrite entries_lookup in Hk.
    destruct (Flat.vec (links r) !! k) as [id'|] eqn:Ek; [|done].
    simpl in Hk. injection Hk as <- <-.
    pose proof (lookup_lt_Some _ _ _ Ek) as Hklt. rewrite Hrlen in Hklt.
    pose proof (Forall_lookup_1 _ _ _ _ Hrall Ek) as Hrange. simpl in Hrange.
    pose proof (kids_take_S r k id' Ek) as Htake.
    assert (Flat.bf_root rt (h, q) (Flat.uchar (Z.of_nat k), id') =
            if decide (id' = 0%Z)
            then Some (modify rt (Flat.set_link (Z.of_nat k) 1%Z) h, q)
            else Some (modify (Z.to_nat id') (set_link_fail rt) h, q ++ [Z.to_nat id']))
      as ->.
    { unfold Flat.bf_root, Flat.node_at. cbn [fst snd].
      rewrite Hlen, decide_True by done. simpl.
      destruct (decide (id' = 0%Z)) as [->|Hne].
      - rewrite decide_True by done. rewrite Hrk. simpl.
        by rewrite Hid, uchar_nat by lia.
      - rewrite decide_False; [done|]. unfold nullptr. lia. }
    destruct (decide (id' = 0%Z)) as [->|Hne]; (eexists; split; [done|]);
      unfold I; cbn [fst snd]; rewrite Htake.
    + rewrite app_nil_r.
      split; [done|]. split; [by rewrite length_modify|].
      split; [intros i Hi; rewrite deref_modify_ne by done; by apply Hlinks|]. split.
      * intros i n0 Hn0. destruct (Hdata i n0 Hn0) as (n & Hn & Ht & Ho & Hf).
        rewrite deref_modify, Hn.
        destruct (decide (i = rt)); [exists (Flat.set_link (Z.of_nat k) 1%Z n)|exists n];
          (split; [done|]); simpl; done.
      * rewrite deref_modify_eq, Hrk. eexists. split; [done|]. simpl.
        rewrite uchar_nat by lia. rewrite Nat2Z.id.
        split; [done|]. split; [by rewrite length_insert|].
        intros j id Hj. destruct (decide (j = k)) as [->|Hjk].
        -- rewrite Ek in Hj. injection Hj as <-.
           rewrite list_lookup_insert_eq by lia.
           by rewrite decide_True by (split; [lia|done]).
        -- rewrite list_lookup_insert_ne by done. rewrite (Hvec j id Hj).
           destruct (decide (j < k ∧ id = 0%Z)) as [[? ?]|Hn].
           ++ by rewrite decide_True by (split; [lia|done]).
           ++ rewrite decide_False; [done|]. intros [? ?]. apply Hn. split; [lia|done].
    + rewrite <- Hq.
      assert (Z.to_nat id' ≠ rt) as Hnr.
      { intros E. assert (is_byte (Z.of_nat k)) as Hb by (unfold is_byte; lia).
        destruct (He0 _ Hb) as (id & Hid' & Hcase). rewrite Nat2Z.id, Ek in Hid'.
        injection Hid' as <-. destruct Hcase as [(_ & Hlj & _)|[_ ?]]; [|done].
        rewrite E, (lab_root _ _ _ _ Hl) in Hlj. done. }
      split; [done|]. split; [by rewrite length_modify|]. split; [|split].
      * intros i Hi. rewrite <- (Hlinks i Hi), deref_modify. case_decide; [|done].
        by destruct (deref h i).
      * intros i n0 Hn0. destruct (Hdata i n0 Hn0) as (n & Hn & Ht & Ho & Hf).
        rewrite deref_modify, Hn. destruct (decide (i = Z.to_nat id')) as [->|Hi].
        -- eexists. split; [done|]. simpl. split; [done|]. split; [done|].
           rewrite decide_True; [done|]. apply elem_of_app. right. by apply list_elem_of_singleton.
        -- exists n. split; [done|]. split; [done|]. split; [done|]. rewrite Hf.
           destruct (decide (i ∈ q)) as [Hin|Hin].
           ++ rewrite decide_True; [done|]. apply elem_of_app. by left.
           ++ rewrite decide_False; [done|].
              intros [?| ?%list_elem_of_singleton]%elem_of_app; done.
      * exists rk. rewrite deref_modify_ne by done. split; [done|]. split; [done|].
        split; [done|]. intros j id Hj. rewrite (Hvec j id Hj).
        destruct (decide (j < k ∧ id = 0%Z)) as [[? ?]|Hn].
        -- by rewrite decide_True by (split; [lia|done]).
        -- rewrite decide_False; [done|]. intros [? ->]. apply Hn. split; [|done].
           destruct (decide (j = k)) as [->|]; [|lia]. rewrite Ek in Hj. by injection Hj.
  - cbn [fst snd] in *. rewrite take_ge in Hq by done. subst q1. unfold kids.
    exists h1, rk. split; [done|]. split; [done|]. split; [done|]. split; [done|].
    split; [done|]. split; [done|]. split; [done|].
    intros j id Hj. rewrite (Hvec j id Hj). pose proof (lookup_lt_Some _ _ _ Hj) as Hlt.
    rewrite entries_length. destruct (decide (id = 0%Z)) as [->|Hne].
    + by rewrite decide_True by (split; [lia|done]).
    + rewrite decide_False; [done|]. by intros [_ ?].
Qed.
(** [build_failure] ends and leaves the machine built. *)
Lemma flat_build_failure_spec lab h0 :
  trie_inv is_byte rt fedge flat_wf W h0 lab →
  ∃ h2, Flat.build_failure rt h0 = Some h2 ∧
        built W is_byte Flat.goto_ rt h2 lab ∧
        flat_links W lab h2 ∧ length h2 = length h0.
Proof.
  intros Hinv. pose proof (ti_shaped _ _ _ _ _ _ _ Hinv) as Hs.
  pose proof (sh_inv _ _ _ _ _ _ Hs) as Hwf.
  pose proof (trie_inv_labelled _ _ _ _ _ _ _ Hinv) as Hl.
  destruct (lab_deref W _ h0 lab _ _ Hl (lab_root _ _ _ _ Hl)) as [r Hr].
  destruct (flat_bf_root_spec lab h0 r Hinv Hr)
    as (h1 & r1 & Hfold & Hlen & Hlinks & Hdata & Hr1 & Hid1 & Hlen1 & Hvec1).
  unfold Flat.build_failure. rewrite Hr. simpl. rewrite Hfold. simpl.
  pose proof (trie_entries_init W h0 lab rt [] r Hinv (lab_root _ _ _ _ Hl) Hr) as He0.
  destruct (kids_spec W h0 lab rt [] r Hl Hwf (lab_root _ _ _ _ Hl) Hr He0) as [Hnd Hcs].
  destruct (fw_node _ Hwf _ _ Hr) as (Hrid & Hrlen & Hrall).
  assert (∀ k, is_Some (deref h1 k) ↔ is_Some (deref h0 k)) as Hsome.
  { intros k. split.
    - destruct (decide (k = rt)) as [->|Hk]; [eauto|].
      rewrite <- !(fmap_is_Some links). by rewrite Hlinks.
    - intros [n0 Hn0]. destruct (Hdata k n0 Hn0) as (n & Hn & _). eauto. }
  assert (labelled W rt h1 lab) as Hl1 by (by eapply labelled_frame).
  assert (∀ i u, lab !! i = Some u → Forall is_byte u) as Hsym.
  { intros i u Hi. by eapply sh_sym. }
  assert (flat_links W lab h1) as Hfl1.
  { split.
    - destruct Hwf as [H1 H2 H3 H4]. constructor.
      + by rewrite Hlen.
      + apply Hl1.
      + intros i Hi. apply Hsome, H3. by rewrite <- Hlen.
      + intros i n Hn. rewrite Hlen. destruct (decide (i = rt)) as [->|Hi].
        * rewrite Hr1 in Hn. injection Hn as <-. split; [done|]. split; [done|].
          apply Forall_lookup. intros j x Hj.
          destruct (lookup_lt_is_Some_2 (Flat.vec (links r)) j) as [id Hid].
          { apply lookup_lt_Some in Hj. lia. }
          rewrite (Hvec1 j id Hid) in Hj. injection Hj as <-.
          pose proof (Forall_lookup_1 _ _ _ _ Hrall Hid) as Hrange. simpl in Hrange.
          pose proof (deref_lt _ _ _ Hr). case_decide; [|done]. unfold rt in *. simpl in *. lia.
        * specialize (Hlinks i Hi). rewrite Hn in Hlinks.
          destruct (deref h0 i) as [n0|] eqn:Hn0; simpl in Hlinks; [|done].
          injection Hlinks as ->. by eapply H4.
    - intros i u n Hi Hn. destruct (decide (i = rt)) as [->|Hir].
      + rewrite Hr1 in Hn. injection Hn as <-.
        rewrite (lab_root _ _ _ _ Hl) in Hi. injection Hi as <-.
        intros c Hc. destruct (He0 c Hc) as (id & Hid & Hcase).
        exists (if decide (id = 0%Z) then 1%Z else id). split; [by apply Hvec1|].
        destruct Hcase as [(Hlu & Hlj & Hne)|[Hn ->]].
        * left. by rewrite decide_False.
        * right. by rewrite decide_True.
      + specialize (Hlinks i Hir). rewrite Hn in Hlinks.
        destruct (deref h0 i) as [n0|] eqn:Hn0; simpl in Hlinks; [|done].
        injection Hlinks as Hlk. unfold trie_entries. rewrite Hlk.
        by eapply trie_entries_init. }
  assert (∀ j, j ∈ (kids r).*2 ↔ ∃ c, lab !! j = Some [c]) as Hq.
  { intros j. rewrite list_elem_of_fmap. split.
    - intros ([c j'] & -> & [_ Hj]%Hcs). by exists c.
    - intros [c Hj]. exists (c, j). split; [done|]. apply Hcs. split; [|done].
      pose proof (Hsym _ _ Hj) as Hb. by apply Forall_cons in Hb as [? _]. }
  pose proof (flat_links_frame W lab) as Hframe.
  pose proof (flat_goto_trie W lab) as Hgoto.
  pose proof (flat_inner_visits lab) as Hinner.
  assert (bfs_inv W rt lab (flat_links W lab) 1 [] rt [] h1 (kids r).*2) as Hbfs.
  { eapply (bfs_init W is_byte Flat.goto_ rt lab (flat_links W lab)
             Wne Hsym Hframe Hgoto (flat_inner rt) Hinner);
      [done|done| |done|done| |].
    - destruct (ti_data _ _ _ _ _ _ _ Hinv _ r [] Hr (lab_root _ _ _ _ Hl)) as (Ho & Ht & _).
      assert (own W [] = ∅) as Hown.
      { apply set_eq. intros x. rewrite elem_of_own. split; [|set_solver].
        intros Hin. rewrite Forall_forall in Wne. by apply Wne in Hin. }
      rewrite Hown in Ho. rewrite Ho in Ht.
      destruct (Hdata rt r Hr) as (n & Hn & Hnt & Hno & _).
      exists n. split; [done|]. split; [congruence|]. rewrite Hnt, Ht.
      apply bool_decide_eq_false. intros Hx. by apply Hx.
    - intros i u Hi Hu. destruct (lab_deref W _ h0 lab i u Hl Hi) as [n0 Hn0].
      destruct (ti_data _ _ _ _ _ _ _ Hinv i n0 u Hn0 Hi) as (Ho & Ht & _).
      destruct (Hdata i n0 Hn0) as (n & Hn & Hnt & Hno & _).
      exists n. split; [done|]. by rewrite Hno, Hnt.
    - intros j c n Hj Hn. destruct (lab_deref W _ h0 lab j _ Hl Hj) as [n0 Hn0].
      destruct (Hdata j n0 Hn0) as (n' & Hn' & _ & _ & Hf).
      rewrite Hn in Hn'. injection Hn' as <-. rewrite Hf, decide_True; [done|].
      apply Hq. by exists c. }
  rewrite flat_bf_loop_gen.
  destruct (bf_gen_spec W is_byte Flat.goto_ rt lab (flat_links W lab)
             Wne Hsym Hframe Hgoto (flat_inner rt) Hinner
             (length h1) _ _ _ _ _ Hbfs)
    as (h' & d' & P' & cur' & Hgen & Hlen' & Hinv'); [simpl; lia|].
  exists h'. split; [done|]. split.
  { eapply (bfs_done W is_byte Flat.goto_ rt lab (flat_links W lab)
             Wne Hsym Hframe Hgoto (flat_inner rt) Hinner). done. }
  split; [|congruence]. apply (bi_struct _ _ _ _ _ _ _ _ _ _ Hinv').
Qed.
End FlatBf.

Local Open Scope Z_scope.


(** ** [17_double_array_trie.cpp]: more nodes than a [short] can number

    The node made when [nodes] has 32768 cells gets the id [-32768], and
    [add_word] writes this id into the link vector of its parent.  No later
    step of [build] takes it from there, and the breadth-first loop of
    [build_failure] reads every link of every node it reaches: [build] does
    not return. *)

Local Close Scope Z_scope.

Section FlatCap.
Implicit Types h : list (option (Node Flat.Links)).
Notation rt := Flat.trie_root.

(** [h'] has the nodes of [h], with the links of [h] that are not [0]. *)
Definition link_le h h' : Prop :=
  ∀ i n, deref h i = Some n →
    ∃ n', deref h' i = Some n' ∧
      length (Flat.vec (links n')) = length (Flat.vec (links n)) ∧
      ∀ k id, Flat.vec (links n) !! k = Some id → id ≠ 0%Z →
              Flat.vec (links n') !! k = Some id.

(** A link from [i] to [j], and a node with a link that is no index of
    [nodes]. *)
Definition vstep h (i j : ptr) : Prop :=
  ∃ n k id, deref h i = Some n ∧ Flat.vec (links n) !! k = Some id ∧
            (0 < id)%Z ∧ j = Z.to_nat id.

Definition lost h (p : ptr) : Prop :=
  ∃ n k id, deref h p = Some n ∧ Flat.vec (links n) !! k = Some id ∧ (id < 0)%Z.

Inductive reach h : ptr → ptr → Prop :=
  | reach_here i : reach h i i
  | reach_step i j p : vstep h i j → reach h j p → reach h i p.

(** The links lead from the root to a node with a link that is no index. *)
Definition poisoned h : Prop :=
  (∃ r, deref h rt = Some r ∧ length (Flat.vec (links r)) = 256) ∧
  ∃ p, reach h rt p ∧ lost h p.

Lemma link_le_refl h : link_le h h.
Proof. intros i n Hn. by exists n. Qed.

Lemma link_le_trans h1 h2 h3 : link_le h1 h2 → link_le h2 h3 → link_le h1 h3.
Proof.
  intros H12 H23 i n Hn. destruct (H12 i n Hn) as (n2 & Hn2 & Hl2 & He2).
  destruct (H23 i n2 Hn2) as (n3 & Hn3 & Hl3 & He3).
  exists n3. split; [done|]. split; [congruence|]. intros k id Hk Hid.
  apply He3; [|done]. by apply He2.
Qed.

Lemma link_le_snoc h x : link_le h (h ++ [x]).
Proof.
  intros i n Hn. exists n. split; [|done].
  rewrite deref_app_l; [done|]. by eapply deref_lt.
Qed.

Lemma link_le_data h node (f : Node Flat.Links → Node Flat.Links) :
  (∀ n, links (f n) = links n) → link_le h (modify node f h).
Proof.
  intros Hf i n Hn. rewrite deref_modify, Hn. case_decide.
  - exists (f n). split; [done|]. by rewrite Hf.
  - by exists n.
Qed.

Lemma link_le_set_link h node n c id :
  deref h node = Some n →
  Flat.vec (links n) !! Z.to_nat (Flat.uchar c) = Some 0%Z →
  link_le h (modify node (Flat.set_link c id) h).
Proof.
  intros Hn H0 i m Hm. rewrite deref_modify, Hm. case_decide as E.
  - subst i. assert (m = n) as -> by congruence.
    exists (Flat.set_link c id n). split; [done|]. simpl.
    split; [by rewrite length_insert|].
    intros k id' Hk Hne. rewrite list_lookup_insert_ne; [done|].
    intros <-. congruence.
  - by exists m.
Qed.

Lemma vstep_le h h' i j : link_le h h' → vstep h i j → vstep h' i j.
Proof.
  intros Hle (n & k & id & Hn & Hk & Hid & ->).
  destruct (Hle i n Hn) as (n' & Hn' & _ & He).
  exists n', k, id. split; [done|]. split; [apply He; [done|lia]|done].
Qed.

Lemma lost_le h h' p : link_le h h' → lost h p → lost h' p.
Proof.
  intros Hle (n & k & id & Hn & Hk & Hid).
  destruct (Hle p n Hn) as (n' & Hn' & _ & He).
  exists n', k, id. split; [done|]. split; [apply He; [done|lia]|done].
Qed.

Lemma reach_le h h' i p : link_le h h' → reach h i p → reach h' i p.
Proof.
  intros Hle Hr. induction Hr as [i|i j p Hs _ IH]; [constructor|].
  eapply reach_step; [by eapply vstep_le|done].
Qed.

Lemma poisoned_le h h' : link_le h h' → poisoned h → poisoned h'.
Proof.
  intros Hle [(r & Hr & Hlen) (p & Hp & Hl)]. split.
  - destruct (Hle _ _ Hr) as (r' & Hr' & Hlen' & _). exists r'. split; [done|congruence].
  - exists p. split; [by eapply reach_le|by eapply lost_le].
Qed.

Lemma reach_snoc h i j p : reach h i j → vstep h j p → reach h i p.
Proof.
  intros Hr Hs. induction Hr as [i|i j' p' Hs' _ IH].
  - eapply reach_step; [done|constructor].
  - eapply reach_step; [done|by apply IH].
Qed.

(** Every node of the trie is reached from the root. *)
Lemma reach_label h lab : flat_shaped h lab →
  ∀ u node, lab !! node = Some u → reach h rt node.
Proof.
  intros Hs u. induction u as [|c u IH] using rev_ind; intros node Hnode.
  - assert (node = rt) as ->; [|constructor].
    eapply (sh_inj _ _ _ _ _ _ Hs); [done|]. apply (sh_root _ _ _ _ _ _ Hs).
  - destruct (sh_parent _ _ _ _ _ _ Hs node u c Hnode) as (i & Hi & He).
    eapply reach_snoc; [by apply IH|].
    unfold fedge in He. destruct (deref h i) as [n|] eqn:Hn; [|done]. simpl in He.
    destruct (Flat.vec (links n) !! Z.to_nat c) as [id|] eqn:Hid; [|done]. simpl in He.
    case_decide as Hz; [done|]. injection He as <-.
    destruct (fw_node _ (sh_inv _ _ _ _ _ _ Hs) i n Hn) as (_ & _ & Hall).
    pose proof (Forall_lookup_1 _ _ _ _ Hall Hid) as Hr. simpl in Hr.
    exists n, (Z.to_nat c), id. split; [done|]. split; [done|]. split; [lia|done].
Qed.

(** The loop of [add_word] writes links only where there is none. *)
Lemma add_word_loop_le word : ∀ h node h' node',
  Flat.add_word_loop h node word = Some (h', node') → link_le h h'.
Proof.
  induction word as [|c word IH]; intros h node h' node'; simpl.
  { intros [= <- <-]. apply link_le_refl. }
  destruct (deref h node) as [n|] eqn:Hn; [|done]. simpl.
  destruct (Flat.get_link n c) as [id|] eqn:Hg; [|done]. simpl.
  unfold Flat.node_at. case_decide as Hr; [|done]. simpl.
  case_decide as Hz; [|by apply IH].
  unfold Flat.add_node. rewrite deref_snoc. simpl. intros Hloop.
  eapply link_le_trans; [apply link_le_snoc|].
  eapply link_le_trans; [|by eapply IH].
  eapply (link_le_set_link _ _ n).
  - rewrite deref_app_l; [done|]. by eapply deref_lt.
  - unfold Flat.get_link in Hg. rewrite Hg. f_equal. unfold nullptr in Hz. lia.
Qed.

(** The node that cannot be numbered. *)
Lemma flat_loop_over h lab node c rest h' node' :
  flat_shaped h lab → is_Some (lab !! node) → is_byte c → fedge h node c = None →
  fcap ≤ length h → Flat.add_word_loop h node (c :: rest) = Some (h', node') →
  poisoned h'.
Proof.
  intros Hs [u Hnode] Hc He Hcap Hloop. pose proof (sh_inv _ _ _ _ _ _ Hs) as Hwf.
  assert (is_Some (deref h node)) as [n Hn] by (apply Hs; eauto).
  pose proof (deref_lt _ _ _ Hn) as Hlt.
  destruct (flat_get_link h node n c Hwf Hn Hc) as (id & Hid & Hg & Hr & Hat).
  unfold fedge in He. rewrite Hn in He. simpl in He. rewrite Hid in He. simpl in He.
  case_decide as Hz; [|done]. subst id.
  assert (Z.of_nat (length h) = 32768%Z) as Hlen.
  { pose proof (fw_len _ Hwf). unfold fcap in Hcap. lia. }
  simpl in Hloop. rewrite Hn in Hloop. simpl in Hloop. rewrite Hg in Hloop.
  simpl in Hloop. rewrite Hat in Hloop. simpl in Hloop.
  unfold Flat.add_node in Hloop. rewrite deref_snoc in Hloop. simpl in Hloop.
  rewrite Hlen in Hloop.
  eapply poisoned_le; [by eapply add_word_loop_le|].
  set (nn := Flat.new_node 32768%Z) in *.
  assert (link_le h (modify node (Flat.set_link c (to_short 32768)) (h ++ [Some nn])))
    as Hle.
  { eapply link_le_trans; [apply link_le_snoc|].
    eapply (link_le_set_link _ _ n).
    - by rewrite deref_app_l.
    - by rewrite uchar_byte. }
  split.
  - pose proof (sh_root _ _ _ _ _ _ Hs) as Hroot.
    assert (is_Some (deref h rt)) as [r Hr'] by (apply Hs; eauto).
    destruct (Hle _ _ Hr') as (r' & Hr'' & Hlen' & _). exists r'. split; [done|].
    rewrite Hlen'. by destruct (fw_node _ Hwf _ _ Hr') as (_ & ? & _).
  - exists node. split.
    + eapply reach_le; [done|]. by eapply reach_label.
    + exists (Flat.set_link c (to_short 32768) n), (Z.to_nat c), (to_short 32768).
      split; [|split; [|done]].
      * rewrite deref_modify_eq, deref_app_l, Hn by done. done.
      * simpl. rewrite uchar_byte by done.
        apply list_lookup_insert_eq. by eapply lookup_lt_Some.
Qed.

Lemma poisoned_loop h node w h' node' :
  poisoned h → Flat.add_word_loop h node w = Some (h', node') → poisoned h'.
Proof. intros Hp Hloop. eapply poisoned_le; [by eapply add_word_loop_le|done]. Qed.

Lemma poisoned_data h node (f : Node Flat.Links → Node Flat.Links) :
  (∀ n, links (f n) = links n) → poisoned h → poisoned (modify node f h).
Proof. intros Hf. apply poisoned_le. by apply link_le_data. Qed.

(** [build], up to [build_failure]: the trie of the words, or a trie with a
    link that is no index. *)
Lemma flat_add_words_cap ws :
  Forall (λ we, Forall is_byte we.1) ws →
  (∃ h lab, foldM (Flat.add_word rt) Flat.trie_init ws = Some h ∧
            trie_inv is_byte rt fedge flat_wf ws h lab) ∨
  (∀ h, foldM (Flat.add_word rt) Flat.trie_init ws = Some h → poisoned h).
Proof.
  intros Hsym.
  apply (add_words_cap is_byte rt fedge flat_wf fcap Flat.add_word_loop)
    with (bad := poisoned) (ws := ws) (W := @nil (list Z * Z))
         (h := Flat.trie_init) (lab := ({[rt := []]} : gmap nat (list Z))).
  - done.
  - apply flat_loop_found.
  - apply flat_loop_new.
  - apply fedge_frame.
  - apply flat_loop_over.
  - apply poisoned_loop.
  - apply poisoned_data.
  - apply flat_trie_init.
  - done.
Qed.

(** A loop over a list that has returned, with an invariant that counts the
    elements done. *)
Lemma foldM_take_inv {A B} (f : B → A → option B) (I : nat → B → Prop) l : ∀ b b',
  I 0 b →
  (∀ k x b b1, l !! k = Some x → I k b → f b x = Some b1 → I (S k) b1) →
  foldM f b l = Some b' → I (length l) b'.
Proof.
  revert I. induction l as [|x l IH]; intros I b b' H0 Hstep.
  - by intros [= <-].
  - rewrite foldM_cons. destruct (f b x) as [b1|] eqn:Hf; simpl; [|done].
    apply (IH (λ k, I (S k))).
    + by apply (Hstep 0 x b b1).
    + intros k y b2 b3 Hk. by apply (Hstep (S k)).
Qed.

(** What one visit of [build_failure] does to the links and to the queue. *)
Lemma bf_visit_le rt' node h q c j h' q' :
  bf_visit Flat.goto_ rt' node (h, q) (c, j) = Some (h', q') →
  link_le h h' ∧ q' = q ++ [j].
Proof.
  unfold bf_visit.
  destruct (failure h node); simpl; [|done].
  destruct (walk _ _ _ _ _ _ _) as [[[? ?] f]|]; simpl; [|done].
  destruct (output <$> deref _ f) as [fo|]; simpl; [|done].
  destruct (deref _ j) as [nn|]; simpl; [|done].
  assert (link_le h (modify j (λ n : Node Flat.Links, set_output (output n ∪ fo) n)
                       (modify j (set_link_fail f) h))) as Hle.
  { eapply link_le_trans; by apply link_le_data. }
  case_decide; intros [= <- <-]; (split; [|done]); [done|].
  eapply link_le_trans; [done|]. by apply link_le_data.
Qed.

(** The loop over the links of a node, when it returns: every link is an
    index, and the nodes they lead to are in the queue. *)
Lemma bf_entry_fold_le rt' node es : ∀ h q h' q',
  foldM (Flat.bf_entry rt' node) (h, q) es = Some (h', q') →
  link_le h h' ∧ (∀ x, x ∈ q → x ∈ q') ∧
  ∀ c id, (c, id) ∈ es → (0 ≤ id)%Z ∧ ((0 < id)%Z → Z.to_nat id ∈ q').
Proof.
  induction es as [|[c id] es IH]; intros h q h' q'.
  { intros [= <- <-]. split; [apply link_le_refl|]. split; [done|].
    intros c id Hin. by apply elem_of_nil in Hin. }
  rewrite foldM_cons.
  destruct (Flat.bf_entry rt' node (h, q) (c, id)) as [[h1 q1]|] eqn:He; simpl; [|done].
  intros Hf. destruct (IH _ _ _ _ Hf) as (Hle & Hq & Hes).
  assert ((0 ≤ id < Z.of_nat (length h))%Z) as Hr.
  { unfold Flat.bf_entry, Flat.node_at in He. simpl in He. by case_decide. }
  rewrite bf_entry_eq in He by done.
  assert (link_le h h1 ∧ (∀ x, x ∈ q → x ∈ q1) ∧ (id ≠ 0%Z → Z.to_nat id ∈ q1))
    as (Hle1 & Hq1 & Hid).
  { case_decide as Hz.
    - injection He as <- <-. split; [apply link_le_refl|]. by split.
    - apply bf_visit_le in He as [Hle1 ->]. split; [done|].
      split; [|intros _]; intros; apply elem_of_app; [by left|right]. by left. }
  split; [by eapply link_le_trans|]. split; [by eauto|].
  intros c' id' [[= -> ->]|Hin]%elem_of_cons; [|by apply (Hes c')].
  split; [lia|]. intros Hpos. apply Hq, Hid. lia.
Qed.

(** The breadth-first loop of [build_failure] does not return while a node
    with a link that is no index can be reached from the queue. *)
Lemma bf_loop_lost fuel : ∀ h q,
  (∃ x p, x ∈ q ∧ reach h x p ∧ lost h p) → Flat.bf_loop fuel rt h q = None.
Proof.
  induction fuel as [|fuel IH]; intros h q (x & p & Hx & Hr & Hl).
  { destruct q; [by apply elem_of_nil in Hx|done]. }
  destruct q as [|node q]; [by apply elem_of_nil in Hx|]. simpl.
  destruct (deref h node) as [n|] eqn:Hn; [|done]. simpl.
  destruct (foldM (Flat.bf_entry rt node) (h, q) (Flat.entries n)) as [[h2 q2]|] eqn:Hf;
    simpl; [|done].
  apply IH. destruct (bf_entry_fold_le _ _ _ _ _ _ _ Hf) as (Hle & Hq & Hes).
  assert (∀ k id, Flat.vec (links n) !! k = Some id →
            (0 ≤ id)%Z ∧ ((0 < id)%Z → Z.to_nat id ∈ q2)) as Hvec.
  { intros k id Hk. apply (Hes (Flat.uchar (Z.of_nat k))).
    apply list_elem_of_lookup. exists k. by rewrite entries_lookup, Hk. }
  apply elem_of_cons in Hx as [->|Hx].
  - inversion Hr as [i|i j p' (n' & k & id & Hn' & Hk & Hid & ->) Hr']; subst.
    + destruct Hl as (n' & k & id & Hn' & Hk & Hid).
      assert (n' = n) as -> by congruence. destruct (Hvec k id Hk). lia.
    + assert (n' = n) as -> by congruence.
      exists (Z.to_nat id), p. split; [by apply (Hvec k id Hk)|].
      split; [by eapply reach_le|by eapply lost_le].
  - exists x, p. split; [by apply Hq|]. split; [by eapply reach_le|by eapply lost_le].
Qed.

(** The first loop of [build_failure], when it returns. *)
Lemma bf_root_fold_le h r h1 q1 :
  deref h rt = Some r → length (Flat.vec (links r)) = 256 →
  foldM (Flat.bf_root rt) (h, []) (Flat.entries r) = Some (h1, q1) →
  link_le h h1 ∧
  ∀ k id, Flat.vec (links r) !! k = Some id →
    (0 ≤ id)%Z ∧ ((0 < id)%Z → Z.to_nat id ∈ q1).
Proof.
  intros Hr Hlen Hf.
  pose (I := λ (k : nat) (hq : list (option (Node Flat.Links)) * list ptr),
    link_le h hq.1 ∧
    (∃ r', deref hq.1 rt = Some r' ∧
           ∀ j, k ≤ j → Flat.vec (links r') !! j = Flat.vec (links r) !! j) ∧
    ∀ j id, j < k → Flat.vec (links r) !! j = Some id →
      (0 ≤ id)%Z ∧ ((0 < id)%Z → Z.to_nat id ∈ hq.2)).
  assert (I (length (Flat.entries r)) (h1, q1)) as (Hle & _ & Hes).
  { eapply (foldM_take_inv (Flat.bf_root rt) I); [| |exact Hf].
    - split; [apply link_le_refl|]. split; [by exists r|]. intros j id Hj. lia.
    - intros k [c id] [h2 q2] [h3 q3] Hk (Hle & (r' & Hr' & Hsame) & Hes) Hstep.
      rewrite entries_lookup in Hk.
      destruct (Flat.vec (links r) !! k) as [id'|] eqn:Hid; [|done].
      simpl in Hk. injection Hk as <- <-.
      pose proof (lookup_lt_Some _ _ _ Hid) as Hk256. rewrite Hlen in Hk256.
      simpl in Hr', Hle, Hes, Hsame.
      unfold Flat.bf_root, Flat.node_at in Hstep. simpl in Hstep.
      case_decide as Hrange; [|done]. simpl in Hstep.
      assert (link_le h2 h3 ∧
              (∃ r3, deref h3 rt = Some r3 ∧
                 ∀ j, S k ≤ j → Flat.vec (links r3) !! j = Flat.vec (links r') !! j) ∧
              (∀ x, x ∈ q2 → x ∈ q3) ∧ ((0 < id')%Z → Z.to_nat id' ∈ q3))
        as (Hle3 & (r3 & Hr3 & Hsame3) & Hq3 & Hid3).
      { case_decide as Hz.
        - rewrite Hr' in Hstep. simpl in Hstep. injection Hstep as <- <-.
          assert (id' = 0%Z) as -> by (unfold nullptr in Hz; lia).
          assert (Z.to_nat (Flat.uchar (Flat.uchar (Z.of_nat k))) = k) as Hidx.
          { rewrite !uchar_nat by lia. lia. }
          split; [|split; [|split]].
          + eapply (link_le_set_link _ _ r'); [done|].
            rewrite Hidx, Hsame by lia. done.
          + exists (Flat.set_link (Flat.uchar (Z.of_nat k)) (Flat.node_id (links r')) r').
            split; [by rewrite deref_modify_eq, Hr'|].
            intros j Hj. simpl. rewrite Hidx. apply list_lookup_insert_ne. lia.
          + done.
          + lia.
        - injection Hstep as <- <-. split; [|split; [|split]].
          + by apply link_le_data.
          + rewrite deref_modify, Hr'. case_decide.
            * exists (set_link_fail rt r'). by split.
            * by exists r'.
          + intros x Hx. apply elem_of_app. by left.
          + intros _. apply elem_of_app. right. by left. }
      split; [by eapply link_le_trans|]. split.
      { exists r3. split; [done|]. intros j Hj. rewrite Hsame3, Hsame by lia. done. }
      intros j id Hj Hjid. simpl. destruct (decide (j = k)) as [->|Hne].
      + assert (id = id') as -> by congruence. split; [lia|done].
      + destruct (Hes j id) as [? Hin]; [lia|done|]. split; [done|]. intros ?.
        by apply Hq3, Hin. }
  split; [done|]. intros k id Hk. apply (Hes k id); [|done].
  rewrite entries_length. by eapply lookup_lt_Some.
Qed.

(** [build_failure] does not return on such a trie. *)
Lemma build_failure_lost h : poisoned h → Flat.build_failure rt h = None.
Proof.
  intros [(r & Hr & Hlen) (p & Hp & Hl)]. unfold Flat.build_failure.
  rewrite Hr. simpl.
  destruct (foldM (Flat.bf_root rt) (h, []) (Flat.entries r)) as [[h1 q1]|] eqn:Hf;
    simpl; [|done].
  destruct (bf_root_fold_le h r h1 q1 Hr Hlen Hf) as [Hle Hes].
  apply bf_loop_lost.
  inversion Hp as [i|i j p' (n' & k & id & Hn' & Hk & Hid & ->) Hr']; subst.
  - destruct Hl as (n' & k & id & Hn' & Hk & Hid).
    assert (n' = r) as -> by congruence. destruct (Hes k id Hk). lia.
  - assert (n' = r) as -> by congruence.
    exists (Z.to_nat id), p. split; [by apply (Hes k id Hk)|].
    split; [by eapply reach_le|by eapply lost_le].
Qed.
End FlatCap.

Local Open Scope Z_scope.


(** ** The queue of a breadth-first loop over the trie *)
Local Close Scope Z_scope.

Section Queue.
Context {L : Type}.
Variable W : list (list Z * Z).
Variable sym : Z → Prop.
Variable rt : ptr.
Variable lab : gmap nat (list Z).
Variable h0 : list (option (Node L)).
Hypothesis Hl : labelled W rt h0 lab.
Hypothesis lab_sym : ∀ i u, lab !! i = Some u → Forall sym u.

(** [P] are the nodes taken from the queue [q], the last of them of depth
    [d]: the queue holds the children of the nodes of [P], in the order of
    their depth. *)
Record queue_inv (d : nat) (P q : list ptr) : Prop := {
  qi_nodup : NoDup (P ++ q);
  qi_nodes : ∀ i, i ∈ P ++ q → ∃ u, lab !! i = Some u ∧ u ≠ [];
  qi_set : ∀ j v c, lab !! j = Some (v ++ [c]) →
           (j ∈ P ++ q ↔ v = [] ∨ ∃ i, i ∈ P ∧ lab !! i = Some v);
  qi_depthP : ∀ i u, i ∈ P → lab !! i = Some u → length u ≤ d;
  qi_depthq : ∃ q1 q2, q = q1 ++ q2 ∧
              (∀ i u, i ∈ q1 → lab !! i = Some u → length u = d) ∧
              (∀ i u, i ∈ q2 → lab !! i = Some u → length u = S d)
}.

Lemma queue_head_depth d P cur q u :
  queue_inv d P (cur :: q) → lab !! cur = Some u →
  d ≤ length u ∧ ∀ i v, i ∈ cur :: q → lab !! i = Some v → length u ≤ length v.
Proof.
  intros Hinv Hu. destruct (qi_depthq _ _ _ Hinv) as (q1 & q2 & Hq & H1 & H2).
  destruct q1 as [|x q1]; simpl in Hq.
  - assert (length u = S d) as Hud. { apply (H2 cur); [|done]. rewrite <- Hq. set_solver. }
    split; [lia|]. intros i v Hi Hv. rewrite Hud, (H2 i v); [done| |done].
    by rewrite <- Hq.
  - injection Hq as <- ->.
    assert (length u = d) as Hud. { apply (H1 cur); [set_solver|done]. }
    split; [lia|]. intros i v Hi Hv. rewrite Hud.
    assert (i ∈ (cur :: q1) ++ q2) as [Hi1|Hi2]%elem_of_app by done.
    + by rewrite (H1 i v Hi1 Hv).
    + rewrite (H2 i v Hi2 Hv). lia.
Qed.

(** The nodes above the head of the queue have been taken from it. *)
Lemma queue_shallow d P cur q u :
  queue_inv d P (cur :: q) → lab !! cur = Some u →
  ∀ v j, lab !! j = Some v → v ≠ [] → length v < length u → j ∈ P.
Proof.
  intros Hinv Hu. destruct (queue_head_depth _ _ _ _ _ Hinv Hu) as [_ Hq].
  induction v as [|c v IH] using rev_ind; intros j Hj Hne Hlen; [done|].
  rewrite length_app in Hlen. simpl in Hlen.
  assert (j ∈ P ++ cur :: q) as [?|Hjq]%elem_of_app; [|done|].
  - apply (qi_set _ _ _ Hinv j v c Hj).
    destruct (decide (v = [])) as [->|Hv]; [by left|]. right.
    assert (islab W v) as Hlv. { eapply islab_snoc, lab_islab; [apply Hl|done]. }
    destruct (lab_all _ _ _ _ Hl _ Hlv) as [i Hi].
    exists i. split; [|done]. apply (IH i); [done..|lia].
  - specialize (Hq j _ Hjq Hj). rewrite length_app in Hq. simpl in Hq. lia.
Qed.

(** Taking the head from the queue and putting its children there. *)
Lemma queue_step d P cur q u cs :
  queue_inv d P (cur :: q) → lab !! cur = Some u →
  NoDup cs.*2 →
  (∀ c j, (c, j) ∈ cs ↔ sym c ∧ lab !! j = Some (u ++ [c])) →
  queue_inv (length u) (P ++ [cur]) (q ++ cs.*2).
Proof.
  intros Hinv Hu Hnd Hcs.
  pose proof (qi_nodup _ _ _ Hinv) as HND.
  destruct (queue_head_depth _ _ _ _ _ Hinv Hu) as [Hd Hqd].
  assert (cur ∉ P) as HcurP.
  { apply NoDup_app in HND as (_ & HND & _). intros Hin. apply (HND _ Hin). set_solver. }
  destruct (qi_nodes _ _ _ Hinv cur) as (u' & Hu' & Hune); [set_solver|].
  rewrite Hu in Hu'. injection Hu' as <-.
  assert (∀ j, j ∈ cs.*2 ↔ ∃ c, lab !! j = Some (u ++ [c])) as Hkids.
  { intros j. rewrite list_elem_of_fmap. split.
    - intros ([c j'] & -> & [_ Hj]%Hcs). by exists c.
    - intros [c Hj]. exists (c, j). split; [done|]. apply Hcs. split; [|done].
      pose proof (lab_sym _ _ Hj) as Hs. apply Forall_app in Hs as [_ Hs].
      by apply Forall_cons in Hs as [? _]. }
  assert (∀ j, j ∈ cs.*2 → j ∉ P ++ cur :: q) as Hfresh.
  { intros j [c Hj]%Hkids Hin. apply (qi_set _ _ _ Hinv j u c Hj) in Hin
      as [->|(i & Hi & Hiu)]; [done|].
    assert (i = cur) as -> by (by eapply lab_inj). done. }
  assert (∀ x, x ∈ (P ++ [cur]) ++ q ++ cs.*2 ↔ x ∈ P ++ cur :: q ∨ x ∈ cs.*2) as Hmem.
  { intros x. rewrite <- app_assoc. simpl. rewrite !elem_of_app, !elem_of_cons, !elem_of_app.
    naive_solver. }
  constructor.
  - replace ((P ++ [cur]) ++ q ++ cs.*2) with ((P ++ cur :: q) ++ cs.*2)
      by (by rewrite <- !app_assoc).
    apply NoDup_app. split; [done|]. split; [|done].
    intros x Hx Hx'. by apply (Hfresh x).
  - intros i [Hi|Hi]%Hmem; [by apply (qi_nodes _ _ _ Hinv)|].
    apply Hkids in Hi as [c Hc]. exists (u ++ [c]). split; [done|]. by destruct u.
  - intros j v c Hj. rewrite Hmem, (qi_set _ _ _ Hinv j v c Hj), Hkids. split.
    + intros [[->|(i & Hi & Hiv)]|[c' Hc']].
      * by left.
      * right. exists i. split; [set_solver|done].
      * rewrite Hj in Hc'. injection Hc' as Hc'. apply app_inj_tail in Hc' as [-> _].
        right. exists cur. split; [set_solver|done].
    + intros [->|(i & Hi & Hiv)]; [left; by left|].
      apply elem_of_app in Hi as [Hi| ->%list_elem_of_singleton].
      * left. right. by exists i.
      * rewrite Hu in Hiv. injection Hiv as <-. right. by exists c.
  - intros i v [Hi| ->%list_elem_of_singleton]%elem_of_app Hv.
    + pose proof (qi_depthP _ _ _ Hinv i v Hi Hv). lia.
    + rewrite Hu in Hv. by injection Hv as <-.
  - assert (∀ i v, i ∈ cs.*2 → lab !! i = Some v → length v = S (length u)) as Hkd.
    { intros i v [c Hc]%Hkids Hv. rewrite Hc in Hv. injection Hv as <-.
      rewrite length_app. simpl. lia. }
    destruct (qi_depthq _ _ _ Hinv) as (q1 & q2 & Hq & H1 & H2).
    destruct q1 as [|x q1]; simpl in Hq.
    + exists q, cs.*2. split; [done|].
      assert (length u = S d) as Hud. { apply (H2 cur); [|done]. rewrite <- Hq. set_solver. }
      split; [|done].
      intros i v Hi Hv. rewrite Hud. apply (H2 i); [|done]. rewrite <- Hq. set_solver.
    + injection Hq as <- ->. exists q1, (q2 ++ cs.*2). split; [by rewrite app_assoc|].
      assert (length u = d) as Hud. { apply (H1 cur); [set_solver|done]. }
      rewrite Hud. split; [intros i v Hi Hv; apply (H1 i); [set_solver|done]|].
      intros i v [Hi|Hi]%elem_of_app Hv; [by apply (H2 i)|].
      rewrite <- Hud. by apply (Hkd i).
Qed.

(** The queue at the start: the children of the root. *)
Lemma queue_init q :
  NoDup q → (∀ j, j ∈ q ↔ ∃ c, lab !! j = Some [c]) → queue_inv 1 [] q.
Proof.
  intros Hnd Hq. constructor.
  - done.
  - intros i [c Hc]%Hq. by exists [c].
  - intros j v c Hj. simpl. rewrite Hq. split.
    + intros [c' Hc']. rewrite Hj in Hc'. injection Hc' as Hc'. left.
      destruct v; [done|]. by destruct v.
    + intros [->|(i & Hi & _)]; [by exists c|set_solver].
  - set_solver.
  - exists q, []. rewrite app_nil_r. split; [done|]. split; [|set_solver].
    intros i u [c Hc]%Hq Hi. rewrite Hi in Hc. by injection Hc as ->.
Qed.

(** When the queue is empty every node but the root has been taken. *)
Lemma queue_done d P j v : queue_inv d P [] → lab !! j = Some v → v ≠ [] → j ∈ P.
Proof.
  intros Hinv. revert j. induction v as [|c v IH] using rev_ind; intros j Hj Hne; [done|].
  pose proof (qi_set _ _ _ Hinv j v c Hj) as Hset. rewrite app_nil_r in Hset.
  apply Hset. destruct (decide (v = [])) as [->|Hv]; [by left|]. right.
  assert (islab W v) as Hlv. { eapply islab_snoc, lab_islab; [apply Hl|done]. }
  destruct (lab_all _ _ _ _ Hl _ Hlv) as [i Hi]. exists i. split; [|done]. by eapply IH.
Qed.

(** There are fewer nodes in [P] and [q] than cells in the heap. *)
Lemma queue_bound d P q : queue_inv d P q → length (P ++ q) ≤ length h0.
Proof.
  intros Hinv. apply NoDup_bounded_length; [apply Hinv|]. intros x Hx.
  destruct (qi_nodes _ _ _ Hinv x Hx) as (u & Hu & _).
  destruct (lab_deref W rt h0 lab x u Hl Hu) as [n Hn]. by eapply deref_lt.
Qed.
End Queue.

Local Open Scope Z_scope.


(** ** [17_double_array_trie.cpp]: [do_bfs] *)
Local Close Scope Z_scope.

(** The link vector of the node labelled [u] once it is complete: on every
    symbol, the state of the longest suffix. *)
Definition full_entries (W : list (list Z * Z)) (lab : gmap nat (list Z))
    (n : Node Flat.Links) (u : list Z) : Prop :=
  ∀ c, is_byte c →
    ∃ id, Flat.vec (links n) !! Z.to_nat c = Some id ∧
          lab !! Z.to_nat id = Some (lsuf W (u ++ [c])).

Section FlatBfs.
Variable W : list (list Z * Z).
Variable lab : gmap nat (list Z).
Hypothesis Hsym : ∀ i u, lab !! i = Some u → Forall is_byte u.
Implicit Types h : list (option (Node Flat.Links)).
Notation rt := Flat.trie_root.

(** The heap while [do_bfs] runs: the vectors of the root and of the nodes
    [P] are complete, the others are those of the trie. *)
Record dbfs_inv (P : list ptr) h : Prop := {
  db_lab : labelled W rt h lab;
  db_wf : flat_wf h;
  db_fail : ∀ i u, lab !! i = Some u → u ≠ [] → fail_ok W h lab i u;
  db_out : ∀ i u, lab !! i = Some u → out_ok W h i u;
  db_done : ∀ i u n, lab !! i = Some u → i = rt ∨ i ∈ P → deref h i = Some n →
            full_entries W lab n u;
  db_todo : ∀ i u n, lab !! i = Some u → i ≠ rt → i ∉ P → deref h i = Some n →
            trie_entries W lab n u 0%Z
}.

Lemma flat_goto_full h i u n c :
  flat_wf h → deref h i = Some n → full_entries W lab n u → is_byte c →
  ∃ id, Flat.vec (links n) !! Z.to_nat c = Some id ∧
        (0 ≤ id < Z.of_nat (length h))%Z ∧
        lab !! Z.to_nat id = Some (lsuf W (u ++ [c])) ∧
        Flat.goto_ h rt i c = Some (Z.to_nat id).
Proof.
  intros Hwf Hn Hfull Hc. destruct (Hfull c Hc) as (id & Hid & Hlid).
  destruct (flat_get_link h i n c Hwf Hn Hc) as (id' & Hid' & Hg & Hr & Hat).
  rewrite Hid in Hid'. injection Hid' as <-.
  exists id. split; [done|]. split; [done|]. split; [done|].
  unfold Flat.goto_. rewrite Hn. simpl. rewrite Hg. simpl. done.
Qed.

(** The loop over the links of the node taken from the queue completes
    its vector and puts its children into the queue. *)
Lemma flat_bfs_node d P h cur q q0 u n :
  dbfs_inv P h → queue_inv lab d P (cur :: q) →
  lab !! cur = Some u → deref h cur = Some n →
  ∃ h', foldM (Flat.bfs_entry rt cur) (h, q0) (Flat.entries n)
          = Some (h', q0 ++ (kids n).*2) ∧
        length h' = length h ∧ dbfs_inv (P ++ [cur]) h' ∧
        (∀ i, data <$> deref h' i = data <$> deref h i).
Proof.
  intros [Hl Hwf Hfail Hout Hdone Htodo] Hq Hu Hn.
  destruct (qi_nodes _ _ _ _ Hq cur) as (u' & Hu' & Hune); [set_solver|].
  rewrite Hu in Hu'. injection Hu' as <-.
  assert (cur ≠ rt) as Hcr.
  { intros ->. rewrite (lab_root _ _ _ _ Hl) in Hu. by injection Hu as <-. }
  assert (cur ∉ P) as HcurP.
  { pose proof (qi_nodup _ _ _ _ Hq) as HND.
    apply NoDup_app in HND as (_ & HND & _). intros Hin. apply (HND _ Hin). set_solver. }
  pose proof (Htodo cur u n Hu Hcr HcurP Hn) as Hen.
  destruct (fw_node _ Hwf _ _ Hn) as (Hnid & Hnlen & Hnall).
  destruct (Hfail cur u Hu Hune) as (n' & Hn' & Hf). rewrite Hn in Hn'. injection Hn' as <-.
  pose proof (fsuf_length W u Hune) as Hflen.
  destruct (lab_deref W _ h lab _ _ Hl Hf) as [nf Hnf].
  assert (link_fail n ≠ cur) as Hfc.
  { intros E. rewrite E, Hu in Hf. injection Hf as Hf. rewrite <- Hf in Hflen. lia. }
  assert (full_entries W lab nf (fsuf W u)) as Hfull.
  { apply (Hdone (link_fail n)); [done| |done].
    destruct (decide (fsuf W u = [])) as [E|E].
    - left. rewrite E in Hf. by eapply lab_root_nil.
    - right. by eapply (queue_shallow W is_byte rt lab h Hl Hsym). }
  destruct (fw_node _ Hwf _ _ Hnf) as (_ & Hflen' & Hfall).
  set (I := λ (k : nat) (hq : list (option (Node Flat.Links)) * list ptr),
    hq.2 = q0 ++ (omap kid (take k (Flat.entries n))).*2 ∧
    length hq.1 = length h ∧
    (∀ i, i ≠ cur → deref hq.1 i = deref h i) ∧
    ∃ nk, deref hq.1 cur = Some nk ∧ data nk = data n ∧
          Flat.node_id (links nk) = Flat.node_id (links n) ∧
          length (Flat.vec (links nk)) = 256 ∧
          ∀ j id, Flat.vec (links n) !! j = Some id →
            Flat.vec (links nk) !! j =
            if decide (j < k ∧ id = 0%Z) then Flat.vec (links nf) !! j else Some id).
  destruct (foldM_take_ind (Flat.bfs_entry rt cur) I (Flat.entries n) (h, q0))
    as ([h1 q1] & Hfold & Hq1 & Hlen & Hother & nk & Hnk & Hdk & Hidk & Hlenk & Hveck).
  - split; [by rewrite take_0, app_nil_r|]. split; [done|]. split; [done|].
    exists n. split; [done|]. split; [done|]. split; [done|]. split; [done|].
    intros j id Hj. rewrite decide_False; [done|]. intros [? _]. lia.
  - intros k [c id] [h' q'] Hk (Hq' & Hlen & Hother & nk & Hnk & Hdk & Hidk & Hlenk & Hveck).
    cbn [fst snd] in Hq', Hlen, Hother, Hnk.
    rewrite entries_lookup in Hk.
    destruct (Flat.vec (links n) !! k) as [id'|] eqn:Ek; [|done].
    simpl in Hk. injection Hk as <- <-.
    pose proof (lookup_lt_Some _ _ _ Ek) as Hklt. rewrite Hnlen in Hklt.
    pose proof (Forall_lookup_1 _ _ _ _ Hnall Ek) as Hrange. simpl in Hrange.
    pose proof (kids_take_S n k id' Ek) as Htake.
    assert (is_byte (Z.of_nat k)) as Hb by (unfold is_byte; lia).
    destruct (flat_goto_full h (link_fail n) _ nf _ Hwf Hnf Hfull Hb)
      as (idf & Hidf & Hrf & Hlf & Hgf).
    rewrite Nat2Z.id in Hidf.
    assert (Flat.bfs_entry rt cur (h', q') (Flat.uchar (Z.of_nat k), id') =
            if decide (id' = 0%Z)
            then Some (modify cur (Flat.set_link (Z.of_nat k) idf) h', q')
            else Some (h', q' ++ [Z.to_nat id'])) as ->.
    { unfold Flat.bfs_entry, Flat.node_at. rewrite Hlen, decide_True by done. simpl.
      destruct (decide (id' = 0%Z)) as [->|Hne].
      - rewrite decide_True by done. unfold failure. rewrite Hnk. simpl.
        assert (link_fail nk = link_fail n) as ->.
        { unfold data in Hdk. by injection Hdk. }
        rewrite uchar_nat by lia.
        assert (Flat.goto_ h' rt (link_fail n) (Z.of_nat k) = Some (Z.to_nat idf)) as ->.
        { rewrite <- Hgf. unfold Flat.goto_, Flat.node_at.
          rewrite (Hother _ Hfc), Hnf. simpl. by rewrite Hlen. }
        simpl.
        assert (∃ s, deref h' (Z.to_nat idf) = Some s ∧ Flat.node_id (links s) = idf)
          as (s & -> & Hs).
        { destruct (decide (Z.to_nat idf = cur)) as [E|E].
          - exists nk. rewrite E. split; [done|]. rewrite Hidk, Hnid. lia.
          - rewrite (Hother _ E).
            destruct (lab_deref W _ h lab _ _ Hl Hlf) as [s Hs].
            exists s. split; [done|]. destruct (fw_node _ Hwf _ _ Hs) as (-> & _). lia. }
        simpl. by rewrite Hs.
      - rewrite decide_False; [done|]. unfold nullptr. lia. }
    destruct (decide (id' = 0%Z)) as [->|Hne]; (eexists; split; [done|]);
      unfold I; cbn [fst snd]; rewrite Htake.
    + rewrite app_nil_r. split; [done|]. split; [by rewrite length_modify|].
      split; [intros i Hi; rewrite deref_modify_ne by done; by apply Hother|].
      rewrite deref_modify_eq, Hnk. eexists. split; [done|]. simpl.
      split; [done|]. split; [done|].
      rewrite uchar_nat by lia. rewrite Nat2Z.id.
      split; [by rewrite length_insert|].
      intros j id Hj. destruct (decide (j = k)) as [->|Hjk].
      * rewrite Ek in Hj. injection Hj as <-.
        rewrite list_lookup_insert_eq by lia.
        by rewrite decide_True by (split; [lia|done]).
      * rewrite list_lookup_insert_ne by done. rewrite (Hveck j id Hj).
        destruct (decide (j < k ∧ id = 0%Z)) as [[? ?]|Hn0].
        -- by rewrite decide_True by (split; [lia|done]).
        -- rewrite decide_False; [done|]. intros [? ?]. apply Hn0. split; [lia|done].
    + rewrite app_assoc, <- Hq'. split; [done|]. split; [done|]. split; [done|].
      exists nk. split; [done|]. split; [done|]. split; [done|]. split; [done|].
      intros j id Hj. rewrite (Hveck j id Hj).
      destruct (decide (j < k ∧ id = 0%Z)) as [[? ?]|Hn0].
      * by rewrite decide_True by (split; [lia|done]).
      * rewrite decide_False; [done|]. intros [? ->]. apply Hn0. split; [|done].
        destruct (decide (j = k)) as [->|]; [|lia]. rewrite Ek in Hj. by injection Hj.
  - cbn [fst snd] in *. rewrite take_ge in Hq1 by done. subst q1.
    rewrite entries_length, Hnlen in Hveck.
    exists h1. split; [done|]. split; [done|].
    assert (∀ i, data <$> deref h1 i = data <$> deref h i) as Hdata.
    { intros i. destruct (decide (i = cur)) as [->|Hi]; [|by rewrite Hother].
      rewrite Hnk, Hn. simpl. by rewrite Hdk. }
    assert (∀ k, is_Some (deref h1 k) ↔ is_Some (deref h k)) as Hsome.
    { intros k. rewrite <- !(fmap_is_Some data). by rewrite Hdata. }
    split; [|done]. constructor.
    + by eapply labelled_frame.
    + destruct Hwf as [H1 H2 H3 H4]. constructor.
      * by rewrite Hlen.
      * rewrite Hother; [done|]. intros E. rewrite <- E in Hn. congruence.
      * intros i Hi. apply Hsome, H3. by rewrite <- Hlen.
      * intros i m Hm. rewrite Hlen. destruct (decide (i = cur)) as [->|Hi].
        -- rewrite Hnk in Hm. injection Hm as <-. split; [congruence|]. split; [done|].
           apply Forall_lookup. intros j x Hj.
           destruct (lookup_lt_is_Some_2 (Flat.vec (links n)) j) as [id Hid].
           { apply lookup_lt_Some in Hj. lia. }
           rewrite (Hveck j id Hid) in Hj. case_decide.
           ++ by apply (Forall_lookup_1 _ _ _ _ Hfall Hj).
           ++ injection Hj as <-. by apply (Forall_lookup_1 _ _ _ _ Hnall Hid).
        -- rewrite Hother in Hm by done. by apply H4.
    + intros i v Hi Hv. destruct (Hfail i v Hi Hv) as (m & Hm & Hmf).
      specialize (Hdata i). rewrite Hm in Hdata.
      destruct (deref h1 i) as [m'|] eqn:Hm'; simpl in Hdata; [|done].
      unfold data in Hdata. injection Hdata as _ _ Hdf. exists m'. split; [done|]. by rewrite Hdf.
    + intros i v Hi. destruct (Hout i v Hi) as (m & Hm & Hmo & Hmt).
      specialize (Hdata i). rewrite Hm in Hdata.
      destruct (deref h1 i) as [m'|] eqn:Hm'; simpl in Hdata; [|done].
      unfold data in Hdata. injection Hdata as Hdt Hdo _. exists m'. split; [done|]. by rewrite Hdt, Hdo.
    + intros i v m Hi Hin Hm. destruct (decide (i = cur)) as [->|Hic].
      * rewrite Hnk in Hm. injection Hm as <-. rewrite Hu in Hi. injection Hi as <-.
        intros c Hc. destruct (Hen c Hc) as (id & Hid & Hcase).
        pose proof (lookup_lt_Some _ _ _ Hid) as Hclt. rewrite Hnlen in Hclt.
        rewrite (Hveck _ _ Hid).
        destruct Hcase as [(Hlu & Hlj & Hne)|[Hnl ->]].
        -- exists id. rewrite decide_False by (by intros [_ ?]). split; [done|].
           by rewrite lsuf_id.
        -- rewrite decide_True by (split; [lia|done]).
           destruct (Hfull c Hc) as (idf & Hidf & Hlf). exists idf. split; [done|].
           by rewrite lsuf_fail.
      * rewrite Hother in Hm by done. apply (Hdone i v m Hi); [|done].
        destruct Hin as [?|Hin]; [by left|right].
        apply elem_of_app in Hin as [?| ?%list_elem_of_singleton]; done.
    + intros i v m Hi Hir HiP Hm.
      assert (i ≠ cur) as Hic.
      { intros ->. apply HiP, elem_of_app. right. by apply list_elem_of_singleton. }
      rewrite Hother in Hm by done. apply (Htodo i v m Hi Hir); [|done].
      intros Hin. apply HiP, elem_of_app. by left.
Qed.
End FlatBfs.

Local Open Scope Z_scope.


(** ** [17_double_array_trie.cpp]: the machine that [build] leaves *)
Local Close Scope Z_scope.

Section FlatBuilt.
Variable W : list (list Z * Z).
Variable lab : gmap nat (list Z).
Hypothesis Hsym : ∀ i u, lab !! i = Some u → Forall is_byte u.
Implicit Types h : list (option (Node Flat.Links)).
Notation rt := Flat.trie_root.

(** The machine after [do_bfs]: every link vector is complete. *)
Record flat_built h : Prop := {
  fb_lab : labelled W rt h lab;
  fb_wf : flat_wf h;
  fb_fail : ∀ i u, lab !! i = Some u → u ≠ [] → fail_ok W h lab i u;
  fb_out : ∀ i u, lab !! i = Some u → out_ok W h i u;
  fb_full : ∀ i u n, lab !! i = Some u → deref h i = Some n → full_entries W lab n u
}.

Lemma flat_built_total h : flat_built h → goto_total W is_byte Flat.goto_ rt h lab.
Proof.
  intros [Hl Hwf _ _ Hfull] i u c Hi Hc.
  destruct (lab_deref W _ h lab i u Hl Hi) as [n Hn].
  destruct (flat_goto_full W lab h i u n c Hwf Hn (Hfull i u n Hi Hn) Hc)
    as (id & _ & _ & Hlid & Hg).
  by exists (Z.to_nat id).
Qed.

Lemma flat_built_built h : flat_built h → built W is_byte Flat.goto_ rt h lab.
Proof.
  intros Hb. pose proof (flat_built_total h Hb) as Ht. destruct Hb as [Hl Hwf Hf Ho _].
  constructor; [done| |done|done]. by apply goto_total_run.
Qed.

(** The loop of [do_bfs] ends before its fuel does. *)
Lemma flat_bfs_loop_spec fuel : ∀ d P h q,
  dbfs_inv W lab P h → queue_inv lab d P q → length h ≤ fuel + length P →
  ∃ h' d' P',
    Flat.bfs_loop fuel rt h q = Some h' ∧ length h' = length h ∧
    dbfs_inv W lab P' h' ∧ queue_inv lab d' P' [] ∧
    (∀ i, data <$> deref h' i = data <$> deref h i).
Proof.
  induction fuel as [|fuel IH]; intros d P h q Hinv Hq Hfuel.
  - destruct q as [|node q]; [by exists h, d, P|]. exfalso.
    pose proof (queue_bound W rt lab h (db_lab _ _ _ _ Hinv) _ _ _ Hq) as Hb.
    rewrite length_app in Hb. simpl in Hb, Hfuel. lia.
  - destruct q as [|cur q]; [by exists h, d, P|]. simpl.
    pose proof (db_lab _ _ _ _ Hinv) as Hl.
    destruct (qi_nodes _ _ _ _ Hq cur) as (u & Hu & Hne); [set_solver|].
    destruct (lab_deref W _ h lab cur u Hl Hu) as [n Hn]. rewrite Hn. simpl.
    destruct (flat_bfs_node W lab Hsym d P h cur q q u n Hinv Hq Hu Hn)
      as (h1 & Hfold & Hlen1 & Hinv1 & Hdata1).
    rewrite Hfold. simpl.
    assert (cur ≠ rt) as Hcr.
    { intros ->. rewrite (lab_root _ _ _ _ Hl) in Hu. by injection Hu as <-. }
    assert (cur ∉ P) as HcurP.
    { pose proof (qi_nodup _ _ _ _ Hq) as HND.
      apply NoDup_app in HND as (_ & HND & _). intros Hin. apply (HND _ Hin). set_solver. }
    destruct (kids_spec W h lab cur u n Hl (db_wf _ _ _ _ Hinv) Hu Hn
                (db_todo _ _ _ _ Hinv cur u n Hu Hcr HcurP Hn)) as [Hnd Hcs].
    pose proof (queue_step W is_byte rt lab h Hl Hsym _ _ _ _ _ _ Hq Hu Hnd Hcs) as Hq1.
    destruct (IH _ _ h1 _ Hinv1 Hq1) as (h' & d' & P' & Hloop & Hlen' & Hinv' & Hq' & Hdata').
    { rewrite Hlen1, length_app. simpl. lia. }
    exists h', d', P'. split; [done|]. split; [congruence|]. split; [done|]. split; [done|].
    intros i. by rewrite Hdata', Hdata1.
Qed.

(** The first loop of [do_bfs] puts the children of the root into the
    queue. *)
Lemma flat_bfs_root_spec h r :
  labelled W rt h lab → flat_links W lab h → deref h rt = Some r →
  ∃ q, foldM (Flat.bfs_root rt h) [] (Flat.entries r) = Some q ∧
       NoDup q ∧ ∀ j, j ∈ q ↔ ∃ c, lab !! j = Some [c].
Proof.
  intros Hl [Hwf He] Hr.
  pose proof (He rt [] r (lab_root _ _ _ _ Hl) Hr) as He0.
  rewrite decide_True in He0 by done.
  destruct (fw_node _ Hwf _ _ Hr) as (_ & Hrlen & Hrall).
  set (I := λ (k : nat) (q : list ptr),
    NoDup q ∧ ∀ j, j ∈ q ↔ ∃ c, (0 ≤ c < Z.of_nat k)%Z ∧ lab !! j = Some [c]).
  destruct (foldM_take_ind (Flat.bfs_root rt h) I (Flat.entries r) [])
    as (q & Hfold & Hnd & Hq).
  - split; [constructor|]. intros j. split; [by intros ?%not_elem_of_nil|].
    intros (c & ? & _). lia.
  - intros k [c id] q Hk [Hnd Hq]. rewrite entries_lookup in Hk.
    destruct (Flat.vec (links r) !! k) as [id'|] eqn:Ek; [|done].
    simpl in Hk. injection Hk as <- <-.
    pose proof (lookup_lt_Some _ _ _ Ek) as Hklt. rewrite Hrlen in Hklt.
    pose proof (Forall_lookup_1 _ _ _ _ Hrall Ek) as Hrange. simpl in Hrange.
    assert (is_byte (Z.of_nat k)) as Hb by (unfold is_byte; lia).
    destruct (He0 _ Hb) as (id & Hid & Hcase). rewrite Nat2Z.id, Ek in Hid.
    injection Hid as <-.
    unfold Flat.bfs_root, Flat.node_at. simpl. rewrite decide_True by done. simpl.
    destruct Hcase as [(Hlu & Hlj & Hne)|[Hnl ->]].
    + rewrite decide_True.
      2:{ intros E. rewrite E, (lab_root _ _ _ _ Hl) in Hlj. done. }
      eexists. split; [done|]. split.
      * apply NoDup_app. split; [done|]. split; [|apply NoDup_singleton].
        intros x Hx ->%list_elem_of_singleton. apply Hq in Hx as (c & Hc & Hx).
        rewrite Hlj in Hx. injection Hx as Hx. lia.
      * intros j. rewrite elem_of_app, list_elem_of_singleton, Hq. split.
        -- intros [(c & Hc & Hj)| ->].
           ++ exists c. split; [lia|done].
           ++ exists (Z.of_nat k). split; [lia|done].
        -- intros (c & Hc & Hj). destruct (decide (c = Z.of_nat k)) as [->|Hck].
           ++ right. by eapply lab_inj.
           ++ left. exists c. split; [lia|done].
    + rewrite decide_False by (intros Hx; by apply Hx).
      eexists. split; [done|]. split; [done|]. intros j. rewrite Hq. split.
      * intros (c & Hc & Hj). exists c. split; [lia|done].
      * intros (c & Hc & Hj). exists c. split; [|done].
        destruct (decide (c = Z.of_nat k)) as [->|Hck]; [|lia].
        exfalso. apply Hnl. by eapply lab_islab.
  - exists q. split; [done|]. split; [done|]. intros j. rewrite Hq. split.
    + intros (c & _ & Hj). by exists c.
    + intros [c Hj]. exists c. split; [|done].
      pose proof (Hsym _ _ Hj) as Hc. apply Forall_cons in Hc as [Hc _].
      rewrite entries_length, Hrlen. unfold is_byte in Hc. lia.
Qed.

(** [do_bfs] ends and completes every link vector; it changes nothing
    else. *)
Lemma flat_do_bfs_spec h :
  built W is_byte Flat.goto_ rt h lab → flat_links W lab h →
  ∃ h', Flat.do_bfs rt h = Some h' ∧ flat_built h' ∧ length h' = length h ∧
        (∀ i, data <$> deref h' i = data <$> deref h i).
Proof.
  intros [Hl Hg Hf Ho] Hfl. pose proof Hfl as [Hwf He].
  destruct (lab_deref W _ h lab _ _ Hl (lab_root _ _ _ _ Hl)) as [r Hr].
  destruct (flat_bfs_root_spec h r Hl Hfl Hr) as (q & Hfold & Hnd & Hq).
  unfold Flat.do_bfs. rewrite Hr. simpl. rewrite Hfold. simpl.
  assert (dbfs_inv W lab [] h) as Hinv.
  { constructor; [done..| |].
    - intros i u n Hi [->|Hin] Hn; [|by apply not_elem_of_nil in Hin].
      rewrite (lab_root _ _ _ _ Hl) in Hi. injection Hi as <-.
      pose proof (He rt [] n (lab_root _ _ _ _ Hl) Hn) as He0.
      rewrite decide_True in He0 by done.
      intros c Hc. destruct (He0 c Hc) as (id & Hid & Hcase). exists id. split; [done|].
      destruct Hcase as [(Hlu & Hlj & _)|[Hnl ->]].
      + by rewrite lsuf_id.
      + rewrite lsuf_root by done. apply Hl.
    - intros i u n Hi Hir _ Hn. pose proof (He i u n Hi Hn) as Hen.
      by rewrite decide_False in Hen. }
  pose proof (queue_init W is_byte rt lab h Hl Hsym q Hnd Hq) as Hqi.
  destruct (flat_bfs_loop_spec (length h) _ _ h q Hinv Hqi)
    as (h' & d' & P' & Hloop & Hlen & Hinv' & Hq' & Hdata); [simpl; lia|].
  exists h'. split; [done|]. split; [|done].
  destruct Hinv' as [Hl' Hwf' Hf' Ho' Hdone' _]. constructor; [done..|].
  intros i u n Hi Hn. apply (Hdone' i u n Hi); [|done].
  destruct (decide (u = [])) as [->|Hu].
  - left. by eapply lab_root_nil.
  - right. by eapply (queue_done W rt lab h' Hl').
Qed.
End FlatBuilt.

(** [build] returns for a pattern whose nodes can be told apart by a
    [short]. *)
Lemma flat_build_spec pat :
  Forall is_byte pat → 2 + length pat ≤ fcap →
  ∃ h lab h0 h1,
    Flat.build pat = Some (h, split_to_words pat) ∧
    flat_built (split_to_words pat) lab h ∧
    (∀ i u, lab !! i = Some u → Forall is_byte u) ∧
    foldM (Flat.add_word Flat.trie_root) Flat.trie_init (split_to_words pat) = Some h0 ∧
    trie_inv is_byte Flat.trie_root fedge flat_wf (split_to_words pat) h0 lab ∧
    Flat.build_failure Flat.trie_root h0 = Some h1 ∧
    built (split_to_words pat) is_byte Flat.goto_ Flat.trie_root h1 lab ∧
    flat_links (split_to_words pat) lab h1 ∧
    Flat.do_bfs Flat.trie_root h1 = Some h ∧
    (∀ i, data <$> deref h i = data <$> deref h1 i) ∧
    length h ≤ 2 + length pat.
Proof.
  intros Hb Hcap. pose proof (split_to_words_sum pat) as Hsum.
  destruct (flat_add_words (split_to_words pat)) as (h0 & lab & Hadd & Hinv & Hlen0).
  { by apply split_to_words_bytes. }
  { lia. }
  assert (∀ i u, lab !! i = Some u → Forall is_byte u) as Hsym.
  { intros i u Hi. eapply sh_sym; [|done]. apply Hinv. }
  destruct (flat_build_failure_spec _ (split_to_words_nonempty pat) lab h0 Hinv)
    as (h1 & Hbf & Hbuilt & Hfl & Hlen1).
  destruct (flat_do_bfs_spec _ lab Hsym h1 Hbuilt Hfl) as (h & Hbfs & Hfb & Hlen & Hdata).
  exists h, lab, h0, h1. unfold Flat.build. rewrite Hadd. simpl. rewrite Hbf. simpl.
  rewrite Hbfs. simpl. repeat (split; [done|]). lia.
Qed.

(** Whenever [build] returns, for a pattern of any length: the trie has
    fewer than 32768 nodes, and the machine is built. *)
Lemma flat_build_ret pat h ws :
  Forall is_byte pat → Flat.build pat = Some (h, ws) →
  ∃ lab h0 h1,
    ws = split_to_words pat ∧
    flat_built (split_to_words pat) lab h ∧
    (∀ i u, lab !! i = Some u → Forall is_byte u) ∧
    foldM (Flat.add_word Flat.trie_root) Flat.trie_init (split_to_words pat) = Some h0 ∧
    trie_inv is_byte Flat.trie_root fedge flat_wf (split_to_words pat) h0 lab ∧
    Flat.build_failure Flat.trie_root h0 = Some h1 ∧
    built (split_to_words pat) is_byte Flat.goto_ Flat.trie_root h1 lab ∧
    flat_links (split_to_words pat) lab h1 ∧
    Flat.do_bfs Flat.trie_root h1 = Some h ∧
    (∀ i, data <$> deref h i = data <$> deref h1 i).
Proof.
  intros Hb Hbuild. unfold Flat.build in Hbuild.
  destruct (flat_add_words_cap (split_to_words pat)) as [(h0 & lab & Hadd & Hinv)|Hbad].
  { by apply split_to_words_bytes. }
  - assert (∀ i u, lab !! i = Some u → Forall is_byte u) as Hsym.
    { intros i u Hi. eapply sh_sym; [|done]. apply Hinv. }
    destruct (flat_build_failure_spec _ (split_to_words_nonempty pat) lab h0 Hinv)
      as (h1 & Hbf & Hbuilt & Hfl & Hlen1).
    destruct (flat_do_bfs_spec _ lab Hsym h1 Hbuilt Hfl) as (h' & Hbfs & Hfb & Hlen & Hdata).
    rewrite Hadd in Hbuild. simpl in Hbuild. rewrite Hbf in Hbuild. simpl in Hbuild.
    rewrite Hbfs in Hbuild. simpl in Hbuild. injection Hbuild as <- <-.
    exists lab, h0, h1. split; [done|]. split; [done|]. split; [done|]. split; [done|].
    split; [done|]. split; [done|]. split; [done|]. split; [done|]. split; done.
  - destruct (foldM (Flat.add_word Flat.trie_root) Flat.trie_init (split_to_words pat))
      as [h0|] eqn:Hadd; simpl in Hbuild; [|done].
    rewrite (build_failure_lost h0) in Hbuild by (by apply Hbad). done.
Qed.

Local Open Scope Z_scope.


(** ** [17_double_array_trie.cpp]: the method [process] *)

Lemma flat_same_size w0 k :
  0 ≤ w0 ≤ 32767 → 0 ≤ k ≤ 32767 → Flat.same_size w0 k = bool_decide (w0 = k).
Proof. intros Hw Hk. unfold Flat.same_size. by rewrite to_short_id by lia. Qed.

Section FlatProcess.
Variable pat : list Z.
Variable lab : gmap nat (list Z).
Notation W := (split_to_words pat).
Notation rt := Flat.trie_root.

(** The machine after the text [t]. *)
Record flat_inv (t : list Z) (M : Machine Flat.Links) : Prop := {
  fi_built : flat_built W lab (nodes M);
  fi_root : root M = rt;
  fi_state : lab !! state_ M = Some (lsuf W t);
  fi_win : win_inv pat t M;
  fi_counts : counts exact W t (window_start M) (window M)
}.

(** One call of [process]: one transition, no failure link followed. *)
Lemma flat_process_goto t M c :
  W ≠ [] → is_byte c → flat_built W lab (nodes M) → root M = rt → words M = W →
  lab !! state_ M = Some (lsuf W t) →
  ∃ st n, Flat.goto_ (nodes M) rt (state_ M) c = Some st ∧
          Flat.process M c = slide Flat.same_size M (nodes M) (counter M + 1) st ∧
          lab !! st = Some (lsuf W (t ++ [c])) ∧
          deref (nodes M) st = Some n ∧ output n = out_of W (t ++ [c]) ∧
          terminal n = bool_decide (output n ≠ ∅).
Proof.
  intros HW Hc Hb Hr Hw Hs.
  destruct (flat_built_total W lab (nodes M) Hb _ _ c Hs Hc) as (st & Hg & Hst).
  rewrite <- lsuf_step in Hst.
  destruct (fb_out _ _ _ Hb st _ Hst) as (n & Hn & Ho & Ht).
  exists st, n. split; [done|]. split.
  { unfold Flat.process. rewrite Hw. destruct W; [done|]. rewrite Hr, Hg. done. }
  split; [done|]. split; [done|]. split; [by rewrite Ho, out_of_lsuf|done].
Qed.

Lemma flat_process_exact t M c :
  Z.of_nat (length pat) ≤ 32768 → W ≠ [] → is_byte c → flat_inv t M →
  ∃ M', Flat.process M c = Some (M', emit pat (t ++ [c])) ∧
        flat_inv (t ++ [c]) M' ∧ nodes M' = nodes M.
Proof.
  intros Hm HW Hc [Hb Hr Hs Hwi Hcnt].
  destruct (flat_process_goto t M c HW Hc Hb Hr (wi_words _ _ _ Hwi) Hs)
    as (st & n & Hg & Hproc & Hst & Hn & Hout & Hterm).
  destruct (slide_exact pat Flat.same_size t c M (nodes M) st n Hm HW flat_same_size
              Hwi Hn Hterm Hout Hcnt) as (M' & Hslide & Hwi' & Hc' & Hnodes & Hstate & Hroot).
  exists M'. split; [by rewrite Hproc|]. split; [|done].
  constructor; [by rewrite Hnodes|congruence|by rewrite Hstate|done|done].
Qed.

Lemma flat_feed_exact :
  Z.of_nat (length pat) ≤ 32768 → W ≠ [] →
  ∀ t2 t1 M, Forall is_byte t2 → flat_inv t1 M →
  ∃ M', feed Flat.process M t2 = Some (M', emits pat t1 t2) ∧
        flat_inv (t1 ++ t2) M' ∧ nodes M' = nodes M.
Proof.
  intros Hm HW. induction t2 as [|c t2 IH]; intros t1 M Hb Hinv.
  { exists M. split; [done|]. by rewrite (right_id_L [] (++)). }
  apply Forall_cons in Hb as [Hc Hb].
  destruct (flat_process_exact t1 M c Hm HW Hc Hinv) as (M1 & Hp & Hinv1 & Hn1).
  destruct (IH _ _ Hb Hinv1) as (M' & Hf & Hinv' & Hn').
  exists M'. rewrite feed_cons, Hp. simpl. rewrite Hf. simpl. split; [done|].
  rewrite (cons_middle c t1 t2), (assoc_L (++)). split; [done|]. congruence.
Qed.
End FlatProcess.

(** The machine that the constructor leaves. *)
Lemma flat_make_spec pat :
  Forall is_byte pat → (2 + length pat ≤ fcap)%nat →
  ∃ M lab, Flat.make pat = Some M ∧
    flat_built (split_to_words pat) lab (nodes M) ∧
    (∀ i u, lab !! i = Some u → Forall is_byte u) ∧
    root M = Flat.trie_root ∧ state_ M = Flat.trie_root ∧
    pattern M = pat ∧ pattern_size M = Z.of_nat (length pat) ∧
    words M = split_to_words pat ∧ counter M = 0 ∧
    window M = replicate (length pat) 0 ∧ window_start M = 0.
Proof.
  intros Hb Hcap.
  destruct (flat_build_spec pat Hb Hcap) as (h & lab & h0 & h1 & Hbuild & Hfb & Hsym & _).
  eexists _, lab. unfold Flat.make. rewrite Hbuild. simpl. split; [done|]. by simpl.
Qed.

Lemma flat_make_inv pat :
  Forall is_byte pat → (2 + length pat ≤ fcap)%nat → split_to_words pat ≠ [] →
  ∃ M lab, Flat.make pat = Some M ∧ flat_inv pat lab [] M.
Proof.
  intros Hb Hcap HW.
  destruct (flat_make_spec pat Hb Hcap)
    as (M & lab & HM & Hfb & _ & Hr & Hs & Hp & Hps & Hw & Hc & Hwin & Hws).
  exists M, lab. split; [done|]. clear Hcap HM.
  assert (pat ≠ []) as Hne by (by intros ->).
  constructor; [done|done| | |].
  - rewrite Hs, lsuf_nil. by apply (fb_lab _ _ _ Hfb).
  - constructor; [done..|by rewrite Hwin, length_replicate|].
    rewrite Hws. destruct pat; [done|]. simpl length. lia.
  - intros i x Hx. rewrite hits_nil by apply split_to_words_nonempty.
    rewrite Hwin in Hx. apply lookup_replicate in Hx as [-> _]. by rewrite size_empty.
Qed.

(** The machine that the constructor leaves, whenever it returns. *)
Lemma flat_make_ret pat M :
  Forall is_byte pat → Flat.make pat = Some M →
  ∃ lab,
    flat_built (split_to_words pat) lab (nodes M) ∧
    (∀ i u, lab !! i = Some u → Forall is_byte u) ∧
    root M = Flat.trie_root ∧ state_ M = Flat.trie_root ∧
    pattern M = pat ∧ pattern_size M = Z.of_nat (length pat) ∧
    words M = split_to_words pat ∧ counter M = 0 ∧
    window M = replicate (length pat) 0 ∧ window_start M = 0.
Proof.
  intros Hb HM. unfold Flat.make in HM.
  destruct (Flat.build pat) as [[h ws]|] eqn:Hbuild; simpl in HM; [|done].
  destruct (flat_build_ret pat h ws Hb Hbuild) as (lab & h0 & h1 & -> & Hfb & Hsym & _).
  injection HM as <-. exists lab. split; [exact Hfb|]. split; [exact Hsym|]. by simpl.
Qed.

Lemma flat_make_ret_inv pat M :
  Forall is_byte pat → Flat.make pat = Some M → split_to_words pat ≠ [] →
  ∃ lab, flat_inv pat lab [] M.
Proof.
  intros Hb HM HW.
  destruct (flat_make_ret pat M Hb HM)
    as (lab & Hfb & _ & Hr & Hs & Hp & Hps & Hw & Hc & Hwin & Hws).
  exists lab. clear HM.
  assert (pat ≠ []) as Hne by (by intros ->).
  constructor; [done|done| | |].
  - rewrite Hs, lsuf_nil. by apply (fb_lab _ _ _ Hfb).
  - constructor; [done..|by rewrite Hwin, length_replicate|].
    rewrite Hws. destruct pat; [done|]. simpl length. lia.
  - intros i x Hx. rewrite hits_nil by apply split_to_words_nonempty.
    rewrite Hwin in Hx. apply lookup_replicate in Hx as [-> _]. by rewrite size_empty.
Qed.


(** ** [17_double_array_trie.cpp]: the tables of [make_flat] *)

Lemma concat_rows_lookup (rows : list (list Z)) : ∀ (k j : nat) r x,
  Forall (λ r, length r = 256%nat) rows → rows !! k = Some r → r !! j = Some x →
  concat rows !! (k * 256 + j)%nat = Some x.
Proof.
  induction rows as [|r0 rows IH]; intros k j r x Hall Hk Hj; [done|].
  apply Forall_cons in Hall as [H0 Hall].
  change (concat (r0 :: rows)) with (r0 ++ concat rows). destruct k as [|k].
  - assert (r0 = r) as -> by (by injection Hk). by apply lookup_app_l_Some.
  - assert (rows !! k = Some r) as Hk' by done.
    rewrite lookup_app_r by lia. rewrite H0.
    replace (S k * 256 + j - 256)%nat with (k * 256 + j)%nat by lia.
    by eapply IH.
Qed.

(** The row of the node [nodes[i]] is the row [i - 1] of the table; the
    entry of a link is the start of the row of the node it leads to. *)
Lemma make_flat_spec (M : Machine Flat.Links) :
  flat_wf (nodes M) →
  ∃ tr outs, Flat.make_flat M = Some (tr, outs) ∧
    ∀ (i : nat) n, deref (nodes M) i = Some n →
      outs !! (i - 1)%nat = Some (Flat.flat_out n) ∧
      ∀ (c : nat) id, Flat.vec (links n) !! c = Some id →
        tr !! ((i - 1) * 256 + c)%nat = Some ((id - 1) * 256).
Proof.
  intros Hwf. set (h := nodes M) in *.
  assert (is_Some (mapM id (drop 1 h))) as [ns Hns].
  { apply mapM_is_Some, Forall_lookup. intros k x Hk. rewrite lookup_drop in Hk.
    destruct (fw_some _ Hwf (1 + k)%nat) as [n Hn].
    { apply lookup_lt_Some in Hk. lia. }
    unfold deref in Hn. rewrite Hk in Hn. simpl in Hn. by exists n. }
  exists (concat (Flat.flat_row <$> ns)), (Flat.flat_out <$> ns).
  split. { unfold Flat.make_flat. fold h. by rewrite Hns. }
  apply mapM_Some in Hns. intros i n Hn.
  assert (i ≠ 0)%nat as Hi.
  { intros ->. pose proof (fw_null _ Hwf) as E. unfold nullptr in E. congruence. }
  assert (ns !! (i - 1)%nat = Some n) as Hk.
  { unfold deref in Hn. destruct (h !! i) as [x|] eqn:E; [|done]. simpl in Hn. subst x.
    assert (drop 1 h !! (i - 1)%nat = Some (Some n)) as Hd.
    { rewrite lookup_drop. by replace (1 + (i - 1))%nat with i by lia. }
    destruct (Forall2_lookup_l _ _ _ _ _ Hns Hd) as (y & Hy & Hxy). simpl in Hxy. congruence. }
  split. { by rewrite list_lookup_fmap, Hk. }
  intros c x Hc. apply concat_rows_lookup with (Flat.flat_row n).
  - apply Forall_fmap, Forall_lookup. intros k n' Hk'. simpl. unfold Flat.flat_row.
    rewrite length_fmap.
    assert (drop 1 h !! k = Some (Some n')) as Hd.
    { destruct (Forall2_lookup_r _ _ _ _ _ Hns Hk') as (y & Hy & Hxy). simpl in Hxy.
      by subst y. }
    rewrite lookup_drop in Hd.
    apply (fw_node _ Hwf (1 + k)%nat n'). unfold deref. by rewrite Hd.
  - by rewrite list_lookup_fmap, Hk.
  - unfold Flat.flat_row. by rewrite list_lookup_fmap, Hc.
Qed.

(** ** [17_double_array_trie.cpp]: the loop of [main] *)

(** The slot of the circular window for the alignment [a]. *)
Definition slot (a : Z) : nat := Z.to_nat (a `mod` 8192).

Lemma land_mask x : Z.to_nat (Z.land x (Flat.MAX_SIZE - 1)) = slot x.
Proof.
  unfold slot. f_equal. change (Flat.MAX_SIZE - 1) with (Z.ones 13).
  by rewrite Z.land_ones.
Qed.

Lemma slot_lt a : Z.of_nat (slot a) < 8192.
Proof. unfold slot. pose proof (Z.mod_pos_bound a 8192). lia. Qed.

(** 8192 alignments in a row have different slots. *)
Lemma slot_inj lo a b :
  lo ≤ a < lo + 8192 → lo ≤ b < lo + 8192 → slot a = slot b → a = b.
Proof.
  unfold slot. intros Ha Hb E.
  pose proof (Z.mod_pos_bound a 8192). pose proof (Z.mod_pos_bound b 8192).
  apply Z2Nat.inj in E; [|lia..].
  pose proof (Z.div_mod a 8192). pose proof (Z.div_mod b 8192). lia.
Qed.

Lemma slot_shift a : slot (a + 8192) = slot a.
Proof.
  unfold slot. f_equal. replace (a + 8192) with (a + 1 * 8192) by lia.
  by rewrite Z.mod_add.
Qed.

(** The loop over an output list: every alignment of the words that end
    with the symbol read gets one more. *)
Lemma mark_spec pos lo (l : list Z) : ∀ win,
  Z.of_nat (length win) = 8192 → NoDup l →
  (∀ e, e ∈ l → 0 ≤ e ≤ 8191 ∧ lo ≤ pos - (e + 1)) →
  pos ≤ lo + 8192 →
  ∃ win', Flat.mark pos win (((λ e, to_short (e + 1)) <$> l) ++ [0]) = Some win' ∧
    Z.of_nat (length win') = 8192 ∧
    ∀ a, lo ≤ a < lo + 8192 →
      win' !! slot a =
      (λ x, if decide (0 ≤ a ∧ pos - 1 - a ∈ l) then to_short (x + 1) else x)
        <$> win !! slot a.
Proof.
  induction l as [|e l IH]; intros win Hlen Hnd Hl Hpos.
  { exists win. split; [done|]. split; [done|]. intros a Ha.
    destruct (win !! slot a); [|done]. simpl. rewrite decide_False; [done|].
    intros [_ ?%elem_of_nil]. done. }
  apply NoDup_cons in Hnd as [Hne Hnd].
  destruct (Hl e) as [He Hlo]; [by left|].
  assert (∀ e', e' ∈ l → 0 ≤ e' ≤ 8191 ∧ lo ≤ pos - (e' + 1)) as Hl'.
  { intros e' He'. apply Hl. by right. }
  rewrite fmap_cons. simpl. rewrite to_short_id by lia.
  rewrite decide_True by lia.
  destruct (decide (0 ≤ pos - (e + 1))) as [Hp|Hp].
  - rewrite land_mask.
    destruct (lookup_lt_is_Some_2 win (slot (pos - (e + 1)))) as [x Hx].
    { pose proof (slot_lt (pos - (e + 1))). lia. }
    rewrite Hx. simpl.
    destruct (IH (<[slot (pos - (e + 1)) := to_short (x + 1)]> win))
      as (win' & Hm & Hlen' & Hw); [by rewrite length_insert|done..|].
    exists win'. split; [done|]. split; [done|].
    intros a Ha. rewrite (Hw a Ha).
    destruct (decide (a = pos - (e + 1))) as [->|Hae].
    + rewrite list_lookup_insert_eq by (pose proof (slot_lt (pos - (e + 1))); lia).
      rewrite Hx. simpl. f_equal.
      rewrite decide_False, decide_True; [done|split; [done|]|].
      * replace (pos - 1 - (pos - (e + 1))) with e by lia. by left.
      * intros [_ Hin]. apply Hne. by replace (pos - 1 - (pos - (e + 1))) with e in Hin by lia.
    + rewrite list_lookup_insert_ne.
      2:{ intros E. apply Hae. symmetry. eapply (slot_inj lo); [lia|done|done]. }
      destruct (win !! slot a) as [y|]; [|done]. simpl. f_equal.
      destruct (decide (0 ≤ a ∧ pos - 1 - a ∈ l)) as [[? ?]|Hn].
      * rewrite decide_True; [done|]. split; [done|]. by right.
      * rewrite decide_False; [done|]. intros [? [E|?]%elem_of_cons]; [lia|]. by apply Hn.
  - destruct (IH win) as (win' & Hm & Hlen' & Hw); [done..|].
    exists win'. split; [done|]. split; [done|].
    intros a Ha. rewrite (Hw a Ha).
    destruct (win !! slot a) as [y|]; [|done]. simpl. f_equal.
    destruct (decide (0 ≤ a ∧ pos - 1 - a ∈ l)) as [[? ?]|Hn].
    + rewrite decide_True; [done|]. split; [done|]. by right.
    + rewrite decide_False; [done|]. intros [? [E|?]%elem_of_cons]; [lia|]. by apply Hn.
Qed.

Section FlatScan.
Variable pat : list Z.
Variable lab : gmap nat (list Z).
Variable h : list (option (Node Flat.Links)).
Variable tr : list Z.
Variable outs : list (list Z).
Notation W := (split_to_words pat).
Notation rt := Flat.trie_root.
Hypothesis Hm : Z.of_nat (length pat) ≤ 8192.
Hypothesis Hb : flat_built W lab h.
Hypothesis Htab : ∀ (i : nat) n, deref h i = Some n →
  outs !! (i - 1)%nat = Some (Flat.flat_out n) ∧
  ∀ (c : nat) id, Flat.vec (links n) !! c = Some id →
    tr !! ((i - 1) * 256 + c)%nat = Some ((id - 1) * 256).

(** What the slot of the alignment [a] holds after the text [t]. *)
Definition seen (t : list Z) (a : Z) : Z :=
  if decide (0 ≤ a) then Z.of_nat (size (hits W t a)) else 0.

(** The state of the loop after the text [t]: the row of the state of the
    longest suffix, and the counts of the next 8192 alignments. *)
Record scan_inv (t : list Z) (s : Flat.Scan) : Prop := {
  si_state : ∃ i : nat, lab !! i = Some (lsuf W t) ∧
               Flat.s_state s = (Z.of_nat i - 1) * 256;
  si_pos : Flat.s_pos s = Z.of_nat (length t);
  si_len : Z.of_nat (length (Flat.s_window s)) = 8192;
  si_win : ∀ a, Z.of_nat (length t) - Z.of_nat (length pat) < a
                  ≤ Z.of_nat (length t) - Z.of_nat (length pat) + 8192 →
           Flat.s_window s !! slot a = Some (seen t a)
}.

Lemma seen_ahead t a : Z.of_nat (length t) ≤ a → seen t a = 0.
Proof.
  intros Ha. unfold seen. destruct (decide (0 ≤ a)); [|done].
  rewrite hits_ahead; [done| |done].
  intros e ([w e'] & -> & Hin)%list_elem_of_fmap.
  eapply word_end_range; [|done]. lia.
Qed.

Lemma seen_snoc t c a :
  seen (t ++ [c]) a =
  if decide (0 ≤ a ∧ Z.of_nat (length t) - a ∈ out_of W (t ++ [c]))
  then to_short (seen t a + 1) else seen t a.
Proof.
  unfold seen. destruct (decide (0 ≤ a)) as [Ha|Ha].
  - rewrite size_hits_snoc.
    destruct (decide (Z.of_nat (length t) - a ∈ out_of W (t ++ [c]))) as [Hin|Hin].
    + rewrite decide_True by done.
      pose proof (size_hits_le W (t ++ [c]) a) as Hle.
      pose proof (words_length pat ltac:(lia)).
      assert (Z.of_nat (size (hits W (t ++ [c]) a)) = Z.of_nat (size (hits W t a)) + 1) as E.
      { rewrite size_hits_snoc. by rewrite decide_True. }
      rewrite to_short_id; lia.
    + rewrite decide_False; [lia|]. by intros [_ ?].
  - rewrite decide_False; [done|]. by intros [? _].
Qed.

Lemma flat_step_spec t s c :
  is_byte c → 32 < c → Z.of_nat (length t) < INT_MAX → scan_inv t s →
  ∃ s', Flat.step tr outs (Z.of_nat (length pat)) (Z.of_nat (length W)) s c
          = Some (s', emit pat (t ++ [c])) ∧
        scan_inv (t ++ [c]) s'.
Proof.
  intros Hc Hc32 Hint [(i & Hi & Hst) Hpos Hlen Hwin].
  assert (Z.of_nat (length pat) ≤ 32768) as Hm' by lia.
  destruct (lab_deref _ _ _ _ _ _ (fb_lab _ _ _ Hb) Hi) as [n Hn].
  assert (i ≠ 0)%nat as Hi0.
  { intros ->. pose proof (lab_not_null _ _ _ _ (fb_lab _ _ _ Hb)) as E.
    unfold nullptr in E. congruence. }
  destruct (flat_goto_full W lab h i _ n c (fb_wf _ _ _ Hb) Hn
              (fb_full _ _ _ Hb _ _ _ Hi Hn) Hc) as (id & Hid & Hrange & Hj & _).
  rewrite <- lsuf_step in Hj.
  set (j := Z.to_nat id) in *.
  destruct (fb_out _ _ _ Hb j _ Hj) as (nj & Hnj & Hout & _).
  rewrite out_of_lsuf in Hout.
  assert (j ≠ 0)%nat as Hj0.
  { intros E. rewrite E in Hj. pose proof (lab_not_null _ _ _ _ (fb_lab _ _ _ Hb)) as E'.
    unfold nullptr in E'. congruence. }
  destruct (Htab i n Hn) as [_ Htr]. specialize (Htr _ _ Hid).
  destruct (Htab j nj Hnj) as [Ho _].
  unfold is_byte in Hc.
  unfold Flat.step. rewrite Hst, Hpos.
  rewrite (decide_False (P := c ≤ 32)) by lia.
  rewrite decide_False by lia.
  replace (Z.to_nat ((Z.of_nat i - 1) * 256 + c)) with ((i - 1) * 256 + Z.to_nat c)%nat by lia.
  rewrite Htr. simpl.
  rewrite (decide_False (P := Z.of_nat (length t) = INT_MAX)) by lia.
  rewrite decide_False by lia.
  replace (Z.to_nat (Z.shiftr ((id - 1) * 256) 8)) with (j - 1)%nat.
  2:{ rewrite Z.shiftr_div_pow2 by lia. change (2 ^ 8) with 256.
      rewrite Z.div_mul by lia. lia. }
  rewrite Ho. simpl. unfold Flat.flat_out.
  set (pos := Z.of_nat (length t) + 1).
  set (lo := pos - Z.of_nat (length pat)).
  destruct (mark_spec pos lo (elements (output nj)) (Flat.s_window s) Hlen
              (NoDup_elements _)) as (win & Hmark & Hlen' & Hw).
  { intros e He. apply elem_of_elements in He. rewrite Hout in He.
    apply out_of_subseteq, elem_of_list_to_set in He.
    apply list_elem_of_fmap in He as ([w e'] & -> & Hin).
    pose proof (word_end_range pat Hm' _ _ Hin). simpl. lia. }
  { lia. }
  rewrite Hmark. simpl.
  assert (∀ a, lo ≤ a < lo + 8192 → win !! slot a = Some (seen (t ++ [c]) a)) as Hseen.
  { intros a Ha. rewrite (Hw a Ha), Hwin by lia. simpl. f_equal.
    rewrite seen_snoc. unfold pos.
    replace (Z.of_nat (length t) + 1 - 1 - a) with (Z.of_nat (length t) - a) by lia.
    destruct (decide (0 ≤ a ∧ Z.of_nat (length t) - a ∈ elements (output nj))) as [[? Hin]|Hn'].
    - rewrite decide_True; [done|]. split; [done|]. apply elem_of_elements in Hin.
      by rewrite <- Hout.
    - rewrite decide_False; [done|]. intros [? Hin]. apply Hn'. split; [done|].
      apply elem_of_elements. by rewrite Hout. }
  assert (Z.of_nat (length (t ++ [c])) = pos) as Hpos'.
  { rewrite length_app. simpl. lia. }
  destruct (decide (0 ≤ lo)) as [Hlo|Hlo].
  - rewrite land_mask, (Hseen lo) by lia. simpl.
    exists (Flat.mkScan (<[slot lo:=0]> win) ((id - 1) * 256) pos). split.
    + do 2 f_equal. unfold emit, seen. rewrite (decide_True (P := 0 ≤ lo)) by done.
      assert (lo = Z.of_nat (length (t ++ [c]) - length pat)) as Elo by lia.
      rewrite Elo.
      destruct (decide (Z.of_nat (size (hits W (t ++ [c])
                  (Z.of_nat (length (t ++ [c]) - length pat)))) = Z.of_nat (length W)))
        as [Hfull|Hfull].
      * rewrite decide_True; [done|]. split; [lia|].
        apply occurs_hits; [done|lia|].
        apply hits_full; [by apply words_NoDup|]. lia.
      * rewrite decide_False; [done|]. intros [_ Hocc]. apply Hfull.
        apply occurs_hits in Hocc; [|done|lia].
        apply hits_full in Hocc; [|by apply words_NoDup]. lia.
    + constructor; simpl.
      * exists j. split; [done|]. lia.
      * lia.
      * by rewrite length_insert.
      * intros a Ha. destruct (decide (a = lo + 8192)) as [->|Hne].
        -- rewrite slot_shift, list_lookup_insert_eq by (pose proof (slot_lt lo); lia).
           rewrite seen_ahead; [done|lia].
        -- rewrite list_lookup_insert_ne.
           2:{ intros E. apply (slot_inj lo) in E; lia. }
           apply Hseen. lia.
  - exists (Flat.mkScan win ((id - 1) * 256) pos). split.
    + do 2 f_equal. unfold emit. rewrite decide_False; [done|]. intros [? _]. lia.
    + constructor; simpl.
      * exists j. split; [done|]. lia.
      * lia.
      * done.
      * intros a Ha. destruct (decide (a = lo + 8192)) as [->|Hne].
        -- rewrite slot_shift, (Hseen lo) by lia. f_equal.
           rewrite (seen_ahead _ (lo + 8192)) by lia. unfold seen. by rewrite decide_False.
        -- apply Hseen. lia.
Qed.

(** A byte up to 32 leaves the state of the loop as it is. *)
Lemma flat_step_skip psize wsize s c :
  c ≤ 32 → Flat.step tr outs psize wsize s c = Some (s, []).
Proof. intros Hc. unfold Flat.step. by rewrite decide_True. Qed.

Lemma flat_scan_spec : ∀ t2 t1 s,
  Forall is_byte t2 →
  Z.of_nat (length (t1 ++ filter (λ c, 32 < c) t2)) ≤ INT_MAX →
  scan_inv t1 s →
  ∃ s', Flat.scan tr outs (Z.of_nat (length pat)) (Z.of_nat (length W)) s t2
          = Some (s', emits pat t1 (filter (λ c, 32 < c) t2)) ∧
        scan_inv (t1 ++ filter (λ c, 32 < c) t2) s'.
Proof.
  induction t2 as [|c t2 IH]; intros t1 s Hbytes Hint Hinv.
  { exists s. rewrite filter_nil. split; [done|]. by rewrite (right_id_L [] (++)). }
  apply Forall_cons in Hbytes as [Hc Hbytes].
  destruct (decide (32 < c)) as [Hc32|Hc32].
  - rewrite filter_cons_True by done. rewrite filter_cons_True in Hint by done.
    rewrite (cons_middle c t1), (assoc_L (++)) in Hint.
    destruct (flat_step_spec t1 s c Hc Hc32) as (s1 & Hs1 & Hinv1); [|done|].
    { rewrite !length_app in Hint. simpl in Hint. lia. }
    destruct (IH _ _ Hbytes Hint Hinv1) as (s' & Hs' & Hinv').
    exists s'. split.
    + simpl. rewrite Hs1. simpl. rewrite Hs'. done.
    + by rewrite (cons_middle c t1), (assoc_L (++)).
  - rewrite filter_cons_False by done. rewrite filter_cons_False in Hint by done.
    destruct (IH _ _ Hbytes Hint Hinv) as (s' & Hs' & Hinv').
    exists s'. split; [|done].
    simpl. rewrite flat_step_skip by lia. simpl. rewrite Hs'. done.
Qed.

Lemma scan_inv_init :
  scan_inv [] (Flat.mkScan (replicate (Z.to_nat Flat.MAX_SIZE) 0) 0 0).
Proof.
  constructor; cbn [Flat.s_state Flat.s_pos Flat.s_window].
  - exists rt. split; [|done]. rewrite lsuf_nil. apply (fb_lab _ _ _ Hb).
  - done.
  - rewrite length_replicate. unfold Flat.MAX_SIZE. lia.
  - intros a Ha.
    assert (seen [] a = 0) as ->.
    { unfold seen. destruct (decide (0 ≤ a)); [|done].
      by rewrite hits_nil by apply split_to_words_nonempty. }
    apply lookup_replicate_2. pose proof (slot_lt a). unfold Flat.MAX_SIZE. lia.
Qed.
End FlatScan.

(** The offsets printed for the empty pattern. *)
Lemma emits_nil : ∀ t2 t1,
  emits [] t1 t2 = Z.of_nat <$> seq (length t1 + 1) (length t2).
Proof.
  induction t2 as [|c t2 IH]; intros t1; [done|].
  simpl. rewrite IH, length_app. simpl length.
  f_equal; [f_equal; lia|]. change (list_fmap nat Z Z.of_nat) with (fmap (M:=list) Z.of_nat).
  do 2 f_equal. lia.
Qed.

Lemma fcap_le (n : nat) : Z.of_nat n ≤ 32766 → (2 + n ≤ fcap)%nat.
Proof. unfold fcap. lia. Qed.

(** The run of [main] prints, after every byte above 32, the alignment it
    has completed if the pattern occurs there in the text of these bytes. *)
Lemma flat_run_emits pat t :
  Forall is_byte pat → Z.of_nat (length pat) ≤ 8192 → Forall is_byte t →
  Z.of_nat (length (filter (λ c, 32 < c) t)) ≤ INT_MAX →
  Flat.run pat t = Some (emits pat [] (filter (λ c, 32 < c) t)).
Proof.
  intros Hp Hm Ht Hint.
  destruct (flat_make_spec pat Hp (fcap_le (length pat) ltac:(lia)))
    as (M & lab & HM & Hfb & _ & _ & _ & _ & _ & Hw & _).
  destruct (make_flat_spec M (fb_wf _ _ _ Hfb)) as (tr & outs & Hmf & Htab).
  destruct (flat_scan_spec pat lab (nodes M) tr outs Hm Hfb Htab t [] _ Ht Hint
              (scan_inv_init pat lab (nodes M) Hfb)) as (s' & Hs & _).
  unfold Flat.run. rewrite HM. cbn [mbind option_bind]. rewrite Hmf.
  cbn [mbind option_bind]. rewrite Hw, Hs. done.
Qed.

Lemma flat_run_occurrences pat t :
  Forall is_byte pat → pat ≠ [] → Z.of_nat (length pat) ≤ 8192 → Forall is_byte t →
  Z.of_nat (length (filter (λ c, 32 < c) t)) ≤ INT_MAX →
  Flat.run pat t = Some (occurrences pat (filter (λ c, 32 < c) t)).
Proof.
  intros Hp Hne Hm Ht Hint. rewrite flat_run_emits by done. f_equal.
  apply emits_occurrences. destruct pat; [done|]. simpl. lia.
Qed.

Lemma flat_run_empty t :
  Forall is_byte t → Z.of_nat (length (filter (λ c, 32 < c) t)) ≤ INT_MAX →
  Flat.run [] t = Some (Z.of_nat <$> seq 1 (length (filter (λ c, 32 < c) t))).
Proof.
  intros Ht Hint. rewrite flat_run_emits; [|done|simpl; lia|done|done]. by rewrite emits_nil.
Qed.


(** ** Reading standard input *)

Lemma read_token_spec input tok rest :
  read_token input = (tok, rest) →
  input = tok ++ rest ∧ Forall (λ c, 32 < c) tok ∧ (∀ c r, rest = c :: r → c ≤ 32).
Proof.
  revert tok rest. induction input as [|c input IH]; intros tok rest; simpl.
  { intros [= <- <-]. by repeat split. }
  destruct (decide (32 < c)) as [Hc|Hc].
  - destruct (read_token input) as [tok' rest'] eqn:E. intros [= <- <-].
    destruct (IH _ _ eq_refl) as (-> & Htok & Hrest).
    split; [done|]. split; [by constructor|done].
  - intros [= <- <-]. split; [done|]. split; [done|]. intros c' r [= <- <-]. lia.
Qed.

Lemma read_token_app tok rest :
  Forall (λ c, 32 < c) tok → (∀ c r, rest = c :: r → c ≤ 32) →
  read_token (tok ++ rest) = (tok, rest).
Proof.
  intros Htok Hrest. induction Htok as [|c tok Hc Htok IH]; simpl.
  - destruct rest as [|c r]; [done|]. simpl.
    rewrite decide_False; [done|]. specialize (Hrest c r eq_refl). lia.
  - rewrite decide_True by done. by rewrite IH.
Qed.

Lemma skip_blanks_spec input :
  ∃ blanks, input = blanks ++ skip_blanks input ∧ Forall (λ c, c ≤ 32) blanks ∧
            (∀ c r, skip_blanks input = c :: r → 32 < c).
Proof.
  induction input as [|c input (blanks & E & Hb & Hs)]; simpl.
  { exists []. by repeat split. }
  destruct (decide (c ≤ 32)) as [Hc|Hc].
  - exists (c :: blanks). split; [simpl; by f_equal|]. split; [by constructor|done].
  - exists []. split; [done|]. split; [done|]. intros c' r [= <- <-]. lia.
Qed.

Lemma skip_blanks_id c input : 32 < c → skip_blanks (c :: input) = c :: input.
Proof. intros Hc. simpl. rewrite decide_False; [done|lia]. Qed.

(** The separator after the pattern is not a symbol of the text. *)
Lemma filter_drop_sep rest :
  (∀ c r, rest = c :: r → c ≤ 32) →
  filter (λ c, 32 < c) (drop 1 rest) = filter (λ c, 32 < c) rest.
Proof.
  intros Hrest. destruct rest as [|c r]; [done|]. simpl.
  rewrite filter_cons_False; [by rewrite drop_0|]. specialize (Hrest c r eq_refl). lia.
Qed.

(** What the two programs run for an input that starts with the pattern. *)
Lemma mains_run input pat rest :
  read_token input = (pat, rest) → pat ≠ [] →
  Ptr.main input = Ptr.run pat (filter (λ c, 32 < c) rest) ∧
  Flat.main input = Flat.run pat rest.
Proof.
  intros Hrt Hne. destruct (read_token_spec _ _ _ Hrt) as (Hin & Htok & Hrest). split.
  - unfold Ptr.main. rewrite Hrt. by rewrite filter_drop_sep.
  - unfold Flat.main. destruct pat as [|c pat]; [done|]. subst input. simpl app.
    apply Forall_cons in Htok as [Hc _]. rewrite skip_blanks_id by done.
    change (c :: pat ++ rest) with ((c :: pat) ++ rest). by rewrite Hrt.
Qed.

(** ** The path of the loop that follows the failure links *)

(** From [s] the failure links lead through the states of [path], in this
    order, to [s']. *)
Fixpoint fail_chain {L} (h : list (option (Node L))) (s : ptr) (path : list ptr)
    (s' : ptr) : Prop :=
  match path with
  | [] => s = s'
  | p :: path => p = s ∧ ∃ f, failure h s = Some f ∧ fail_chain h f path s'
  end.

(** Every state of the list is deeper than the next one. *)
Fixpoint descending (depth : ptr → nat) (l : list ptr) : Prop :=
  match l with
  | x :: l' => match l' with
               | y :: _ => (depth y < depth x)%nat ∧ descending depth l'
               | [] => True
               end
  | [] => True
  end.

Section WalkChain.
Context {L : Type}.
Variable goto_ : list (option (Node L)) → ptr → ptr → Z → option ptr.
Implicit Types h : list (option (Node L)).

(** What the loop has done when it ends. *)
Lemma walk_chain h rt c fuel : ∀ s path0 path s' f,
  walk goto_ fuel h rt s c path0 = Some (path, s', f) →
  ∃ path', path = path0 ++ path' ∧ fail_chain h s path' s' ∧
           goto_ h rt s' c = Some f ∧ f ≠ nullptr ∧
           Forall (λ p, goto_ h rt p c = Some nullptr) path'.
Proof.
  induction fuel as [|fuel IH]; intros s path0 path s' f; [done|]. simpl.
  destruct (goto_ h rt s c) as [nxt|] eqn:Hg; [|done]. simpl.
  destruct (decide (nxt = nullptr)) as [->|Hne].
  - destruct (failure h s) as [fl|] eqn:Hf; [|done]. simpl. intros Hw.
    destruct (IH _ _ _ _ _ Hw) as (path' & -> & Hch & Hgo & Hnn & Hall).
    exists (s :: path'). split; [by rewrite <- app_assoc|]. split.
    { simpl. split; [done|]. by exists fl. }
    split; [done|]. split; [done|]. by constructor.
  - intros [= <- <- <-]. exists []. rewrite app_nil_r. by repeat split.
Qed.

Variable W : list (list Z * Z).
Variable sym : Z → Prop.
Variable rt : ptr.
Variable lab : gmap nat (list Z).

(** The depth of a state: the length of its label. *)
Definition depth_of (i : ptr) : nat := length (default [] (lab !! i)).

(** A failure link leads to a state that is less deep. *)
Lemma fail_chain_descending h : ∀ path s s',
  (∀ i u, lab !! i = Some u → u ≠ [] → fail_ok W h lab i u) →
  Forall (λ p, ∃ u, lab !! p = Some u ∧ u ≠ []) path →
  fail_chain h s path s' → descending depth_of (path ++ [s']).
Proof.
  intros path s s' Hfail. revert s. induction path as [|p path IH]; intros s Hall Hch.
  { done. }
  apply Forall_cons in Hall as [(u & Hu & Hne) Hall].
  destruct Hch as (-> & f & Hf & Hch).
  destruct (Hfail _ _ Hu Hne) as (n & Hn & Hlf).
  unfold failure in Hf. rewrite Hn in Hf. injection Hf as <-.
  specialize (IH _ Hall Hch).
  assert (depth_of (link_fail n) < depth_of s)%nat as Hlt.
  { unfold depth_of. rewrite Hu, Hlf. simpl. by apply fsuf_length. }
  change ((s :: path) ++ [s']) with (s :: (path ++ [s'])).
  destruct path as [|p' path]; simpl in *.
  - subst s'. done.
  - destruct Hch as [-> _]. done.
Qed.

(** The failure link of a child is where the loop that follows the failure
    links of its parent ends. *)
Lemma built_fail_walk h s u c s' :
  built W sym goto_ rt h lab →
  lab !! s = Some u → u ≠ [] → lab !! s' = Some (u ++ [c]) → sym c →
  ∃ f path st nxt,
    failure h s = Some f ∧
    walk goto_ (length h) h rt f c [] = Some (path, st, nxt) ∧
    failure h s' = Some nxt.
Proof.
  intros [Hl Hg Hf Ho] Hs Hne Hs' Hc.
  destruct (Hf _ _ Hs Hne) as (n & Hn & Hlf).
  pose proof (depth_bound W rt lab h _ _ Hl Hlf) as Hfuel.
  destruct (walk_spec W sym goto_ rt h lab c Hl Hg Hc (length h) (link_fail n)
              (fsuf W u) [] Hlf Hfuel) as (path & st & nxt & Hw & Hnxt & _).
  { intros i v Hi Hv _. by apply Hf. }
  rewrite <- fsuf_snoc in Hnxt by done.
  destruct (Hf _ _ Hs') as (n' & Hn' & Hlf'); [by destruct u|].
  exists (link_fail n), path, st, nxt. unfold failure. rewrite Hn, Hn'. simpl.
  split; [done|]. split; [done|]. f_equal. by eapply (lab_inj _ _ _ _ Hl).
Qed.
End WalkChain.


(** ** What [process] leaves unchanged *)

Lemma foldM_bump_length pos ws l : ∀ w0 win,
  foldM (bump pos ws) w0 l = Some win → length win = length w0.
Proof.
  induction l as [|e l IH]; intros w0 win; simpl.
  - by intros [= <-].
  - destruct (bump pos ws w0 e) as [w1|] eqn:E; [|done]. simpl.
    intros Hf. rewrite (IH _ _ Hf). by eapply bump_length.
Qed.

Lemma slide_fields {L} same (M : Machine L) h cnt st M' o :
  slide same M h cnt st = Some (M', o) →
  nodes M' = h ∧ root M' = root M ∧ words M' = words M ∧ pattern M' = pattern M ∧
  pattern_size M' = pattern_size M ∧ state_ M' = st ∧ counter M' = cnt ∧
  length (window M') = length (window M).
Proof.
  unfold slide, match_. intros Hs.
  destruct (deref h st) as [n|]; [|done]. simpl in Hs.
  destruct (if terminal n then _ else _) as [win|] eqn:Hwin; [|done]. simpl in Hs.
  assert (length win = length (window M)) as Hlen.
  { destruct (terminal n); [by eapply foldM_bump_length|by injection Hwin as <-]. }
  destruct (decide (cnt < pattern_size M)).
  - injection Hs as <- <-. by simpl.
  - destruct (win !! 0%nat) as [w0|] eqn:E; [|done]. simpl in Hs. injection Hs as <- <-.
    simpl. repeat split; try done.
    rewrite length_app, length_drop. simpl. apply lookup_lt_Some in E. lia.
Qed.




(** A machine without words does not touch its window. *)
Lemma ptr_feed_no_words_window : ∀ t (M M' : Machine (gmap Z ptr)) o,
  words M = [] → feed Ptr.process M t = Some (M', o) →
  window M' = window M ∧ words M' = [].
Proof.
  induction t as [|c t IH]; intros M M' o Hw; simpl.
  { by intros [= <- <-]. }
  rewrite ptr_process_no_words by done. simpl.
  destruct (process_no_words M (counter M + 1)) as [M1 o1] eqn:E. simpl.
  assert (window M1 = window M ∧ words M1 = []) as [Hwin Hw1].
  { unfold process_no_words in E. repeat case_decide; by injection E as <- <-. }
  destruct (feed Ptr.process M1 t) as [[M2 o2]|] eqn:Hf; [|done]. simpl.
  intros [= <- <-]. destruct (IH _ _ _ Hw1 Hf) as [-> ->]. done.
Qed.

(** ** The machine that [build_failure] leaves, node by node *)
Section BuiltLinks.
Context {L : Type}.
Variable W : list (list Z * Z).
Variable sym : Z → Prop.
Variable goto_ : list (option (Node L)) → ptr → ptr → Z → option ptr.
Variable rt : ptr.
Variable lab : gmap nat (list Z).
Implicit Types h : list (option (Node L)).

Lemma built_links_spec h s u c s' :
  built W sym goto_ rt h lab →
  lab !! s = Some u → lab !! s' = Some (u ++ [c]) → sym c →
  ∃ n n', deref h s = Some n ∧ deref h s' = Some n' ∧
    (s = rt → link_fail n' = rt) ∧
    (s ≠ rt → ∃ path st,
       walk goto_ (length h) h rt (link_fail n) c [] = Some (path, st, link_fail n')) ∧
    (∃ nf, deref h (link_fail n') = Some nf ∧
           output n' = own W (u ++ [c]) ∪ output nf) ∧
    terminal n' = bool_decide (output n' ≠ ∅).
Proof.
  intros Hb Hs Hs' Hc. pose proof Hb as [Hl Hg Hf Ho].
  destruct (lab_deref _ _ _ _ _ _ Hl Hs) as [n Hn].
  assert (u ++ [c] ≠ []) as Hne' by (by destruct u).
  destruct (Hf _ _ Hs' Hne') as (n' & Hn' & Hlf').
  exists n, n'. split; [done|]. split; [done|]. split; [|split; [|split]].
  - intros ->. pose proof (lab_root _ _ _ _ Hl) as Hr. rewrite Hr in Hs.
    injection Hs as <-. simpl in Hlf'. rewrite fsuf_single in Hlf'.
    by eapply lab_root_nil.
  - intros Hsr.
    assert (u ≠ []) as Hne. { intros ->. apply Hsr. by eapply lab_root_nil. }
    destruct (built_fail_walk goto_ W sym rt lab h s u c s' Hb Hs Hne Hs' Hc)
      as (f & path & st & nxt & Hfs & Hw & Hfs').
    unfold failure in Hfs, Hfs'. rewrite Hn in Hfs. rewrite Hn' in Hfs'.
    injection Hfs as <-. injection Hfs' as <-. by exists path, st.
  - destruct (Ho _ _ Hlf') as (nf & Hnf & Hof & _). exists nf. split; [done|].
    destruct (Ho _ _ Hs') as (n'' & Hn'' & Ho'' & _).
    rewrite Hn' in Hn''. injection Hn'' as <-.
    rewrite Ho'', Hof. by apply out_of_fsuf.
  - destruct (Ho _ _ Hs') as (n'' & Hn'' & _ & Ht).
    rewrite Hn' in Hn''. by injection Hn'' as <-.
Qed.
End BuiltLinks.

(** The machine of [17.cpp] when the constructor returns. *)
Lemma ptr_make_full pat R :
  split_to_words pat ≠ [] → R 0 0 →
  ∃ M lab h0, Ptr.make pat = Some M ∧ ptr_inv pat lab R [] M ∧
    ptr_shaped (nodes M) lab ∧
    foldM (Ptr.add_word Ptr.trie_root) Ptr.trie_init (split_to_words pat) = Some h0 ∧
    trie_inv (λ _, True) Ptr.trie_root pedge (λ _, True) (split_to_words pat) h0 lab ∧
    Ptr.build_failure Ptr.trie_root h0 = Some (nodes M).
Proof.
  intros HW HR.
  destruct (ptr_build_spec pat) as (h & lab & h0 & Hb & Hbuilt & Hsh & Hf & Hti & Hbf & _).
  exists (mkMachine h Ptr.trie_root pat (Z.of_nat (length pat)) Ptr.trie_root 0
            (replicate (length pat) 0) 0 (split_to_words pat)), lab, h0.
  split. { unfold Ptr.make. by rewrite Hb. }
  split; [|done].
  assert (pat ≠ []) as Hne by (by intros ->).
  constructor; cbn [nodes root state_ window window_start]; [done|done| | |].
  - rewrite lsuf_nil. by apply (built_lab _ _ _ _ _ _ Hbuilt).
  - constructor; cbn [pattern pattern_size words counter window window_start];
      [done..|by rewrite length_replicate|].
    destruct pat; [done|]. simpl length. lia.
  - intros i x Hx. rewrite hits_nil by apply split_to_words_nonempty.
    apply lookup_replicate in Hx as [-> _]. by rewrite size_empty.
Qed.

(** ** The failure link of a child, by the edges of the trie *)

Section FailEdge.
Context {L : Type}.
Variable W : list (list Z * Z).
Variable sym : Z → Prop.
Variable goto_ : list (option (Node L)) → ptr → ptr → Z → option ptr.
Variable rt : ptr.
Variable lab : gmap nat (list Z).
Variable edge : list (option (Node L)) → ptr → Z → option ptr.
Variable inv : list (option (Node L)) → Prop.
Implicit Types h : list (option (Node L)).

(** [h] is the heap that [build_failure] leaves, [ht] a heap with the edges
    of the trie.  From the failure state of [s] the failure links lead,
    through states that are deeper and deeper no more, are not the root and
    have no edge on [c], to the first state [a] that has one, or to the
    root; the failure state of the child of [s] on [c] is the child of [a]
    on [c], or the root. *)
Lemma fail_edge_spec h ht s u c s' :
  built W sym goto_ rt h lab → goto_trie W sym goto_ rt h lab →
  shaped sym rt edge inv ht lab →
  lab !! s = Some u → u ≠ [] → lab !! s' = Some (u ++ [c]) → sym c →
  ∃ n n' path a, deref h s = Some n ∧ deref h s' = Some n' ∧
    fail_chain h (link_fail n) path a ∧
    descending (depth_of lab) (s :: path ++ [a]) ∧
    Forall (λ p, p ≠ rt ∧ edge ht p c = None) path ∧
    (edge ht a c = Some (link_fail n') ∨
     (a = rt ∧ edge ht rt c = None ∧ link_fail n' = rt)).
Proof.
  intros [Hl Hg Hf Ho] Hgt Hsh Hs Hne Hs' Hc.
  destruct (Hf _ _ Hs Hne) as (n & Hn & Hlf).
  assert (u ++ [c] ≠ []) as Hne' by (by destruct u).
  destruct (Hf _ _ Hs' Hne') as (n' & Hn' & Hlf').
  pose proof (depth_bound W rt lab h _ _ Hl Hlf) as Hfuel.
  destruct (walk_spec W sym goto_ rt h lab c Hl Hg Hc (length h) (link_fail n)
              (fsuf W u) [] Hlf Hfuel) as (path & a & f & Hw & Hfl & Hga & (v' & Hv' & _) & Hall).
  { intros i v Hi Hv _. by apply Hf. }
  simpl in Hw.
  destruct (walk_chain goto_ _ _ _ _ _ _ _ _ _ Hw) as (path' & E & Hch & _ & _ & _).
  simpl in E. subst path'.
  rewrite <- fsuf_snoc in Hfl by done.
  assert (f = link_fail n') as -> by (by eapply (lab_inj _ _ _ _ Hl)).
  assert (∀ p v j, lab !! p = Some v → ¬ islab W (v ++ [c]) → edge ht p c = Some j → False)
    as Hnoedge.
  { intros p v j Hp Hni He. apply Hni.
    eapply (lab_islab _ _ _ _ Hl). by eapply (sh_edge _ _ _ _ _ _ Hsh). }
  exists n, n', path, a. split; [done|]. split; [done|]. split; [done|]. split; [|split].
  - apply (fail_chain_descending W lab h (s :: path) s a).
    + done.
    + constructor; [by exists u|].
      eapply Forall_impl; [exact Hall|]. intros p (v & Hv & Hvne & _). by exists v.
    + simpl. split; [done|]. exists (link_fail n). split; [|done].
      unfold failure. by rewrite Hn.
  - eapply Forall_impl; [exact Hall|]. intros p (v & Hv & Hvne & _ & _ & Hgp). split.
    + intros ->. rewrite (lab_root _ _ _ _ Hl) in Hv. by injection Hv as <-.
    + destruct (Hgt p v c Hv Hc) as (j & Hj & [[_ Hlj]|[Hni _]]).
      * rewrite Hgp in Hj. injection Hj as <-.
        by rewrite (lab_not_null _ _ _ _ Hl) in Hlj.
      * destruct (edge ht p c) as [j'|] eqn:He; [|done]. by destruct (Hnoedge p v j' Hv Hni He).
  - destruct (Hgt a v' c Hv' Hc) as (j & Hj & [[_ Hlj]|[Hni Hj']]).
    + rewrite Hga in Hj. injection Hj as <-. left.
      destruct (sh_parent _ _ _ _ _ _ Hsh _ _ _ Hlj) as (i & Hi & He).
      by rewrite (sh_inj _ _ _ _ _ _ Hsh a i v' Hv' Hi).
    + rewrite Hga in Hj. injection Hj as <-. right.
      destruct (decide (a = rt)) as [->|Hna].
      * split; [done|]. split; [|done].
        destruct (edge ht rt c) as [j'|] eqn:He; [|done]. by destruct (Hnoedge rt v' j' Hv' Hni He).
      * rewrite Hj' in Hlf'. by rewrite (lab_not_null _ _ _ _ Hl) in Hlf'.
Qed.
End FailEdge.

(** Heaps with the same flags, outputs and failure links. *)
Lemma data_eq_fields {L} (h h' : list (option (Node L))) i n' :
  data <$> deref h i = data <$> deref h' i → deref h' i = Some n' →
  ∃ n, deref h i = Some n ∧ terminal n = terminal n' ∧ output n = output n' ∧
       link_fail n = link_fail n'.
Proof.
  intros Hd Hn'. rewrite Hn' in Hd. destruct (deref h i) as [n|]; [|done].
  simpl in Hd. apply (inj Some) in Hd. exists n. split; [done|].
  split; [by apply (f_equal (λ x, x.1.1)) in Hd|].
  split; [by apply (f_equal (λ x, x.1.2)) in Hd|by apply (f_equal (λ x, x.2)) in Hd].
Qed.

Lemma fail_chain_data {L} (h h' : list (option (Node L))) :
  (∀ i, data <$> deref h i = data <$> deref h' i) →
  ∀ path s a, fail_chain h' s path a → fail_chain h s path a.
Proof.
  intros Hd path. induction path as [|p path IH]; intros s a; [done|].
  simpl. intros (-> & f & Hf & Hch). split; [done|]. exists f. split; [|by apply IH].
  unfold failure in *. destruct (deref h' s) as [n'|] eqn:Hn'; [|done].
  destruct (data_eq_fields h h' s n' (Hd s) Hn') as (n & -> & _ & _ & Hlf).
  simpl in *. congruence.
Qed.


(** * The properties of the two programs *)

(** Inputs of the examples: a pattern of 8193 symbols, the letter [a]
    followed by wildcards, and a text of the same length that ends with
    [a]; a pattern of 32769 symbols, wildcards followed by [a]; the bytes
    of a standard input with the pattern [ab??aba] and the text
    [ababacaba]. *)
Definition long_pattern : list Z := 97 :: replicate (Z.to_nat 8192) 63.
Definition long_text : list Z := 98 :: replicate (Z.to_nat 8191) 120 ++ [97].
Definition huge_pattern : list Z := replicate (Z.to_nat 32768) 63 ++ [97].
Definition stdin_example : list Z := abq ++ [10] ++ ababacaba ++ [10].

Ltac bytes :=
  repeat (apply List.Forall_cons; [unfold is_byte; lia|]); apply List.Forall_nil.

(** ** The offsets printed *)

(** The pattern of 8193 symbols on a text of its length in which it does
    not occur: the loop of [main] of [17_double_array_trie.cpp] prints 0.
    The pattern of 32769 symbols on the text [ba], in which it does not
    occur: [process] of [17.cpp] prints nothing, its run ends in
    [window->at]. *)
Lemma runs_on_long_patterns :
  Z.of_nat (length long_pattern) = 8193 ∧
  occurrences long_pattern long_text = [] ∧
  Flat.run long_pattern long_text = Some [0] ∧
  Z.of_nat (length huge_pattern) = 32769 ∧
  occurrences huge_pattern [98; 97] = [] ∧
  Ptr.run huge_pattern [98; 97] = None.
Proof.
  split; [by vm_compute|]. split; [by vm_compute|]. split; [by vm_compute|].
  split; [by vm_compute|]. split; by vm_compute.
Qed.

(** C1: the offsets printed are exactly the alignments [i], [0 ≤ i ≤ n - m],
    in increasing order, at which every symbol of the pattern other than
    ['?'] equals the symbol of the text at its place:
    for [process] of [17.cpp], fed the text one symbol at a time, when the
    pattern has [1 ≤ m ≤ 32768] symbols; for the loop of [main] of
    [17_double_array_trie.cpp], which passes over the bytes up to 32 and
    reads the others as the text, when the pattern has [1 ≤ m ≤ 8192]
    bytes; in both for a text of at most [INT_MAX] symbols.  For the pattern
    [ab??aba] and the text [ababacaba] the offsets are [2]. *)
Theorem run_prints_occurrences :
  (∀ pat t, 1 ≤ Z.of_nat (length pat) ≤ 32768 →
     Z.of_nat (length t) ≤ INT_MAX →
     Ptr.run pat t = Some (occurrences pat t)) ∧
  (∀ pat t, Forall is_byte pat → Forall is_byte t →
     1 ≤ Z.of_nat (length pat) ≤ 8192 →
     Z.of_nat (length (filter (λ c, 32 < c) t)) ≤ INT_MAX →
     Flat.run pat t = Some (occurrences pat (filter (λ c, 32 < c) t))) ∧
  occurrences abq ababacaba = [2].
Proof.
  split; [|split; [|by vm_compute]].
  - intros pat t Hm _.
    assert (pat ≠ []) as Hne by (intros ->; simpl in Hm; lia).
    apply ptr_run_occurrences; [done|lia].
  - intros pat t Hp Ht Hm Hn.
    assert (pat ≠ []) as Hne by (intros ->; simpl in Hm; lia).
    apply flat_run_occurrences; [done..|lia|done|done].
Qed.

Lemma run_prints_occurrences_witness :
  Forall is_byte abq ∧ Forall is_byte ababacaba ∧
  1 ≤ Z.of_nat (length abq) ≤ 8192 ∧
  Z.of_nat (length ababacaba) ≤ INT_MAX ∧
  filter (λ c, 32 < c) ababacaba = ababacaba ∧
  Ptr.run abq ababacaba = Some [2] ∧ Flat.run abq ababacaba = Some [2].
Proof.
  assert (Forall is_byte abq) as Hp by (unfold abq; bytes).
  assert (Forall is_byte ababacaba) as Ht by (unfold ababacaba; bytes).
  assert (1 ≤ Z.of_nat (length abq) ≤ 8192) as Hm by (simpl; lia).
  assert (1 ≤ Z.of_nat (length abq) ≤ 32768) as Hm' by (simpl; lia).
  assert (Z.of_nat (length ababacaba) ≤ INT_MAX) as Hn by (by vm_compute).
  assert (filter (λ c, 32 < c) ababacaba = ababacaba) as Hf by (by vm_compute).
  assert (Z.of_nat (length (filter (λ c, 32 < c) ababacaba)) ≤ INT_MAX) as Hn'
    by (by vm_compute).
  split; [done|]. split; [done|]. split; [done|]. split; [done|]. split; [done|].
  destruct run_prints_occurrences as (Hptr & Hflat & Hex).
  rewrite <- Hex. split; [exact (Hptr abq ababacaba Hm' Hn)|].
  rewrite <- Hf at 2. exact (Hflat abq ababacaba Hp Ht Hm Hn').
Defined.

(** ** The two programs *)

(** On the input of a line feed and the letter [a], [17.cpp] reads the
    empty pattern and the text [a], and [17_double_array_trie.cpp] the
    pattern [a] and no text. *)
Lemma mains_differ_on_empty_pattern :
  (read_token [10; 97]).1 = [] ∧
  Ptr.main [10; 97] = Some [0] ∧ Flat.main [10; 97] = Some [].
Proof. split; [done|]. split; by vm_compute. Qed.

(** C2: on a standard input of bytes that starts with a pattern of at
    least one and at most 5000 symbols, followed by a text of at most
    2000000 symbols (the bytes above 32 after the pattern), the two programs
    print the same offsets in the same order: the occurrences of the
    pattern in the text. *)
Theorem mains_agree input :
  Forall is_byte input →
  (read_token input).1 ≠ [] →
  Z.of_nat (length (read_token input).1) ≤ 5000 →
  Z.of_nat (length (filter (λ c, 32 < c) (read_token input).2)) ≤ 2000000 →
  Ptr.main input = Flat.main input ∧
  Flat.main input =
    Some (occurrences (read_token input).1
            (filter (λ c, 32 < c) (read_token input).2)).
Proof.
  intros Hb. destruct (read_token input) as [pat rest] eqn:Hrt. simpl. intros Hne Hm Hn.
  destruct (mains_run _ _ _ Hrt Hne) as [-> ->].
  destruct (read_token_spec _ _ _ Hrt) as (-> & _ & _).
  apply Forall_app in Hb as [Hp Hr].
  rewrite ptr_run_occurrences by (done || lia).
  by rewrite flat_run_occurrences by (done || unfold INT_MAX; lia).
Qed.

Lemma mains_agree_witness :
  Forall is_byte stdin_example ∧
  (read_token stdin_example).1 = abq ∧
  filter (λ c, 32 < c) (read_token stdin_example).2 = ababacaba ∧
  Ptr.main stdin_example = Flat.main stdin_example ∧
  Flat.main stdin_example = Some (occurrences abq ababacaba).
Proof.
  assert (Forall is_byte stdin_example) as Hb by (unfold stdin_example, abq, ababacaba; simpl; bytes).
  assert ((read_token stdin_example).1 ≠ []) as Hne by (by vm_compute).
  assert (Z.of_nat (length (read_token stdin_example).1) ≤ 5000) as Hm by (by vm_compute).
  assert (Z.of_nat (length (filter (λ c, 32 < c) (read_token stdin_example).2)) ≤ 2000000)
    as Hn by (by vm_compute).
  split; [done|]. split; [by vm_compute|]. split; [by vm_compute|].
  exact (mains_agree stdin_example Hb Hne Hm Hn).
Defined.

(** ** The empty pattern *)

(** For the empty pattern [process] of [17.cpp] prints two offsets on a text
    of two symbols and none on the empty text; [main] of
    [17_double_array_trie.cpp] prints nothing on the empty input and on an
    input of blanks. *)
Lemma empty_pattern_prints_n_offsets :
  Ptr.run [] [120; 121] = Some [0; 1] ∧ Ptr.run [] [] = Some [] ∧
  Flat.main [] = Some [] ∧ Flat.main [10; 32] = Some [].
Proof. split; [by vm_compute|]. split; [by vm_compute|]. split; by vm_compute. Qed.

(** C5: for the empty pattern and a text of [n] symbols, [n ≤ INT_MAX],
    [process] of [17.cpp] prints [counter - 1] for every symbol read: the
    [n] offsets [0 .. n - 1].  [main] of [17_double_array_trie.cpp] passes
    over the bytes up to 32 before it reads the pattern: its pattern is
    empty only if the input has no other byte, and then it prints
    nothing. *)
Theorem empty_pattern_offsets :
  (∀ t, Z.of_nat (length t) ≤ INT_MAX →
     Ptr.run [] t = Some (Z.of_nat <$> seq 0 (length t))) ∧
  (∀ input, (read_token (skip_blanks input)).1 = [] →
     Forall (λ c, c ≤ 32) input ∧ Flat.main input = Some []).
Proof.
  split.
  - intros t _.
    destruct (ptr_make_spec []) as (M & lab & HM & _ & _ & _ & _ & Hps & Hw & Hc & _).
    destruct (ptr_feed_empty t M Hw Hps ltac:(lia)) as [M' Hf].
    unfold Ptr.run. rewrite HM. simpl. rewrite Hf. simpl. f_equal.
    rewrite Hc. apply list_fmap_ext. intros _ k _. lia.
  - intros input Hpat.
    destruct (skip_blanks_spec input) as (blanks & Hin & Hbl & Hfirst).
    assert (skip_blanks input = []) as Hsk.
    { destruct (skip_blanks input) as [|c r] eqn:E; [done|].
      specialize (Hfirst c r eq_refl). simpl in Hpat.
      rewrite decide_True in Hpat by done. by destruct (read_token r). }
    split.
    + rewrite Hin, Hsk, app_nil_r. done.
    + unfold Flat.main. rewrite Hsk. by vm_compute.
Qed.

Lemma empty_pattern_offsets_witness :
  Z.of_nat (length [120; 121]) ≤ INT_MAX ∧
  Ptr.run [] [120; 121] = Some (Z.of_nat <$> seq 0 2) ∧
  (read_token (skip_blanks [10; 32])).1 = [] ∧
  Forall (λ c, c ≤ 32) [10; 32] ∧ Flat.main [10; 32] = Some [].
Proof.
  assert (Z.of_nat (length [120; 121]) ≤ INT_MAX) as Hn by (by vm_compute).
  assert ((read_token (skip_blanks [10; 32])).1 = []) as Hpat by (by vm_compute).
  split; [done|]. split; [exact (proj1 empty_pattern_offsets [120; 121] Hn)|].
  split; [done|]. exact (proj2 empty_pattern_offsets [10; 32] Hpat).
Defined.

(** ** The segmenter *)

Lemma split_to_words_wraps :
  Z.of_nat (length huge_pattern) = 32769 ∧
  huge_pattern !! Z.to_nat 32768 = Some 97 ∧
  split_to_words huge_pattern = [([97], -32768)].
Proof. split; [by vm_compute|]. split; by vm_compute. Qed.

(** C7: for a pattern of at most 32768 symbols, [split_to_words] returns
    exactly the maximal runs of symbols other than ['?'], from left to
    right, each with the index in the pattern of its last symbol; for a
    pattern of any length that has only wildcards, or is empty, it
    returns the empty list. *)
Theorem split_to_words_maximal_runs pat :
  (Z.of_nat (length pat) ≤ 32768 →
   (∀ w e, (w, e) ∈ split_to_words pat ↔ ∃ a, maximal_run pat a w ∧ e = run_end a w) ∧
   StronglySorted Z.lt (split_to_words pat).*2) ∧
  (Forall (λ c, c = WILDCARD) pat → split_to_words pat = []).
Proof.
  split.
  - intros Hm. destruct (split_to_words_res pat Hm) as [Hr Hs _]. done.
  - unfold split_to_words. generalize (-1). generalize (@nil (list Z * Z)).
    induction pat as [|c pat IH]; intros ws pos Hall; [done|].
    apply Forall_cons in Hall as [-> Hall]. simpl. by apply IH.
Qed.

Lemma split_to_words_maximal_runs_witness :
  Z.of_nat (length abq) ≤ 32768 ∧
  split_to_words abq = [([97; 98], 1); ([97; 98; 97], 6)] ∧
  ((∀ w e, (w, e) ∈ split_to_words abq ↔ ∃ a, maximal_run abq a w ∧ e = run_end a w) ∧
   StronglySorted Z.lt (split_to_words abq).*2) ∧
  Forall (λ c, c = WILDCARD) [63; 63] ∧ split_to_words [63; 63] = [].
Proof.
  assert (Z.of_nat (length abq) ≤ 32768) as Hm by (simpl; lia).
  assert (Forall (λ c, c = WILDCARD) [63; 63]) as Hq by (by repeat constructor).
  split; [done|]. split; [by vm_compute|].
  split; [exact (proj1 (split_to_words_maximal_runs abq) Hm)|].
  split; [done|]. exact (proj2 (split_to_words_maximal_runs [63; 63]) Hq).
Defined.


(** ** The transition function *)

(** In the machine of [17.cpp] for the pattern [ab], the state of [a]
    (the node at address 2) has no transition on [c]: [goto_] answers
    [nullptr], and the loop of [process] follows the failure link of the
    state to the root. *)
Lemma ptr_goto_not_total :
  (h ← fst <$> Ptr.build [97; 98];
   Some (Ptr.goto_ h Ptr.trie_root 2 99,
         walk Ptr.goto_ (length h) h Ptr.trie_root 2 99 []))
  = Some (Some nullptr, Some ([2%nat], 1%nat, 1%nat)).
Proof. by vm_compute. Qed.

(** C3: in [17_double_array_trie.cpp], whenever [build] returns, for a
    pattern of any length (a vector of [unsigned char]: its symbols are
    bytes), the transition function is total: for every state and every
    byte, [goto_] answers a state, never [nullptr], and [process] takes this
    one transition and follows no failure link.  [build] returns for every
    pattern of at most 32766 bytes. *)
Theorem flat_goto_total_after_build :
  (∀ pat h ws, Forall is_byte pat → Flat.build pat = Some (h, ws) →
     ∀ (s : ptr) c, (0 < s < length h)%nat → is_byte c →
       ∃ st, Flat.goto_ h Flat.trie_root s c = Some st ∧
         (0 < st < length h)%nat ∧
         ∀ M : Machine Flat.Links,
           nodes M = h → root M = Flat.trie_root → state_ M = s → words M ≠ [] →
           Flat.process M c = slide Flat.same_size M h (counter M + 1) st) ∧
  (∀ pat, Forall is_byte pat → Z.of_nat (length pat) ≤ 32766 →
     is_Some (Flat.build pat)).
Proof.
  split.
  - intros pat h ws Hp Hb.
    destruct (flat_build_ret pat h ws Hp Hb) as (lab & h0 & h1 & -> & Hfb & Hsym & _).
    intros s c Hs Hc.
    pose proof (fb_lab _ _ _ Hfb) as Hl.
    destruct (fw_some _ (fb_wf _ _ _ Hfb) s Hs) as [n Hn].
    destruct (proj2 (lab_dom _ _ _ _ Hl s)) as [u Hu]; [by exists n|].
    destruct (flat_built_total _ lab h Hfb s u c Hu Hc) as (st & Hg & Hst).
    exists st. split; [done|]. split.
    + destruct (lab_deref _ _ _ _ _ _ Hl Hst) as [nst Hnst]. split.
      * destruct st; [|lia]. pose proof (lab_not_null _ _ _ _ Hl) as E.
        unfold nullptr in E. congruence.
      * by eapply deref_lt.
    + intros M HM Hr <- Hw. unfold Flat.process.
      destruct (words M); [done|]. by rewrite HM, Hr, Hg.
  - intros pat Hp Hm.
    destruct (flat_build_spec pat Hp (fcap_le (length pat) Hm)) as (h & lab & h0 & h1 & Hb & _).
    rewrite Hb. eauto.
Qed.

Lemma flat_goto_total_after_build_witness :
  Forall is_byte abq ∧
  ∃ h ws, Flat.build abq = Some (h, ws) ∧ length h = 5%nat ∧
    ∀ (s : ptr) c, (0 < s < length h)%nat → is_byte c →
      ∃ st, Flat.goto_ h Flat.trie_root s c = Some st ∧
        (0 < st < length h)%nat ∧
        ∀ M : Machine Flat.Links,
          nodes M = h → root M = Flat.trie_root → state_ M = s → words M ≠ [] →
          Flat.process M c = slide Flat.same_size M h (counter M + 1) st.
Proof.
  assert (Forall is_byte abq) as Hp by (unfold abq; bytes).
  split; [done|].
  destruct (Flat.build abq) as [[h ws]|] eqn:Hb; [|by vm_compute in Hb].
  exists h, ws. split; [done|]. split.
  - vm_compute in Hb. by injection Hb as <- _.
  - exact (proj1 flat_goto_total_after_build abq h ws Hp Hb).
Defined.

(** ** What [process] does to the automaton *)




(** ** The failure links *)

(** C6: when [build] has returned, every child of the root has the root as
    its failure link.  For an edge of the trie on [c] from a state [s]
    other than the root to [s']: from the failure state of [s] the failure
    links lead through states ([path]) that lie less and less deep, are not
    the root and have no edge on [c], to the first state [a] that has an
    edge on [c] or is the root; the failure state of [s'] is the state at the
    end of the edge of [a] on [c], or the root if [a] is the root and has
    no edge on [c].  The output of [s'] is the union of the word ends that
    [add_word] gave it with the output of its failure state, and [s'] is
    terminal exactly when its output is not empty.  [depth] is the depth of
    a state in the trie.

    In [17.cpp] [build] returns for every pattern, and the edges are the
    links.  In [17_double_array_trie.cpp] the pattern is a vector of
    [unsigned char] (its symbols are bytes), and the statement is about
    the nodes that [build] returns, whenever it does; the edges of the
    trie are the links that [add_word] has made (the nodes before
    [build_failure]), for [build_failure] and [do_bfs] write the other
    links. *)
Theorem build_failure_links :
  (∀ pat, ∃ h0 h depth,
     foldM (Ptr.add_word Ptr.trie_root) Ptr.trie_init (split_to_words pat) = Some h0 ∧
     Ptr.build_failure Ptr.trie_root h0 = Some h ∧
     Ptr.build pat = Some (h, split_to_words pat) ∧
     depth Ptr.trie_root = 0%nat ∧
     ∀ s n c s', deref h s = Some n → links n !! c = Some s' →
       depth s' = S (depth s) ∧
       ∃ n', deref h s' = Some n' ∧
         (s = Ptr.trie_root → link_fail n' = Ptr.trie_root) ∧
         (s ≠ Ptr.trie_root → ∃ path a,
            fail_chain h (link_fail n) path a ∧
            descending depth (s :: path ++ [a]) ∧
            Forall (λ p, p ≠ Ptr.trie_root ∧ pedge h p c = None) path ∧
            (pedge h a c = Some (link_fail n') ∨
             (a = Ptr.trie_root ∧ pedge h Ptr.trie_root c = None ∧
              link_fail n' = Ptr.trie_root))) ∧
         (∃ n0 nf, deref h0 s' = Some n0 ∧ deref h (link_fail n') = Some nf ∧
                   output n' = output n0 ∪ output nf) ∧
         terminal n' = bool_decide (output n' ≠ ∅)) ∧
  (∀ pat h ws, Forall is_byte pat → Flat.build pat = Some (h, ws) →
   ∃ h0 h1 depth,
     foldM (Flat.add_word Flat.trie_root) Flat.trie_init (split_to_words pat) = Some h0 ∧
     Flat.build_failure Flat.trie_root h0 = Some h1 ∧
     Flat.do_bfs Flat.trie_root h1 = Some h ∧
     depth Flat.trie_root = 0%nat ∧
     ∀ s c s', is_byte c → fedge h0 s c = Some s' →
       depth s' = S (depth s) ∧
       ∃ n n', deref h s = Some n ∧ deref h s' = Some n' ∧
         (s = Flat.trie_root → link_fail n' = Flat.trie_root) ∧
         (s ≠ Flat.trie_root → ∃ path a,
            fail_chain h (link_fail n) path a ∧
            descending depth (s :: path ++ [a]) ∧
            Forall (λ p, p ≠ Flat.trie_root ∧ fedge h0 p c = None) path ∧
            (fedge h0 a c = Some (link_fail n') ∨
             (a = Flat.trie_root ∧ fedge h0 Flat.trie_root c = None ∧
              link_fail n' = Flat.trie_root))) ∧
         (∃ n0 nf, deref h0 s' = Some n0 ∧ deref h (link_fail n') = Some nf ∧
                   output n' = output n0 ∪ output nf) ∧
         terminal n' = bool_decide (output n' ≠ ∅)).
Proof.
  split.
  - intros pat.
    destruct (ptr_build_spec pat)
      as (h & lab & h0 & Hb & Hbuilt & Hsh & Hf & Hti & Hbf & Hlen & Hlinks).
    pose proof (built_lab _ _ _ _ _ _ Hbuilt) as Hl.
    exists h0, h, (depth_of lab). split; [done|]. split; [done|]. split; [done|].
    split. { unfold depth_of. by rewrite (lab_root _ _ _ _ Hl). }
    intros s n c s' Hn Hc.
    destruct (proj2 (sh_dom _ _ _ _ _ _ Hsh s)) as [u Hu]; [by exists n|].
    assert (lab !! s' = Some (u ++ [c])) as Hs'.
    { apply (sh_edge _ _ _ _ _ _ Hsh s u c s' Hu I). unfold pedge. by rewrite Hn. }
    split. { unfold depth_of. rewrite Hu, Hs'. simpl. rewrite length_app. simpl. lia. }
    destruct (built_links_spec _ _ _ _ lab h s u c s' Hbuilt Hu Hs' I)
      as (n1 & n' & Hn1 & Hn' & Hroot & _ & (nf & Hnf & Hout) & Hterm).
    rewrite Hn in Hn1. injection Hn1 as <-.
    exists n'. split; [done|]. split; [done|]. split; [|split; [|done]].
    + intros Hsr.
      assert (u ≠ []) as Hne. { intros ->. apply Hsr. by eapply lab_root_nil. }
      destruct (fail_edge_spec _ _ Ptr.goto_ Ptr.trie_root lab pedge (λ _, True)
                  h h s u c s' Hbuilt (ptr_goto_trie _ h lab Hl Hsh) Hsh Hu Hne Hs' I)
        as (n2 & n2' & path & a & Hn2 & Hn2' & Hch & Hdesc & Hall & Hend).
      rewrite Hn in Hn2. injection Hn2 as <-.
      rewrite Hn' in Hn2'. injection Hn2' as <-.
      exists path, a. split; [done|]. split; [done|]. by split.
    + destruct (proj1 (sh_dom _ _ _ _ _ _ (ti_shaped _ _ _ _ _ _ _ Hti) s')) as [n0 Hn0];
        [by exists (u ++ [c])|].
      exists n0, nf. split; [done|]. split; [done|].
      by destruct (ti_data _ _ _ _ _ _ _ Hti s' n0 _ Hn0 Hs') as (-> & _).
  - intros pat h ws Hp Hb.
    destruct (flat_build_ret pat h ws Hp Hb)
      as (lab & h0 & h1 & -> & Hfb & Hsym & Hf & Hti & Hbf & Hbuilt & Hfl & Hdo & Hdata).
    pose proof (built_lab _ _ _ _ _ _ Hbuilt) as Hl.
    exists h0, h1, (depth_of lab). split; [done|]. split; [done|]. split; [done|].
    split. { unfold depth_of. by rewrite (lab_root _ _ _ _ Hl). }
    intros s c s' Hc He.
    pose proof (ti_shaped _ _ _ _ _ _ _ Hti) as Hsh.
    assert (is_Some (deref h0 s)) as Hs0.
    { unfold fedge in He. destruct (deref h0 s); [done|done]. }
    destruct (proj2 (sh_dom _ _ _ _ _ _ Hsh s) Hs0) as [u Hu].
    pose proof (sh_edge _ _ _ _ _ _ Hsh s u c s' Hu Hc He) as Hs'.
    split. { unfold depth_of. rewrite Hu, Hs'. simpl. rewrite length_app. simpl. lia. }
    destruct (built_links_spec _ _ _ _ lab h1 s u c s' Hbuilt Hu Hs' Hc)
      as (n1 & n1' & Hn1 & Hn1' & Hroot & _ & (nf1 & Hnf1 & Hout) & Hterm).
    destruct (data_eq_fields h h1 s n1 (Hdata s) Hn1) as (n & Hn & _ & _ & Hnlf).
    destruct (data_eq_fields h h1 s' n1' (Hdata s') Hn1') as (n' & Hn' & Hnt & Hno & Hnlf').
    destruct (data_eq_fields h h1 _ nf1 (Hdata _) Hnf1) as (nf & Hnf & _ & Hnfo & _).
    exists n, n'. split; [done|]. split; [done|]. rewrite Hnlf', Hnt, Hno.
    split; [done|]. split; [|split; [|done]].
    + intros Hsr.
      assert (u ≠ []) as Hne. { intros ->. apply Hsr. by eapply lab_root_nil. }
      destruct (fail_edge_spec _ _ Flat.goto_ Flat.trie_root lab fedge flat_wf
                  h1 h0 s u c s' Hbuilt (flat_goto_trie _ lab h1 Hl Hfl) Hsh Hu Hne Hs' Hc)
        as (n2 & n2' & path & a & Hn2 & Hn2' & Hch & Hdesc & Hall & Hend).
      rewrite Hn1 in Hn2. injection Hn2 as <-.
      rewrite Hn1' in Hn2'. injection Hn2' as <-.
      exists path, a. rewrite Hnlf. split; [by apply (fail_chain_data h h1 Hdata)|].
      split; [done|]. by split.
    + destruct (proj1 (sh_dom _ _ _ _ _ _ Hsh s')) as [n0 Hn0]; [by exists (u ++ [c])|].
      exists n0, nf. split; [done|]. split; [done|]. rewrite Hnfo.
      by destruct (ti_data _ _ _ _ _ _ _ Hti s' n0 _ Hn0 Hs') as (-> & _).
Qed.

Lemma build_failure_links_witness :
  (∃ h n n', Ptr.build abq = Some (h, split_to_words abq) ∧
     deref h 3 = Some n ∧ links n !! 97 = Some 4%nat ∧ deref h 4 = Some n' ∧
     link_fail n = 1%nat ∧ pedge h 1 97 = Some 2%nat ∧ link_fail n' = 2%nat ∧
     (∃ path a,
        fail_chain h (link_fail n) path a ∧
        Forall (λ p, p ≠ Ptr.trie_root ∧ pedge h p 97 = None) path ∧
        (pedge h a 97 = Some (link_fail n') ∨
         (a = Ptr.trie_root ∧ pedge h Ptr.trie_root 97 = None ∧
          link_fail n' = Ptr.trie_root))) ∧
     terminal n' = bool_decide (output n' ≠ ∅)) ∧
  Forall is_byte abq ∧ is_byte 97 ∧
  (∃ h ws h0 n n', Flat.build abq = Some (h, ws) ∧
     foldM (Flat.add_word Flat.trie_root) Flat.trie_init (split_to_words abq) = Some h0 ∧
     fedge h0 3 97 = Some 4%nat ∧ deref h 3 = Some n ∧ deref h 4 = Some n' ∧
     link_fail n = 1%nat ∧ fedge h0 1 97 = Some 2%nat ∧ link_fail n' = 2%nat ∧
     (∃ path a,
        fail_chain h (link_fail n) path a ∧
        Forall (λ p, p ≠ Flat.trie_root ∧ fedge h0 p 97 = None) path ∧
        (fedge h0 a 97 = Some (link_fail n') ∨
         (a = Flat.trie_root ∧ fedge h0 Flat.trie_root 97 = None ∧
          link_fail n' = Flat.trie_root))) ∧
     terminal n' = bool_decide (output n' ≠ ∅)).
Proof.
  assert (Forall is_byte abq) as Hp by (unfold abq; bytes).
  assert (is_byte 97) as Hc by (unfold is_byte; lia).
  split; [|split; [done|split; [done|]]].
  - destruct (proj1 build_failure_links abq) as (h0 & h & depth & _ & _ & Hb & _ & Hall).
    assert (Hb' := Hb). vm_compute in Hb'. injection Hb' as Hh.
    assert (is_Some (deref h 3)) as [n Hn] by (rewrite <- Hh; vm_compute; eauto).
    assert (links n !! 97 = Some 4%nat ∧ link_fail n = 1%nat) as [Hl Hlf].
    { rewrite <- Hh in Hn. vm_compute in Hn. injection Hn as <-. split; by vm_compute. }
    destruct (Hall 3%nat n 97 4%nat Hn Hl) as (_ & n' & Hn' & _ & Hchain & _ & Hterm).
    destruct Hchain as (path & a & Hch & _ & Hpath & Hend); [done|].
    assert (link_fail n' = 2%nat ∧ pedge h 1 97 = Some 2%nat) as [Hlf' He].
    { rewrite <- Hh in Hn' |- *. vm_compute in Hn'. injection Hn' as <-.
      split; by vm_compute. }
    exists h, n, n'. split; [exact Hb|]. split; [exact Hn|]. split; [exact Hl|].
    split; [exact Hn'|]. split; [exact Hlf|]. split; [exact He|]. split; [exact Hlf'|].
    split; [|exact Hterm]. exists path, a. split; [exact Hch|]. split; [exact Hpath|exact Hend].
  - destruct (Flat.build abq) as [[h ws]|] eqn:Hb; [|by vm_compute in Hb].
    destruct (proj2 build_failure_links abq h ws Hp Hb)
      as (h0 & h1 & depth & Hadd & _ & _ & _ & Hall).
    assert (Hadd' := Hadd). vm_compute in Hadd'. injection Hadd' as Hh0.
    assert (Hb' := Hb). vm_compute in Hb'. injection Hb' as Hh Hws.
    assert (fedge h0 3 97 = Some 4%nat ∧ fedge h0 1 97 = Some 2%nat) as [He He1].
    { rewrite <- Hh0. split; by vm_compute. }
    destruct (Hall 3%nat 97 4%nat Hc He) as (_ & n & n' & Hn & Hn' & _ & Hchain & _ & Hterm).
    destruct Hchain as (path & a & Hch & _ & Hpath & Hend); [done|].
    assert (link_fail n = 1%nat) as Hlf.
    { rewrite <- Hh in Hn. vm_compute in Hn. by injection Hn as <-. }
    assert (link_fail n' = 2%nat) as Hlf'.
    { rewrite <- Hh in Hn'. vm_compute in Hn'. by injection Hn' as <-. }
    exists h, ws, h0, n, n'. split; [reflexivity|]. split; [exact Hadd|]. split; [exact He|].
    split; [exact Hn|]. split; [exact Hn'|]. split; [exact Hlf|]. split; [exact He1|].
    split; [exact Hlf'|].
    split; [|exact Hterm]. exists path, a. split; [exact Hch|]. split; [exact Hpath|exact Hend].
Defined.


(** ** The window *)

(** The index that [match] computes for a word end in the output of the
    state of the text [t ++ [c]] is inside the window. *)
Lemma match_in_window {L} pat t c (M : Machine L) (h : list (option (Node L))) st n :
  Z.of_nat (length pat) ≤ 32768 →
  win_inv pat t M → deref h st = Some n →
  output n = out_of (split_to_words pat) (t ++ [c]) →
  terminal n = bool_decide (output n ≠ ∅) →
  (∀ e, e ∈ output n →
     counter M + 1 - e - 1 - window_start M < Z.of_nat (length (window M))) ∧
  is_Some (match_ h (counter M + 1) (window_start M) (window M) st).
Proof.
  intros Hm [_ _ _ Hc Hl Hs] Hn Ho Ht.
  assert (∀ e, e ∈ output n →
            counter M + 1 - e - 1 - window_start M < Z.of_nat (length (window M))) as Hrel.
  { intros e He. rewrite Ho in He.
    apply out_of_subseteq, elem_of_list_to_set in He.
    apply list_elem_of_fmap in He as ([w e'] & -> & Hin).
    pose proof (word_end_range pat Hm _ _ Hin). simpl. lia. }
  split; [done|]. rewrite (match_eq _ _ _ _ _ _ Hn Ht).
  apply bump_fold_some. intros e He. apply Hrel. by apply elem_of_elements.
Qed.

(** The pattern of 32768 wildcards followed by [a] has the word [a] with
    the end -32768; after the text [ba] the index is 32769, the length of
    the window, and the access fails, in [17.cpp] and in the method
    [process] of [17_double_array_trie.cpp], whose constructor has
    returned a machine of two nodes. *)
Lemma match_index_behind_window :
  split_to_words huge_pattern = [([97], -32768)] ∧
  2 - (-32768) - 1 - 0 = Z.of_nat (length huge_pattern) ∧
  bump 2 0 (replicate (length huge_pattern) 0) (-32768) = None ∧
  Ptr.run huge_pattern [98; 97] = None ∧
  (M ← Flat.make huge_pattern; Some (length (nodes M), Z.of_nat (length (window M))))
    = Some (3%nat, 32769) ∧
  (M ← Flat.make huge_pattern; feed Flat.process M [98; 97]) = None.
Proof.
  split; [by vm_compute|]. split; [by vm_compute|]. split; [by vm_compute|].
  split; [by vm_compute|]. split; by vm_compute.
Qed.

(** C8: for a pattern of at most 32768 symbols that has a word, and a text
    of fewer than [INT_MAX] symbols, the index
    [pos - word_pos - 1 - window_start] that [match] computes for a word
    end of the output of the new state is less than the length of the
    window, which is the length of the pattern: the access [window->at]
    does not fail, nor does [process].  This holds for [17.cpp], whose
    constructor returns for every pattern, and for the method [process] of
    [17_double_array_trie.cpp] (pattern and text are bytes there) in every
    machine that the constructor returns; it returns for every pattern of
    at most 32766 bytes. *)
Theorem match_index_in_window pat t c :
  split_to_words pat ≠ [] → Z.of_nat (length pat) ≤ 32768 →
  Z.of_nat (length t) < INT_MAX →
  (∃ M0 M o path s st n,
     Ptr.make pat = Some M0 ∧ feed Ptr.process M0 t = Some (M, o) ∧
     walk Ptr.goto_ (length (nodes M)) (nodes M) (root M) (state_ M) c []
       = Some (path, s, st) ∧
     deref (nodes M) st = Some n ∧
     length (window M) = length pat ∧
     (∀ e, e ∈ output n →
        counter M + 1 - e - 1 - window_start M < Z.of_nat (length (window M))) ∧
     is_Some (match_ (nodes M) (counter M + 1) (window_start M) (window M) st) ∧
     is_Some (Ptr.process M c)) ∧
  (Forall is_byte pat → Forall is_byte t → is_byte c →
   (Z.of_nat (length pat) ≤ 32766 → is_Some (Flat.make pat)) ∧
   ∀ M0, Flat.make pat = Some M0 →
   ∃ M o st n,
     feed Flat.process M0 t = Some (M, o) ∧
     Flat.goto_ (nodes M) (root M) (state_ M) c = Some st ∧
     deref (nodes M) st = Some n ∧
     length (window M) = length pat ∧
     (∀ e, e ∈ output n →
        counter M + 1 - e - 1 - window_start M < Z.of_nat (length (window M))) ∧
     is_Some (match_ (nodes M) (counter M + 1) (window_start M) (window M) st) ∧
     is_Some (Flat.process M c)).
Proof.
  intros HW Hm _. split.
  - destruct (ptr_make_inv pat exact HW eq_refl) as (M0 & lab & HM0 & Hinv0).
    destruct (ptr_feed_exact pat lab Hm HW t [] M0 Hinv0) as (M & Hf & Hinv).
    rewrite app_nil_l in Hinv. pose proof Hinv as [Hb Hr Hs Hwi Hcnt].
    destruct (ptr_process_heap pat lab t M c HW Hb Hr (wi_words _ _ _ Hwi) Hs)
      as (path & s' & st & h' & n' & Hwalk & Hh' & Hproc & Hb' & Hst & Hn' & Hout & Hterm
          & Hlen & Hdata & _).
    assert (∃ n, deref (nodes M) st = Some n ∧ data n = data n') as (n & Hn & Hd).
    { specialize (Hdata st). rewrite Hn' in Hdata.
      destruct (deref (nodes M) st) as [n|]; [|done]. exists n. split; [done|].
      simpl in Hdata. congruence. }
    assert (output n = output n') as Ho by (by apply (f_equal (λ x, x.1.2)) in Hd).
    assert (terminal n = terminal n') as Ht by (by apply (f_equal (λ x, x.1.1)) in Hd).
    destruct (match_in_window pat t c M (nodes M) st n ltac:(lia) Hwi Hn)
      as [Hrel Hmatch]; [by rewrite Ho|by rewrite Ht, Ho|].
    destruct (ptr_process_exact pat lab t M c Hm HW Hinv) as (M' & Hp & _).
    exists M0, M, (emits pat [] t), path, s', st, n. rewrite Hr.
    split; [done|]. split; [done|]. split; [done|]. split; [done|].
    split; [by apply (wi_wlen _ _ _ Hwi)|]. split; [done|]. split; [done|]. by exists (M', emit pat (t ++ [c])).
  - intros Hp Ht Hc. split.
    { intros Hm'. destruct (flat_make_spec pat Hp (fcap_le (length pat) Hm')) as (M0 & lab & HM0 & _).
      rewrite HM0. eauto. }
    intros M0 HM0.
    destruct (flat_make_ret_inv pat M0 Hp HM0 HW) as (lab & Hinv0).
    destruct (flat_feed_exact pat lab ltac:(lia) HW t [] M0 Ht Hinv0) as (M & Hf & Hinv & _).
    rewrite app_nil_l in Hinv. pose proof Hinv as [Hb Hr Hs Hwi Hcnt].
    destruct (flat_process_goto pat lab t M c HW Hc Hb Hr (wi_words _ _ _ Hwi) Hs)
      as (st & n & Hg & Hproc & Hst & Hn & Hout & Hterm).
    destruct (match_in_window pat t c M (nodes M) st n ltac:(lia) Hwi Hn Hout Hterm)
      as [Hrel Hmatch].
    destruct (flat_process_exact pat lab t M c ltac:(lia) HW Hc Hinv) as (M' & Hp' & _).
    exists M, (emits pat [] t), st, n. rewrite Hr.
    split; [done|]. split; [done|]. split; [done|].
    split; [by apply (wi_wlen _ _ _ Hwi)|]. split; [done|]. split; [done|].
    by exists (M', emit pat (t ++ [c])).
Qed.

Lemma match_index_in_window_witness :
  split_to_words abq ≠ [] ∧ Z.of_nat (length abq) ≤ 32768 ∧
  Z.of_nat (length ababacaba) < INT_MAX ∧
  Forall is_byte abq ∧ Forall is_byte ababacaba ∧ is_byte 97 ∧
  (∃ M0 M o, Ptr.make abq = Some M0 ∧ feed Ptr.process M0 ababacaba = Some (M, o) ∧
             is_Some (Ptr.process M 97)) ∧
  (∃ M0 M o, Flat.make abq = Some M0 ∧ feed Flat.process M0 ababacaba = Some (M, o) ∧
             is_Some (Flat.process M 97)).
Proof.
  assert (split_to_words abq ≠ []) as HW by (by vm_compute).
  assert (Z.of_nat (length abq) ≤ 32768) as Hm by (simpl; lia).
  assert (Z.of_nat (length ababacaba) < INT_MAX) as Hn by (by vm_compute).
  assert (Forall is_byte abq) as Hp by (unfold abq; bytes).
  assert (Forall is_byte ababacaba) as Ht by (unfold ababacaba; bytes).
  assert (is_byte 97) as Hc by (unfold is_byte; lia).
  destruct (match_index_in_window abq ababacaba 97 HW Hm Hn) as [Hptr Hflat].
  destruct Hptr as (M0 & M & o & path & s & st & n & H1 & H2 & _ & _ & _ & _ & _ & H3).
  destruct (Hflat Hp Ht Hc) as [_ Hflat'].
  split; [exact HW|]. split; [exact Hm|]. split; [exact Hn|]. split; [exact Hp|].
  split; [exact Ht|]. split; [exact Hc|]. split.
  - exists M0, M, o. split; [exact H1|]. split; [exact H2|exact H3].
  - destruct (Flat.make abq) as [F0|] eqn:G1; [|by vm_compute in G1].
    destruct (Hflat' F0 eq_refl) as (F & fo & fs & fn & G2 & _ & _ & _ & _ & _ & G3).
    exists F0, F, fo. split; [reflexivity|]. split; [exact G2|exact G3].
Defined.

(** C9: after every prefix of every text that [17.cpp] has processed, for
    every pattern, no slot of the window holds more than the number of
    the words of the pattern. *)
Theorem window_counts_bounded pat t M0 M o :
  Ptr.make pat = Some M0 → feed Ptr.process M0 t = Some (M, o) →
  Forall (λ x, x ≤ Z.of_nat (length (split_to_words pat))) (window M).
Proof.
  intros HM0 Hf. destruct (decide (split_to_words pat = [])) as [HW|HW].
  - destruct (ptr_make_spec pat) as (M1 & lab & HM1 & _ & _ & _ & _ & _ & Hw & _ & Hwin & _).
    rewrite HM0 in HM1. injection HM1 as <-. rewrite HW in Hw.
    destruct (ptr_feed_no_words_window t M0 M o Hw Hf) as [-> _].
    rewrite Hwin, HW. apply Forall_forall. intros x [-> _]%elem_of_replicate. done.
  - destruct (ptr_make_inv pat below HW) as (M1 & lab & HM1 & Hinv0); [by unfold below|].
    rewrite HM0 in HM1. injection HM1 as <-.
    pose proof (ptr_feed_below pat lab HW t [] M0 M o Hinv0 Hf) as [_ _ _ _ Hc].
    apply Forall_lookup. intros i x Hx. destruct (Hc i x Hx) as [_ Hle].
    pose proof (size_hits_le (split_to_words pat) ([] ++ t) (window_start M + Z.of_nat i)).
    lia.
Qed.

Lemma window_counts_bounded_witness :
  ∃ M0 M o, Ptr.make abq = Some M0 ∧ feed Ptr.process M0 ababacaba = Some (M, o) ∧
    Forall (λ x, x ≤ Z.of_nat (length (split_to_words abq))) (window M).
Proof.
  destruct (Ptr.make abq) as [M0|] eqn:HM; [|by vm_compute in HM].
  destruct (feed Ptr.process M0 ababacaba) as [[M o]|] eqn:HF.
  - exists M0, M, o. split; [done|]. split; [done|].
    exact (window_counts_bounded abq ababacaba M0 M o HM HF).
  - exfalso. vm_compute in HM. injection HM as <-. by vm_compute in HF.
Defined.

(** ** The loop that follows the failure links *)

(** C10: for a pattern that has a word, the constructor of [17.cpp]
    returns (every loop of [build_failure] has ended), and in every machine
    that [process] has left after a text, for every symbol [c]: [goto_]
    at the root does not answer [nullptr]; and from every state the loop
    [while (goto_(state, c) == nullptr) state = state->link_fail] ends
    before the fuel (the number of nodes) does, having followed failure
    links through states of strictly decreasing depth, none of them the
    root. *)
Theorem failure_walk_terminates pat :
  split_to_words pat ≠ [] →
  ∃ M0 depth,
    Ptr.make pat = Some M0 ∧ depth Ptr.trie_root = 0%nat ∧
    (∀ s n c s', deref (nodes M0) s = Some n → links n !! c = Some s' →
       depth s' = S (depth s)) ∧
    ∀ t M o c, feed Ptr.process M0 t = Some (M, o) →
      (∃ j, Ptr.goto_ (nodes M) (root M) (root M) c = Some j ∧ j ≠ nullptr) ∧
      ∀ s, is_Some (deref (nodes M) s) →
        ∃ path s' st,
          walk Ptr.goto_ (length (nodes M)) (nodes M) (root M) s c []
            = Some (path, s', st) ∧
          st ≠ nullptr ∧
          fail_chain (nodes M) s path s' ∧
          descending depth (path ++ [s']) ∧
          Forall (λ p, p ≠ root M) path.
Proof.
  intros HW.
  destruct (ptr_make_full pat below HW) as (M0 & lab & h0 & HM0 & Hinv0 & Hsh & _);
    [by unfold below|].
  exists M0, (depth_of lab). split; [done|].
  pose proof (pi_built _ _ _ _ _ Hinv0) as Hb0.
  pose proof (built_lab _ _ _ _ _ _ Hb0) as Hl0.
  split. { unfold depth_of. by rewrite (lab_root _ _ _ _ Hl0). }
  split.
  { intros s n c s' Hn Hc.
    destruct (proj2 (sh_dom _ _ _ _ _ _ Hsh s)) as [u Hu]; [by exists n|].
    assert (lab !! s' = Some (u ++ [c])) as Hs'.
    { apply (sh_edge _ _ _ _ _ _ Hsh s u c s' Hu I). unfold pedge. by rewrite Hn. }
    unfold depth_of. rewrite Hu, Hs'. simpl. rewrite length_app. simpl. lia. }
  intros t M o c Hf.
  pose proof (ptr_feed_below pat lab HW t [] M0 M o Hinv0 Hf) as [Hb Hr _ _ _].
  pose proof Hb as [Hl Hg Hfail Hout]. rewrite Hr.
  assert (∀ s, is_Some (deref (nodes M) s) →
    ∃ path s' st,
      walk Ptr.goto_ (length (nodes M)) (nodes M) Ptr.trie_root s c [] = Some (path, s', st) ∧
      st ≠ nullptr ∧ fail_chain (nodes M) s path s' ∧
      descending (depth_of lab) (path ++ [s']) ∧
      Forall (λ p, p ≠ Ptr.trie_root) path) as Hwalk.
  { intros s Hs. destruct (proj2 (lab_dom _ _ _ _ Hl s) Hs) as [u Hu].
    destruct (walk_spec _ _ Ptr.goto_ Ptr.trie_root (nodes M) lab c Hl Hg I
                (length (nodes M)) s u [] Hu (depth_bound _ _ lab (nodes M) _ _ Hl Hu))
      as (path & s' & st & Hw & Hst & _ & _ & Hall).
    { intros i v Hi Hv _. by apply Hfail. }
    simpl in Hw. exists path, s', st. split; [done|].
    destruct (walk_chain Ptr.goto_ _ _ _ _ _ _ _ _ _ Hw) as (path' & E & Hch & _ & Hnn & _).
    simpl in E. subst path'. split; [done|]. split; [done|]. split.
    - eapply (fail_chain_descending _ lab); [exact Hfail| |exact Hch].
      eapply Forall_impl; [exact Hall|]. intros p (v & Hv & Hne & _). by exists v.
    - eapply Forall_impl; [exact Hall|]. intros p (v & Hv & Hne & _) ->.
      rewrite (lab_root _ _ _ _ Hl) in Hv. by injection Hv as <-. }
  split; [|done].
  destruct (Hg Ptr.trie_root [] c (lab_root _ _ _ _ Hl) I) as (j & Hj & [Hlab|(_ & Hne & _)]);
    [|done].
  exists j. split; [done|]. intros ->. by rewrite (lab_not_null _ _ _ _ Hl) in Hlab.
Qed.

Lemma failure_walk_terminates_witness :
  split_to_words abq ≠ [] ∧
  ∃ M0 M o, Ptr.make abq = Some M0 ∧ feed Ptr.process M0 ababacaba = Some (M, o) ∧
    ∃ path s' st,
      walk Ptr.goto_ (length (nodes M)) (nodes M) (root M) (state_ M) 99 []
        = Some (path, s', st) ∧ st ≠ nullptr.
Proof.
  assert (split_to_words abq ≠ []) as HW by (by vm_compute).
  split; [done|].
  destruct (failure_walk_terminates abq HW) as (M0 & depth & HM0 & _ & _ & Hall).
  destruct (feed Ptr.process M0 ababacaba) as [[M o]|] eqn:HF.
  - destruct (Hall ababacaba M o 99 HF) as [_ Hwalk].
    destruct (Hwalk (state_ M)) as (path & s' & st & Hw & Hst & _).
    { assert (HM0' := HM0). vm_compute in HM0'. injection HM0' as E. rewrite <- E in HF.
      vm_compute in HF. injection HF as <- _. vm_compute. eauto. }
    exists M0, M, o. split; [done|]. split; [done|]. by exists path, s', st.
  - exfalso. vm_compute in HM0. injection HM0 as <-. by vm_compute in HF.
Defined.


(** * Further properties of the two programs *)

(** ** Standard input *)

Lemma skip_blanks_app blanks input :
  Forall (λ c, c ≤ 32) blanks → skip_blanks (blanks ++ input) = skip_blanks input.
Proof.
  induction 1 as [|c blanks Hc _ IH]; [done|]. simpl. by rewrite decide_True.
Qed.

(** X1: [main] of [17_double_array_trie.cpp] skips the bytes up to 32 that
    precede the pattern: they do not change what is printed. *)
Theorem flat_main_skips_blanks blanks input :
  Forall (λ c, c ≤ 32) blanks → Flat.main (blanks ++ input) = Flat.main input.
Proof. intros Hb. unfold Flat.main. by rewrite skip_blanks_app. Qed.

Lemma flat_main_skips_blanks_witness :
  Forall (λ c, c ≤ 32) [10; 32] ∧
  Flat.main ([10; 32] ++ stdin_example) = Flat.main stdin_example.
Proof.
  assert (Forall (λ c, c ≤ 32) [10; 32]) as Hb by (repeat constructor; lia).
  split; [done|]. exact (flat_main_skips_blanks [10; 32] stdin_example Hb).
Defined.

Lemma ptr_run_empty t : Ptr.run [] t = Some (Z.of_nat <$> seq 0 (length t)).
Proof.
  destruct (ptr_make_spec []) as (M & lab & HM & _ & _ & _ & _ & Hps & Hw & Hc & _).
  destruct (ptr_feed_empty t M Hw Hps ltac:(lia)) as [M' Hf].
  unfold Ptr.run. rewrite HM. simpl. rewrite Hf. simpl. f_equal.
  rewrite Hc. apply list_fmap_ext. intros _ k _. lia.
Qed.

(** X2: [main] of [17.cpp] does not skip them: when the first byte of the
    input is not above 32, the pattern is empty, and the program prints
    one offset, from 0 on, for every byte above 32 that follows. *)
Theorem ptr_main_blank_first c rest :
  c ≤ 32 → Z.of_nat (length (filter (λ c, 32 < c) rest)) ≤ INT_MAX →
  Ptr.main (c :: rest) =
    Some (Z.of_nat <$> seq 0 (length (filter (λ c, 32 < c) rest))).
Proof.
  intros Hc _. unfold Ptr.main. simpl. rewrite decide_False by lia.
  simpl. rewrite drop_0. apply ptr_run_empty.
Qed.

Lemma ptr_main_blank_first_witness :
  10 ≤ 32 ∧ Z.of_nat (length (filter (λ c, 32 < c) [97; 32; 98])) ≤ INT_MAX ∧
  Ptr.main (10 :: [97; 32; 98]) = Some [0; 1].
Proof.
  assert (10 ≤ 32) as Hc by lia.
  assert (Z.of_nat (length (filter (λ c, 32 < c) [97; 32; 98])) ≤ INT_MAX) as Hn
    by (by vm_compute).
  split; [done|]. split; [done|].
  exact (ptr_main_blank_first 10 [97; 32; 98] Hc Hn).
Defined.

(** The loop of [main] of [17_double_array_trie.cpp] on a text and on its
    bytes above 32. *)
Lemma flat_scan_filter tr outs ps ws : ∀ t s,
  Flat.scan tr outs ps ws s t = Flat.scan tr outs ps ws s (filter (λ c, 32 < c) t).
Proof.
  induction t as [|c t IH]; intros s; [done|].
  destruct (decide (32 < c)) as [Hc|Hc].
  - rewrite filter_cons_True by done. simpl.
    destruct (Flat.step tr outs ps ws s c) as [[s1 o1]|]; [|done]. simpl.
    by rewrite IH.
  - rewrite filter_cons_False by done. rewrite <- IH. simpl.
    unfold Flat.step. rewrite decide_True by lia. simpl.
    by destruct (Flat.scan tr outs ps ws s t) as [[s2 o2]|].
Qed.

Lemma flat_run_filter pat t : Flat.run pat t = Flat.run pat (filter (λ c, 32 < c) t).
Proof.
  unfold Flat.run. destruct (Flat.make pat) as [M|]; [|done]. cbn [mbind option_bind].
  destruct (Flat.make_flat M) as [[tr outs]|]; [|done]. cbn [mbind option_bind].
  by rewrite flat_scan_filter.
Qed.

(** X3: in both programs the bytes up to 32 of the text are not symbols
    of the text: two inputs with the same pattern whose texts have the
    same bytes above 32 give the same output. *)
Theorem mains_ignore_text_blanks pat sep text text' :
  pat ≠ [] → Forall (λ c, 32 < c) pat → sep ≤ 32 →
  filter (λ c, 32 < c) text = filter (λ c, 32 < c) text' →
  Ptr.main (pat ++ sep :: text) = Ptr.main (pat ++ sep :: text') ∧
  Flat.main (pat ++ sep :: text) = Flat.main (pat ++ sep :: text').
Proof.
  intros Hne Hp Hs Ht.
  assert (∀ tx, read_token (pat ++ sep :: tx) = (pat, sep :: tx)) as Hrt.
  { intros tx. apply read_token_app; [done|]. by intros c r [= <- <-]. }
  destruct (mains_run _ _ _ (Hrt text) Hne) as [-> ->].
  destruct (mains_run _ _ _ (Hrt text') Hne) as [-> ->].
  rewrite (flat_run_filter pat (sep :: text)), (flat_run_filter pat (sep :: text')).
  rewrite !(filter_cons_False _ sep) by lia. by rewrite Ht.
Qed.

Lemma mains_ignore_text_blanks_witness :
  abq ≠ [] ∧ Forall (λ c, 32 < c) abq ∧ 10 ≤ 32 ∧
  filter (λ c, 32 < c) ([97; 10; 98] ++ [97; 98; 97; 99; 97; 98; 97]) =
    filter (λ c, 32 < c) ababacaba ∧
  Ptr.main (abq ++ 10 :: [97; 10; 98] ++ [97; 98; 97; 99; 97; 98; 97]) =
    Ptr.main (abq ++ 10 :: ababacaba) ∧
  Flat.main (abq ++ 10 :: [97; 10; 98] ++ [97; 98; 97; 99; 97; 98; 97]) =
    Flat.main (abq ++ 10 :: ababacaba).
Proof.
  assert (abq ≠ []) as Hne by done.
  assert (Forall (λ c, 32 < c) abq) as Hp by (unfold abq; repeat constructor; lia).
  assert (10 ≤ 32) as Hs by lia.
  assert (filter (λ c, 32 < c) ([97; 10; 98] ++ [97; 98; 97; 99; 97; 98; 97]) =
          filter (λ c, 32 < c) ababacaba) as Ht by (by vm_compute).
  split; [done|]. split; [done|]. split; [done|]. split; [done|].
  exact (mains_ignore_text_blanks abq 10 _ _ Hne Hp Hs Ht).
Defined.

(** ** The words of a pattern *)
Local Close Scope Z_scope.

Lemma split_loop_clean pat : ∀ word pos ws,
  Forall (λ c, c ≠ WILDCARD) word →
  Forall (λ we : list Z * Z, we.1 ≠ [] ∧ Forall (λ c, c ≠ WILDCARD) we.1) ws →
  Forall (λ we : list Z * Z, we.1 ≠ [] ∧ Forall (λ c, c ≠ WILDCARD) we.1)
    (split_loop pat word pos ws).
Proof.
  induction pat as [|c pat IH]; intros word pos ws Hw Hws; simpl.
  - destruct word; [done|]. apply Forall_app. split; [done|].
    apply Forall_singleton. by split.
  - destruct (decide (c = WILDCARD)).
    + destruct word; [by apply IH|]. apply IH; [done|].
      apply Forall_app. split; [done|]. apply Forall_singleton. by split.
    + apply IH; [|done]. apply Forall_app. split; [done|]. by apply Forall_singleton.
Qed.

Lemma split_loop_concat pat : ∀ word pos ws,
  concat (split_loop pat word pos ws).*1 =
  concat ws.*1 ++ word ++ filter (λ c, c ≠ WILDCARD) pat.
Proof.
  induction pat as [|c pat IH]; intros word pos ws; simpl.
  - destruct word; [by rewrite !app_nil_r|].
    rewrite fmap_app, concat_app. simpl. by rewrite !app_nil_r.
  - destruct (decide (c = WILDCARD)) as [->|Hc].
    + rewrite filter_cons_False by (by intros ?).
      destruct word; [by apply IH|]. rewrite IH, fmap_app, concat_app. simpl.
      by rewrite !app_nil_r, <- app_assoc.
    + rewrite filter_cons_True by done. rewrite IH. by rewrite <- !app_assoc.
Qed.

(** X4: for a pattern of any length, no word that [split_to_words] returns
    is empty or has a wildcard, and the words, one after the other, are
    the symbols of the pattern other than the wildcards, in their order. *)
Theorem split_to_words_symbols pat :
  Forall (λ we : list Z * Z, we.1 ≠ [] ∧ Forall (λ c, c ≠ WILDCARD) we.1)
    (split_to_words pat) ∧
  concat (split_to_words pat).*1 = filter (λ c, c ≠ WILDCARD) pat.
Proof.
  split.
  - by apply split_loop_clean.
  - unfold split_to_words. by rewrite split_loop_concat.
Qed.

Local Open Scope Z_scope.

(** ** [match] *)

(** X5: [match] leaves the window as it is in a state that is not terminal;
    in a terminal state it fails (the access [window->at] throws) exactly
    when, for a word end [e] of the output of the state, the index
    [pos - e - 1 - window_start] is not less than the length of the
    window; when it does not fail, the window keeps its length. *)
Theorem match_fails_iff {L} (h : list (option (Node L))) pos wstart win st n :
  deref h st = Some n →
  (terminal n = false → match_ h pos wstart win st = Some win) ∧
  (terminal n = true →
     (match_ h pos wstart win st = None ↔
      ∃ e, e ∈ output n ∧ Z.of_nat (length win) ≤ pos - e - 1 - wstart) ∧
     ∀ win', match_ h pos wstart win st = Some win' → length win' = length win).
Proof.
  intros Hn. unfold match_. rewrite Hn. simpl. split; [by intros ->|].
  intros ->. split; [|by apply foldM_bump_length]. split.
  - intros Hnone.
    destruct (decide (Exists (λ e, Z.of_nat (length win) ≤ pos - e - 1 - wstart)
                        (elements (output n)))) as [Hex|Hex].
    + apply Exists_exists in Hex as (e & He & Hle). exists e. split; [|done].
      by apply elem_of_elements.
    + destruct (bump_fold_some pos wstart (elements (output n)) win) as [w Hw];
        [|congruence].
      intros e He. destruct (decide (pos - e - 1 - wstart < Z.of_nat (length win)));
        [done|]. exfalso. apply Hex, Exists_exists. exists e. split; [done|lia].
  - intros (e & He & Hle). apply bump_fold_none. exists e. split; [|done].
    by apply elem_of_elements.
Qed.

Lemma match_fails_iff_witness :
  deref [None; Some (mkNode () true ({[5]} : gset Z) nullptr)] 1
    = Some (mkNode () true {[5]} nullptr) ∧
  match_ [None; Some (mkNode () true ({[5]} : gset Z) nullptr)] 9 0 [0; 0; 0] 1 = None ∧
  match_ [None; Some (mkNode () true ({[5]} : gset Z) nullptr)] 8 0 [0; 0; 0] 1
    = Some [0; 0; 1].
Proof.
  assert (deref [None; Some (mkNode () true ({[5]} : gset Z) nullptr)] 1
          = Some (mkNode () true {[5]} nullptr)) as Hn by done.
  split; [done|]. split; [|by vm_compute].
  apply (proj2 (match_fails_iff _ 9 0 [0; 0; 0] 1%nat _ Hn) eq_refl).
  exists 5. split; [set_solver|]. simpl. lia.
Defined.

(** ** What [process] prints *)

Lemma flat_process_no_words (M : Machine Flat.Links) c :
  words M = [] → Flat.process M c = Some (process_no_words M (counter M + 1)).
Proof. intros Hw. unfold Flat.process. by rewrite Hw. Qed.

Lemma flat_feed_no_words pat :
  Z.of_nat (length pat) ≤ 32768 → pat ≠ [] → split_to_words pat = [] →
  ∀ t2 t1 (M : Machine Flat.Links),
    words M = [] → pattern_size M = Z.of_nat (length pat) →
    counter M = Z.of_nat (length t1) →
    ∃ M', feed Flat.process M t2 = Some (M', emits pat t1 t2).
Proof.
  intros Hm Hne HW. induction t2 as [|c t2 IH]; intros t1 M Hw Hps Hc.
  { by exists M. }
  rewrite feed_cons, flat_process_no_words by done. simpl emits.
  unfold process_no_words. rewrite Hps, Hc.
  assert (emit pat (t1 ++ [c]) =
          if decide (Z.of_nat (length t1) + 1 < Z.of_nat (length pat)) then []
          else [Z.of_nat (length t1) + 1 - Z.of_nat (length pat)]) as ->.
  { unfold emit. rewrite length_app. simpl.
    destruct (decide (Z.of_nat (length t1) + 1 < Z.of_nat (length pat))) as [Hlt|Hlt].
    - rewrite decide_False; [done|]. intros [? _]. lia.
    - rewrite decide_True; [f_equal; lia|]. split; [lia|]. by apply no_words_occurs. }
  destruct (decide (Z.of_nat (length t1) + 1 < Z.of_nat (length pat))).
  - simpl. edestruct (IH (t1 ++ [c])) as (M' & ->); [done..| |].
    { simpl. rewrite length_app. simpl. lia. }
    by eexists.
  - rewrite decide_True by (destruct pat; [done|simpl; lia]).
    simpl. edestruct (IH (t1 ++ [c])) as (M' & ->); [done..| |].
    { simpl. rewrite length_app. simpl. lia. }
    by eexists.
Qed.

(** X6: the method [process] of [17_double_array_trie.cpp], which [main]
    does not call, prints the occurrences of the pattern as well: in every
    machine that the constructor has returned for a pattern of 1 to 32768
    bytes, for every text of at most [INT_MAX] bytes, blanks and all. *)
Theorem flat_process_prints_occurrences pat t M :
  Forall is_byte pat → pat ≠ [] → Z.of_nat (length pat) ≤ 32768 →
  Forall is_byte t → Z.of_nat (length t) ≤ INT_MAX →
  Flat.make pat = Some M →
  ∃ M', feed Flat.process M t = Some (M', occurrences pat t).
Proof.
  intros Hp Hne Hm Ht _.
  assert (1 ≤ length pat)%nat as Hlen by (destruct pat; [done|simpl; lia]).
  intros HM.
  destruct (flat_make_ret pat M Hp HM)
    as (lab & _ & _ & _ & _ & _ & Hps & Hw & Hc & _).
  destruct (decide (split_to_words pat = [])) as [HW|HW].
  - rewrite HW in Hw.
    destruct (flat_feed_no_words pat Hm Hne HW t [] M Hw Hps Hc) as (M' & Hf).
    exists M'. rewrite Hf. do 2 f_equal. by apply emits_occurrences.
  - destruct (flat_make_ret_inv pat M Hp HM HW) as (lab' & Hinv).
    destruct (flat_feed_exact pat lab' Hm HW t [] M Ht Hinv) as (M' & Hf & _).
    exists M'. rewrite Hf. do 2 f_equal. by apply emits_occurrences.
Qed.

Lemma flat_process_prints_occurrences_witness :
  Forall is_byte abq ∧ abq ≠ [] ∧ Z.of_nat (length abq) ≤ 32768 ∧
  Forall is_byte ababacaba ∧ Z.of_nat (length ababacaba) ≤ INT_MAX ∧
  ∃ M M', Flat.make abq = Some M ∧
          feed Flat.process M ababacaba = Some (M', occurrences abq ababacaba).
Proof.
  assert (Forall is_byte abq) as Hp by (unfold abq; bytes).
  assert (abq ≠ []) as Hne by done.
  assert (Z.of_nat (length abq) ≤ 32768) as Hm by (simpl; lia).
  assert (Forall is_byte ababacaba) as Ht by (unfold ababacaba; bytes).
  assert (Z.of_nat (length ababacaba) ≤ INT_MAX) as Hn by (by vm_compute).
  split; [done|]. split; [done|]. split; [done|]. split; [done|]. split; [done|].
  destruct (Flat.make abq) as [M|] eqn:HM; [|by vm_compute in HM].
  destruct (flat_process_prints_occurrences abq ababacaba M Hp Hne Hm Ht Hn HM) as [M' Hf].
  exists M, M'. split; [reflexivity|exact Hf].
Defined.

Lemma emits_app pat : ∀ t2 t1 t3,
  emits pat t1 (t2 ++ t3) = emits pat t1 t2 ++ emits pat (t1 ++ t2) t3.
Proof.
  induction t2 as [|c t2 IH]; intros t1 t3; simpl.
  - by rewrite app_nil_r.
  - rewrite IH, <- !app_assoc. simpl. done.
Qed.

(** X7: [17.cpp] works on line: what it has printed after a part of the
    text is what it prints for that part alone, and what it prints for
    the rest of the text are alignments that end in the rest. *)
Theorem ptr_run_online pat t1 t2 :
  pat ≠ [] → Z.of_nat (length pat) ≤ 32768 →
  Z.of_nat (length (t1 ++ t2)) ≤ INT_MAX →
  ∃ o2, Ptr.run pat t1 = Some (occurrences pat t1) ∧
        Ptr.run pat (t1 ++ t2) = Some (occurrences pat t1 ++ o2) ∧
        Forall (λ i, Z.of_nat (length t1) - Z.of_nat (length pat) < i) o2.
Proof.
  intros Hne Hm _.
  assert (1 ≤ length pat)%nat as Hlen by (destruct pat; [done|simpl; lia]).
  exists (emits pat t1 t2). split; [by apply ptr_run_occurrences|]. split.
  - rewrite ptr_run_occurrences by done. f_equal.
    rewrite <- !emits_occurrences by done. by rewrite (emits_app pat t1 [] t2).
  - rewrite emits_filter. apply Forall_fmap, Forall_forall.
    intros k [_ Hk%elem_of_seq]%list_elem_of_filter. simpl. lia.
Qed.

Lemma ptr_run_online_witness :
  abq ≠ [] ∧ Z.of_nat (length abq) ≤ 32768 ∧
  Z.of_nat (length (ababacaba ++ [98; 97])) ≤ INT_MAX ∧
  ∃ o2, Ptr.run abq ababacaba = Some (occurrences abq ababacaba) ∧
        Ptr.run abq (ababacaba ++ [98; 97]) = Some (occurrences abq ababacaba ++ o2) ∧
        Forall (λ i, Z.of_nat (length ababacaba) - Z.of_nat (length abq) < i) o2.
Proof.
  assert (abq ≠ []) as Hne by done.
  assert (Z.of_nat (length abq) ≤ 32768) as Hm by (simpl; lia).
  assert (Z.of_nat (length (ababacaba ++ [98; 97])) ≤ INT_MAX) as Hn by (by vm_compute).
  split; [done|]. split; [done|]. split; [done|].
  exact (ptr_run_online abq ababacaba [98; 97] Hne Hm Hn).
Defined.

Lemma slide_output {L} same (M : Machine L) (h : list (option (Node L))) cnt st M' o :
  slide same M h cnt st = Some (M', o) →
  (cnt < pattern_size M → o = []) ∧ (o = [] ∨ o = [cnt - pattern_size M]).
Proof.
  unfold slide. intros Hs.
  destruct (match_ h cnt (window_start M) (window M) st) as [win|]; [|done].
  simpl in Hs. destruct (decide (cnt < pattern_size M)).
  - injection Hs as <- <-. split; [done|by left].
  - destruct (win !! 0%nat) as [w0|]; [|done]. simpl in Hs. injection Hs as <- <-.
    split; [done|]. destruct (same _ _); [by right|by left].
Qed.

(** X8: a call of [process], in either file, adds one to the counter and
    prints at most one number: nothing while the counter is below the
    length of the pattern; else nothing or the counter minus the length
    of the pattern, and the counter minus one if the pattern is empty. *)
Theorem process_prints_one :
  (∀ (M M' : Machine (gmap Z ptr)) c o,
     Ptr.process M c = Some (M', o) →
     counter M' = counter M + 1 ∧ pattern_size M' = pattern_size M ∧
     (counter M' < pattern_size M → o = []) ∧
     (o = [] ∨ o = [counter M' - pattern_size M] ∨
      (pattern_size M = 0 ∧ words M = [] ∧ o = [counter M' - 1]))) ∧
  (∀ (M M' : Machine Flat.Links) c o,
     Flat.process M c = Some (M', o) →
     counter M' = counter M + 1 ∧ pattern_size M' = pattern_size M ∧
     (counter M' < pattern_size M → o = []) ∧
     (o = [] ∨ o = [counter M' - pattern_size M] ∨
      (pattern_size M = 0 ∧ words M = [] ∧ o = [counter M' - 1]))).
Proof.
  assert (∀ {L} (M M' : Machine L) o,
    process_no_words M (counter M + 1) = (M', o) → words M = [] →
    counter M' = counter M + 1 ∧ pattern_size M' = pattern_size M ∧
    (counter M' < pattern_size M → o = []) ∧
    (o = [] ∨ o = [counter M' - pattern_size M] ∨
     (pattern_size M = 0 ∧ words M = [] ∧ o = [counter M' - 1]))) as Hnw.
  { intros L M M' o E Hw. unfold process_no_words in E.
    repeat case_decide; injection E as <- <-; simpl;
      (split; [done|]); (split; [done|]); (split; [by (done || lia)|]).
    - by left.
    - right. by left.
    - right. right. split; [lia|done]. }
  split.
  - intros M M' c o Hp. destruct (decide (words M = [])) as [Hw|Hw].
    { rewrite ptr_process_no_words in Hp by done. injection Hp as E. by apply Hnw. }
    revert Hp. unfold Ptr.process. destruct (words M) as [|w ws]; [done|]. clear Hw.
    destruct (walk _ _ _ _ _ _ _) as [[[path s'] st]|]; [|done]. simpl. intros Hs.
    destruct (slide_output _ _ _ _ _ _ _ Hs) as [Ho1 Ho2].
    apply slide_fields in Hs as (_ & _ & _ & _ & Hps & _ & Hc & _).
    rewrite Hc. split; [done|]. split; [done|]. split; [done|].
    destruct Ho2 as [->| ->]; [by left|right; by left].
  - intros M M' c o Hp. destruct (decide (words M = [])) as [Hw|Hw].
    { rewrite flat_process_no_words in Hp by done. injection Hp as E. by apply Hnw. }
    revert Hp. unfold Flat.process. destruct (words M) as [|w ws]; [done|]. clear Hw.
    destruct (Flat.goto_ _ _ _ _) as [st|]; [|done]. simpl. intros Hs.
    destruct (slide_output _ _ _ _ _ _ _ Hs) as [Ho1 Ho2].
    apply slide_fields in Hs as (_ & _ & _ & _ & Hps & _ & Hc & _).
    rewrite Hc. split; [done|]. split; [done|]. split; [done|].
    destruct Ho2 as [->| ->]; [by left|right; by left].
Qed.

Lemma process_prints_one_witness :
  ∃ (M M' : Machine (gmap Z ptr)) o,
    Ptr.make abq = Some M ∧ Ptr.process M 97 = Some (M', o) ∧
    counter M' = counter M + 1 ∧ o = [].
Proof.
  destruct (Ptr.make abq) as [M|] eqn:HM; [|by vm_compute in HM].
  destruct (Ptr.process M 97) as [[M' o]|] eqn:HP.
  - exists M, M', o. split; [done|]. split; [done|].
    destruct (proj1 process_prints_one M M' 97 o HP) as (Hc & _ & Ho & _).
    split; [done|]. apply Ho. rewrite Hc.
    vm_compute in HM. injection HM as <-. by vm_compute.
  - exfalso. vm_compute in HM. injection HM as <-. by vm_compute in HP.
Defined.

(** ** The constructor *)
Local Close Scope Z_scope.

Lemma ptr_add_words_length ws :
  ∃ h, foldM (Ptr.add_word Ptr.trie_root) Ptr.trie_init ws = Some h ∧
       length h ≤ 2 + sum_list_with (λ we, length we.1) ws.
Proof.
  destruct (add_words_spec (λ _, True) Ptr.trie_root pedge (λ _, True)
              (length Ptr.trie_init + sum_list_with (λ we, length we.1) ws)
              Ptr.add_word_loop) with (ws := ws) (W := @nil (list Z * Z))
              (h := Ptr.trie_init) (lab := ({[Ptr.trie_root := []]} : gmap nat (list Z)))
    as (h & lab & Hfold & Hinv & Hlen).
  - done.
  - apply ptr_loop_found.
  - apply ptr_loop_new.
  - apply pedge_frame.
  - apply ptr_trie_init.
  - apply Forall_forall. intros we _. apply Forall_forall. done.
  - done.
  - by exists h.
Qed.

(** X9: the constructor of [17.cpp] returns for every pattern: [build]
    ends, and the trie has at most one node for every symbol of the
    pattern, and the root. *)
Theorem ptr_build_returns pat :
  ∃ h, Ptr.build pat = Some (h, split_to_words pat) ∧
       length h ≤ 2 + length pat ∧
       is_Some (Ptr.make pat).
Proof.
  destruct (ptr_build_spec pat) as (h & lab & h0 & Hb & _ & _ & Hf & _ & _ & Hlen & _).
  exists h. split; [done|]. split.
  - destruct (ptr_add_words_length (split_to_words pat)) as (h0' & Hf' & Hle).
    rewrite Hf in Hf'. injection Hf' as <-. rewrite Hlen.
    pose proof (split_to_words_sum pat). lia.
  - unfold Ptr.make. rewrite Hb. by eexists.
Qed.

Local Open Scope Z_scope.

(** X10: the constructor of [17_double_array_trie.cpp] returns for every
    pattern of at most 32766 bytes.  Whenever it returns, for a pattern of
    any length, the vector [nodes] has at most 32768 cells, the first of
    them [nullptr] and the others nodes; every node has its index as its
    id, and 256 links, each the index of a cell: the ids fit a [short].
    A trie with more nodes has a node with an id that is no index, and
    [build_failure] does not return on it. *)
Theorem flat_build_ids pat :
  Forall is_byte pat →
  (Z.of_nat (length pat) ≤ 32766 →
   ∃ h, Flat.build pat = Some (h, split_to_words pat) ∧ (length h ≤ 2 + length pat)%nat) ∧
  (∀ h ws, Flat.build pat = Some (h, ws) →
     Z.of_nat (length h) ≤ 32768 ∧ deref h nullptr = None ∧
     ∀ i : nat, (0 < i < length h)%nat →
       ∃ n, deref h i = Some n ∧ Flat.node_id (links n) = Z.of_nat i ∧
            length (Flat.vec (links n)) = 256%nat ∧
            Forall (λ id, 0 ≤ id < Z.of_nat (length h)) (Flat.vec (links n))).
Proof.
  intros Hp. split.
  - intros Hm.
    destruct (flat_build_spec pat Hp (fcap_le (length pat) Hm))
      as (h & lab & h0 & h1 & Hb & _ & _ & _ & _ & _ & _ & _ & _ & _ & Hlen).
    by exists h.
  - intros h ws Hb.
    destruct (flat_build_ret pat h ws Hp Hb) as (lab & h0 & h1 & _ & Hfb & _).
    destruct (fb_wf _ _ _ Hfb) as [Hlen Hnull Hsome Hnode].
    split; [done|]. split; [done|]. intros i Hi.
    destruct (Hsome i Hi) as [n Hn]. exists n. split; [done|]. by apply Hnode.
Qed.

Lemma flat_build_ids_witness :
  Forall is_byte abq ∧ Z.of_nat (length abq) ≤ 32766 ∧
  ∃ h, Flat.build abq = Some (h, split_to_words abq) ∧ (length h ≤ 2 + length abq)%nat ∧
       Z.of_nat (length h) ≤ 32768.
Proof.
  assert (Forall is_byte abq) as Hp by (unfold abq; bytes).
  assert (Z.of_nat (length abq) ≤ 32766) as Hm by (simpl; lia).
  split; [done|]. split; [done|].
  destruct (flat_build_ids abq Hp) as [Hret Hids].
  destruct (Hret Hm) as (h & Hb & Hlen).
  exists h. split; [exact Hb|]. split; [exact Hlen|].
  exact (proj1 (Hids h _ Hb)).
Defined.


(** ** The automaton that [build] leaves *)

Section GotoPath.
Context {L : Type}.
Variable W : list (list Z * Z).
Variable sym : Z → Prop.
Variable goto_ : list (option (Node L)) → ptr → ptr → Z → option ptr.
Variable rt : ptr.
Variable lab : gmap nat (list Z).
Variable h : list (option (Node L)).
Hypothesis Hb : built W sym goto_ rt h lab.

(** From the root, [goto_] along a prefix of a word leads to its node. *)
Lemma goto_path u :
  islab W u → Forall sym u →
  ∃ j, foldM (goto_ h rt) rt u = Some j ∧ lab !! j = Some u.
Proof.
  destruct Hb as [Hl Hg _ _].
  induction u as [|c u IH] using rev_ind; intros Hu Hs.
  { exists rt. split; [done|]. apply Hl. }
  apply Forall_app in Hs as [Hs Hc]. apply List.Forall_inv in Hc.
  destruct IH as (j & Hj & Hlj); [by eapply islab_snoc|done|].
  destruct (Hg j u c Hlj Hc) as (k & Hk & [Hlk|(_ & _ & Hn)]); [|done].
  exists k. rewrite foldM_app, Hj. simpl. rewrite Hk. simpl. split; [done|].
  by rewrite lsuf_id in Hlk.
Qed.

Lemma goto_path_output u :
  islab W u → Forall sym u →
  ∃ j n, foldM (goto_ h rt) rt u = Some j ∧ deref h j = Some n ∧
    (∀ e, e ∈ output n ↔ ∃ w, (w, e) ∈ W ∧ w `suffix_of` u) ∧
    terminal n = bool_decide (output n ≠ ∅).
Proof.
  intros Hu Hs. destruct (goto_path u Hu Hs) as (j & Hj & Hlj).
  destruct (built_out _ _ _ _ _ _ Hb j u Hlj) as (n & Hn & Ho & Ht).
  exists j, n. split; [done|]. split; [done|]. split; [|done].
  intros e. rewrite Ho. apply elem_of_out_of.
Qed.
End GotoPath.

(** X11: in the automaton that [build] leaves, [goto_] from the root along
    a prefix [u] of a word of the pattern leads to a state whose output
    is exactly the set of the ends of the words that are suffixes of [u],
    and which is terminal exactly when this set is not empty; along a
    word it leads to a state that has the end of the word in its output.
    For [17.cpp] this holds for every pattern, for
    [17_double_array_trie.cpp] for every pattern of bytes whenever [build]
    returns. *)
Theorem outputs_after_build pat w0 e0 u :
  (w0, e0) ∈ split_to_words pat → u `prefix_of` w0 →
  (∃ h j n, Ptr.build pat = Some (h, split_to_words pat) ∧
     foldM (Ptr.goto_ h Ptr.trie_root) Ptr.trie_root u = Some j ∧
     deref h j = Some n ∧
     (∀ e, e ∈ output n ↔ ∃ w, (w, e) ∈ split_to_words pat ∧ w `suffix_of` u) ∧
     terminal n = bool_decide (output n ≠ ∅) ∧
     (u = w0 → e0 ∈ output n ∧ terminal n = true)) ∧
  (Forall is_byte pat → ∀ h ws, Flat.build pat = Some (h, ws) →
   ∃ j n,
     foldM (Flat.goto_ h Flat.trie_root) Flat.trie_root u = Some j ∧
     deref h j = Some n ∧
     (∀ e, e ∈ output n ↔ ∃ w, (w, e) ∈ split_to_words pat ∧ w `suffix_of` u) ∧
     terminal n = bool_decide (output n ≠ ∅) ∧
     (u = w0 → e0 ∈ output n ∧ terminal n = true)).
Proof.
  intros Hw Hu.
  assert (islab (split_to_words pat) u) as Hlab.
  { right. apply Exists_exists. by exists (w0, e0). }
  assert (∀ (o : gset Z) (t : bool),
            (∀ e, e ∈ o ↔ ∃ w, (w, e) ∈ split_to_words pat ∧ w `suffix_of` u) →
            t = bool_decide (o ≠ ∅) → u = w0 → e0 ∈ o ∧ t = true) as Hend.
  { intros o t Ho Ht ->. assert (e0 ∈ o) as He by (apply Ho; by exists w0).
    split; [exact He|]. rewrite Ht. apply bool_decide_eq_true_2. set_solver. }
  split.
  - destruct (ptr_build_spec pat) as (h & lab & h0 & Hb & Hbuilt & _).
    destruct (goto_path_output _ _ _ _ lab h Hbuilt u Hlab) as (j & n & Hj & Hn & Ho & Ht).
    { by apply Forall_forall. }
    exists h, j, n. split; [exact Hb|]. split; [exact Hj|]. split; [exact Hn|].
    split; [exact Ho|]. split; [exact Ht|]. by apply Hend.
  - intros Hp h ws Hb.
    destruct (flat_build_ret pat h ws Hp Hb) as (lab & h0 & h1 & _ & Hfb & Hsym & _).
    clear Hb.
    pose proof (flat_built_built _ lab h Hfb) as Hbuilt.
    destruct (goto_path_output _ _ _ _ lab h Hbuilt u Hlab) as (j & n & Hj & Hn & Ho & Ht).
    { pose proof (split_to_words_bytes pat Hp) as Hwb.
      eapply Forall_forall in Hwb; [|exact Hw]. simpl in Hwb.
      destruct Hu as [k ->]. by apply Forall_app in Hwb as [? _]. }
    exists j, n. split; [exact Hj|]. split; [exact Hn|].
    split; [exact Ho|]. split; [exact Ht|]. by apply Hend.
Qed.

Lemma outputs_after_build_witness :
  ([97; 98; 97], 6) ∈ split_to_words abq ∧ [97; 98] `prefix_of` [97; 98; 97] ∧
  Forall is_byte abq ∧
  (∃ h j n, Ptr.build abq = Some (h, split_to_words abq) ∧
     foldM (Ptr.goto_ h Ptr.trie_root) Ptr.trie_root [97; 98] = Some j ∧
     deref h j = Some n ∧ terminal n = bool_decide (output n ≠ ∅)) ∧
  (∃ h ws j n, Flat.build abq = Some (h, ws) ∧
     foldM (Flat.goto_ h Flat.trie_root) Flat.trie_root [97; 98] = Some j ∧
     deref h j = Some n ∧ terminal n = bool_decide (output n ≠ ∅)).
Proof.
  assert (([97; 98; 97], 6) ∈ split_to_words abq) as Hw.
  { vm_compute. apply list_elem_of_further, list_elem_of_here. }
  assert ([97; 98] `prefix_of` [97; 98; 97]) as Hu by (by exists [97]).
  assert (Forall is_byte abq) as Hp by (unfold abq; bytes).
  destruct (outputs_after_build abq _ _ _ Hw Hu) as [Hptr Hflat].
  split; [exact Hw|]. split; [exact Hu|]. split; [exact Hp|]. split.
  - destruct Hptr as (h & j & n & H1 & H2 & H3 & _ & H4 & _).
    exists h, j, n. split; [exact H1|]. split; [exact H2|]. split; [exact H3|exact H4].
  - destruct (Flat.build abq) as [[h ws]|] eqn:Hb; [|by vm_compute in Hb].
    destruct (Hflat Hp h ws eq_refl) as (j & n & H2 & H3 & _ & H4 & _).
    exists h, ws, j, n. split; [reflexivity|]. split; [exact H2|]. split; [exact H3|exact H4].
Defined.

(** X12: while [17.cpp] reads a text, for a pattern that has a word, the
    state of the machine is the node of the longest suffix of the text
    read that is a prefix of a word (or empty): [goto_] from the root
    along this suffix leads to the state. *)
Theorem state_is_longest_suffix pat t M0 M o :
  split_to_words pat ≠ [] →
  Ptr.make pat = Some M0 → feed Ptr.process M0 t = Some (M, o) →
  ∃ u, u `suffix_of` t ∧ islab (split_to_words pat) u ∧
       foldM (Ptr.goto_ (nodes M) (root M)) (root M) u = Some (state_ M) ∧
       ∀ v, v `suffix_of` t → islab (split_to_words pat) v → v `suffix_of` u.
Proof.
  intros HW HM0 Hf.
  destruct (ptr_make_inv pat below HW) as (M1 & lab & HM1 & Hinv0); [by unfold below|].
  rewrite HM0 in HM1. injection HM1 as <-.
  pose proof (ptr_feed_below pat lab HW t [] M0 M o Hinv0 Hf) as [Hb Hr Hs _ _].
  rewrite app_nil_l in Hs.
  exists (lsuf (split_to_words pat) t).
  split; [apply lsuf_suffix|]. split; [apply lsuf_islab|]. split.
  - destruct (goto_path _ _ _ _ lab (nodes M) Hb (lsuf (split_to_words pat) t))
      as (j & Hj & Hlj); [apply lsuf_islab|by apply Forall_forall|].
    rewrite Hr, Hj. f_equal. by eapply (lab_inj _ _ _ _ (built_lab _ _ _ _ _ _ Hb)).
  - intros v Hv Hl. by apply lsuf_max.
Qed.

Lemma state_is_longest_suffix_witness :
  split_to_words abq ≠ [] ∧
  ∃ M0 M o, Ptr.make abq = Some M0 ∧ feed Ptr.process M0 ababacaba = Some (M, o) ∧
    ∃ u, u `suffix_of` ababacaba ∧
         foldM (Ptr.goto_ (nodes M) (root M)) (root M) u = Some (state_ M).
Proof.
  assert (split_to_words abq ≠ []) as HW by (by vm_compute).
  split; [done|].
  destruct (Ptr.make abq) as [M0|] eqn:HM; [|by vm_compute in HM].
  destruct (feed Ptr.process M0 ababacaba) as [[M o]|] eqn:HF.
  - exists M0, M, o. split; [done|]. split; [done|].
    destruct (state_is_longest_suffix abq ababacaba M0 M o HW HM HF) as (u & H1 & _ & H2 & _).
    by exists u.
  - exfalso. vm_compute in HM. injection HM as <-. by vm_compute in HF.
Defined.

(** X13: while [17.cpp] reads a text of at most [INT_MAX] symbols, for a
    pattern of at most 32768 symbols that has a word, the window has the
    length of the pattern, starts at the alignment [max 0 (n - m + 1)], and
    each of its slots holds exactly the number of the words of the pattern
    that the text read has where the alignment of the slot puts them. *)
Theorem window_counts_exact pat t :
  split_to_words pat ≠ [] → Z.of_nat (length pat) ≤ 32768 →
  Z.of_nat (length t) ≤ INT_MAX →
  ∃ M0 M, Ptr.make pat = Some M0 ∧
    feed Ptr.process M0 t = Some (M, occurrences pat t) ∧
    counter M = Z.of_nat (length t) ∧
    length (window M) = length pat ∧
    window_start M = Z.max 0 (Z.of_nat (length t) - Z.of_nat (length pat) + 1) ∧
    ∀ (i : nat) x, window M !! i = Some x →
      x = Z.of_nat (size (hits (split_to_words pat) t (window_start M + Z.of_nat i))).
Proof.
  intros HW Hm _.
  destruct (ptr_make_inv pat exact HW eq_refl) as (M0 & lab & HM0 & Hinv0).
  destruct (ptr_feed_exact pat lab Hm HW t [] M0 Hinv0) as (M & Hf & Hinv).
  rewrite app_nil_l in Hinv. destruct Hinv as [_ _ _ [_ _ _ Hc Hl Hs] Hcnt].
  exists M0, M. split; [exact HM0|]. split.
  { rewrite Hf. do 2 f_equal. apply emits_occurrences.
    destruct pat; [done|simpl; lia]. }
  split; [exact Hc|]. split; [exact Hl|]. split; [exact Hs|]. exact Hcnt.
Qed.

Lemma window_counts_exact_witness :
  split_to_words abq ≠ [] ∧ Z.of_nat (length abq) ≤ 32768 ∧
  Z.of_nat (length ababacaba) ≤ INT_MAX ∧
  ∃ M0 M, Ptr.make abq = Some M0 ∧
    feed Ptr.process M0 ababacaba = Some (M, occurrences abq ababacaba) ∧
    length (window M) = length abq.
Proof.
  assert (split_to_words abq ≠ []) as HW by (by vm_compute).
  assert (Z.of_nat (length abq) ≤ 32768) as Hm by (simpl; lia).
  assert (Z.of_nat (length ababacaba) ≤ INT_MAX) as Hn by (by vm_compute).
  split; [exact HW|]. split; [exact Hm|]. split; [exact Hn|].
  destruct (window_counts_exact abq ababacaba HW Hm Hn) as (M0 & M & H1 & H2 & _ & H3 & _).
  exists M0, M. split; [exact H1|]. split; [exact H2|exact H3].
Defined.

(** X14: [do_bfs] completes the transition function of
    [17_double_array_trie.cpp] and changes nothing else, whenever [build]
    returns: it keeps the number of nodes and their flags, outputs and
    failure links; where the trie has an edge, [goto_] follows it; where a
    state other than the root has none, [goto_] is [goto_] of its failure
    state; and where the root has none, [goto_] answers the root. *)
Theorem do_bfs_completes pat h ws :
  Forall is_byte pat → Flat.build pat = Some (h, ws) →
  ∃ h0 h1,
    foldM (Flat.add_word Flat.trie_root) Flat.trie_init (split_to_words pat) = Some h0 ∧
    Flat.build_failure Flat.trie_root h0 = Some h1 ∧
    Flat.do_bfs Flat.trie_root h1 = Some h ∧
    length h = length h1 ∧
    (∀ i, data <$> deref h i = data <$> deref h1 i) ∧
    ∀ s n c, deref h s = Some n → is_byte c →
      (∀ s', fedge h0 s c = Some s' → Flat.goto_ h Flat.trie_root s c = Some s') ∧
      (fedge h0 s c = None → s ≠ Flat.trie_root →
         Flat.goto_ h Flat.trie_root s c = Flat.goto_ h Flat.trie_root (link_fail n) c) ∧
      (fedge h0 s c = None → s = Flat.trie_root →
         Flat.goto_ h Flat.trie_root s c = Some Flat.trie_root).
Proof.
  intros Hp Hb.
  destruct (flat_build_ret pat h ws Hp Hb)
    as (lab & h0 & h1 & _ & Hfb & Hsym & Hf & Hti & Hbf & Hbuilt & Hfl & Hdo & Hdata).
  clear Hb.
  exists h0, h1. split; [exact Hf|]. split; [exact Hbf|]. split; [exact Hdo|].
  destruct (flat_do_bfs_spec _ lab Hsym h1 Hbuilt Hfl) as (h' & Hdo' & _ & Hlen & _).
  rewrite Hdo in Hdo'. injection Hdo' as <-.
  split; [exact Hlen|]. split; [exact Hdata|]. intros s n c Hn Hc.
  pose proof (fb_lab _ _ _ Hfb) as Hl.
  pose proof (ti_shaped _ _ _ _ _ _ _ Hti) as Hsh.
  destruct (proj2 (lab_dom _ _ _ _ Hl s)) as [u Hu]; [by exists n|].
  destruct (flat_built_total _ lab h Hfb s u c Hu Hc) as (st & Hg & Hst).
  assert (fedge h0 s c = None → ¬ islab (split_to_words pat) (u ++ [c])) as Hno.
  { intros He Hlab. destruct (lab_all _ _ _ _ Hl _ Hlab) as [j Hj].
    destruct (sh_parent _ _ _ _ _ _ Hsh j u c Hj) as (i & Hi & Hij).
    assert (i = s) as -> by (by eapply (lab_inj _ _ _ _ Hl)). congruence. }
  split; [|split].
  - intros s' He. pose proof (sh_edge _ _ _ _ _ _ Hsh s u c s' Hu Hc He) as Hs'.
    rewrite lsuf_id in Hst by (by eapply (lab_islab _ _ _ _ Hl)).
    rewrite Hg. f_equal. by eapply (lab_inj _ _ _ _ Hl).
  - intros He Hsr.
    assert (u ≠ []) as Hne. { intros ->. apply Hsr. by eapply lab_root_nil. }
    destruct (fb_fail _ _ _ Hfb s u Hu Hne) as (n' & Hn' & Hlf).
    rewrite Hn in Hn'. injection Hn' as <-.
    destruct (flat_built_total _ lab h Hfb _ _ c Hlf Hc) as (st' & Hg' & Hst').
    rewrite <- lsuf_fail in Hst' by (done || by apply Hno).
    rewrite Hg, Hg'. f_equal. by eapply (lab_inj _ _ _ _ Hl).
  - intros He ->. pose proof (lab_root _ _ _ _ Hl) as Hr. rewrite Hr in Hu.
    injection Hu as <-. rewrite lsuf_root in Hst by (by apply Hno).
    rewrite Hg. f_equal. by eapply lab_root_nil.
Qed.

Lemma do_bfs_completes_witness :
  Forall is_byte abq ∧
  ∃ h ws h0 h1, Flat.build abq = Some (h, ws) ∧
    foldM (Flat.add_word Flat.trie_root) Flat.trie_init (split_to_words abq) = Some h0 ∧
    Flat.build_failure Flat.trie_root h0 = Some h1 ∧
    Flat.do_bfs Flat.trie_root h1 = Some h ∧ length h = length h1.
Proof.
  assert (Forall is_byte abq) as Hp by (unfold abq; bytes).
  split; [exact Hp|].
  destruct (Flat.build abq) as [[h ws]|] eqn:Hb; [|by vm_compute in Hb].
  destruct (do_bfs_completes abq h ws Hp Hb) as (h0 & h1 & H1 & H2 & H3 & H4 & _).
  exists h, ws, h0, h1. split; [reflexivity|]. split; [exact H1|]. split; [exact H2|].
  split; [exact H3|exact H4].
Defined.

(** ** The tables of [make_flat] *)

(** X15: for every machine that the constructor of
    [17_double_array_trie.cpp] has returned, [make_flat] returns the two
    tables: the entry of [transitions] in the row of the state [s] (the row
    [s - 1]) at the column of the byte [c] is the start of the row of the
    state [goto_(s, c)], and the row [s - 1] of [output] lists the word
    ends of the output of [s], each plus one, in some order, and then a
    [0]. *)
Theorem flat_table_is_goto pat M :
  Forall is_byte pat → Flat.make pat = Some M →
  ∃ tr outs, Flat.make_flat M = Some (tr, outs) ∧
    ∀ (s : nat) n c, deref (nodes M) s = Some n → is_byte c →
      ∃ st row, Flat.goto_ (nodes M) (root M) s c = Some st ∧
        tr !! Z.to_nat ((Z.of_nat s - 1) * 256 + c) = Some ((Z.of_nat st - 1) * 256) ∧
        outs !! (s - 1)%nat = Some (row ++ [0]) ∧
        row ≡ₚ (λ e, to_short (e + 1)) <$> elements (output n).
Proof.
  intros Hp HM.
  destruct (flat_make_ret pat M Hp HM) as (lab & Hfb & _ & Hr & _). clear HM.
  destruct (make_flat_spec M (fb_wf _ _ _ Hfb)) as (tr & outs & Hmf & Htab).
  exists tr, outs. split; [exact Hmf|]. intros s n c Hn Hc.
  pose proof (fb_lab _ _ _ Hfb) as Hl.
  destruct (proj2 (lab_dom _ _ _ _ Hl s)) as [u Hu]; [by exists n|].
  destruct (flat_goto_full _ lab (nodes M) s u n c (fb_wf _ _ _ Hfb) Hn
              (fb_full _ _ _ Hfb _ _ _ Hu Hn) Hc) as (id & Hid & Hrange & _ & Hg).
  destruct (Htab s n Hn) as [Hout Htr]. specialize (Htr _ _ Hid).
  assert (s ≠ 0)%nat as Hs0.
  { intros ->. pose proof (fw_null _ (fb_wf _ _ _ Hfb)) as E. unfold nullptr in E. congruence. }
  exists (Z.to_nat id), ((λ e, to_short (e + 1)) <$> elements (output n)).
  rewrite Hr. split; [exact Hg|]. split; [|split; [exact Hout|done]].
  unfold is_byte in Hc.
  replace (Z.to_nat ((Z.of_nat s - 1) * 256 + c)) with ((s - 1) * 256 + Z.to_nat c)%nat by lia.
  rewrite Htr. f_equal. lia.
Qed.

Lemma flat_table_is_goto_witness :
  Forall is_byte abq ∧
  ∃ M tr outs, Flat.make abq = Some M ∧ Flat.make_flat M = Some (tr, outs) ∧
    tr !! Z.to_nat ((2 - 1) * 256 + 98) = Some ((3 - 1) * 256) ∧
    outs !! 2%nat = Some [2; 0].
Proof.
  assert (Forall is_byte abq) as Hp by (unfold abq; bytes).
  split; [exact Hp|].
  destruct (Flat.make abq) as [M|] eqn:HM; [|by vm_compute in HM].
  destruct (flat_table_is_goto abq M Hp HM) as (tr & outs & Hmf & _).
  exists M, tr, outs. split; [reflexivity|]. split; [exact Hmf|].
  vm_compute in HM. injection HM as <-. vm_compute in Hmf. injection Hmf as <- <-.
  split; by vm_compute.
Defined.

(** ** What [add_word] leaves of the trie *)

(** X16: [add_word] of [17_double_array_trie.cpp] keeps the nodes that are
    there and their links: it writes a link only where there is none (the
    entry is [0]), and keeps the number of the links of a node. *)
Theorem add_word_keeps_links h w h' :
  Flat.add_word Flat.trie_root h w = Some h' →
  ∀ i n, deref h i = Some n →
    ∃ n', deref h' i = Some n' ∧
      length (Flat.vec (links n')) = length (Flat.vec (links n)) ∧
      ∀ (k : nat) id, Flat.vec (links n) !! k = Some id → id ≠ 0 →
        Flat.vec (links n') !! k = Some id.
Proof.
  unfold Flat.add_word.
  destruct (Flat.add_word_loop h Flat.trie_root w.1) as [[h1 node]|] eqn:Hloop; [|done].
  simpl. intros [= <-].
  apply (link_le_trans h h1); [by eapply add_word_loop_le|].
  by apply link_le_data.
Qed.

Lemma add_word_keeps_links_witness :
  ∃ h h', Flat.add_word Flat.trie_root Flat.trie_init ([97], 0) = Some h ∧
    Flat.add_word Flat.trie_root h ([97; 98], 1) = Some h' ∧
    ∃ n n', deref h 1 = Some n ∧ Flat.vec (links n) !! 97%nat = Some 2 ∧
      deref h' 1 = Some n' ∧ Flat.vec (links n') !! 97%nat = Some 2.
Proof.
  destruct (Flat.add_word Flat.trie_root Flat.trie_init ([97], 0)) as [h|] eqn:H1;
    [|by vm_compute in H1].
  destruct (Flat.add_word Flat.trie_root h ([97; 98], 1)) as [h'|] eqn:H2.
  2:{ exfalso. vm_compute in H1. injection H1 as <-. by vm_compute in H2. }
  assert (∃ n, deref h 1 = Some n ∧ Flat.vec (links n) !! 97%nat = Some 2) as (n & Hn & Hl).
  { vm_compute in H1. injection H1 as <-. eexists. split; [reflexivity|by vm_compute]. }
  destruct (add_word_keeps_links h ([97; 98], 1) h' H2 1%nat n Hn) as (n' & Hn' & _ & Hk).
  exists h, h'. split; [reflexivity|]. split; [exact H2|].
  exists n, n'. split; [exact Hn|]. split; [exact Hl|]. split; [exact Hn'|].
  by apply Hk.
Defined.
